(** * Distributed circuit scheduling (qibo/tensorflow/distcircuit.py)

    A shallow embedding of [DeviceQueues] and of the planning part of
    [TensorflowDistributedCircuit], followed by the properties of the
    queue transformer, the wave builder and the executor loop.

    Conventions of the embedding.
    - Gate objects are mutable and shared by reference in the source, so
      gates live in an object store ([store], a list indexed by object id)
      and every queue is a list of object ids.
    - A raised exception is the [Err] case of [result].
    - The recursion of [_transform] is driven by a fuel argument that counts
      invocations; [None] means that the fuel was too small.
    - Qubit ids and piece indices are [nat]; the [np.int32] counters are [Z]
      with the wrap-around written out.
    - What the interpreter or a library leaves open is an interface, and
      every statement holds for all its instances: the order in which a set
      is enumerated ([SetOrder]) and the order that [argsort] gives to equal
      values ([ArgSort]). *)

From Stdlib Require Import ZArith Lia.
From stdpp Require Import gmap strings list fin_maps sorting.

(** ** Exceptions and the error monad *)

Inductive value_error :=
| OnlySwapOnGlobal          (* "Only SWAP gates are supported for global qubits." *)
| SwapBetweenGlobals        (* "SWAPs between global qubits are not allowed." *)
| InvalidNumberOfGlobals    (* "Invalid number of global qubits ..." *)
| InsufficientQubits        (* "Insufficient qubits to use for global ..." *)
| DevicesNotPowerOfTwo      (* "Number of calculation devices should be a power of 2 ..." *)
| NotInList.                (* list.index(x): x not in list *)

Inductive exn :=
| AssertionError
| StopIteration
| IndexError
| KeyError
| UnboundLocalError
| AttributeError
| ValueError (e : value_error)
| RuntimeError.

Inductive result (A : Type) :=
| Ok (a : A)
| Err (e : exn).
Arguments Ok {A} a.
Arguments Err {A} e.

Global Instance result_bind : MBind result := λ A B k m,
  match m with
  | Ok a => k a
  | Err e => Err e
  end.

Fixpoint mapM {A B} (f : A → result B) (l : list A) : result (list B) :=
  match l with
  | [] => Ok []
  | a :: l' => b ← f a; bs ← mapM f l'; Ok (b :: bs)
  end.

(** ** Gates *)

(** The classes of [qibo.base.gates] that the scheduler tells apart with
    [isinstance]; every other gate is a [Unitary]. *)
Inductive gate_class :=
| SWAP
| M
| VariationalLayer
| CallbackGate
| Flatten
| Unitary (name : string).

Global Instance gate_class_eq_dec : EqDecision gate_class.
Proof. solve_decision. Defined.

Record gate := Gate {
  gclass : gate_class;
  target_qubits : list nat;
  control_qubits : list nat;
  swap_reset : option (list (nat * nat));
  _nqubits : option Z;
  original_gate : option nat
}.

Global Instance gate_eq_dec : EqDecision gate.
Proof. solve_decision. Defined.

Global Instance gate_inhabited : Inhabited gate :=
  populate (Gate (Unitary "") [] [] None None None).

Definition is_SWAP (g : gate) : bool := bool_decide (gclass g = SWAP).

(** Modelled from the spec: [Gate.is_special_gate] is an attribute of
    [qibo.base.gates], which is not among the sources; the spec's gate
    interface gives [is_special(g)] as "no targets, not a SWAP". *)
Definition is_special_gate (g : gate) : bool :=
  bool_decide (target_qubits g = []) && negb (is_SWAP g).

(** Modelled from the spec: [Gate.set_targets_and_controls] of
    [qibo.base.gates]; the spec lists it as the setter of a gate's target and
    control ids. *)
Definition set_targets_and_controls (g : gate) (ts cs : list nat) : gate :=
  Gate (gclass g) ts cs (swap_reset g) (_nqubits g) (original_gate g).

Definition set_swap_reset (g : gate) (sw : list (nat * nat)) : gate :=
  Gate (gclass g) (target_qubits g) (control_qubits g) (Some sw)
       (_nqubits g) (original_gate g).

Definition set_nqubits (g : gate) (n : Z) : gate :=
  Gate (gclass g) (target_qubits g) (control_qubits g) (swap_reset g)
       (Some n) (original_gate g).

(** [gate_module.SWAP(a, b)]: a new SWAP gate. *)
Definition new_SWAP (a b : nat) : gate := Gate SWAP [a; b] [] None None None.

(** The object store: the gate object with id [i] is [st !!! i]. *)
Abbreviation store := (list gate).

(** ** Python sets

    A Python set of qubit ids is a duplicate-free list together with the
    order in which the interpreter enumerates it. That order is not fixed by
    the language, so it is an interface: any enumeration of the elements. *)
Class SetOrder := {
  set_iter : list nat → list nat;
  set_iter_perm : ∀ l, set_iter l ≡ₚ l
}.

(** CPython enumerates a set of small non-negative integers in ascending
    order. *)
Definition ascending (l : list nat) : list nat := merge_sort (≤) l.

Definition cpython_small : SetOrder :=
  {| set_iter := ascending; set_iter_perm := merge_sort_Permutation (≤) |}.

(** ** numpy *)

(** [np.int32] arithmetic. *)
Definition wrap32 (z : Z) : Z := ((z + 2 ^ 31) `mod` 2 ^ 32 - 2 ^ 31)%Z.

(** [numpy.ndarray.argsort] is a library routine. The source calls it with
    its default [kind], which lists the positions of the array by ascending
    value and promises no order among equal values. So it is an interface:
    any enumeration of the positions by ascending value. *)
Class ArgSort := {
  argsort : list Z → list nat;
  argsort_perm : ∀ counter, argsort counter ≡ₚ seq 0 (length counter);
  argsort_ascending : ∀ counter i j a b,
    i < j → argsort counter !! i = Some a → argsort counter !! j = Some b →
    (counter !!! a ≤ counter !!! b)%Z
}.

(** Enumerations of that kind, by insertion: [insert_by] places a new
    position before the first one whose value is not smaller, so equal values
    keep the order they have in the list [positions] they are taken from. *)
Fixpoint insert_by (key : nat → Z) (x : nat) (l : list nat) : list nat :=
  match l with
  | [] => [x]
  | y :: l' => if (key x <=? key y)%Z then x :: y :: l'
               else y :: insert_by key x l'
  end.

Definition stable_sort_by (key : nat → Z) (l : list nat) : list nat :=
  foldr (insert_by key) [] l.

Definition argsort_from (positions : nat → list nat)
    (Hpositions : ∀ n, positions n ≡ₚ seq 0 n) : ArgSort.
Proof.
  refine {| argsort counter :=
              stable_sort_by (λ i, counter !!! i) (positions (length counter)) |}.
  - intros counter. rewrite <- Hpositions.
    generalize (positions (length counter)). intros l.
    induction l as [|x l IH]; [done|]. simpl. rewrite <- IH at 2.
    generalize (stable_sort_by (λ i, counter !!! i) l). clear. intros l.
    induction l as [|y l IH]; simpl; [done|].
    destruct (_ <=? _)%Z; [done|]. rewrite IH. apply perm_swap.
  - intros counter. generalize (positions (length counter)). intros l.
    set (key := λ i : nat, counter !!! i).
    assert (StronglySorted (λ a b, (key a ≤ key b)%Z) (stable_sort_by key l)) as Hs.
    { induction l as [|x l IH]; simpl; [constructor|].
      revert IH. generalize (stable_sort_by key l). clear. intros l.
      induction 1 as [|y l Hs IH Hy]; simpl; [repeat constructor|].
      destruct (key x <=? key y)%Z eqn:Hle.
      - apply Z.leb_le in Hle. constructor; [by constructor|].
        constructor; [done|]. eapply Forall_impl; [exact Hy|]. simpl. intros z Hz. lia.
      - apply Z.leb_gt in Hle. constructor; [done|].
        assert (∀ l', Forall (λ b, (key y ≤ key b)%Z) l' →
                      Forall (λ b, (key y ≤ key b)%Z) (insert_by key x l')) as Hins.
        { clear -Hle. induction 1 as [|z l' Hz Hl' IH']; simpl.
          - constructor; [lia|constructor].
          - destruct (_ <=? _)%Z.
            + apply Forall_cons. split; [lia|]. by apply Forall_cons.
            + by apply Forall_cons. }
        by apply Hins. }
    revert Hs. generalize (stable_sort_by key l). clear. intros l Hs.
    induction Hs as [|x l _ IH Hx]; intros i j a b Hij Hi Hj; [done|].
    destruct j as [|j]; [lia|]. simpl in Hj. destruct i as [|i].
    + injection Hi as <-. rewrite Forall_forall in Hx.
      apply Hx. by eapply list_elem_of_lookup_2.
    + simpl in Hi. apply (IH i j); [lia|done..].
Defined.

(** Equal values by ascending position (what a stable sort returns), and
    by descending position. *)
Definition ties_ascending : ArgSort := argsort_from (seq 0) (λ n, reflexivity _).
Definition ties_descending : ArgSort :=
  argsort_from (λ n, reverse (seq 0 n)) (λ n, reverse_Permutation _).

Fixpoint foldM {A B} (f : B → A → result B) (l : list A) (b : B) : result B :=
  match l with
  | [] => Ok b
  | a :: l' => b' ← f b a; foldM f l' b'
  end.

(** [l.index(x)] *)
Definition list_index (x : nat) (l : list nat) : result nat :=
  match list_find (λ y, y = x) l with
  | Some (i, _) => Ok i
  | None => Err (ValueError NotInList)
  end.

(** [counter[q] += d] on an [np.int32] array. *)
Definition counter_add (d : Z) (counter : list Z) (q : nat) : result (list Z) :=
  match counter !! q with
  | Some v => Ok (<[q := wrap32 (v + d)]> counter)
  | None => Err IndexError
  end.

(** ** DeviceQueues *)

Module DeviceQueues.

(** An entry of [special_queue]: a special gate object, or the pair
    [(global_qubit, local_qubit)] of a global swap. *)
Inductive special_entry :=
| SpecialGate (gid : nat)
| GlobalSwap (global_qubit local_qubit : nat).

(** An entry of [queues]: the empty list for a special step, otherwise one
    list of reduced gates per piece. *)
Abbreviation wave := (list (list gate)).

Record t := mk {
  nqubits : nat;
  ndevices : nat;
  nglobal : nat;
  nlocal : Z;
  queues : list wave;
  special_queue : list special_entry;
  global_qubits_set : gset nat;
  global_qubits_list : list nat;
  local_qubits : list nat;
  global_qubits_reduced : gmap nat nat;
  local_qubits_reduced : gmap nat nat;
  swaps_list : list (nat * nat);
  device_to_ids : list (string * list nat);
  ids_to_device : list (option string)
}.

Definition with_swaps_list (dq : t) (sw : list (nat * nat)) : t :=
  mk (nqubits dq) (ndevices dq) (nglobal dq) (nlocal dq) (queues dq)
     (special_queue dq) (global_qubits_set dq) (global_qubits_list dq)
     (local_qubits dq) (global_qubits_reduced dq) (local_qubits_reduced dq)
     sw (device_to_ids dq) (ids_to_device dq).

Definition with_queues (dq : t) (qs : list wave) (sq : list special_entry) : t :=
  mk (nqubits dq) (ndevices dq) (nglobal dq) (nlocal dq) qs sq
     (global_qubits_set dq) (global_qubits_list dq)
     (local_qubits dq) (global_qubits_reduced dq) (local_qubits_reduced dq)
     (swaps_list dq) (device_to_ids dq) (ids_to_device dq).

(** The partition state: what [__init__] derives from the global set. *)
Definition partition (dq : t) :
    gset nat * list nat * list nat * gmap nat nat * gmap nat nat :=
  (global_qubits_set dq, global_qubits_list dq, local_qubits dq,
   global_qubits_reduced dq, local_qubits_reduced dq).

(** [_ids]: the piece indices of each device, in the order of the
    [calc_devices] dict. *)
Fixpoint _ids (calc_devices : list (string * nat)) (start : nat)
    : list (string * list nat) :=
  match calc_devices with
  | [] => []
  | (device, n) :: rest => (device, seq start n) :: _ids rest (start + n)
  end.

(** The loop of [reduction_number]: [i] is the running index of
    [enumerate], [last] the value the loop variable [i] holds after the
    iterations made so far (unbound before the first). *)
Fixpoint reduction_scan (gl : list nat) (i : nat) (last : option nat) (q : nat)
    : result nat :=
  match gl with
  | [] => match last with
          | Some j => Ok (j + 1)
          | None => Err UnboundLocalError
          end
  | gq :: gl' => if bool_decide (q < gq) then Ok i
                 else reduction_scan gl' (S i) (Some i) q
  end.

Definition reduction_number (dq : t) (q : nat) : result nat :=
  reduction_scan (global_qubits_list dq) 0 None q.

(** [q - self.reduction_number(q)]. The subtraction is on [nat]; it is exact
    for every local qubit (lemma [reduction_number_le_local]), which is where
    the source applies it. *)
Definition reduced_id (gl : list nat) (q : nat) : result nat :=
  r ← reduction_scan gl 0 None q; Ok (q - r).

Definition assign_devices (ndevices : nat) (d2i : list (string * list nat))
    : result (list (option string)) :=
  foldM (λ acc '(device, ids),
           foldM (λ acc i, if bool_decide (i < length acc)
                           then Ok (<[i := Some device]> acc)
                           else Err IndexError) ids acc)
        d2i (replicate ndevices None).

(** [DeviceQueues.__init__]; the first five arguments are the attributes read
    from the circuit. *)
Definition __init__ (c_nqubits c_ndevices c_nglobal : nat) (c_nlocal : Z)
    (calc_devices : list (string * nat)) (global_qubits : gset nat) : result t :=
  let gl := merge_sort (≤) (elements global_qubits) in
  let ll := filter (λ q, q ∉ global_qubits) (seq 0 c_nqubits) in
  greduced ← mapM (λ q, i ← list_index q gl; Ok (q, i)) gl;
  lreduced ← mapM (λ q, r ← reduced_id gl q; Ok (q, r)) ll;
  let d2i := _ids calc_devices 0 in
  i2d ← assign_devices c_ndevices d2i;
  Ok (mk c_nqubits c_ndevices c_nglobal c_nlocal [] [] global_qubits gl ll
         (list_to_map greduced) (list_to_map lreduced) [] d2i i2d).

(** [_create_reduced_gate]: a copy of the gate object [gid] with local
    addresses; global controls are dropped. *)
Definition _create_reduced_gate (dq : t) (gid : nat) (g : gate) : result gate :=
  new_target_qubits ← mapM (reduced_id (global_qubits_list dq)) (target_qubits g);
  new_control_qubits ←
    mapM (reduced_id (global_qubits_list dq))
         (filter (λ q, q ∉ global_qubits_set dq) (control_qubits g));
  Ok (Gate (gclass g) new_target_qubits new_control_qubits (swap_reset g)
           (_nqubits g) (Some gid)).

(** [count] *)
Definition count (st : store) (queue : list nat) (nqubits : nat)
    : result (list Z) :=
  foldM (λ counter gid, foldM (counter_add 1) (target_qubits (st !!! gid)) counter)
        queue (replicate nqubits 0%Z).

(** *** The queue transformer *)

(** [set(gate.target_qubits) & self.global_qubits_set], as the elements. *)
Definition global_targets (dq : t) (g : gate) : list nat :=
  filter (λ q, q ∈ global_qubits_set dq) (remove_dups (target_qubits g)).

(** [qubit_map[q] if q in qubit_map else q] *)
Definition remap (qubit_map : gmap nat nat) (q : nat) : nat :=
  default q (qubit_map !! q).

Definition remap_gate (qubit_map : gmap nat nat) (g : gate) : gate :=
  set_targets_and_controls g (remap qubit_map <$> target_qubits g)
                             (remap qubit_map <$> control_qubits g).

(** Lines 198-203: every gate object of [new_remaining_queue] is rewritten in
    the store, once per occurrence in the queue. *)
Definition _remap_queue (qubit_map : gmap nat nat) (new_remaining_queue : list nat)
    (st : store) : store :=
  foldl (λ st gid, <[gid := remap_gate qubit_map (st !!! gid)]> st)
        st new_remaining_queue.

(** [counter[q], counter[qs] = counter[qs], counter[q]] *)
Definition counter_swap (counter : list Z) (q qs : nat) : result (list Z) :=
  match counter !! qs, counter !! q with
  | Some a, Some b => Ok (<[qs := b]> (<[q := a]> counter))
  | _, _ => Err IndexError
  end.

Section transformer.
Context {order : SetOrder} {sorter : ArgSort}.
(** [Gate.commutes] belongs to the gate algebra of [qibo.base.gates]. *)
Variable commutes : gate → gate → bool.

(** The acceptance test of lines 157-163 for the gate [g], with
    [new_remaining_queue] the gates skipped so far. The conjunction stops at
    the first [False], as the loop with [break] does. *)
Definition accepts (dq : t) (st : store) (new_remaining_queue : list nat)
    (g : gate) : bool :=
  let gts := global_targets dq g in
  ((is_SWAP g && bool_decide (length gts = 1)) || bool_decide (gts = []))
  && forallb (λ sid, commutes (st !!! sid) g) new_remaining_queue.

(** The first loop of [_transform] (lines 153-169). *)
Fixpoint _transform_pass (dq : t) (remaining_queue : list nat) (st : store)
    (queue : list nat) (counter : list Z) (new_remaining_queue : list nat)
    : result (store * list nat * list Z * list nat) :=
  match remaining_queue with
  | [] => Ok (st, queue, counter, new_remaining_queue)
  | gid :: rest =>
      let st := if is_special_gate (st !!! gid)
                then <[gid := set_swap_reset (st !!! gid) (swaps_list dq)]> st
                else st in
      let g := st !!! gid in
      if accepts dq st new_remaining_queue g then
        counter ← foldM (counter_add (-1)) (target_qubits g) counter;
        _transform_pass dq rest st (queue ++ [gid]) counter new_remaining_queue
      else
        _transform_pass dq rest st queue counter (new_remaining_queue ++ [gid])
  end.

(** Lines 175-180: the targets to swap out and the set [target_set] that the
    swap partners must avoid. For a SWAP one element is popped from
    [target_set] and removed from [global_targets]. *)
Definition _swap_targets (dq : t) (g : gate) : result (list nat * list nat) :=
  let target_set := set_iter (remove_dups (target_qubits g)) in
  let gts := set_iter (global_targets dq g) in
  if is_SWAP g then
    if bool_decide (length gts = 2) then
      match target_set with
      | [] => Err KeyError
      | popped :: target_set' =>
          if bool_decide (popped ∈ gts)
          then Ok (filter (λ q, q ≠ popped) gts, target_set')
          else Err KeyError
      end
    else Err AssertionError
  else Ok (gts, target_set).

(** [available_swaps] (lines 182-183). The argument of the generator,
    [counter.argsort()], is evaluated when the generator is created. *)
Definition available_swaps (dq : t) (target_set : list nat) (counter : list Z)
    : list nat :=
  filter (λ q, ¬ (q ∈ global_qubits_set dq ∨ q ∈ target_set)) (argsort counter).

(** The loop of lines 185-195; [available] is what the generator has left. *)
Fixpoint _insert_swaps (gts available : list nat) (dq : t) (st : store)
    (queue : list nat) (counter : list Z) (qubit_map : gmap nat nat)
    : result (t * store * list nat * list Z * gmap nat nat) :=
  match gts with
  | [] => Ok (dq, st, queue, counter, qubit_map)
  | q :: gts' =>
      match available with
      | [] => Err StopIteration
      | qs :: available' =>
          let qubit_map := <[qs := q]> (<[q := qs]> qubit_map) in
          let dq := with_swaps_list dq (swaps_list dq ++ [(Nat.min q qs, Nat.max q qs)]) in
          let queue := queue ++ [length st] in
          let st := st ++ [new_SWAP q qs] in
          counter ← counter_swap counter q qs;
          _insert_swaps gts' available' dq st queue counter qubit_map
      end
  end.

(** Lines 174-203: one reconfiguration, for the head [hid] of the deferred
    queue. *)
Definition _reconfigure (dq : t) (st : store) (queue : list nat)
    (counter : list Z) (new_remaining_queue : list nat) (hid : nat)
    : result (t * store * list nat * list Z) :=
  '(gts, target_set) ← _swap_targets dq (st !!! hid);
  '(dq, st, queue, counter, qubit_map) ←
    _insert_swaps gts (available_swaps dq target_set counter)
                  dq st queue counter ∅;
  Ok (dq, _remap_queue qubit_map new_remaining_queue st, queue, counter).

(** [_transform]; [fuel] bounds the number of invocations. *)
Fixpoint _transform (fuel : nat) (dq : t) (st : store) (queue : list nat)
    (remaining_queue : list nat) (counter : list Z)
    : option (result (t * store * list nat * list Z)) :=
  match fuel with
  | 0 => None
  | S fuel' =>
      match _transform_pass dq remaining_queue st queue counter [] with
      | Err e => Some (Err e)
      | Ok (st, queue, counter, new_remaining_queue) =>
          match new_remaining_queue with
          | [] => Some (Ok (dq, st, queue, counter))
          | hid :: _ =>
              match _reconfigure dq st queue counter new_remaining_queue hid with
              | Err e => Some (Err e)
              | Ok (dq, st, queue, counter) =>
                  _transform fuel' dq st queue new_remaining_queue counter
              end
          end
      end
  end.

(** [transform]: the result is the new partition object, the store and the
    new queue. *)
Definition transform (fuel : nat) (dq : t) (st : store) (queue : list nat)
    (counter : option (list Z)) : option (result (t * store * list nat)) :=
  let counter := match counter with
                 | None => count st queue (nqubits dq)
                 | Some c => Ok c
                 end in
  match counter with
  | Err e => Some (Err e)
  | Ok counter =>
      match _transform fuel dq st [] queue counter with
      | None => None
      | Some (Err e) => Some (Err e)
      | Some (Ok (dq, st, new_queue, _)) =>
          let tail := (λ p, new_SWAP p.1 p.2) <$> reverse (swaps_list dq) in
          Some (Ok (dq, st ++ tail, new_queue ++ seq (length st) (length tail)))
      end
  end.

End transformer.

(** *** The wave builder *)

Section builder.
Context {order : SetOrder}.

(** Lines 272-281: the activation flag of piece [i], for the global controls
    still to visit. The index [ic] is below [nglobal] whenever the partition
    was built by the [global_qubits] setter, which makes the subtraction
    exact. *)
Fixpoint _piece_flag (dq : t) (controls : list nat) (i : nat) : result bool :=
  match controls with
  | [] => Ok true
  | control :: rest =>
      ic ← list_index control (global_qubits_list dq);
      let ic := nglobal dq - ic - 1 in
      if bool_decide ((i `div` 2 ^ ic) `mod` 2 ≠ 0)
      then _piece_flag dq rest i
      else Ok false
  end.

(** [set(gate.control_qubits) & self.global_qubits_set] *)
Definition global_controls (dq : t) (g : gate) : list nat :=
  set_iter (filter (λ q, q ∈ global_qubits_set dq) (remove_dups (control_qubits g))).

(** Lines 271-283 for one piece index. *)
Definition _append_calc_gate (dq : t) (g calc_gate : gate) (w : wave) (i : nat)
    : result wave :=
  flag ← _piece_flag dq (global_controls dq g) i;
  if flag : bool then
    match w !! i with
    | Some l => Ok (<[i := l ++ [calc_gate]]> w)
    | None => Err IndexError
    end
  else Ok w.

(** Lines 265-283: the loop over the devices, on the last wave [w]. *)
Definition _create_standard (dq : t) (gid : nat) (g : gate) (w : wave)
    : result wave :=
  foldM (λ w '(_, ids),
           calc_gate ← _create_reduced_gate dq gid g;
           foldM (_append_calc_gate dq g (set_nqubits calc_gate (nlocal dq))) ids w)
        (device_to_ids dq) w.

(** [self.queues[-1] = w] *)
Definition set_last (qs : list wave) (w : wave) : list wave :=
  take (length qs - 1) qs ++ [w].

(** The body of the loop of [create] for the gate object [gid]. *)
Definition _create_gate (dq : t) (st : store) (gid : nat) : result (t * store) :=
  let g := st !!! gid in
  if bool_decide (target_qubits g = []) then
    Ok (with_queues dq (queues dq ++ [[]]) (special_queue dq ++ [SpecialGate gid]),
        <[gid := set_nqubits g (Z.of_nat (nqubits dq))]> st)
  else
    match set_iter (global_targets dq g) with
    | global_qubit :: others =>
        if negb (is_SWAP g) then Err (ValueError OnlySwapOnGlobal)
        else if bool_decide (1 < length (global_qubit :: others))
        then Err (ValueError SwapBetweenGlobals)
        else
          match target_qubits g !! 0 with
          | None => Err IndexError
          | Some q0 =>
              local_qubit ← (if bool_decide (q0 = global_qubit)
                             then match target_qubits g !! 1 with
                                  | Some q1 => Ok q1
                                  | None => Err IndexError
                                  end
                             else Ok q0);
              Ok (with_queues dq (queues dq ++ [[]])
                    (special_queue dq ++ [GlobalSwap global_qubit local_qubit]),
                  st)
          end
    | [] =>
        let qs := if bool_decide (last (queues dq) = None ∨ last (queues dq) = Some [])
                  then queues dq ++ [replicate (ndevices dq) []]
                  else queues dq in
        match last qs with
        | None => Err IndexError
        | Some w =>
            w' ← _create_standard dq gid g w;
            Ok (with_queues dq (set_last qs w') (special_queue dq), st)
        end
    end.

Definition create (dq : t) (st : store) (queue : list nat) : result (t * store) :=
  foldM (λ '(dq, st) gid, _create_gate dq st gid) queue (dq, st).

End builder.

End DeviceQueues.

(** ** TensorflowDistributedCircuit *)

Module TensorflowDistributedCircuit.

Record t := mk {
  nqubits : nat;
  ndevices : nat;
  nglobal : nat;
  nlocal : Z;
  memory_device : string;
  calc_devices : list (string * nat);
  queue : list nat;
  queues : option DeviceQueues.t;
  transpose_order : list nat;
  reverse_transpose_order : list nat
}.

Definition with_queues (c : t) (dq : DeviceQueues.t) : t :=
  mk (nqubits c) (ndevices c) (nglobal c) (nlocal c) (memory_device c)
     (calc_devices c) (queue c) (Some dq) (transpose_order c)
     (reverse_transpose_order c).

(** [float(np.log2(n))] when it is an integer. *)
Definition exact_log2 (n : nat) : option nat :=
  if bool_decide (2 ^ Nat.log2 n = n) then Some (Nat.log2 n) else None.

(** [__init__] (lines 320-340) *)
Definition __init__ (nqubits : nat) (accelerators : list (string * nat))
    (memory_device : string) : result t :=
  let ndevices := sum_list (accelerators.*2) in
  match exact_log2 ndevices with
  | Some nglobal =>
      if bool_decide (0 < nglobal)
      then Ok (mk nqubits ndevices nglobal (Z.of_nat nqubits - Z.of_nat nglobal)
                  memory_device accelerators [] None [] [])
      else Err (ValueError DevicesNotPowerOfTwo)
  | None => Err (ValueError DevicesNotPowerOfTwo)
  end.

(** The [global_qubits] setter (lines 373-392). *)
Definition set_global_qubits (c : t) (x : list nat) : result t :=
  let global_qubit_set : gset nat := list_to_set x in
  if bool_decide (size global_qubit_set ≠ nglobal c)
  then Err (ValueError InvalidNumberOfGlobals)
  else
    dq ← DeviceQueues.__init__ (nqubits c) (ndevices c) (nglobal c) (nlocal c)
                               (calc_devices c) global_qubit_set;
    let order := DeviceQueues.global_qubits_list dq ++ DeviceQueues.local_qubits dq in
    rorder ← foldM (λ acc '(i, v), if bool_decide (v < length acc)
                                    then Ok (<[v := i]> acc)
                                    else Err IndexError)
                   (imap pair order) (replicate (nqubits c) 0);
    Ok (mk (nqubits c) (ndevices c) (nglobal c) (nlocal c) (memory_device c)
           (calc_devices c) (queue c) (Some dq) order rorder).

(** The test of [_add] (lines 409-414): [None] when the gate goes on to the
    base class's [_add], which is not among the sources. For a
    [VariationalLayer] the source first calls [gate._prepare()], which acts
    on attributes outside this model. The subtraction is Python's, on
    integers. *)
Definition _add_check (c : t) (g : gate) : option exn :=
  if bool_decide (gclass g = VariationalLayer) then None
  else if bool_decide (Z.of_nat (nqubits c) - Z.of_nat (length (target_qubits g))
                       < Z.of_nat (nglobal c))%Z
          && negb (bool_decide (gclass g = M))
  then Some (ValueError InsufficientQubits)
  else None.

Section circuit.
Context {order : SetOrder} {sorter : ArgSort}.
Variable commutes : gate → gate → bool.
(** [BaseCircuit._add], of [qibo.base.circuit]. *)
Variable super_add : t → store → nat → result (t * store).

Definition _add (c : t) (st : store) (gid : nat) : result (t * store) :=
  match _add_check c (st !!! gid) with
  | Some e => Err e
  | None => super_add c st gid
  end.

(** [set_gates] (lines 432-441) *)
Definition set_gates (fuel : nat) (c : t) (st : store)
    : option (result (t * store)) :=
  if bool_decide (queue c = []) then Some (Err RuntimeError)
  else
    match DeviceQueues.count st (queue c) (nqubits c) with
    | Err e => Some (Err e)
    | Ok counter =>
        let c' := match queues c with
                  | None => set_global_qubits c (take (nglobal c) (argsort counter))
                  | Some _ => Ok c
                  end in
        match c' with
        | Err e => Some (Err e)
        | Ok c =>
            match queues c with
            | None => Some (Err AttributeError)
            | Some dq =>
                match DeviceQueues.transform commutes fuel dq st (queue c)
                                             (Some counter) with
                | None => None
                | Some (Err e) => Some (Err e)
                | Some (Ok (dq, st, transformed_queue)) =>
                    match DeviceQueues.create dq st transformed_queue with
                    | Err e => Some (Err e)
                    | Ok (dq, st) => Some (Ok (with_queues c dq, st))
                    end
                end
            end
        end
    end.

(** *** Execution

    The state pieces and the kernels that act on them are external; the
    executor is modelled over an abstract type of pieces. *)
Variable piece : Type.
(** [op.swap_pieces], which rewrites both pieces in place. *)
Variable swap_pieces : piece → piece → nat → Z → piece * piece.
(** [_joblib_execute] on one wave. *)
Variable _joblib_execute : list piece → DeviceQueues.wave → result (list piece).
(** Merging the pieces, calling a special gate on the full state and
    splitting it again (lines 508-513). *)
Variable full_state_call : store → nat → list piece → result (list piece).

(** The body of the loop of [_swap] for the index [g]. *)
Definition _swap_pair (c : t) (dq : DeviceQueues.t) (m local_qubit : nat)
    (pieces : list piece) (g : nat) : result (list piece) :=
  let t := Nat.shiftl 1 m in
  let i := Nat.shiftl (Nat.shiftr g m) (m + 1) + Nat.land g (t - 1) in
  match DeviceQueues.local_qubits_reduced dq !! local_qubit with
  | None => Err KeyError
  | Some local_eff =>
      match pieces !! i, pieces !! (i + t) with
      | Some a, Some b =>
          let '(a', b') := swap_pieces a b local_eff (nlocal c) in
          Ok (<[i + t := b']> (<[i := a']> pieces))
      | _, _ => Err IndexError
      end
  end.

(** [_swap] (lines 480-489). The circuit object is returned as the method
    leaves it. The reduced index [m] of a global qubit is below [nglobal] on
    a partition built by the [global_qubits] setter, which makes the
    subtraction exact. *)
Definition _swap (c : t) (pieces : list piece) (global_qubit local_qubit : nat)
    : result (t * list piece) :=
  match queues c with
  | None => Err AttributeError
  | Some dq =>
      match DeviceQueues.global_qubits_reduced dq !! global_qubit with
      | None => Err KeyError
      | Some m =>
          let m := nglobal c - m - 1 in
          pieces ← foldM (_swap_pair c dq m local_qubit)
                         (seq 0 (ndevices c `div` 2)) pieces;
          Ok (c, pieces)
      end
  end.

(** [_revert_swaps] *)
Definition _revert_swaps (c : t) (pieces : list piece)
    (swap_pairs : list (nat * nat)) : result (t * list piece) :=
  foldM (λ '(c, pieces) '(q1, q2),
           match queues c with
           | None => Err AttributeError
           | Some dq =>
               if bool_decide (q1 ∉ DeviceQueues.global_qubits_set dq)
               then _swap c pieces q2 q1
               else _swap c pieces q1 q2
           end)
        swap_pairs (c, pieces).

(** [_special_gate_execute] *)
Definition _special_gate_execute (c : t) (st : store) (pieces : list piece)
    (e : DeviceQueues.special_entry) : result (t * list piece) :=
  match e with
  | DeviceQueues.GlobalSwap g l => _swap c pieces g l
  | DeviceQueues.SpecialGate gid =>
      match swap_reset (st !!! gid) with
      | None => Err AttributeError
      | Some sr =>
          '(c, pieces) ← _revert_swaps c pieces (reverse sr);
          pieces ← full_state_call st gid pieces;
          _revert_swaps c pieces sr
      end
  end.

(** The loop over the waves in [_execute] (lines 524-529); the last
    component of the result is what the iterator [special_gates] has left. *)
Fixpoint _execute_waves (c : t) (st : store) (waves : list DeviceQueues.wave)
    (special_gates : list DeviceQueues.special_entry) (pieces : list piece)
    : result (t * list piece * list DeviceQueues.special_entry) :=
  match waves with
  | [] => Ok (c, pieces, special_gates)
  | w :: waves' =>
      if bool_decide (w ≠ []) then
        pieces ← _joblib_execute pieces w;
        _execute_waves c st waves' special_gates pieces
      else
        match special_gates with
        | [] => Err StopIteration
        | e :: special_gates' =>
            '(c, pieces) ← _special_gate_execute c st pieces e;
            _execute_waves c st waves' special_gates' pieces
        end
  end.

(** The loop after it (lines 530-531): the [for] takes one entry from the
    iterator and the body takes the next one with [next]. The first
    component of the result counts the gates executed. *)
Fixpoint _drain (c : t) (st : store)
    (special_gates : list DeviceQueues.special_entry) (pieces : list piece)
    : result (nat * (t * list piece)) :=
  match special_gates with
  | [] => Ok (0, (c, pieces))
  | _ :: [] => Err StopIteration
  | _ :: e :: special_gates' =>
      '(c, pieces) ← _special_gate_execute c st pieces e;
      '(n, r) ← _drain c st special_gates' pieces;
      Ok (S n, r)
  end.

(** [_execute] up to the end of the two loops (lines 520-531), on the pieces
    that [_cast_initial_state] has prepared. *)
Definition _execute (fuel : nat) (c : t) (st : store) (pieces : list piece)
    : option (result (nat * (t * list piece))) :=
  let planned :=
    match queues c with
    | Some dq => if bool_decide (DeviceQueues.queues dq = [])
                 then set_gates fuel c st else Some (Ok (c, st))
    | None => set_gates fuel c st
    end in
  match planned with
  | None => None
  | Some (Err e) => Some (Err e)
  | Some (Ok (c, st)) =>
      match queues c with
      | None => Some (Err AttributeError)
      | Some dq =>
          Some ('(c, pieces, special_gates) ←
                  _execute_waves c st (DeviceQueues.queues dq)
                                 (DeviceQueues.special_queue dq) pieces;
                _drain c st special_gates pieces)
      end
  end.

End circuit.

(** The [global_qubits] property (lines 360-371). [None] stands for the
    [ValueError] "Cannot access global qubits before being set." *)
Definition global_qubits (c : t) : option (list nat) :=
  DeviceQueues.global_qubits_list <$> queues c.

(** [_default_global_qubits] (lines 571-573) *)
Definition _default_global_qubits (c : t) : list nat := seq 0 (nglobal c).

(** The first statement of [_cast_initial_state] (lines 595-596): a circuit
    without a plan gets the default global qubits. *)
Definition _cast_initial_state_globals (c : t) : result t :=
  match queues c with
  | None => set_global_qubits c (_default_global_qubits c)
  | Some _ => Ok c
  end.

(** *** The accelerator jobs

    Calling a gate object on a state piece is external. *)
Section device.
Variable piece : Type.
Variable call_gate : gate → piece → result piece.

(** [_device_execute] (lines 446-449) *)
Definition _device_execute (state : piece) (gates : list gate) : result piece :=
  foldM (λ state gate, call_gate gate state) gates state.

(** One turn of the loop of [_device_job] (lines 469-473): piece [i] is
    replaced by what its own queue makes of it. *)
Definition _device_step (queues : DeviceQueues.wave) (pieces : list piece) (i : nat)
    : result (list piece) :=
  match pieces !! i with
  | None => Err IndexError
  | Some p =>
      match queues !! i with
      | None => Err IndexError
      | Some gates =>
          state ← _device_execute p gates;
          Ok (<[i := state]> pieces)
      end
  end.

Definition _device_job (queues : DeviceQueues.wave) (pieces : list piece)
    (ids : list nat) : result (list piece) :=
  foldM (_device_step queues) ids pieces.

(** [_joblib_execute] (lines 460-478) with the jobs of the pool taken one
    after the other in the order [jobs], which lists the items of
    [device_to_ids] in the order the pool happens to run them. *)
Definition _joblib_jobs (jobs : list (string * list nat)) (queues : DeviceQueues.wave)
    (pieces : list piece) : result (list piece) :=
  foldM (λ pieces '(device, ids), _device_job queues pieces ids) jobs pieces.

End device.

End TensorflowDistributedCircuit.

(** * Properties *)

Import DeviceQueues.
Module TDC := TensorflowDistributedCircuit.

(** ** Vocabulary of the statements *)

(** The number of global qubit ids strictly below [q]. *)
Definition globals_below (dq : DeviceQueues.t) (q : nat) : nat :=
  length (filter (λ g, g < q) (global_qubits_list dq)).

(** The accelerators dict with one device used [n] times. *)
Definition one_gpu (n : nat) : list (string * nat) := [("/GPU:0"%string, n)].

(** Gates of the examples. *)
Definition H (q : nat) : gate := Gate (Unitary "H") [q] [] None None None.
Definition CNOT (c q : nat) : gate := Gate (Unitary "CNOT") [q] [c] None None None.
Definition layer (qs : list nat) : gate := Gate VariationalLayer qs [] None None None.

(** A base [_add] that appends the gate object to the circuit's queue. *)
Definition append_add (c : TDC.t) (st : store) (gid : nat) : result (TDC.t * store) :=
  Ok (TDC.mk (TDC.nqubits c) (TDC.ndevices c) (TDC.nglobal c) (TDC.nlocal c)
             (TDC.memory_device c) (TDC.calc_devices c) (TDC.queue c ++ [gid])
             (TDC.queues c) (TDC.transpose_order c) (TDC.reverse_transpose_order c),
      st).

(** [N - |targets(g)|], on integers. *)
Definition free_qubits (c : TDC.t) (g : gate) : Z :=
  (Z.of_nat (TDC.nqubits c) - Z.of_nat (length (target_qubits g)))%Z.

(** The acceptance test of a gate when no gate has been skipped before it. *)
Definition accept_alone (dq : DeviceQueues.t) (g : gate) : bool :=
  (is_SWAP g && bool_decide (length (global_targets dq g) = 1))
  || bool_decide (global_targets dq g = []).

(** A gate that [create] can place: a SWAP, or a gate without global target. *)
Definition swap_normal (dq : DeviceQueues.t) (g : gate) : bool :=
  is_SWAP g || bool_decide (global_targets dq g = []).

(** Every id of the queue refers to an object of the store. *)
Definition live (st : store) (queue : list nat) : Prop :=
  Forall (λ gid, gid < length st) queue.

(** Two states of a gate object with the same class and qubit ids. *)
Definition same_qubits (g g' : gate) : Prop :=
  gclass g = gclass g' ∧ target_qubits g = target_qubits g'
  ∧ control_qubits g = control_qubits g'.

(** [st'] is [st] up to the [swap_reset] and [nqubits] attributes. *)
Definition retagged (st st' : store) : Prop :=
  length st' = length st ∧ ∀ gid, same_qubits (st' !!! gid) (st !!! gid).

(** The tagging of a special gate at the start of the loop body (line 155). *)
Definition tag (dq : DeviceQueues.t) (st : store) (gid : nat) : store :=
  if is_special_gate (st !!! gid)
  then <[gid := set_swap_reset (st !!! gid) (swaps_list dq)]> st
  else st.

(** Every accepted gate can be placed by [create], or its object is still
    waiting in the deferred queue. *)
Definition pending_inv (dq : DeviceQueues.t) (st : store) (queue pending : list nat)
    : Prop :=
  Forall (λ gid, swap_normal dq (st !!! gid) = true ∨ gid ∈ pending) queue.

(** No target of the gate is a global qubit. *)
Definition no_global_target (dq : DeviceQueues.t) (g : gate) : Prop :=
  ∀ q, q ∈ target_qubits g → q ∉ global_qubits_set dq.

(** [create] stopped with "Only SWAP gates are supported for global qubits." *)
Definition raises_only_swap {A} (r : result A) : bool :=
  match r with
  | Err (ValueError OnlySwapOnGlobal) => true
  | _ => false
  end.

(** The partitions of the examples, as [__init__] builds them. *)
Definition partition_2_0 : DeviceQueues.t :=
  mk 2 2 1 1 [] [] {[0]} [0] [1] {[0 := 0]} {[1 := 0]} []
     [("/GPU:0"%string, [0; 1])] [Some "/GPU:0"%string; Some "/GPU:0"%string].

Definition partition_4_01 : DeviceQueues.t :=
  mk 4 4 2 2 [] [] {[0; 1]} [0; 1] [2; 3] {[0 := 0; 1 := 1]} {[2 := 0; 3 := 1]} []
     [("/GPU:0"%string, [0; 1; 2; 3])] (replicate 4 (Some "/GPU:0"%string)).

(** The deferred queue starts with a gate that passes the acceptance test. *)
Definition head_ready (dq : DeviceQueues.t) (st : store) (rem : list nat) : Prop :=
  match rem with
  | [] => True
  | hid :: _ => accept_alone dq (st !!! hid) = true
  end.

(** The circuit on three qubits and two devices, before any gate. *)
Definition plain_circuit_3 : TDC.t :=
  TDC.mk 3 2 1 2 "/CPU:0" (one_gpu 2) [] None [] [].

(** The circuit whose queue holds the given gate objects. *)
Definition circuit_with_queue (c : TDC.t) (queue : list nat) : TDC.t :=
  TDC.mk (TDC.nqubits c) (TDC.ndevices c) (TDC.nglobal c) (TDC.nlocal c)
         (TDC.memory_device c) (TDC.calc_devices c) queue
         (TDC.queues c) (TDC.transpose_order c) (TDC.reverse_transpose_order c).

(** Bit [nglobal - global_reduced[c] - 1] of the piece index [i]. *)
Definition global_control_bit (dq : DeviceQueues.t) (i c : nat) : bool :=
  Nat.testbit i (nglobal dq - (global_qubits_reduced dq !!! c) - 1).

(** Piece [i] has the bit of every global control of [g] set. *)
Definition active (dq : DeviceQueues.t) (g : gate) (i : nat) : Prop :=
  ∀ c, c ∈ control_qubits g → c ∈ global_qubits_set dq →
       global_control_bit dq i c = true.

(** The reduced copy of [CNOT 0 1] on the partition with global qubit 0: its
    target 1 becomes local qubit 0 and its global control is dropped. *)
Definition reduced_CNOT : gate :=
  Gate (Unitary "CNOT") [0] [] None (Some 1%Z) (Some 0).

(** The number of special steps among the waves: the empty entries. *)
Definition special_waves (qs : list wave) : nat :=
  length (filter (λ w : wave, w = []) qs).

(** The circuit on two qubits and two devices, planned with the global
    qubit 0. *)
Definition planned_circuit_2 : TDC.t :=
  TDC.mk 2 2 1 1 "/CPU:0" (one_gpu 2) [] (Some partition_2_0) [0; 1] [0; 1].

(** A stand-in for the amplitude kernels: a piece is a number, swapping two
    pieces exchanges them, and the other kernels leave the pieces alone. *)
Definition exchange (a b : nat) (local_eff : nat) (nlocal : Z) : nat * nat := (b, a).
Definition no_dispatch (pieces : list nat) (w : wave) : result (list nat) := Ok pieces.
Definition no_call (st : store) (gid : nat) (pieces : list nat) : result (list nat) :=
  Ok pieces.

(** All target ids of the gates of a queue, with repetitions. *)
Definition all_targets (st : store) (queue : list nat) : list nat :=
  queue ≫= λ gid, target_qubits (st !!! gid).

(** How many times the gates of the queue target the qubit [q]. *)
Definition target_occurrences (st : store) (queue : list nat) (q : nat) : nat :=
  length (filter (λ t, t = q) (all_targets st queue)).

(** Exchanging the qubit ids [a] and [b]. *)
Definition transpose (a b x : nat) : nat :=
  if decide (x = a) then b else if decide (x = b) then a else x.

(** The relabelling of the qubits made by a sequence of swaps, the first one
    applied first. *)
Definition relabel (sw : list (nat * nat)) (x : nat) : nat :=
  foldl (λ x p, transpose p.1 p.2 x) x sw.

(** The qubit pair of a SWAP gate object. *)
Definition swap_pair (g : gate) : option (nat * nat) :=
  match target_qubits g with
  | [a; b] => Some (a, b)
  | _ => None
  end.

(** The pairs of the SWAP objects that the transformer created (the objects
    with an id from [n0] on) among [ids], in the order of [ids]. *)
Definition inserted_swaps (n0 : nat) (st : store) (ids : list nat) : list (nat * nat) :=
  omap (λ gid, if decide (n0 ≤ gid) then swap_pair (st !!! gid) else None) ids.

(** A pair as [swaps_list] records it: smaller id first. *)
Definition ordered_pair (p : nat * nat) : nat * nat :=
  (Nat.min p.1 p.2, Nat.max p.1 p.2).

(** The gate [g] is [g0] with its qubit ids relabelled by the swaps [sw]. *)
Definition relabelled (sw : list (nat * nat)) (g0 g : gate) : Prop :=
  gclass g = gclass g0
  ∧ target_qubits g = relabel sw <$> target_qubits g0
  ∧ control_qubits g = relabel sw <$> control_qubits g0.

(** What holds of the object [gid] once it is in the new queue, [before]
    being the part of the queue in front of it: an inserted SWAP joins a
    global qubit with a local one; a gate of the circuit carries its ids
    relabelled by the swaps inserted before it, passes the acceptance test,
    and if it is special it has recorded those swaps. *)
Definition placed (dq0 : DeviceQueues.t) (st0 : store) (N : nat) (st : store)
    (before : list nat) (gid : nat) : Prop :=
  if decide (length st0 ≤ gid) then
    ∃ q qs, st !!! gid = new_SWAP q qs
            ∧ q ∈ global_qubits_set dq0 ∧ (qs ∉ global_qubits_set dq0)
            ∧ q < N ∧ qs < N
  else
    relabelled (inserted_swaps (length st0) st before) (st0 !!! gid) (st !!! gid)
    ∧ accept_alone dq0 (st !!! gid) = true
    ∧ (is_special_gate (st !!! gid) = true →
       swap_reset (st !!! gid)
       = Some (swaps_list dq0
               ++ (ordered_pair <$> inserted_swaps (length st0) st before))).

(** The invariant of [_transform], for the initial partition [dq0] and the
    initial store [st0]. *)
Record transform_inv (dq0 : DeviceQueues.t) (st0 : store)
    (dq : DeviceQueues.t) (st : store) (queue rem : list nat) (counter : list Z)
    : Prop := {
  inv_dq : dq = with_swaps_list dq0
                  (swaps_list dq0
                   ++ (ordered_pair <$> inserted_swaps (length st0) st queue));
  inv_len : length st0 ≤ length st;
  inv_nodup : NoDup rem;
  inv_rem_old : Forall (λ gid, gid < length st0) rem;
  inv_queue : Forall (λ gid, gid < length st ∧ gid ∉ rem) queue;
  inv_rem : Forall (λ gid, relabelled (inserted_swaps (length st0) st queue)
                                      (st0 !!! gid) (st !!! gid)) rem;
  inv_placed : ∀ p gid, queue !! p = Some gid →
                        placed dq0 st0 (length counter) st (take p queue) gid
}.

(** A callback gate of the examples: no target, no control. *)
Definition callback : gate := Gate CallbackGate [] [] None None None.

(** A gate that the planner can handle on [N] qubits of which [k] are global:
    its targets are qubits of the circuit, they leave [k] qubits free (the
    test of [_add]), and a SWAP has two targets. *)
Definition plannable (N k : nat) (g : gate) : Prop :=
  Forall (λ q, q < N) (target_qubits g)
  ∧ k + length (target_qubits g) ≤ N
  ∧ (gclass g = SWAP → length (target_qubits g) = 2).

(** The partition fields that [create] reads are consistent: there is a
    global qubit, the global list is the sorted global set, and the piece
    indices of the devices are [0 .. ndevices-1]. *)
Definition consistent_partition (dq : DeviceQueues.t) : Prop :=
  global_qubits_set dq ≠ ∅
  ∧ global_qubits_list dq = merge_sort (≤) (elements (global_qubits_set dq))
  ∧ concat ((device_to_ids dq).*2) = seq 0 (ndevices dq).

(** Every wave is a special step or has one gate list per logical device. *)
Definition well_shaped (dq : DeviceQueues.t) : Prop :=
  Forall (λ w : wave, w = [] ∨ length w = ndevices dq) (queues dq).

(** A gate that [create] can place: it passes the acceptance test of the
    transformer, and a SWAP has two targets. *)
Definition creatable (dq : DeviceQueues.t) (g : gate) : Prop :=
  accept_alone dq g = true ∧ (gclass g = SWAP → length (target_qubits g) = 2).

(** A recorded pair that [_revert_swaps] can undo on [N] qubits: both ids are
    qubits of the circuit and exactly one of them is global. *)
Definition pair_ok (dq : DeviceQueues.t) (N : nat) (p : nat * nat) : Prop :=
  p.1 < N ∧ p.2 < N ∧ (p.1 ∈ global_qubits_set dq ↔ p.2 ∉ global_qubits_set dq).

(** An entry of [special_queue] that the executor can run: a global swap
    names a global qubit and a local qubit of the circuit; a special gate has
    recorded swaps that can be undone. *)
Definition entry_ok (dq : DeviceQueues.t) (N : nat) (st : store) (e : special_entry)
    : Prop :=
  match e with
  | GlobalSwap g l => g ∈ global_qubits_set dq ∧ (l ∉ global_qubits_set dq) ∧ l < N
  | SpecialGate gid =>
      ∃ sr, swap_reset (st !!! gid) = Some sr ∧ Forall (pair_ok dq N) sr
  end.

(** A gate of the transformed queue, ready for [create] and for the
    executor. *)
Definition ready (dq : DeviceQueues.t) (N : nat) (g : gate) : Prop :=
  creatable dq g
  ∧ Forall (λ q, q < N) (target_qubits g)
  ∧ (gclass g = SWAP → NoDup (target_qubits g))
  ∧ (target_qubits g = [] →
     ∃ sr, swap_reset g = Some sr ∧ Forall (pair_ok dq N) sr).

(** The circuit [c] is planned with [dq], one piece per logical device, and
    the reduced maps cover the global and the local qubits. *)
Definition runnable (c : TDC.t) (dq : DeviceQueues.t) : Prop :=
  TDC.queues c = Some dq
  ∧ TDC.ndevices c = 2 ^ TDC.nglobal c
  ∧ (∀ g, g ∈ global_qubits_set dq →
          ∃ mr, global_qubits_reduced dq !! g = Some mr ∧ mr < TDC.nglobal c)
  ∧ (∀ l, l < TDC.nqubits c → l ∉ global_qubits_set dq →
          ∃ le, local_qubits_reduced dq !! l = Some le).

(** No two consecutive waves are both standard: a special step separates
    any two gate groups. *)
Fixpoint grouped (qs : list wave) : Prop :=
  match qs with
  | [] => True
  | w :: rest => match rest with
                 | [] => True
                 | w' :: _ => (w = [] ∨ w' = []) ∧ grouped rest
                 end
  end.

(** The index of the first piece of the pair number [j] when the pieces are
    paired along bit [m]: [j] with a 0 inserted at bit [m]. *)
Definition lower_index (m j : nat) : nat :=
  Nat.shiftl (Nat.shiftr j m) (m + 1) + Nat.land j (Nat.shiftl 1 m - 1).

(** The entries that the loop after the waves executes: the second, the
    fourth, ... of what the iterator has left. *)
Fixpoint every_second {A} (l : list A) : list A :=
  match l with
  | _ :: e :: rest => e :: every_second rest
  | _ => []
  end.
(** Two qubits on two accelerators with one piece each, global qubit 0. *)
Definition two_gpus : list (string * nat) := [("/GPU:0"%string, 1); ("/GPU:1"%string, 1)].
Definition partition_two_gpus : DeviceQueues.t :=
  mk 2 2 1 1 [] [] {[0]} [0] [1] {[0 := 0]} {[1 := 0]} []
     [("/GPU:0"%string, [0]); ("/GPU:1"%string, [1])]
     [Some "/GPU:0"%string; Some "/GPU:1"%string].

(** A stand-in for calling a gate on a piece: a piece is a number and every
    gate adds one to it. *)
Definition count_call (g : gate) (p : nat) : result nat := Ok (S p).

(** The gate [g] after [set_targets_and_controls] with its target and
    control ids relabelled by the swaps [sw]. *)
Definition relabel_gate (sw : list (nat * nat)) (g : gate) : gate :=
  set_targets_and_controls g (relabel sw <$> target_qubits g)
                             (relabel sw <$> control_qubits g).

(** A step of a plan: a wave of standard gates, or a special step together
    with its entry of [special_queue]. *)
Inductive plan_step :=
| StandardStep (w : wave)
| SpecialStep (e : special_entry).

Definition step_wave (s : plan_step) : wave :=
  match s with
  | StandardStep w => w
  | SpecialStep _ => []
  end.

Definition step_entry (s : plan_step) : option special_entry :=
  match s with
  | StandardStep _ => None
  | SpecialStep e => Some e
  end.

(** The two lists of a plan read as one list of steps: the waves are the
    waves of the steps, the empty ones being those of the special steps, and
    [special_queue] holds the entries of the special steps, in their order. *)
Definition plan_steps (steps : list plan_step) (dq : DeviceQueues.t) : Prop :=
  queues dq = step_wave <$> steps
  ∧ special_queue dq = omap step_entry steps
  ∧ Forall (λ s, match s with
                 | StandardStep w => w ≠ []
                 | SpecialStep _ => True
                 end) steps.

(** The gates for which [create] opens a special step: those without
    targets and those with a global target. *)
Definition opens_special (dq : DeviceQueues.t) (g : gate) : bool :=
  bool_decide (target_qubits g = []) || negb (bool_decide (global_targets dq g = [])).

(** The entry [e] is the one of the gate object [gid]: the object itself
    for a gate without targets, a global and another target of the gate for
    a global swap. *)
Definition entry_of (dq : DeviceQueues.t) (st : store) (gid : nat)
    (e : special_entry) : Prop :=
  match e with
  | SpecialGate gid' => gid' = gid ∧ target_qubits (st !!! gid) = []
  | GlobalSwap g l =>
      gclass (st !!! gid) = SWAP
      ∧ g ∈ global_qubits_set dq
      ∧ g ∈ target_qubits (st !!! gid) ∧ l ∈ target_qubits (st !!! gid)
  end.

(** What the executor does at one step. *)
Definition run_step {piece : Type}
    (swap_pieces : piece → piece → nat → Z → piece * piece)
    (_joblib_execute : list piece → wave → result (list piece))
    (full_state_call : store → nat → list piece → result (list piece))
    (st : store) (cp : TDC.t * list piece) (s : plan_step)
    : result (TDC.t * list piece) :=
  match s with
  | StandardStep w => pieces ← _joblib_execute cp.2 w; Ok (cp.1, pieces)
  | SpecialStep e =>
      TDC._special_gate_execute piece swap_pieces full_state_call cp.1 st cp.2 e
  end.

(** A stand-in for the dispatch of a wave that leaves a trace: every piece
    is increased by one. *)
Definition count_dispatch (pieces : list nat) (w : wave) : result (list nat) :=
  Ok (S <$> pieces).

(** The circuit on two qubits and two devices, before any gate. *)
Definition plain_circuit_2 : TDC.t :=
  TDC.mk 2 2 1 1 "/CPU:0" (one_gpu 2) [] None [] [].

(** The circuit on eight qubits and eight devices, before any gate, and
    seventeen gate objects: three gates on each of the qubits 0, 2, 4 and 6,
    one on qubit 3 and two on each of the qubits 5 and 7. *)
Definition plain_circuit_8 : TDC.t :=
  TDC.mk 8 8 3 5 "/CPU:0" (one_gpu 8) [] None [] [].
Definition seventeen_gates : store :=
  H <$> [0; 0; 0; 2; 2; 2; 4; 4; 4; 6; 6; 6; 3; 5; 5; 7; 7].

(** ** The error monad *)

Lemma bind_Ok {A B} (m : result A) (k : A → result B) (b : B) :
  m ≫= k = Ok b → ∃ a, m = Ok a ∧ k a = Ok b.
Proof. destruct m as [a|e]; simpl; [eauto | discriminate]. Qed.

Lemma mapM_Ok_fmap {A B} (f : A → result B) (g : A → B) (l : list A) :
  (∀ a, a ∈ l → f a = Ok (g a)) → mapM f l = Ok (g <$> l).
Proof.
  induction l as [|a l IH]; intros Hf; simpl; [done|].
  rewrite Hf by left. simpl. rewrite IH; [done|].
  intros a' Ha'. apply Hf. by right.
Qed.

Lemma mapM_Ok_inv {A B} (f : A → result B) (l : list A) (bs : list B) :
  mapM f l = Ok bs → Forall2 (λ a b, f a = Ok b) l bs.
Proof.
  revert bs. induction l as [|a l IH]; intros bs; simpl.
  - intros [= <-]. constructor.
  - intros Hb. apply bind_Ok in Hb as (b & Hb & Hrest).
    apply bind_Ok in Hrest as (bs' & Hbs' & [= <-]).
    constructor; auto.
Qed.

(** ** The partition built by [__init__] *)

Lemma init_inv N D k nl devs G dq :
  __init__ N D k nl devs G = Ok dq →
  nqubits dq = N ∧ ndevices dq = D ∧ nglobal dq = k ∧ nlocal dq = nl ∧
  queues dq = [] ∧ special_queue dq = [] ∧ swaps_list dq = [] ∧
  global_qubits_set dq = G ∧
  global_qubits_list dq = merge_sort (≤) (elements G) ∧
  local_qubits dq = filter (λ q, q ∉ G) (seq 0 N) ∧
  device_to_ids dq = _ids devs 0.
Proof.
  unfold __init__. intros Hi.
  apply bind_Ok in Hi as (gr & _ & Hi).
  apply bind_Ok in Hi as (lr & _ & Hi).
  apply bind_Ok in Hi as (i2d & _ & [= <-]). simpl. tauto.
Qed.

Lemma global_list_elem_of (G : gset nat) q :
  q ∈ merge_sort (≤) (elements G) ↔ q ∈ G.
Proof. rewrite merge_sort_Permutation. apply elem_of_elements. Qed.

Lemma global_list_NoDup (G : gset nat) : NoDup (merge_sort (≤) (elements G)).
Proof. rewrite merge_sort_Permutation. apply NoDup_elements. Qed.

Lemma global_list_sorted (G : gset nat) :
  StronglySorted (≤) (merge_sort (≤) (elements G)).
Proof. apply StronglySorted_merge_sort; apply _. Qed.

(** The example partitions are what [__init__] builds. *)
Lemma init_partition_2_0 : __init__ 2 2 1 1 (one_gpu 2) {[0]} = Ok partition_2_0.
Proof. vm_compute. reflexivity. Qed.

Lemma init_partition_4_01 : __init__ 4 4 2 2 (one_gpu 4) {[0; 1]} = Ok partition_4_01.
Proof. vm_compute. reflexivity. Qed.

(** ** [reduction_number] *)

Lemma filter_none {A} (P : A → Prop) `{∀ x, Decision (P x)} (l : list A) :
  Forall (λ x, ¬ P x) l → filter P l = [].
Proof.
  induction 1 as [|x l Hx _ IH]; [done|]. by rewrite filter_cons_False.
Qed.

Lemma reduction_scan_sorted gl i last q :
  StronglySorted (≤) gl →
  (gl = [] → last = Some (i - 1) ∧ 0 < i) →
  reduction_scan gl i last q = Ok (i + length (filter (λ g, g ≤ q) gl)).
Proof.
  intros Hs. revert i last.
  induction Hs as [|gq gl Hs IH Hall]; intros i last Hlast; simpl.
  - destruct Hlast as [-> Hi]; [done|]. f_equal. lia.
  - case_bool_decide as Hq.
    + rewrite filter_cons_False by lia.
      rewrite filter_none; [f_equal; simpl; lia|].
      eapply Forall_impl; [exact Hall|]. simpl. lia.
    + rewrite filter_cons_True by lia.
      rewrite IH; [f_equal; simpl; lia|].
      intros _. split; [f_equal; lia | lia].
Qed.

Lemma count_le_lt (gl : list nat) q :
  NoDup gl →
  length (filter (λ g, g ≤ q) gl)
  = length (filter (λ g, g < q) gl) + (if bool_decide (q ∈ gl) then 1 else 0).
Proof.
  induction 1 as [|g gl Hg Hnd IH]; [done|].
  destruct (decide (g = q)) as [->|Hne].
  - rewrite filter_cons_True, filter_cons_False by lia. simpl.
    rewrite IH. rewrite (bool_decide_eq_false_2 (q ∈ gl)) by done.
    rewrite bool_decide_eq_true_2 by constructor. lia.
  - assert (bool_decide (q ∈ g :: gl) = bool_decide (q ∈ gl)) as ->.
    { apply bool_decide_ext. rewrite elem_of_cons. split; [intros [?|?]; [congruence|done] | by right]. }
    destruct (decide (g < q)).
    + rewrite !filter_cons_True by lia. simpl. rewrite IH. lia.
    + rewrite !filter_cons_False by lia. done.
Qed.

Lemma count_below_le (gl : list nat) q :
  NoDup gl → length (filter (λ g, g < q) gl) ≤ q.
Proof.
  intros Hnd. transitivity (length (seq 0 q)); [|by rewrite length_seq].
  apply submseteq_length, NoDup_submseteq; [by apply NoDup_filter|].
  intros x Hx. apply list_elem_of_filter in Hx as [Hx _]. apply elem_of_seq. lia.
Qed.

(** The subtraction in [reduced_id] does not truncate on a local qubit. *)
Lemma reduction_number_le_local N D k nl devs G dq q r :
  __init__ N D k nl devs G = Ok dq → q ∉ G →
  reduction_number dq q = Ok r → r ≤ q.
Proof.
  intros Hi Hq. apply init_inv in Hi as (_&_&_&_&_&_&_&_&Hgl&_).
  unfold reduction_number. rewrite Hgl.
  destruct (merge_sort (≤) (elements G)) as [|g gl] eqn:Egl; [done|].
  rewrite reduction_scan_sorted;
    [|rewrite <- Egl; apply global_list_sorted|done].
  intros [= <-]. rewrite count_le_lt by (rewrite <- Egl; apply global_list_NoDup).
  rewrite bool_decide_eq_false_2 by (by rewrite <- Egl, global_list_elem_of).
  pose proof (count_below_le (g :: gl) q) as Hle.
  rewrite <- Egl in Hle at 1. specialize (Hle (global_list_NoDup G)). lia.
Qed.

(** C3 (amended). On a partition built by [__init__] with a non-empty global
    set, [reduction_number q] is the number of global ids strictly below [q]
    when [q] is a local qubit, and one more than that (the number of global
    ids up to and including [q]) when [q] is itself global. *)
Theorem reduction_number_counts N D k nl devs G dq q :
  __init__ N D k nl devs G = Ok dq →
  G ≠ ∅ →
  reduction_number dq q
  = Ok (if bool_decide (q ∈ global_qubits_set dq)
        then S (globals_below dq q) else globals_below dq q).
Proof.
  intros Hi HG. apply init_inv in Hi as (_&_&_&_&_&_&_&HGs&Hgl&_).
  unfold reduction_number, globals_below. rewrite HGs, Hgl.
  rewrite reduction_scan_sorted.
  - rewrite count_le_lt by apply global_list_NoDup.
    destruct (decide (q ∈ G)) as [Hq|Hq].
    + rewrite !bool_decide_eq_true_2; [f_equal; lia | done |].
      by apply global_list_elem_of.
    + rewrite !bool_decide_eq_false_2; [f_equal; lia | done |].
      by rewrite global_list_elem_of.
  - apply global_list_sorted.
  - intros Hnil. exfalso. apply HG. apply set_eq. intros x. split; [|set_solver].
    intros Hx. apply global_list_elem_of in Hx. rewrite Hnil in Hx.
    by apply elem_of_nil in Hx.
Qed.

(** On the partition with N = 4 and the global set {0, 1}: the local qubit 2
    has two global ids below it, and the global qubit 1 counts itself. *)
Lemma reduction_number_counts_witness :
  __init__ 4 4 2 2 (one_gpu 4) {[0; 1]} = Ok partition_4_01
  ∧ reduction_number partition_4_01 2 = Ok 2
  ∧ globals_below partition_4_01 2 = 2
  ∧ reduction_number partition_4_01 1 = Ok 2
  ∧ globals_below partition_4_01 1 = 1.
Proof.
  assert (({[0; 1]} : gset nat) ≠ ∅) as Hne
    by (apply (bool_decide_unpack _); vm_compute; exact I).
  split; [exact init_partition_4_01|].
  split; [|split; [reflexivity|split; [|reflexivity]]].
  - rewrite (reduction_number_counts _ _ _ _ _ _ _ 2 init_partition_4_01 Hne).
    reflexivity.
  - rewrite (reduction_number_counts _ _ _ _ _ _ _ 1 init_partition_4_01 Hne).
    reflexivity.
Defined.

(** C3 as stated fails for a global qubit: with N = 2 and the global set {0},
    [reduction_number 0] is 1 although no global id is below 0. *)
Lemma reduction_number_global_counterexample :
  __init__ 2 2 1 1 (one_gpu 2) {[0]} = Ok partition_2_0
  ∧ 0 < nqubits partition_2_0
  ∧ 0 ∈ global_qubits_list partition_2_0
  ∧ reduction_number partition_2_0 0 = Ok 1
  ∧ globals_below partition_2_0 0 = 0.
Proof.
  split; [exact init_partition_2_0|]. split; [simpl; lia|].
  split; [by left|]. split; reflexivity.
Qed.

(** ** [_add] *)

Lemma circuit_init_nglobal N accs md c :
  TDC.__init__ N accs md = Ok c →
  TDC.nqubits c = N ∧ 0 < TDC.nglobal c ∧ 2 ^ TDC.nglobal c = TDC.ndevices c
  ∧ TDC.ndevices c = sum_list (accs.*2).
Proof.
  unfold TDC.__init__, TDC.exact_log2. intros Hc.
  case_bool_decide as Hp; [|discriminate].
  case_bool_decide as Hk; [|discriminate].
  injection Hc as <-. simpl. auto.
Qed.

(** C7 (amended). A gate that is neither a measurement nor a
    [VariationalLayer] and leaves fewer than [nglobal] qubits outside its
    targets is refused with "Insufficient qubits ..."; hence a gate is added
    only if it is a measurement, a [VariationalLayer], or
    [nqubits - |targets| >= nglobal]. *)
Theorem add_requires_free_qubits
    (super_add : TDC.t → store → nat → result (TDC.t * store))
    (c : TDC.t) (st : store) (gid : nat) :
  let g := st !!! gid in
  (gclass g ≠ M → gclass g ≠ VariationalLayer →
   (free_qubits c g < Z.of_nat (TDC.nglobal c))%Z →
   TDC._add super_add c st gid = Err (ValueError InsufficientQubits))
  ∧ (∀ r, TDC._add super_add c st gid = Ok r →
          gclass g = M ∨ gclass g = VariationalLayer
          ∨ (Z.of_nat (TDC.nglobal c) ≤ free_qubits c g)%Z).
Proof.
  intros g. unfold TDC._add, TDC._add_check. fold g. fold (free_qubits c g).
  set (free := free_qubits c g). split.
  - intros HM HV Hfree.
    rewrite (bool_decide_eq_false_2 (gclass g = VariationalLayer)) by done.
    rewrite (bool_decide_eq_true_2 (free < _)%Z) by done.
    by rewrite (bool_decide_eq_false_2 (gclass g = M)).
  - intros r. case_bool_decide as HV; [auto|].
    case_bool_decide as Hfree; simpl.
    + case_bool_decide as HM; simpl; [auto | discriminate].
    + intros _. right. right. lia.
Qed.

(** With N = 2 and four devices the gate H(0) leaves one qubit free, fewer
    than the two global qubits, and is refused. *)
Lemma add_requires_free_qubits_witness :
  ∃ c, TDC.__init__ 2 (one_gpu 4) "/CPU:0" = Ok c
       ∧ TDC.nglobal c = 2
       ∧ TDC._add append_add c [H 0] 0 = Err (ValueError InsufficientQubits).
Proof.
  eexists. split; [vm_compute; reflexivity|]. split; [reflexivity|].
  apply (proj1 (add_requires_free_qubits append_add _ [H 0] 0)).
  - discriminate.
  - discriminate.
  - vm_compute. reflexivity.
Defined.

(** C7 as stated fails: measurement gates are not the only exemption. With
    N = 2 and four devices (nglobal = 2) a [VariationalLayer] on both qubits
    leaves 0 < 2 qubits free and is still handed to the base class. *)
Lemma add_layer_counterexample :
  ∃ c c', TDC.__init__ 2 (one_gpu 4) "/CPU:0" = Ok c
       ∧ TDC.nglobal c = 2
       ∧ gclass (layer [0; 1]) ≠ M
       ∧ Z.lt (free_qubits c (layer [0; 1])) (Z.of_nat (TDC.nglobal c))
       ∧ TDC._add_check c (layer [0; 1]) = None
       ∧ TDC._add append_add c [layer [0; 1]] 0 = Ok (c', [layer [0; 1]])
       ∧ TDC.queue c' = [0].
Proof.
  do 2 eexists. split; [vm_compute; reflexivity|].
  repeat split; try (vm_compute; reflexivity). discriminate.
Qed.

(** ** The store *)

Lemma same_qubits_refl g : same_qubits g g.
Proof. by repeat split. Qed.

Lemma same_qubits_trans g1 g2 g3 :
  same_qubits g1 g2 → same_qubits g2 g3 → same_qubits g1 g3.
Proof. unfold same_qubits. intros (?&?&?) (?&?&?). repeat split; congruence. Qed.

Lemma retagged_refl st : retagged st st.
Proof. split; [done|]. intros. apply same_qubits_refl. Qed.

Lemma retagged_trans st1 st2 st3 :
  retagged st1 st2 → retagged st2 st3 → retagged st1 st3.
Proof.
  intros [Hl1 H1] [Hl2 H2]. split; [congruence|].
  intros gid. eapply same_qubits_trans; [apply H2 | apply H1].
Qed.

Lemma store_insert_total (st : store) (i j : nat) (g : gate) :
  <[i := g]> st !!! j = if bool_decide (i = j ∧ i < length st) then g else st !!! j.
Proof.
  case_bool_decide as Hij.
  - destruct Hij as [-> Hlt]. by apply list_lookup_total_insert_eq.
  - destruct (decide (i = j)) as [->|Hne].
    + rewrite list_insert_ge; [done|]. lia.
    + by apply list_lookup_total_insert_ne.
Qed.

Lemma retagged_insert st gid g :
  same_qubits g (st !!! gid) → retagged st (<[gid := g]> st).
Proof.
  intros Hg. split; [apply length_insert|].
  intros j. rewrite store_insert_total. case_bool_decide as Hj.
  - destruct Hj as [<- _]. done.
  - apply same_qubits_refl.
Qed.

Lemma same_qubits_global_targets dq g g' :
  same_qubits g g' → global_targets dq g = global_targets dq g'.
Proof. intros (_&Ht&_). unfold global_targets. by rewrite Ht. Qed.

Lemma same_qubits_is_SWAP g g' : same_qubits g g' → is_SWAP g = is_SWAP g'.
Proof. intros (Hc&_&_). unfold is_SWAP. by rewrite Hc. Qed.

Lemma same_qubits_accept_alone dq g g' :
  same_qubits g g' → accept_alone dq g = accept_alone dq g'.
Proof.
  intros Hs. unfold accept_alone.
  by rewrite (same_qubits_global_targets dq g g' Hs), (same_qubits_is_SWAP g g' Hs).
Qed.

Lemma same_qubits_swap_normal dq g g' :
  same_qubits g g' → swap_normal dq g = swap_normal dq g'.
Proof.
  intros Hs. unfold swap_normal.
  by rewrite (same_qubits_global_targets dq g g' Hs), (same_qubits_is_SWAP g g' Hs).
Qed.

Lemma accept_alone_swap_normal dq g : accept_alone dq g = true → swap_normal dq g = true.
Proof.
  unfold accept_alone, swap_normal.
  destruct (is_SWAP g); simpl; [done|]. done.
Qed.

(** ** The counters *)

Lemma counter_add_length d counter q counter' :
  counter_add d counter q = Ok counter' → length counter' = length counter.
Proof.
  unfold counter_add. destruct (counter !! q); [|discriminate].
  intros [= <-]. apply length_insert.
Qed.

Lemma foldM_invariant {A B} (P : B → Prop) (f : B → A → result B) l b b' :
  (∀ b a b', P b → f b a = Ok b' → P b') →
  P b → foldM f l b = Ok b' → P b'.
Proof.
  intros Hf. revert b. induction l as [|a l IH]; intros b Hb; simpl.
  - by intros [= <-].
  - intros Hm. apply bind_Ok in Hm as (b1 & H1 & Hm). eauto.
Qed.

Lemma counter_add_all_length d qs counter counter' :
  foldM (counter_add d) qs counter = Ok counter' →
  length counter' = length counter.
Proof.
  apply (foldM_invariant (λ c, length c = length counter)); [|done].
  intros b a b' Hb Hadd. apply counter_add_length in Hadd. congruence.
Qed.

(** ** The first loop of [_transform] *)

Section pass.
Context {order : SetOrder} {sorter : ArgSort}.
Variable commutes : gate → gate → bool.

Lemma retagged_tag dq st gid : retagged st (tag dq st gid).
Proof.
  unfold tag. destruct (is_special_gate _); [|apply retagged_refl].
  apply retagged_insert. by repeat split.
Qed.

Lemma accepts_alone dq st g :
  accepts commutes dq st [] g = accept_alone dq g.
Proof. unfold accepts, accept_alone. simpl. by rewrite andb_true_r. Qed.

Lemma accepts_accept_alone dq st nr g :
  accepts commutes dq st nr g = true → accept_alone dq g = true.
Proof. unfold accepts, accept_alone. by intros [? _]%andb_true_iff. Qed.

Lemma transform_pass_spec dq rem st queue counter nr st' queue' counter' nr' :
  _transform_pass commutes dq rem st queue counter nr
  = Ok (st', queue', counter', nr') →
  retagged st st' ∧ length counter' = length counter
  ∧ ∃ acc def, queue' = queue ++ acc ∧ nr' = nr ++ def
               ∧ sublist def rem ∧ acc ++ def ≡ₚ rem
               ∧ Forall (λ gid, accept_alone dq (st' !!! gid) = true) acc.
Proof.
  revert st queue counter nr.
  induction rem as [|gid rest IH]; intros st queue counter nr; simpl.
  - intros [= <- <- <- <-]. split; [apply retagged_refl|]. split; [done|].
    exists [], []. rewrite !app_nil_r. by repeat split.
  - fold (tag dq st gid). set (st1 := tag dq st gid).
    assert (retagged st st1) as Hst1 by apply retagged_tag.
    destruct (accepts commutes dq st1 nr (st1 !!! gid)) eqn:Hacc.
    + intros Hp. apply bind_Ok in Hp as (counter1 & Hc1 & Hp).
      apply counter_add_all_length in Hc1.
      apply IH in Hp as (Hst' & Hlen & acc & def & -> & -> & Hsub & Hperm & Hall).
      split; [eapply retagged_trans; eauto|]. split; [congruence|].
      exists (gid :: acc), def. rewrite <- app_assoc. simpl.
      repeat split; [by apply sublist_cons | by constructor |].
      constructor; [|done].
      apply accepts_accept_alone in Hacc. rewrite <- Hacc.
      apply same_qubits_accept_alone, Hst'.
    + intros Hp.
      apply IH in Hp as (Hst' & Hlen & acc & def & -> & -> & Hsub & Hperm & Hall).
      split; [eapply retagged_trans; eauto|]. split; [done|].
      exists acc, (gid :: def). rewrite <- app_assoc. simpl.
      repeat split; [by apply sublist_skip | | done].
      by rewrite <- Permutation_middle, Hperm.
Qed.

End pass.

(** ** Rewriting the deferred gates *)

Lemma remap_gate_class qm g : gclass (remap_gate qm g) = gclass g.
Proof. done. Qed.

Lemma remap_queue_length qm nr st : length (_remap_queue qm nr st) = length st.
Proof.
  unfold _remap_queue. revert st. induction nr as [|a nr IH]; intros st; simpl; [done|].
  rewrite IH. apply length_insert.
Qed.

(** Each object is rewritten once per occurrence of its id in the queue. *)
Lemma remap_queue_lookup qm nr st gid :
  gid < length st →
  _remap_queue qm nr st !!! gid
  = Nat.iter (length (filter (λ x, x = gid) nr)) (remap_gate qm) (st !!! gid).
Proof.
  unfold _remap_queue. revert st. induction nr as [|a nr IH]; intros st Hlt; simpl; [done|].
  rewrite IH by by rewrite length_insert.
  rewrite store_insert_total. destruct (decide (a = gid)) as [->|Hne].
  - rewrite bool_decide_eq_true_2 by done.
    rewrite filter_cons_True by done. simpl. apply Nat.iter_swap.
  - rewrite bool_decide_eq_false_2 by (by intros [? _]).
    by rewrite filter_cons_False.
Qed.

Lemma remap_queue_lookup_class qm nr st gid :
  gclass (_remap_queue qm nr st !!! gid) = gclass (st !!! gid).
Proof.
  destruct (decide (gid < length st)) as [Hlt|Hge].
  - rewrite remap_queue_lookup by done.
    generalize (length (filter (λ x, x = gid) nr)). intros n.
    induction n as [|n IH]; simpl; done.
  - rewrite !list_lookup_total_alt, !lookup_ge_None_2; [done| lia |].
    rewrite remap_queue_length. lia.
Qed.

Lemma filter_eq_not_in (l : list nat) x : x ∉ l → filter (λ y, y = x) l = [].
Proof.
  intros Hx. apply filter_none, Forall_forall. intros y Hy ->. done.
Qed.

Lemma filter_eq_NoDup (l : list nat) x : NoDup l → x ∈ l → filter (λ y, y = x) l = [x].
Proof.
  induction 1 as [|a l Ha Hnd IH]; [by intros ?%elem_of_nil|].
  intros [->|Hin]%elem_of_cons.
  - rewrite filter_cons_True by done. by rewrite filter_eq_not_in.
  - rewrite filter_cons_False; [auto|]. intros ->. done.
Qed.

Lemma remap_queue_lookup_once qm nr st gid :
  NoDup nr → gid ∈ nr → gid < length st →
  _remap_queue qm nr st !!! gid = remap_gate qm (st !!! gid).
Proof.
  intros Hnd Hin Hlt. rewrite remap_queue_lookup by done.
  by rewrite filter_eq_NoDup.
Qed.

Lemma remap_queue_lookup_other qm nr st gid :
  gid ∉ nr → _remap_queue qm nr st !!! gid = st !!! gid.
Proof.
  intros Hin. destruct (decide (gid < length st)) as [Hlt|Hge].
  - rewrite remap_queue_lookup by done. by rewrite filter_eq_not_in.
  - rewrite !list_lookup_total_alt, !lookup_ge_None_2; [done| lia |].
    rewrite remap_queue_length. lia.
Qed.

(** ** Inserting the swaps *)

Lemma counter_swap_length counter q qs counter' :
  counter_swap counter q qs = Ok counter' → length counter' = length counter.
Proof.
  unfold counter_swap. destruct (counter !! qs), (counter !! q); try discriminate.
  intros [= <-]. by rewrite !length_insert.
Qed.

Lemma counter_swap_Ok counter q qs :
  q < length counter → qs < length counter → ∃ c, counter_swap counter q qs = Ok c.
Proof.
  intros [a Ha]%lookup_lt_is_Some_2 [b Hb]%lookup_lt_is_Some_2.
  unfold counter_swap. rewrite Ha, Hb. eauto.
Qed.

Section swaps.
Context {order : SetOrder} {sorter : ArgSort}.

Lemma insert_swaps_spec gts avail dq st queue counter qm dq' st' queue' counter' qm' :
  _insert_swaps gts avail dq st queue counter qm = Ok (dq', st', queue', counter', qm') →
  NoDup gts → (∀ q, q ∈ gts → q ∉ avail) →
  (∃ pairs news,
      dq' = with_swaps_list dq (swaps_list dq ++ pairs)
      ∧ st' = st ++ news ∧ Forall (λ g, gclass g = SWAP) news
      ∧ queue' = queue ++ seq (length st) (length news)
      ∧ length news = length gts ∧ length pairs = length gts)
  ∧ length counter' = length counter
  ∧ (∀ q, q ∈ gts → ∃ qs, qs ∈ avail ∧ qm' !! q = Some qs)
  ∧ (∀ t, t ∉ gts → t ∉ avail → qm' !! t = qm !! t).
Proof.
  revert avail dq st queue counter qm.
  induction gts as [|q gts IH]; intros avail dq st queue counter qm; simpl.
  - intros [= <- <- <- <- <-] _ _. split.
    + exists [], []. rewrite !app_nil_r. destruct dq; by repeat split.
    + split; [done|]. split; [|done]. by intros q ?%elem_of_nil.
  - destruct avail as [|qs avail]; [discriminate|].
    intros Hr Hnd Hdisj. apply bind_Ok in Hr as (counter1 & Hc1 & Hr).
    apply counter_swap_length in Hc1.
    apply NoDup_cons in Hnd as [Hq Hnd].
    apply IH in Hr as ((pairs & news & -> & -> & Hnews & -> & Hln & Hlp) & Hlen & Hmap & Hother);
      [|done|].
    2:{ intros q' Hq' Hin. apply (Hdisj q'); [by right | by right]. }
    split; [|split; [congruence|split]].
    + exists ((Nat.min q qs, Nat.max q qs) :: pairs), (new_SWAP q qs :: news).
      simpl. rewrite <- !app_assoc. simpl. rewrite length_app. simpl.
      replace (length st + 1) with (S (length st)) by lia.
      repeat split; [by constructor | lia | lia].
    + intros q' [->|Hq']%elem_of_cons.
      * exists qs. split; [by left|].
        rewrite Hother; [| done | ].
        -- rewrite lookup_insert_ne; [by rewrite lookup_insert_eq|].
           intros ->. apply (Hdisj q); by left.
        -- intros Hin. apply (Hdisj q); [by left | by right].
      * destruct (Hmap q' Hq') as (qs' & Hqs' & Hm). exists qs'. split; [by right|done].
    + intros t Ht Hta. rewrite Hother.
      * rewrite !lookup_insert_ne; [done | |]; intros ->.
        -- apply Ht. by left.
        -- apply Hta. by left.
      * intros Hin. apply Ht. by right.
      * intros Hin. apply Hta. by right.
Qed.

Lemma insert_swaps_Ok gts avail dq st queue counter qm :
  length gts ≤ length avail →
  Forall (λ q, q < length counter) gts →
  Forall (λ q, q < length counter) avail →
  ∃ r, _insert_swaps gts avail dq st queue counter qm = Ok r.
Proof.
  revert avail dq st queue counter qm.
  induction gts as [|q gts IH]; intros avail dq st queue counter qm Hlen Hg Ha; simpl.
  - eauto.
  - destruct avail as [|qs avail]; [simpl in Hlen; lia|].
    apply Forall_cons in Hg as [Hq Hg]. apply Forall_cons in Ha as [Hqs Ha].
    destruct (counter_swap_Ok counter q qs Hq Hqs) as [c1 Hc1].
    rewrite Hc1. simpl. apply counter_swap_length in Hc1.
    apply IH; [simpl in Hlen; lia | by rewrite Hc1 | by rewrite Hc1].
Qed.

End swaps.

(** ** [argsort] *)

Section argsort.
Context {sorter : ArgSort}.

Lemma argsort_NoDup counter : NoDup (argsort counter).
Proof. rewrite argsort_perm. apply NoDup_seq. Qed.

Lemma argsort_elem_of counter q : q ∈ argsort counter ↔ q < length counter.
Proof. rewrite argsort_perm, elem_of_seq. lia. Qed.

Lemma argsort_length counter : length (argsort counter) = length counter.
Proof. by rewrite argsort_perm, length_seq. Qed.

End argsort.

(** ** One reconfiguration *)

Lemma NoDup_singleton_eq (l : list nat) p :
  NoDup l → (∀ x, x ∈ l ↔ x = p) → l = [p].
Proof.
  intros Hnd Hl. destruct l as [|a l].
  - exfalso. eapply elem_of_nil, Hl. done.
  - assert (a = p) as -> by (apply Hl; by left).
    destruct l as [|b l]; [done|].
    assert (b = p) as -> by (apply Hl; right; by left).
    apply NoDup_cons in Hnd as [Hp _]. exfalso. apply Hp. by left.
Qed.

Lemma global_targets_elem_of dq g q :
  q ∈ global_targets dq g ↔ q ∈ target_qubits g ∧ q ∈ global_qubits_set dq.
Proof.
  unfold global_targets. rewrite list_elem_of_filter, elem_of_remove_dups. tauto.
Qed.

Lemma global_targets_NoDup dq g : NoDup (global_targets dq g).
Proof. apply NoDup_filter, NoDup_remove_dups. Qed.

Section reconfigure.
Context {order : SetOrder} {sorter : ArgSort}.

Lemma set_iter_elem_of l x : x ∈ set_iter l ↔ x ∈ l.
Proof. by rewrite set_iter_perm. Qed.

Lemma set_iter_NoDup l : NoDup l → NoDup (set_iter l).
Proof. by rewrite set_iter_perm. Qed.

Lemma set_iter_length l : length (set_iter l) = length l.
Proof. by rewrite set_iter_perm. Qed.

Lemma set_iter_nil_inv l : set_iter l = [] → l = [].
Proof.
  intros Hl. apply Permutation_nil_r. rewrite <- Hl. symmetry. apply set_iter_perm.
Qed.

Lemma swap_targets_spec dq g gts ts :
  _swap_targets dq g = Ok (gts, ts) →
  NoDup gts
  ∧ (∀ q, q ∈ gts → q ∈ global_qubits_set dq)
  ∧ (∀ t, t ∈ ts → t ∈ target_qubits g)
  ∧ (if is_SWAP g
     then ∃ p q, gts = [q] ∧ p ≠ q ∧ p ∈ global_qubits_set dq ∧ p ∈ target_qubits g
                 ∧ (∀ t, t ∈ target_qubits g → t ∈ global_qubits_set dq → t = p ∨ t = q)
                 ∧ (∀ t, t ∈ target_qubits g → t = p ∨ t ∈ ts)
                 ∧ q ∈ target_qubits g
     else (∀ t, t ∈ target_qubits g → t ∈ global_qubits_set dq → t ∈ gts)
          ∧ (∀ t, t ∈ target_qubits g → t ∈ ts)).
Proof.
  unfold _swap_targets.
  assert (NoDup (set_iter (global_targets dq g))) as Hnd
    by apply set_iter_NoDup, global_targets_NoDup.
  assert (∀ q, q ∈ set_iter (global_targets dq g)
               ↔ q ∈ target_qubits g ∧ q ∈ global_qubits_set dq) as Hin.
  { intros q. by rewrite set_iter_elem_of, global_targets_elem_of. }
  assert (∀ t, t ∈ set_iter (remove_dups (target_qubits g)) ↔ t ∈ target_qubits g) as Hts.
  { intros t. by rewrite set_iter_elem_of, elem_of_remove_dups. }
  destruct (is_SWAP g).
  - case_bool_decide as Hlen; [|discriminate].
    destruct (set_iter (remove_dups (target_qubits g))) as [|p ts'] eqn:Ets; [discriminate|].
    case_bool_decide as Hp; [|discriminate].
    intros [= <- <-].
    set (gl := set_iter (global_targets dq g)) in *.
    assert (∃ q, filter (λ q, q ≠ p) gl = [q] ∧ q ≠ p ∧ q ∈ gl
                 ∧ ∀ t, t ∈ gl → t = p ∨ t = q) as (q & Hq & Hqp & Hqin & Hall).
    { destruct gl as [|a [|b [|c gl]]]; simpl in Hlen; try lia.
      apply NoDup_cons in Hnd as [Hab _]. rewrite not_elem_of_cons in Hab.
      destruct Hab as [Hab _].
      apply elem_of_cons in Hp as [-> | Hp].
      - exists b. rewrite filter_cons_False by (intros Hx; by apply Hx).
        rewrite filter_cons_True by congruence.
        rewrite filter_nil. repeat split; [congruence | right; by left |].
        intros t. rewrite !elem_of_cons, elem_of_nil. tauto.
      - apply list_elem_of_singleton in Hp as ->.
        exists a. rewrite filter_cons_True by congruence.
        rewrite filter_cons_False by (intros Hx; by apply Hx).
        rewrite filter_nil. repeat split; [congruence | by left |].
        intros t. rewrite !elem_of_cons, elem_of_nil. tauto. }
    rewrite Hq. split; [apply NoDup_singleton|]. split.
    { intros q' ->%list_elem_of_singleton. by apply Hin. }
    split.
    { intros t Ht. apply Hts. by right. }
    exists p, q. repeat split; [congruence | by apply Hin | by apply Hin | | |].
    + intros t Ht HG. apply Hall, Hin. done.
    + intros t Ht. apply Hts in Ht. apply elem_of_cons in Ht. tauto.
    + by apply Hin.
  - intros [= <- <-]. split; [done|]. split; [intros q Hq; by apply Hin|].
    split; [intros t Ht; by apply Hts|].
    split; [intros t Ht HG; by apply Hin | intros t Ht; by apply Hts].
Qed.

Lemma available_swaps_spec dq ts counter qs :
  qs ∈ available_swaps dq ts counter ↔
  qs < length counter ∧ ¬ qs ∈ global_qubits_set dq ∧ ¬ qs ∈ ts.
Proof.
  unfold available_swaps. rewrite list_elem_of_filter, argsort_elem_of. tauto.
Qed.

Lemma available_swaps_NoDup dq ts counter : NoDup (available_swaps dq ts counter).
Proof. apply NoDup_filter, argsort_NoDup. Qed.

Lemma reconfigure_spec dq st queue counter nr hid dq' st' queue' counter' :
  _reconfigure dq st queue counter nr hid = Ok (dq', st', queue', counter') →
  ∃ gts ts pairs news qm,
    _swap_targets dq (st !!! hid) = Ok (gts, ts)
    ∧ dq' = with_swaps_list dq (swaps_list dq ++ pairs)
    ∧ st' = _remap_queue qm nr (st ++ news)
    ∧ Forall (λ g, gclass g = SWAP) news
    ∧ queue' = queue ++ seq (length st) (length news)
    ∧ length news = length gts ∧ length pairs = length gts
    ∧ length counter' = length counter
    ∧ (∀ q, q ∈ gts → ∃ qs, qs ∈ available_swaps dq ts counter ∧ qm !! q = Some qs)
    ∧ (∀ t, t ∉ gts → t ∉ available_swaps dq ts counter → qm !! t = None).
Proof.
  unfold _reconfigure. intros Hr.
  apply bind_Ok in Hr as ([gts ts] & Hst & Hr).
  apply bind_Ok in Hr as ([[[[dq1 st1] queue1] counter1] qm] & Hins & [= <- <- <- <-]).
  pose proof (swap_targets_spec _ _ _ _ Hst) as (Hnd & HG & _ & _).
  apply insert_swaps_spec in Hins
    as ((pairs & news & -> & -> & Hnews & -> & Hln & Hlp) & Hlen & Hmap & Hother);
    [|done|].
  2:{ intros q Hq Hin. apply available_swaps_spec in Hin as (_ & HnG & _). auto. }
  exists gts, ts, pairs, news, qm. repeat split; done.
Qed.

(** After a reconfiguration the head of the deferred queue passes the
    acceptance test, provided its object occurs once in the queue. *)
Lemma reconfigure_head_ready dq st queue counter nr hid dq' st' queue' counter' :
  _reconfigure dq st queue counter nr hid = Ok (dq', st', queue', counter') →
  hid < length st →
  filter (λ x, x = hid) nr = [hid] →
  accept_alone dq (st' !!! hid) = true.
Proof.
  intros Hr Hlive Honce.
  apply reconfigure_spec in Hr
    as (gts & ts & pairs & news & qm & Hst & -> & -> & Hnews & -> & Hln & Hlp & Hlen
        & Hmap & Hother).
  rewrite remap_queue_lookup by (rewrite length_app; lia).
  rewrite Honce. simpl. rewrite lookup_total_app_l by done.
  set (g := st !!! hid) in *.
  apply swap_targets_spec in Hst as (Hnd & HG & _ & Hcase).
  assert (∀ q, q ∈ gts → remap qm q ∉ global_qubits_set dq) as Hout.
  { intros q Hq. destruct (Hmap q Hq) as (qs & Hqs & Hm).
    unfold remap. rewrite Hm. simpl. by apply available_swaps_spec in Hqs as (_&?&_). }
  assert (∀ t, t ∉ gts → t ∈ global_qubits_set dq ∨ t ∈ ts → remap qm t = t) as Hstay.
  { intros t Ht Hor. unfold remap. rewrite Hother; [done|done|].
    rewrite available_swaps_spec. intros (_ & HnG & Hnts). tauto. }
  unfold accept_alone.
  assert (is_SWAP (remap_gate qm g) = is_SWAP g) as -> by done.
  destruct (is_SWAP g) eqn:Hsw.
  - destruct Hcase as (p & q & -> & Hpq & HpG & Hpt & Hglob & Hall & _).
    assert (global_targets dq (remap_gate qm g) = [p]) as ->; [|done].
    apply NoDup_singleton_eq; [apply global_targets_NoDup|].
    intros x. rewrite global_targets_elem_of. simpl. rewrite list_elem_of_fmap.
    assert (remap qm p = p) as Hp.
    { apply Hstay; [|by left]. by intros ->%list_elem_of_singleton. }
    split.
    + intros [[t [-> Ht]] HxG].
      destruct (decide (t ∈ global_qubits_set dq)) as [HtG|HtG].
      * destruct (Hglob t Ht HtG) as [-> | ->]; [done|].
        exfalso. apply (Hout q); [by left|done].
      * destruct (Hall t Ht) as [-> | Hts]; [done|].
        rewrite Hstay in HxG; [done| |by right].
        intros ->%list_elem_of_singleton. apply HtG, HG. by left.
    + intros ->. split; [|done]. exists p. done.
  - destruct Hcase as [Hglob Hall].
    assert (global_targets dq (remap_gate qm g) = []) as ->; [|done].
    apply filter_none, Forall_forall. intros x Hx.
    rewrite elem_of_remove_dups in Hx. simpl in Hx.
    apply list_elem_of_fmap in Hx as [t [-> Ht]].
    destruct (decide (t ∈ global_qubits_set dq)) as [HtG|HtG].
    + apply Hout, Hglob; done.
    + rewrite Hstay; [done| |right; by apply Hall].
      intros Hin. apply HtG, HG, Hin.
Qed.

End reconfigure.

(** ** The transformer keeps the accepted gates swap-normal *)

Lemma swap_normal_iff dq g :
  swap_normal dq g = true ↔ (gclass g ≠ SWAP → no_global_target dq g).
Proof.
  unfold swap_normal, is_SWAP, no_global_target.
  rewrite orb_true_iff, !bool_decide_eq_true. split.
  - intros [Hs|Hg] Hn; [done|]. intros q Hq HG.
    eapply elem_of_nil. rewrite <- Hg. by apply global_targets_elem_of.
  - intros Hn. destruct (decide (gclass g = SWAP)) as [|Hne]; [by left|right].
    apply filter_none, Forall_forall. intros q Hq.
    rewrite elem_of_remove_dups in Hq. by apply Hn.
Qed.

Lemma live_app st l1 l2 : live st (l1 ++ l2) ↔ live st l1 ∧ live st l2.
Proof. apply Forall_app. Qed.

Lemma live_mono st st' l : length st ≤ length st' → live st l → live st' l.
Proof. intros Hle Hl. eapply Forall_impl; [exact Hl|]. simpl. intros. lia. Qed.

Lemma live_sublist st l1 l2 : sublist l1 l2 → live st l2 → live st l1.
Proof.
  intros Hs Hl. unfold live in *. rewrite Forall_forall in *.
  intros gid Hg. apply Hl. by eapply elem_of_sublist.
Qed.

Lemma live_seq (st : store) (news : store) :
  live (st ++ news) (seq (length st) (length news)).
Proof.
  apply Forall_forall. intros gid Hg. apply elem_of_seq in Hg.
  rewrite length_app. lia.
Qed.

(** One unfolding of [_transform]. *)
Lemma transform_rec_unfold {order : SetOrder} {sorter : ArgSort} commutes fuel dq st queue rem counter :
  _transform commutes (S fuel) dq st queue rem counter
  = match _transform_pass commutes dq rem st queue counter [] with
    | Err e => Some (Err e)
    | Ok (st, queue, counter, new_remaining_queue) =>
        match new_remaining_queue with
        | [] => Some (Ok (dq, st, queue, counter))
        | hid :: _ =>
            match _reconfigure dq st queue counter new_remaining_queue hid with
            | Err e => Some (Err e)
            | Ok (dq, st, queue, counter) =>
                _transform commutes fuel dq st queue new_remaining_queue counter
            end
        end
    end.
Proof. reflexivity. Qed.

Section transform.
Context {order : SetOrder} {sorter : ArgSort}.
Variable commutes : gate → gate → bool.

Lemma transform_pass_inv dq rem st queue counter nr st' queue' counter' nr' :
  _transform_pass commutes dq rem st queue counter nr
  = Ok (st', queue', counter', nr') →
  pending_inv dq st queue (nr ++ rem) →
  pending_inv dq st' queue' nr'.
Proof.
  unfold pending_inv. revert st queue counter nr.
  induction rem as [|gid rest IH]; intros st queue counter nr; simpl.
  - intros [= <- <- <- <-]. by rewrite app_nil_r.
  - fold (tag dq st gid). set (st1 := tag dq st gid).
    assert (retagged st st1) as [_ Hst1] by apply retagged_tag.
    intros Hp Hinv.
    assert (Forall (λ gid', swap_normal dq (st1 !!! gid') = true
                            ∨ gid' ∈ nr ++ gid :: rest) queue) as Hinv1.
    { eapply Forall_impl; [exact Hinv|]. simpl. intros gid' [Hn|Hin]; [left|by right].
      rewrite <- Hn. apply same_qubits_swap_normal, Hst1. }
    destruct (accepts commutes dq st1 nr (st1 !!! gid)) eqn:Hacc.
    + apply bind_Ok in Hp as (counter1 & _ & Hp).
      apply (IH _ _ _ _ Hp). apply Forall_app. split.
      * eapply Forall_impl; [exact Hinv1|]. simpl.
        intros gid' [Hn|Hin]; [by left|].
        rewrite elem_of_app, elem_of_cons in Hin.
        destruct Hin as [Hin|[->|Hin]].
        -- right. apply elem_of_app. by left.
        -- left. by eapply accept_alone_swap_normal, accepts_accept_alone.
        -- right. apply elem_of_app. by right.
      * constructor; [|constructor]. left.
        by eapply accept_alone_swap_normal, accepts_accept_alone.
    + apply (IH _ _ _ _ Hp). rewrite <- app_assoc. done.
Qed.

Lemma reconfigure_inv dq st queue counter nr hid dq' st' queue' counter' :
  _reconfigure dq st queue counter nr hid = Ok (dq', st', queue', counter') →
  live st queue →
  pending_inv dq st queue nr →
  pending_inv dq st' queue' nr ∧ live st' queue' ∧ length st ≤ length st'
  ∧ length counter' = length counter
  ∧ ∃ pairs, dq' = with_swaps_list dq (swaps_list dq ++ pairs).
Proof.
  intros Hr Hlive Hinv.
  apply reconfigure_spec in Hr
    as (gts & ts & pairs & news & qm & Hst & -> & -> & Hnews & -> & Hln & Hlp & Hlen
        & Hmap & Hother).
  assert (length (_remap_queue qm nr (st ++ news)) = length st + length news) as Hl.
  { by rewrite remap_queue_length, length_app. }
  split; [|split; [|split; [lia|split; [done|by exists pairs]]]].
  - apply Forall_app. split.
    + unfold pending_inv, live in Hinv, Hlive. rewrite Forall_forall in Hinv, Hlive.
      apply Forall_forall. intros gid Hgid.
      destruct (decide (gid ∈ nr)) as [Hin|Hnin]; [by right|left].
      rewrite remap_queue_lookup_other by done.
      rewrite lookup_total_app_l by by apply Hlive.
      destruct (Hinv gid Hgid); done.
    + apply Forall_forall. intros gid Hgid. left.
      unfold swap_normal, is_SWAP. rewrite remap_queue_lookup_class.
      apply elem_of_seq in Hgid.
      rewrite lookup_total_app_r by lia.
      rewrite Forall_forall in Hnews.
      rewrite (Hnews (news !!! (gid - length st))); [done|].
      apply list_elem_of_lookup_total_2. lia.
  - apply Forall_app. split.
    + eapply live_mono; [|exact Hlive]. lia.
    + unfold live. rewrite Forall_forall. intros gid Hgid.
      apply elem_of_seq in Hgid. lia.
Qed.

Lemma swap_normal_with_swaps dq sw g :
  swap_normal (with_swaps_list dq sw) g = swap_normal dq g.
Proof. done. Qed.

Lemma accept_alone_with_swaps dq sw g :
  accept_alone (with_swaps_list dq sw) g = accept_alone dq g.
Proof. done. Qed.

Lemma with_swaps_list_twice dq sw sw' :
  with_swaps_list (with_swaps_list dq sw) sw' = with_swaps_list dq sw'.
Proof. done. Qed.

Lemma transform_rec_spec fuel dq st queue rem counter dq' st' queue' counter' :
  _transform commutes fuel dq st queue rem counter
  = Some (Ok (dq', st', queue', counter')) →
  live st queue → live st rem → pending_inv dq st queue rem →
  live st' queue'
  ∧ Forall (λ gid, swap_normal dq (st' !!! gid) = true) queue'
  ∧ length st ≤ length st'
  ∧ length counter' = length counter
  ∧ ∃ pairs, dq' = with_swaps_list dq (swaps_list dq ++ pairs).
Proof.
  revert dq st queue rem counter.
  induction fuel as [|fuel IH]; intros dq st queue rem counter; simpl; [discriminate|].
  destruct (_transform_pass commutes dq rem st queue counter [])
    as [[[[st1 queue1] counter1] nr]|e] eqn:Hp; [|discriminate].
  intros Ht Hlq Hlr Hinv.
  pose proof (transform_pass_spec _ _ _ _ _ _ _ _ _ _ _ Hp)
    as ([Hlen1 Hst1] & Hc1 & acc & def & -> & Hnr & Hsub & Hperm & Hacc).
  simpl in Hnr. subst nr.
  pose proof (transform_pass_inv _ _ _ _ _ _ _ _ _ _ Hp Hinv) as Hinv1.
  assert (live st1 (queue ++ acc)) as Hlq1.
  { unfold live in *. rewrite Hlen1. apply Forall_app. split; [done|].
    assert (live st (acc ++ def)) as Hl by (unfold live; by rewrite Hperm).
    by apply live_app in Hl as [? _]. }
  destruct def as [|hid def].
  - injection Ht as <- <- <- <-. split; [done|]. split.
    + unfold pending_inv in Hinv1. eapply Forall_impl; [exact Hinv1|]. simpl.
      intros gid [?|?%elem_of_nil]; done.
    + split; [lia|]. split; [done|]. exists []. rewrite app_nil_r. by destruct dq.
  - destruct (_reconfigure dq st1 (queue ++ acc) counter1 (hid :: def) hid)
      as [[[[dq2 st2] queue2] counter2]|e] eqn:Hr; [|discriminate].
    pose proof (reconfigure_inv _ _ _ _ _ _ _ _ _ _ Hr Hlq1 Hinv1)
      as (Hinv2 & Hlq2 & Hlen2 & Hc2 & pairs & ->).
    apply IH in Ht as (Hl' & Hall & Hlen' & Hc' & pairs' & ->).
    + split; [done|]. split; [done|]. split; [lia|]. split; [congruence|].
      exists (pairs ++ pairs'). simpl. by rewrite app_assoc.
    + done.
    + eapply live_mono; [exact Hlen2|]. unfold live. rewrite Hlen1.
      eapply live_sublist; [exact Hsub|done].
    + done.
Qed.

End transform.

(** ** [create] never meets a non-SWAP gate on a global qubit *)

Lemma benign_bind {A B} (m : result A) (k : A → result B) :
  raises_only_swap m = false → (∀ a, m = Ok a → raises_only_swap (k a) = false) →
  raises_only_swap (m ≫= k) = false.
Proof. destruct m as [a|e]; simpl; [auto | done]. Qed.

Lemma benign_foldM {A B} (f : B → A → result B) (l : list A) (b : B) :
  (∀ b a, raises_only_swap (f b a) = false) →
  raises_only_swap (foldM f l b) = false.
Proof.
  intros Hf. revert b. induction l as [|a l IH]; intros b; simpl; [done|].
  apply benign_bind; auto.
Qed.

Lemma benign_mapM {A B} (f : A → result B) (l : list A) :
  (∀ a, raises_only_swap (f a) = false) →
  raises_only_swap (mapM f l) = false.
Proof.
  intros Hf. induction l as [|a l IH]; simpl; [done|].
  apply benign_bind; [auto|]. intros b _. apply benign_bind; [auto|done].
Qed.

Lemma benign_reduction_scan gl i last q :
  raises_only_swap (reduction_scan gl i last q) = false.
Proof.
  revert i last. induction gl as [|gq gl IH]; intros i last; simpl.
  - by destruct last.
  - by case_bool_decide.
Qed.

Lemma benign_reduced_id gl q : raises_only_swap (reduced_id gl q) = false.
Proof.
  unfold reduced_id. apply benign_bind; [apply benign_reduction_scan|done].
Qed.

Lemma benign_create_reduced_gate dq gid g :
  raises_only_swap (_create_reduced_gate dq gid g) = false.
Proof.
  unfold _create_reduced_gate.
  apply benign_bind; [apply benign_mapM, benign_reduced_id|]. intros ts _.
  apply benign_bind; [apply benign_mapM, benign_reduced_id|]. done.
Qed.

Lemma swap_normal_ext dq dq' g :
  global_qubits_set dq' = global_qubits_set dq →
  swap_normal dq' g = swap_normal dq g.
Proof. intros HG. unfold swap_normal, global_targets. by rewrite HG. Qed.

Section create.
Context {order : SetOrder} {sorter : ArgSort}.

Lemma benign_piece_flag dq controls i :
  raises_only_swap (_piece_flag dq controls i) = false.
Proof.
  induction controls as [|c controls IH]; simpl; [done|].
  apply benign_bind.
  - unfold list_index. by destruct (list_find _ _) as [[? ?]|].
  - intros ic _. by case_bool_decide.
Qed.

Lemma benign_create_standard dq gid g w :
  raises_only_swap (_create_standard dq gid g w) = false.
Proof.
  unfold _create_standard. apply benign_foldM. intros w' [device ids].
  apply benign_bind; [apply benign_create_reduced_gate|]. intros calc _.
  apply benign_foldM. intros w'' i. unfold _append_calc_gate.
  apply benign_bind; [apply benign_piece_flag|]. intros [] _; [|done].
  by destruct (w'' !! i).
Qed.

Lemma create_gate_spec dq st gid dq' st' :
  _create_gate dq st gid = Ok (dq', st') →
  (∃ qs sq, dq' = with_queues dq qs sq) ∧ retagged st st'.
Proof.
  unfold _create_gate. case_bool_decide as Ht.
  - intros [= <- <-]. split; [eauto|]. apply retagged_insert. by repeat split.
  - destruct (set_iter (global_targets dq (st !!! gid))) as [|gq others].
    + destruct (last _) as [w|]; [|discriminate]. intros Hc.
      apply bind_Ok in Hc as (w' & _ & [= <- <-]). split; [eauto|apply retagged_refl].
    + destruct (negb _); [discriminate|]. case_bool_decide; [discriminate|].
      destruct (target_qubits (st !!! gid) !! 0) as [q0|]; [|discriminate].
      intros Hc. apply bind_Ok in Hc as (lq & _ & [= <- <-]).
      split; [eauto|apply retagged_refl].
Qed.

Lemma benign_create_gate dq st gid :
  swap_normal dq (st !!! gid) = true →
  raises_only_swap (_create_gate dq st gid) = false.
Proof.
  intros Hn. unfold _create_gate. case_bool_decide as Ht; [done|].
  destruct (set_iter (global_targets dq (st !!! gid))) as [|gq others] eqn:Hg.
  - destruct (last _) as [w|]; [|done].
    apply benign_bind; [apply benign_create_standard|done].
  - unfold swap_normal in Hn. apply orb_true_iff in Hn as [Hs|Hn].
    + rewrite Hs. simpl. case_bool_decide; [done|].
      destruct (target_qubits (st !!! gid) !! 0) as [q0|]; [|done].
      apply benign_bind; [|done]. case_bool_decide; [|done].
      by destruct (target_qubits (st !!! gid) !! 1).
    + apply bool_decide_eq_true in Hn. rewrite Hn in Hg.
      pose proof (set_iter_perm []) as Hp. rewrite Hg in Hp.
      by apply Permutation_nil_r in Hp.
Qed.

Lemma benign_create dq st queue :
  Forall (λ gid, swap_normal dq (st !!! gid) = true) queue →
  raises_only_swap (create dq st queue) = false.
Proof.
  unfold create. revert dq st. induction queue as [|gid queue IH]; intros dq st Hall; [done|].
  apply Forall_cons in Hall as [Hgid Hall]. simpl.
  apply benign_bind; [by apply benign_create_gate|].
  intros [dq' st'] Hc. apply create_gate_spec in Hc as ((qs & sq & ->) & [_ Hst]).
  apply IH. eapply Forall_impl; [exact Hall|]. simpl. intros gid' <-.
  rewrite (swap_normal_ext dq (with_queues dq qs sq)) by done.
  apply same_qubits_swap_normal, Hst.
Qed.

Variable commutes : gate → gate → bool.

(** C2. Every gate of the queue returned by [transform] that is not a SWAP
    has no target in the global set, the global set is the one the
    [DeviceQueues] started with, and [create] on that queue does not stop
    with "Only SWAP gates are supported for global qubits". *)
Theorem transform_swap_normal fuel dq st queue counter dq' st' queue' :
  live st queue →
  transform commutes fuel dq st queue counter = Some (Ok (dq', st', queue')) →
  Forall (λ gid, gclass (st' !!! gid) ≠ SWAP → no_global_target dq' (st' !!! gid))
         queue'
  ∧ global_qubits_set dq' = global_qubits_set dq
  ∧ raises_only_swap (create dq' st' queue') = false.
Proof.
  intros Hlive. unfold transform.
  destruct (match counter with None => _ | Some c => _ end) as [counter0|e];
    [|discriminate].
  destruct (_transform commutes fuel dq st [] queue counter0)
    as [[[[[dq1 st1] queue1] counter1]|e]|] eqn:Ht; [|discriminate..].
  intros [= <- <- <-].
  apply transform_rec_spec in Ht as (Hl1 & Hall & Hlen & _ & pairs & ->);
    [|constructor|done|constructor].
  set (dq1 := with_swaps_list dq (swaps_list dq ++ pairs)).
  set (tail := (λ p, new_SWAP p.1 p.2) <$> reverse (swaps_list dq1)).
  assert (Forall (λ gid, swap_normal dq1 (((st1 ++ tail) : store) !!! gid) = true)
                 (queue1 ++ seq (length st1) (length tail))) as Hfin.
  { apply Forall_app. split.
    - unfold live in Hl1. rewrite Forall_forall in Hall, Hl1.
      apply Forall_forall. intros gid Hgid.
      rewrite lookup_total_app_l by by apply Hl1.
      unfold dq1. rewrite swap_normal_with_swaps. by apply Hall.
    - apply Forall_forall. intros gid Hgid. apply elem_of_seq in Hgid.
      rewrite lookup_total_app_r by lia.
      assert (tail !!! (gid - length st1) ∈ tail) as Hin
        by (apply list_elem_of_lookup_total_2; lia).
      unfold tail in Hin at 2. apply list_elem_of_fmap in Hin as [p [-> _]]. done. }
  split; [|split; [done|by apply benign_create]].
  eapply Forall_impl; [exact Hfin|]. simpl. intros gid. by rewrite swap_normal_iff.
Qed.

End create.

(** The queue H(0); H(1) on two qubits with the global qubit 0: the new
    queue is H(1); SWAP(0, 1); the rewritten H(0); SWAP(0, 1). *)
Lemma transform_swap_normal_witness :
  live [H 0; H 1] [0; 1]
  ∧ transform (order := cpython_small) (sorter := ties_ascending) (λ _ _, true) 3 partition_2_0 [H 0; H 1] [0; 1] None
    = Some (Ok (with_swaps_list partition_2_0 [(0, 1)],
                [H 1; H 1; new_SWAP 0 1; new_SWAP 0 1], [1; 2; 0; 3]))
  ∧ Forall (λ gid, gclass ([H 1; H 1; new_SWAP 0 1; new_SWAP 0 1] !!! gid) ≠ SWAP →
                   no_global_target partition_2_0
                     ([H 1; H 1; new_SWAP 0 1; new_SWAP 0 1] !!! gid))
           [1; 2; 0; 3]
  ∧ raises_only_swap (create (order := cpython_small)
                        (with_swaps_list partition_2_0 [(0, 1)])
                        [H 1; H 1; new_SWAP 0 1; new_SWAP 0 1] [1; 2; 0; 3]) = false.
Proof.
  assert (live [H 0; H 1] [0; 1]) as Hlive by (repeat constructor).
  assert (transform (order := cpython_small) (sorter := ties_ascending) (λ _ _, true) 3 partition_2_0
            [H 0; H 1] [0; 1] None
          = Some (Ok (with_swaps_list partition_2_0 [(0, 1)],
                      [H 1; H 1; new_SWAP 0 1; new_SWAP 0 1], [1; 2; 0; 3]))) as Heq
    by (vm_compute; reflexivity).
  destruct (transform_swap_normal (order := cpython_small) (sorter := ties_ascending) _ _ _ _ _ _ _ _ _ Hlive Heq)
    as (Hall & _ & Hcreate).
  split; [exact Hlive|]. split; [exact Heq|]. split; [exact Hall | exact Hcreate].
Defined.

(** ** Termination of [_transform] *)

Section termination.
Context {order : SetOrder} {sorter : ArgSort}.
Variable commutes : gate → gate → bool.

(** A head that passes the acceptance test is accepted by the pass. *)
Lemma transform_pass_head dq hid rest st queue counter st' queue' counter' nr' :
  accept_alone dq (st !!! hid) = true →
  _transform_pass commutes dq (hid :: rest) st queue counter []
  = Ok (st', queue', counter', nr') →
  sublist nr' rest.
Proof.
  intros Hacc. simpl. fold (tag dq st hid).
  rewrite accepts_alone.
  rewrite (same_qubits_accept_alone dq (tag dq st hid !!! hid) (st !!! hid))
    by apply retagged_tag.
  rewrite Hacc. intros Hp. apply bind_Ok in Hp as (counter1 & _ & Hp).
  apply transform_pass_spec in Hp as (_ & _ & acc & def & _ & -> & Hsub & _).
  done.
Qed.

Lemma transform_terminates_ready fuel dq st queue rem counter :
  NoDup rem → live st rem → head_ready dq st rem →
  Nat.max (length rem) 1 ≤ fuel →
  ∃ r, _transform commutes fuel dq st queue rem counter = Some r.
Proof.
  revert dq st queue rem counter.
  induction fuel as [|fuel IH]; intros dq st queue rem counter Hnd Hlive Hready Hfuel;
    [lia|]. simpl.
  destruct (_transform_pass commutes dq rem st queue counter [])
    as [[[[st1 queue1] counter1] nr]|e] eqn:Hp; [|eauto].
  destruct nr as [|hid nr]; [eauto|].
  destruct (_reconfigure dq st1 queue1 counter1 (hid :: nr) hid)
    as [[[[dq2 st2] queue2] counter2]|e] eqn:Hr; [|eauto].
  pose proof (transform_pass_spec _ _ _ _ _ _ _ _ _ _ _ Hp)
    as ([Hlen1 _] & _ & acc & def & _ & Hnr & Hsub & _).
  simpl in Hnr. subst def.
  assert (NoDup (hid :: nr)) as Hnd1 by by eapply sublist_NoDup.
  assert (live st1 (hid :: nr)) as Hlive1.
  { unfold live. rewrite Hlen1. by eapply live_sublist. }
  assert (length (hid :: nr) < length rem) as Hshort.
  { destruct rem as [|hid0 rest]; [by apply sublist_nil_r in Hsub|].
    apply transform_pass_head in Hp; [|done].
    apply sublist_length in Hp. simpl in *. lia. }
  pose proof Hr as Hr'.
  apply reconfigure_head_ready in Hr'.
  2:{ by apply Forall_cons in Hlive1 as [? _]. }
  2:{ apply filter_eq_NoDup; [done|by left]. }
  apply reconfigure_spec in Hr
    as (gts & ts & pairs & news & qm & _ & -> & -> & _ & -> & _ & _ & _ & _ & _).
  apply IH; [done | | done | simpl in *; lia].
  eapply live_mono; [|exact Hlive1]. rewrite remap_queue_length, length_app. lia.
Qed.

Lemma transform_rec_terminates dq st queue rem counter :
  NoDup rem → live st rem →
  ∃ r, _transform commutes (S (length rem)) dq st queue rem counter = Some r.
Proof.
  intros Hnd Hlive. simpl.
  destruct (_transform_pass commutes dq rem st queue counter [])
    as [[[[st1 queue1] counter1] nr]|e] eqn:Hp; [|eauto].
  destruct nr as [|hid nr]; [eauto|].
  destruct (_reconfigure dq st1 queue1 counter1 (hid :: nr) hid)
    as [[[[dq2 st2] queue2] counter2]|e] eqn:Hr; [|eauto].
  pose proof (transform_pass_spec _ _ _ _ _ _ _ _ _ _ _ Hp)
    as ([Hlen1 _] & _ & acc & def & _ & Hnr & Hsub & _).
  simpl in Hnr. subst def.
  assert (NoDup (hid :: nr)) as Hnd1 by by eapply sublist_NoDup.
  assert (live st1 (hid :: nr)) as Hlive1.
  { unfold live. rewrite Hlen1. by eapply live_sublist. }
  pose proof Hr as Hr'.
  apply reconfigure_head_ready in Hr'.
  2:{ by apply Forall_cons in Hlive1 as [? _]. }
  2:{ apply filter_eq_NoDup; [done|by left]. }
  apply reconfigure_spec in Hr
    as (gts & ts & pairs & news & qm & _ & -> & -> & _ & -> & _ & _ & _ & _ & _).
  apply transform_terminates_ready; [done | | done |].
  - eapply live_mono; [|exact Hlive1]. rewrite remap_queue_length, length_app. lia.
  - apply sublist_length in Hsub. simpl in *. lia.
Qed.

(** Once [_transform] has returned, more fuel does not change its result. *)
Lemma transform_rec_fuel_mono fuel fuel' dq st queue rem counter r :
  _transform commutes fuel dq st queue rem counter = Some r →
  fuel ≤ fuel' →
  _transform commutes fuel' dq st queue rem counter = Some r.
Proof.
  revert fuel' dq st queue rem counter.
  induction fuel as [|fuel IH]; intros fuel' dq st queue rem counter; [discriminate|].
  destruct fuel' as [|fuel']; [lia|]. rewrite !transform_rec_unfold.
  destruct (_transform_pass commutes dq rem st queue counter [])
    as [[[[st1 queue1] counter1] nr]|e]; [|done].
  destruct nr as [|hid nr]; [done|].
  destruct (_reconfigure dq st1 queue1 counter1 (hid :: nr) hid)
    as [[[[dq2 st2] queue2] counter2]|e]; [|done].
  intros Ht Hle. apply IH; [done|lia].
Qed.

(** On a queue of pairwise distinct gate objects [transform]
    terminates, with a result or an exception, within [|Q| + 1] invocations
    of [_transform], and more fuel gives the same result; and after every
    reconfiguration the next pass accepts the head of the deferred queue, so
    each recursive invocation leaves a strictly shorter deferred queue. *)
Theorem transform_terminates dq st queue counter :
  NoDup queue → live st queue →
  (∃ r, transform commutes (S (length queue)) dq st queue counter = Some r
        ∧ ∀ fuel, S (length queue) ≤ fuel →
                  transform commutes fuel dq st queue counter = Some r)
  ∧ (∀ dq0 st0 queue0 counter0 nr hid dq1 st1 queue1 counter1 st2 queue2 counter2 nr2,
       sublist (hid :: nr) queue → live st0 (hid :: nr) →
       _reconfigure dq0 st0 queue0 counter0 (hid :: nr) hid
       = Ok (dq1, st1, queue1, counter1) →
       _transform_pass commutes dq1 (hid :: nr) st1 queue1 counter1 []
       = Ok (st2, queue2, counter2, nr2) →
       length nr2 < length (hid :: nr)).
Proof.
  intros Hnd Hlive. split.
  - unfold transform.
    destruct (match counter with None => _ | Some c => _ end) as [counter0|e]; [|eauto].
    destruct (transform_rec_terminates dq st [] queue counter0 Hnd Hlive) as [r Hr].
    rewrite Hr.
    assert (∀ fuel, S (length queue) ≤ fuel →
                    _transform commutes fuel dq st [] queue counter0 = Some r) as Hmore
      by (intros fuel Hle; by eapply transform_rec_fuel_mono).
    destruct r as [[[[dq1 st1] queue1] counter1]|e];
      (eexists; split; [reflexivity|]; intros fuel Hle; by rewrite Hmore).
  - intros dq0 st0 queue0 counter0 nr hid dq1 st1 queue1 counter1 st2 queue2 counter2
           nr2 Hsub Hlive0 Hr Hp.
    assert (NoDup (hid :: nr)) as Hnd0 by by eapply sublist_NoDup.
    pose proof Hr as Hr'.
    apply reconfigure_head_ready in Hr'.
    2:{ by apply Forall_cons in Hlive0 as [? _]. }
    2:{ apply filter_eq_NoDup; [done|by left]. }
    apply reconfigure_spec in Hr
      as (gts & ts & pairs & news & qm & _ & -> & -> & _ & -> & _ & _ & _ & _ & _).
    apply transform_pass_head in Hp; [|done].
    apply sublist_length in Hp. simpl. lia.
Qed.

End termination.

(** The queue H(0); H(1) of two distinct objects. *)
Lemma transform_terminates_witness :
  NoDup [0; 1] ∧ live [H 0; H 1] [0; 1]
  ∧ ∃ r, transform (order := cpython_small) (sorter := ties_ascending) (λ _ _, true) (S (length [0; 1]))
           partition_2_0 [H 0; H 1] [0; 1] None = Some r
         ∧ ∀ fuel, S (length [0; 1]) ≤ fuel →
                   transform (order := cpython_small) (sorter := ties_ascending) (λ _ _, true) fuel
                             partition_2_0 [H 0; H 1] [0; 1] None = Some r.
Proof.
  assert (NoDup [0; 1]) as Hnd by (apply (bool_decide_unpack _); vm_compute; exact I).
  assert (live [H 0; H 1] [0; 1]) as Hlive by (repeat constructor).
  split; [exact Hnd|]. split; [exact Hlive|].
  exact (proj1 (transform_terminates (order := cpython_small) (sorter := ties_ascending) (λ _ _, true)
                  partition_2_0 [H 0; H 1] [0; 1] None Hnd Hlive)).
Defined.

(** *** A repeated gate object *)

Lemma alias_available {sorter : ArgSort} sw a b :
  available_swaps (with_swaps_list partition_2_0 sw) [0] [a; b] = [1].
Proof.
  apply NoDup_singleton_eq; [apply available_swaps_NoDup|].
  intros q. rewrite available_swaps_spec. simpl.
  rewrite elem_of_singleton, list_elem_of_singleton. lia.
Qed.

Lemma alias_remap :
  remap_gate (<[1 := 0]> (<[0 := 1]> ∅)) (H 0) = H 1
  ∧ remap_gate (<[1 := 0]> (<[0 := 1]> ∅)) (H 1) = H 0.
Proof. split; vm_compute; reflexivity. Qed.

Lemma alias_reconfigure {sorter : ArgSort} sw st queue a b :
  _reconfigure (order := cpython_small) (with_swaps_list partition_2_0 sw)
               (H 0 :: st) queue [a; b] [0; 0] 0
  = Ok (with_swaps_list partition_2_0 (sw ++ [(0, 1)]),
        H 0 :: (st ++ [new_SWAP 0 1]), queue ++ [S (length st)], [b; a]).
Proof.
  unfold _reconfigure.
  assert (_swap_targets (order := cpython_small) (with_swaps_list partition_2_0 sw)
            ((H 0 :: st) !!! 0) = Ok ([0], [0])) as -> by (vm_compute; reflexivity).
  simpl. rewrite alias_available. simpl.
  destruct alias_remap as [-> ->]. reflexivity.
Qed.

Lemma alias_loops {sorter : ArgSort} fuel sw st queue a b :
  _transform (order := cpython_small) (λ _ _, true) fuel
             (with_swaps_list partition_2_0 sw) (H 0 :: st) queue [0; 0] [a; b]
  = None.
Proof.
  revert sw st queue a b. induction fuel as [|fuel IH]; intros sw st queue a b; [done|].
  rewrite transform_rec_unfold.
  assert (_transform_pass (λ _ _, true) (with_swaps_list partition_2_0 sw) [0; 0]
            (H 0 :: st) queue [a; b] []
          = Ok (H 0 :: st, queue, [a; b], [0; 0])) as -> by (vm_compute; reflexivity).
  rewrite alias_reconfigure. apply IH.
Qed.

(** The counters 2 and 3 are in ascending order whatever [argsort] does with
    equal values. *)
Lemma argsort_2_3 {sorter : ArgSort} : argsort [2; 3]%Z = [0; 1].
Proof.
  pose proof (argsort_perm [2; 3]%Z) as Hp.
  pose proof (argsort_ascending [2; 3]%Z 0 1) as Ha.
  pose proof (Permutation_length Hp) as Hl.
  destruct (argsort [2; 3]%Z) as [|x [|y [|z l]]]; [done..| |done].
  assert (x ∈ [0; 1] ∧ y ∈ [0; 1] ∧ x ≠ y) as (Hx & Hy & Hne).
  { split; [|split].
    - change [0; 1] with (seq 0 (length [2; 3]%Z)). rewrite <- Hp. by left.
    - change [0; 1] with (seq 0 (length [2; 3]%Z)). rewrite <- Hp. right. by left.
    - assert (NoDup [x; y]) as Hnd by (rewrite Hp; apply NoDup_seq).
      apply NoDup_cons in Hnd as [Hn _]. intros ->. apply Hn. by left. }
  specialize (Ha x y ltac:(lia) eq_refl eq_refl).
  rewrite !elem_of_cons, !elem_of_nil in Hx, Hy.
  destruct Hx as [-> | [-> | []]], Hy as [-> | [-> | []]]; try done;
    simpl in Ha; lia.
Qed.

(** C9. The failing inputs. Two qubits on two devices. The gate object H(0)
    is added twice and a gate H(1) three times, so qubit 0 has the smaller
    counter and [set_gates] makes it global; or [transform] is called for
    the global qubit 0 on the queue that holds H(0) twice. The loop of
    lines 198-203 rewrites the object once per occurrence, so the second
    rewriting undoes the first; the head is deferred again with its old
    target, and no number of invocations of [_transform] is enough (in
    particular not [|Q| + 1]), whatever order [argsort] gives to equal
    counters. *)
Lemma transform_repeated_object_diverges :
  live [H 0] [0; 0]
  ∧ (∀ (sorter : ArgSort),
       transform (order := cpython_small) (λ _ _, true) (S (length [0; 0]))
                 partition_2_0 [H 0] [0; 0] None = None)
  ∧ (∀ (sorter : ArgSort) fuel,
       transform (order := cpython_small) (λ _ _, true) fuel
                 partition_2_0 [H 0] [0; 0] None = None)
  ∧ ∀ (sorter : ArgSort) fuel,
      TDC.set_gates (order := cpython_small) (λ _ _, true) fuel
                    (circuit_with_queue plain_circuit_2 [0; 0; 1; 1; 1]) [H 0; H 1]
      = None.
Proof.
  assert (∀ (sorter : ArgSort) fuel,
            transform (order := cpython_small) (λ _ _, true) fuel
                      partition_2_0 [H 0] [0; 0] None = None) as Hloop.
  { intros sorter fuel. unfold transform.
    assert (count [H 0] [0; 0] (nqubits partition_2_0) = Ok [2; 0]%Z) as ->
      by (vm_compute; reflexivity).
    change partition_2_0 with (with_swaps_list partition_2_0 []).
    by rewrite alias_loops. }
  split; [repeat constructor|]. split; [intros sorter; apply Hloop|].
  split; [exact Hloop|].
  intros sorter fuel.
  set (c := circuit_with_queue plain_circuit_2 [0; 0; 1; 1; 1]).
  assert (TDC.set_global_qubits c [0]
          = Ok (TDC.mk 2 2 1 1 "/CPU:0" (one_gpu 2) [0; 0; 1; 1; 1]
                       (Some partition_2_0) [0; 1] [0; 1])) as Hset
    by (vm_compute; reflexivity).
  unfold TDC.set_gates. rewrite bool_decide_eq_false_2 by done.
  assert (count [H 0; H 1] (TDC.queue c) (TDC.nqubits c) = Ok [2; 3]%Z) as ->
    by (vm_compute; reflexivity).
  change (TDC.queues c) with (@None DeviceQueues.t).
  change (TDC.nglobal c) with 1.
  rewrite argsort_2_3. change (take 1 [0; 1]) with [0].
  rewrite Hset. cbn [TDC.queues TDC.queue].
  assert (transform (order := cpython_small) (λ _ _, true) fuel partition_2_0
            [H 0; H 1] [0; 0; 1; 1; 1] (Some [2; 3]%Z) = None) as ->; [|done].
  unfold transform. destruct fuel as [|fuel]; [done|].
  rewrite transform_rec_unfold.
  assert (_transform_pass (λ _ _, true) partition_2_0 [0; 0; 1; 1; 1]
            [H 0; H 1] [] [2; 3]%Z []
          = Ok ([H 0; H 1], [1; 1; 1], [2; 0]%Z, [0; 0])) as ->
    by (vm_compute; reflexivity).
  change partition_2_0 with (with_swaps_list partition_2_0 []).
  rewrite alias_reconfigure. by rewrite alias_loops.
Qed.

(** ** The objects of the transformed queue *)

Lemma accept_alone_ext dq g g' :
  gclass g = gclass g' → target_qubits g = target_qubits g' →
  accept_alone dq g = accept_alone dq g'.
Proof.
  intros Hc Ht. unfold accept_alone, is_SWAP, global_targets. by rewrite Hc, Ht.
Qed.

Section objects.
Context {order : SetOrder} {sorter : ArgSort}.
Variable commutes : gate → gate → bool.

(** The new queue holds the gate objects of the old one and the SWAP objects
    created on the way; no gate is copied. *)
Lemma transform_rec_objects fuel dq st queue rem counter dq' st' queue' counter' :
  _transform commutes fuel dq st queue rem counter
  = Some (Ok (dq', st', queue', counter')) →
  length st ≤ length st'
  ∧ queue' ≡ₚ queue ++ rem ++ seq (length st) (length st' - length st).
Proof.
  revert dq st queue rem counter.
  induction fuel as [|fuel IH]; intros dq st queue rem counter; [discriminate|].
  rewrite transform_rec_unfold.
  destruct (_transform_pass commutes dq rem st queue counter [])
    as [[[[st1 queue1] counter1] nr]|e] eqn:Hp; [|discriminate].
  apply transform_pass_spec in Hp
    as ([Hlen1 _] & _ & acc & def & -> & Hnr & _ & Hperm & _).
  simpl in Hnr. subst nr.
  destruct def as [|hid def].
  - intros [= <- <- <- <-]. split; [lia|].
    rewrite Hlen1, Nat.sub_diag. simpl. rewrite !app_nil_r in *. by rewrite Hperm.
  - destruct (_reconfigure dq st1 (queue ++ acc) counter1 (hid :: def) hid)
      as [[[[dq2 st2] queue2] counter2]|e] eqn:Hr; [|discriminate].
    apply reconfigure_spec in Hr
      as (gts & ts & pairs & news & qm & _ & -> & -> & _ & -> & _ & _ & _ & _ & _).
    intros Ht. apply IH in Ht as [Hlen Hq].
    rewrite remap_queue_length, length_app in Hlen, Hq.
    split; [lia|]. rewrite Hq, <- Hperm, <- Hlen1.
    replace (length st' - length st1)
      with (length news + (length st' - (length st1 + length news))) by lia.
    rewrite seq_app, <- !app_assoc.
    apply Permutation_app_head, Permutation_app_head.
    rewrite !app_assoc. apply Permutation_app_tail, Permutation_app_comm.
Qed.

End objects.

(** ** A SWAP on two global qubits at the head of the deferred queue *)

Section global_swap.
Context {order : SetOrder} {sorter : ArgSort}.

Lemma swap_targets_global_swap dq g a b :
  gclass g = SWAP → target_qubits g = [a; b] → a ≠ b →
  a ∈ global_qubits_set dq → b ∈ global_qubits_set dq →
  ∃ gts ts, _swap_targets dq g = Ok (gts, ts).
Proof.
  intros Hc Ht Hab Ha Hb. unfold _swap_targets, is_SWAP.
  rewrite bool_decide_eq_true_2 by done.
  assert (global_targets dq g ≡ₚ [a; b]) as Hg.
  { apply NoDup_Permutation; [apply global_targets_NoDup | |].
    - apply NoDup_cons. split; [by intros ?%list_elem_of_singleton|].
      apply NoDup_singleton.
    - intros x. rewrite global_targets_elem_of, Ht, !elem_of_cons, elem_of_nil.
      split; [tauto|]. intros [-> | [-> | []]]; tauto. }
  rewrite bool_decide_eq_true_2 by by rewrite set_iter_length, Hg.
  destruct (set_iter (remove_dups (target_qubits g))) as [|p ts] eqn:Ets.
  - apply set_iter_nil_inv in Ets.
    assert (a ∈ remove_dups (target_qubits g)) as Hin
      by (rewrite elem_of_remove_dups, Ht; by left).
    rewrite Ets in Hin. by apply elem_of_nil in Hin.
  - rewrite bool_decide_eq_true_2; [eauto|].
    rewrite set_iter_elem_of, Hg.
    assert (p ∈ set_iter (remove_dups (target_qubits g))) as Hp
      by (rewrite Ets; by left).
    by rewrite set_iter_elem_of, elem_of_remove_dups, Ht in Hp.
Qed.

End global_swap.

(** ** The initial choice of the global qubits *)

Lemma seq_sorted a n : StronglySorted lt (seq a n).
Proof.
  revert a. induction n as [|n IH]; intros a; simpl; constructor; [apply IH|].
  apply Forall_forall. intros x Hx. apply elem_of_seq in Hx. lia.
Qed.

(** The first [k] ids of [argsort] against the others. *)
Lemma argsort_take {sorter : ArgSort} counter k s u :
  s ∈ take k (argsort counter) → u < length counter →
  u ∉ take k (argsort counter) →
  (counter !!! s ≤ counter !!! u)%Z.
Proof.
  intros Hs Hu Hnu.
  apply list_elem_of_lookup in Hs as [i Hi].
  apply lookup_take_Some in Hi as [Hi Hik].
  apply argsort_elem_of, list_elem_of_lookup in Hu as [j Hj].
  assert (k ≤ j) as Hkj.
  { destruct (decide (k ≤ j)) as [|Hn]; [done|]. exfalso. apply Hnu.
    apply list_elem_of_lookup. exists j. apply lookup_take_Some. split; [done|lia]. }
  apply (argsort_ascending counter i j s u); [lia|done..].
Qed.

Lemma count_length st queue N counter :
  count st queue N = Ok counter → length counter = N.
Proof.
  unfold count.
  apply (foldM_invariant (λ c : list Z, length c = N)).
  - intros c gid c' Hc Hadd. apply counter_add_all_length in Hadd. congruence.
  - apply length_replicate.
Qed.

Lemma create_global_set {order : SetOrder} dq st queue dq' st' :
  create dq st queue = Ok (dq', st') →
  global_qubits_set dq' = global_qubits_set dq.
Proof.
  unfold create. revert dq st. induction queue as [|gid queue IH]; intros dq st; simpl.
  - by intros [= <- <-].
  - intros Hc. apply bind_Ok in Hc as ([dq1 st1] & Hg & Hc).
    apply create_gate_spec in Hg as ((qs & sq & ->) & _).
    by apply IH in Hc as ->.
Qed.

Section initial.
Context {order : SetOrder} {sorter : ArgSort}.
Variable commutes : gate → gate → bool.

Lemma transform_rec_frame fuel dq st queue rem counter dq' st' queue' counter' :
  _transform commutes fuel dq st queue rem counter
  = Some (Ok (dq', st', queue', counter')) →
  ∃ pairs, dq' = with_swaps_list dq (swaps_list dq ++ pairs).
Proof.
  revert dq st queue rem counter.
  induction fuel as [|fuel IH]; intros dq st queue rem counter; [discriminate|].
  rewrite transform_rec_unfold.
  destruct (_transform_pass commutes dq rem st queue counter [])
    as [[[[st1 queue1] counter1] nr]|e]; [|discriminate].
  destruct nr as [|hid nr].
  - intros [= <- <- <- <-]. exists []. rewrite app_nil_r. by destruct dq.
  - destruct (_reconfigure dq st1 queue1 counter1 (hid :: nr) hid)
      as [[[[dq2 st2] queue2] counter2]|e] eqn:Hr; [|discriminate].
    apply reconfigure_spec in Hr
      as (gts & ts & pairs & news & qm & _ & -> & _).
    intros Ht. apply IH in Ht as [pairs' ->].
    exists (pairs ++ pairs'). simpl. by rewrite app_assoc.
Qed.

Lemma transform_frame fuel dq st queue counter dq' st' queue' :
  transform commutes fuel dq st queue counter = Some (Ok (dq', st', queue')) →
  ∃ pairs, dq' = with_swaps_list dq (swaps_list dq ++ pairs).
Proof.
  unfold transform.
  destruct (match counter with None => _ | Some c => _ end) as [counter0|e];
    [|discriminate].
  destruct (_transform commutes fuel dq st [] queue counter0)
    as [[[[[dq1 st1] queue1] counter1]|e]|] eqn:Ht; [|discriminate..].
  intros [= <- <- <-]. by eapply transform_rec_frame.
Qed.

(** C6. When [set_gates] starts without a partition, the global set it
    plans with holds [nglobal] qubits, and each of them has a gate-target
    counter not larger than that of every other qubit of the circuit,
    whatever order [argsort] gives to equal counters. *)
Theorem initial_globals_least_targeted fuel c st c' st' :
  TDC.queues c = None →
  TDC.set_gates commutes fuel c st = Some (Ok (c', st')) →
  ∃ counter dq,
    count st (TDC.queue c) (TDC.nqubits c) = Ok counter
    ∧ TDC.queues c' = Some dq
    ∧ size (global_qubits_set dq) = TDC.nglobal c
    ∧ global_qubits_set dq = list_to_set (take (TDC.nglobal c) (argsort counter))
    ∧ ∀ s u, s ∈ global_qubits_set dq → u < TDC.nqubits c →
             u ∉ global_qubits_set dq →
             (counter !!! s ≤ counter !!! u)%Z.
Proof.
  intros Hnone. unfold TDC.set_gates. case_bool_decide as Hq; [discriminate|].
  destruct (count st (TDC.queue c) (TDC.nqubits c)) as [counter|e] eqn:Hcount;
    [|discriminate].
  rewrite Hnone.
  destruct (TDC.set_global_qubits c (take (TDC.nglobal c) (argsort counter)))
    as [c1|e] eqn:Hset; [|discriminate].
  unfold TDC.set_global_qubits in Hset.
  case_bool_decide as Hsize; [discriminate|].
  apply bind_Ok in Hset as (dq0 & Hinit & Hset).
  apply bind_Ok in Hset as (rorder & _ & [= <-]). simpl.
  apply init_inv in Hinit as (_&_&_&_&_&_&_&HG&_).
  destruct (transform commutes fuel dq0 st (TDC.queue c) (Some counter))
    as [[[[dq1 st1] tq]|e]|] eqn:Ht; [|discriminate..].
  destruct (create dq1 st1 tq) as [[dq2 st2]|e] eqn:Hc; [|discriminate].
  intros [= <- <-]. exists counter, dq2. split; [done|]. split; [done|].
  assert (global_qubits_set dq2
          = list_to_set (take (TDC.nglobal c) (argsort counter))) as ->.
  { apply create_global_set in Hc as ->.
    by apply transform_frame in Ht as [pairs ->]. }
  split; [apply dec_stable; lia|]. split; [done|].
  intros s u Hs Hu Hnu. rewrite elem_of_list_to_set in Hs, Hnu.
  apply count_length in Hcount.
  apply (argsort_take counter (TDC.nglobal c) s u); [done|lia|done].
Qed.

End initial.

(** Three qubits, two devices and the gates H(2), H(2), H(1): the counters
    are 0, 1, 2 and qubit 0 becomes global. *)
Lemma initial_globals_least_targeted_witness :
  TDC.__init__ 3 (one_gpu 2) "/CPU:0" = Ok plain_circuit_3
  ∧ count [H 2; H 2; H 1] [0; 1; 2] 3 = Ok [0; 1; 2]%Z
  ∧ ∃ c' st' dq,
      TDC.set_gates (order := cpython_small) (sorter := ties_ascending) (λ _ _, true) 4
                    (circuit_with_queue plain_circuit_3 [0; 1; 2]) [H 2; H 2; H 1]
      = Some (Ok (c', st'))
      ∧ TDC.queues c' = Some dq
      ∧ global_qubits_set dq = {[0]}.
Proof.
  split; [vm_compute; reflexivity|]. split; [vm_compute; reflexivity|].
  destruct (TDC.set_gates (order := cpython_small) (sorter := ties_ascending)
              (λ _ _, true) 4 (circuit_with_queue plain_circuit_3 [0; 1; 2])
              [H 2; H 2; H 1])
    as [[[c' st']|e]|] eqn:Hs; [|vm_compute in Hs; discriminate..].
  destruct (initial_globals_least_targeted (order := cpython_small)
              (sorter := ties_ascending) (λ _ _, true) 4
              (circuit_with_queue plain_circuit_3 [0; 1; 2]) [H 2; H 2; H 1]
              c' st' eq_refl Hs) as (counter & dq & Hc & Hq & Hsize & Hleast).
  exists c', st', dq. split; [reflexivity|]. split; [exact Hq|].
  vm_compute in Hs. injection Hs as <- <-. vm_compute in Hq. injection Hq as <-.
  vm_compute. reflexivity.
Defined.

(** Eight qubits on eight devices with the counters 3, 0, 3, 1, 3, 2, 3, 2:
    the qubits 5 and 7 have the same counter and one of them is the third
    global qubit. With an [argsort] that lists equal counters by descending
    position, an order that the default kind of [numpy]'s [argsort] is free
    to return, the global qubits are 1, 3 and 7: qubit 7 is selected
    although qubit 5 has the same counter and the lower id. *)
Lemma initial_globals_tie_counterexample :
  count seventeen_gates (seq 0 17) 8 = Ok [3; 0; 3; 1; 3; 2; 3; 2]%Z
  ∧ ∃ c' st' dq,
      TDC.set_gates (order := cpython_small) (sorter := ties_descending) (λ _ _, true) 18
                    (circuit_with_queue plain_circuit_8 (seq 0 17)) seventeen_gates
      = Some (Ok (c', st'))
      ∧ TDC.queues c' = Some dq
      ∧ global_qubits_set dq = {[1; 3; 7]}
      ∧ 7 ∈ global_qubits_set dq ∧ (5 ∉ global_qubits_set dq)
      ∧ ([3; 0; 3; 1; 3; 2; 3; 2]%Z !!! 7 = [3; 0; 3; 1; 3; 2; 3; 2]%Z !!! 5 :> Z).
Proof.
  split; [vm_compute; reflexivity|].
  eexists _, _, _. split; [vm_compute; reflexivity|].
  split; [vm_compute; reflexivity|].
  split; [vm_compute; reflexivity|].
  split; [apply (bool_decide_unpack _); vm_compute; exact I|].
  split; [apply (bool_decide_unpack _); vm_compute; exact I|].
  reflexivity.
Qed.

(** ** The activation of the pieces in [create] *)

Lemma foldM_app {A B} (f : B → A → result B) (l1 l2 : list A) (b : B) :
  foldM f (l1 ++ l2) b = foldM f l1 b ≫= foldM f l2.
Proof.
  revert b. induction l1 as [|a l1 IH]; intros b; simpl; [done|].
  destruct (f b a) as [b'|e]; simpl; [apply IH|done].
Qed.

Lemma ids_concat devs start :
  concat ((_ids devs start).*2) = seq start (sum_list (devs.*2)).
Proof.
  revert start. induction devs as [|[device n] devs IH]; intros start; simpl; [done|].
  by rewrite IH, seq_app.
Qed.

Lemma init_global_reduced N D k nl devs G dq c :
  __init__ N D k nl devs G = Ok dq → c ∈ G →
  ∃ ic, list_index c (global_qubits_list dq) = Ok ic
        ∧ global_qubits_reduced dq !! c = Some ic.
Proof.
  unfold __init__. intros Hi Hc.
  apply bind_Ok in Hi as (gr & Hgr & Hi).
  apply bind_Ok in Hi as (lr & _ & Hi).
  apply bind_Ok in Hi as (i2d & _ & [= <-]). simpl.
  set (gl := merge_sort (≤) (elements G)) in *.
  apply mapM_Ok_inv in Hgr.
  assert (gr.*1 = gl) as Hkeys.
  { clear -Hgr. induction Hgr as [|q b gl' gr' Hb _ IH]; [done|].
    apply bind_Ok in Hb as (i & _ & [= <-]). rewrite fmap_cons. simpl. by f_equal. }
  apply global_list_elem_of in Hc. fold gl in Hc.
  apply list_elem_of_lookup in Hc as [j Hj].
  destruct (Forall2_lookup_l _ _ _ _ _ Hgr Hj) as (b & Hb & Hf).
  apply bind_Ok in Hf as (ic & Hic & [= <-]).
  exists ic. split; [done|].
  apply elem_of_list_to_map_1.
  - rewrite Hkeys. apply global_list_NoDup.
  - by eapply list_elem_of_lookup_2.
Qed.

Lemma testbit_div_mod i n :
  bool_decide ((i `div` 2 ^ n) `mod` 2 ≠ 0) = Nat.testbit i n.
Proof.
  rewrite Nat.testbit_eqb.
  pose proof (Nat.mod_upper_bound (i `div` 2 ^ n) 2).
  destruct (Nat.eqb_spec ((i `div` 2 ^ n) `mod` 2) 1) as [Heq|Hne].
  - apply bool_decide_eq_true_2. lia.
  - apply bool_decide_eq_false_2. lia.
Qed.

Section activation.
Context {order : SetOrder} {sorter : ArgSort}.

Lemma bind_Ok_l {A B} (a : A) (k : A → result B) : Ok a ≫= k = k a.
Proof. done. Qed.

Lemma piece_flag_cons dq c controls i :
  _piece_flag dq (c :: controls) i
  = list_index c (global_qubits_list dq) ≫= λ ic,
      if bool_decide ((i `div` 2 ^ (nglobal dq - ic - 1)) `mod` 2 ≠ 0)
      then _piece_flag dq controls i else Ok false.
Proof. done. Qed.

Lemma piece_flag_spec dq controls i :
  (∀ c, c ∈ controls →
        ∃ ic, list_index c (global_qubits_list dq) = Ok ic
              ∧ global_qubits_reduced dq !! c = Some ic) →
  _piece_flag dq controls i = Ok (forallb (global_control_bit dq i) controls).
Proof.
  induction controls as [|c controls IH]; intros Hc; [done|].
  destruct (Hc c) as (ic & Hic & Hgr); [by left|].
  rewrite piece_flag_cons, Hic, bind_Ok_l, testbit_div_mod.
  cbn [forallb]. unfold global_control_bit at 1. rewrite lookup_total_alt, Hgr.
  cbn [default from_option]. destruct (Nat.testbit i _); [|done].
  apply IH. intros c' Hc'. apply Hc. by right.
Qed.

Lemma forallb_active dq g i :
  forallb (global_control_bit dq i) (global_controls dq g) = true ↔ active dq g i.
Proof.
  rewrite forallb_forall. unfold active, global_controls. split.
  - intros Hall c Hc HG. apply Hall. apply list_elem_of_In.
    rewrite set_iter_elem_of, list_elem_of_filter, elem_of_remove_dups. done.
  - intros Hact c Hc. apply list_elem_of_In in Hc.
    rewrite set_iter_elem_of, list_elem_of_filter, elem_of_remove_dups in Hc.
    apply Hact; tauto.
Qed.

(** The loop over the piece indices [ids] appends to each listed piece whose
    flag is set and leaves every other piece alone. *)
Lemma append_loop_spec dq g calc (flag : nat → bool) ids w w' :
  (∀ i, _piece_flag dq (global_controls dq g) i = Ok (flag i)) →
  NoDup ids →
  foldM (_append_calc_gate dq g calc) ids w = Ok w' →
  length w' = length w
  ∧ ∀ i, w' !!! i = if bool_decide (i ∈ ids ∧ flag i = true)
                    then w !!! i ++ [calc] else w !!! i.
Proof.
  intros Hflag. revert w. induction ids as [|j ids IH]; intros w Hnd Hf.
  - injection Hf as <-. split; [done|]. intros i.
    rewrite bool_decide_eq_false_2; [done|]. by intros [?%elem_of_nil _].
  - apply NoDup_cons in Hnd as [Hj Hnd]. cbn [foldM] in Hf.
    apply bind_Ok in Hf as (w1 & Hw1 & Hf).
    apply IH in Hf as [Hlen Hw']; [|done].
    unfold _append_calc_gate in Hw1. rewrite Hflag in Hw1. simpl in Hw1.
    destruct (flag j) eqn:Hfj.
    + destruct (w !! j) as [l|] eqn:Hwj; [|discriminate]. injection Hw1 as <-.
      rewrite length_insert in Hlen. split; [done|]. intros i. rewrite Hw'.
      assert (j < length w) as Hlt by by eapply lookup_lt_Some.
      destruct (decide (i = j)) as [->|Hne].
      * rewrite bool_decide_eq_false_2 by (by intros [? _]).
        rewrite bool_decide_eq_true_2 by (split; [by left|done]).
        rewrite list_lookup_total_insert_eq by done.
        by rewrite (list_lookup_total_correct _ _ _ Hwj).
      * rewrite list_lookup_total_insert_ne by done.
        apply (f_equal (λ b : bool, if b then _ else _)).
        apply bool_decide_ext. rewrite elem_of_cons.
        split; [intros [? ?]; split; [by right|done]|].
        intros [[? | ?] ?]; [done|done].
    + injection Hw1 as <-. split; [done|]. intros i. rewrite Hw'.
      apply (f_equal (λ b : bool, if b then _ else _)).
      apply bool_decide_ext. rewrite elem_of_cons. split; [tauto|].
      intros [[-> | ?] Hfi]; [congruence|done].
Qed.

Lemma create_standard_flat dq gid g w calc :
  _create_reduced_gate dq gid g = Ok calc →
  _create_standard dq gid g w
  = foldM (_append_calc_gate dq g (set_nqubits calc (nlocal dq)))
          (concat ((device_to_ids dq).*2)) w.
Proof.
  intros Hcalc. unfold _create_standard. rewrite Hcalc.
  generalize (device_to_ids dq). intros d2i.
  revert w. induction d2i as [|[device ids] d2i IH]; intros w; simpl; [done|].
  rewrite foldM_app.
  destruct (foldM _ ids w) as [w1|e]; simpl; [apply IH|done].
Qed.

(** C5. On a partition as the [global_qubits] setter builds it ([nglobal]
    global qubits, the pieces [0 .. D-1] spread over the devices), the loop
    that places a non-special gate in the current wave appends the reduced
    gate to the list of piece [i] if bit [nglobal - global_reduced[c] - 1] of
    [i] is 1 for every global control [c] of the gate, and leaves the list of
    piece [i] as it was otherwise. *)
Theorem create_standard_activation N D k nl devs G dq gid g w w' i :
  __init__ N D k nl devs G = Ok dq →
  size G = k →
  sum_list (devs.*2) = D →
  _create_standard dq gid g w = Ok w' →
  i < D →
  ∃ calc_gate,
    _create_reduced_gate dq gid g = Ok calc_gate
    ∧ (active dq g i → w' !!! i = w !!! i ++ [set_nqubits calc_gate (nlocal dq)])
    ∧ (¬ active dq g i → w' !!! i = w !!! i).
Proof.
  intros Hinit _ Hsum Hcs Hi.
  pose proof (init_inv _ _ _ _ _ _ _ Hinit) as (_&_&_&_&_&_&_&HG&_&_&Hd2i).
  destruct (_create_reduced_gate dq gid g) as [calc|e] eqn:Hcalc.
  2:{ exfalso. unfold _create_standard in Hcs. rewrite Hd2i in Hcs.
      destruct devs as [|[device n] devs]; [simpl in Hsum; lia|].
      simpl in Hcs. by rewrite Hcalc in Hcs. }
  exists calc. split; [done|].
  rewrite (create_standard_flat _ _ _ _ _ Hcalc), Hd2i, ids_concat, Hsum in Hcs.
  apply (append_loop_spec dq g _
           (λ i, forallb (global_control_bit dq i) (global_controls dq g))) in Hcs
    as [_ Hw']; [| |apply NoDup_seq].
  2:{ intros j. apply piece_flag_spec. intros c Hc.
      unfold global_controls in Hc.
      rewrite set_iter_elem_of, list_elem_of_filter in Hc. destruct Hc as [Hc _].
      eapply init_global_reduced; [exact Hinit|]. by rewrite <- HG. }
  rewrite Hw'. split.
  - intros Hact. rewrite bool_decide_eq_true_2; [done|].
    split; [apply elem_of_seq; lia|]. by apply forallb_active.
  - intros Hact. rewrite bool_decide_eq_false_2; [done|].
    intros [_ Hf]. by apply Hact, forallb_active.
Qed.

End activation.

(** CNOT with the global control 0 and the target 1 on two pieces: piece 1
    receives the reduced gate, piece 0 does not. *)
Lemma create_standard_activation_witness :
  __init__ 2 2 1 1 (one_gpu 2) {[0]} = Ok partition_2_0
  ∧ _create_standard (order := cpython_small) partition_2_0 0 (CNOT 0 1) [[]; []]
    = Ok [[]; [reduced_CNOT]]
  ∧ active partition_2_0 (CNOT 0 1) 1
  ∧ ([[]; [reduced_CNOT]] : wave) !!! 1 = ([[]; []] : wave) !!! 1 ++ [reduced_CNOT]
  ∧ ¬ active partition_2_0 (CNOT 0 1) 0
  ∧ ([[]; [reduced_CNOT]] : wave) !!! 0 = ([[]; []] : wave) !!! 0.
Proof.
  assert (_create_standard (order := cpython_small) partition_2_0 0 (CNOT 0 1) [[]; []]
          = Ok [[]; [reduced_CNOT]]) as Hcs by (vm_compute; reflexivity).
  assert (size ({[0]} : gset nat) = 1) as Hsize by (vm_compute; reflexivity).
  assert (active partition_2_0 (CNOT 0 1) 1) as Hact.
  { intros c Hc _. apply list_elem_of_singleton in Hc as ->. reflexivity. }
  assert (¬ active partition_2_0 (CNOT 0 1) 0) as Hinact.
  { intros Hact0. specialize (Hact0 0). discriminate Hact0.
    - by left.
    - apply (bool_decide_unpack _). vm_compute. exact I. }
  destruct (create_standard_activation (order := cpython_small) 2 2 1 1 (one_gpu 2)
              {[0]} partition_2_0 0 (CNOT 0 1) [[]; []] [[]; [reduced_CNOT]] 1
              init_partition_2_0 Hsize eq_refl Hcs (le_n 2))
    as (calc & Hcalc & Hyes & _).
  injection Hcalc as <-.
  destruct (create_standard_activation (order := cpython_small) 2 2 1 1 (one_gpu 2)
              {[0]} partition_2_0 0 (CNOT 0 1) [[]; []] [[]; [reduced_CNOT]] 0
              init_partition_2_0 Hsize eq_refl Hcs (le_S 1 1 (le_n 1)))
    as (calc0 & _ & _ & Hno).
  split; [exact init_partition_2_0|]. split; [exact Hcs|]. split; [exact Hact|].
  split; [exact (Hyes Hact)|]. split; [exact Hinact | exact (Hno Hinact)].
Defined.

(** ** Waves and special steps *)

Lemma special_waves_app qs1 qs2 :
  special_waves (qs1 ++ qs2) = special_waves qs1 + special_waves qs2.
Proof. unfold special_waves. by rewrite filter_app, length_app. Qed.

Lemma special_waves_empty : special_waves [[]] = 1.
Proof. done. Qed.

Lemma special_waves_nonempty (w : wave) : w ≠ [] → special_waves [w] = 0.
Proof. intros Hw. unfold special_waves. by rewrite filter_cons_False. Qed.

Lemma last_split {A} (l : list A) (x : A) :
  last l = Some x → l = take (length l - 1) l ++ [x].
Proof.
  intros Hl. apply last_Some in Hl as [l' ->].
  rewrite length_app. simpl. replace (length l' + 1 - 1) with (length l') by lia.
  by rewrite take_app_length.
Qed.

Section waves.
Context {order : SetOrder} {sorter : ArgSort}.

Lemma append_calc_gate_length dq g calc w i w' :
  _append_calc_gate dq g calc w i = Ok w' → length w' = length w.
Proof.
  unfold _append_calc_gate. intros Ha.
  apply bind_Ok in Ha as (flag & _ & Ha). destruct flag; [|by injection Ha as <-].
  destruct (w !! i); [|discriminate]. injection Ha as <-. apply length_insert.
Qed.

Lemma create_standard_length dq gid g w w' :
  _create_standard dq gid g w = Ok w' → length w' = length w.
Proof.
  unfold _create_standard.
  apply (foldM_invariant (λ w0 : wave, length w0 = length w)); [|done].
  intros w0 [device ids] w1 Hw0 Hb.
  apply bind_Ok in Hb as (calc & _ & Hb). rewrite <- Hw0.
  revert Hb. apply (foldM_invariant (λ w2 : wave, length w2 = length w0)); [|done].
  intros w2 i w3 Hw2 Ha. apply append_calc_gate_length in Ha. congruence.
Qed.

Lemma create_gate_waves dq st gid dq' st' :
  0 < ndevices dq →
  _create_gate dq st gid = Ok (dq', st') →
  ndevices dq' = ndevices dq
  ∧ special_waves (queues dq') + length (special_queue dq)
    = special_waves (queues dq) + length (special_queue dq').
Proof.
  intros HD. unfold _create_gate. case_bool_decide as Ht.
  - intros [= <- <-]. simpl. split; [done|].
    rewrite special_waves_app, special_waves_empty, length_app. simpl. lia.
  - destruct (set_iter (global_targets dq (st !!! gid))) as [|gq others].
    + set (qs := if bool_decide _ then _ else _).
      destruct (last qs) as [w|] eqn:Hlast; [|discriminate]. intros Hc.
      apply bind_Ok in Hc as (w' & Hw' & [= <- <-]). simpl. split; [done|].
      apply create_standard_length in Hw'.
      assert (w ≠ [] ∧ special_waves qs = special_waves (queues dq)) as [Hw Hqs].
      { unfold qs in *. case_bool_decide as Hl.
        - rewrite last_snoc in Hlast. injection Hlast as <-. split.
          + destruct (ndevices dq); [lia|done].
          + rewrite special_waves_app, special_waves_nonempty; [lia|].
            destruct (ndevices dq); [lia|done].
        - split; [|done]. intros ->. apply Hl. by right. }
      unfold set_last. rewrite (last_split qs w Hlast) in Hqs.
      rewrite special_waves_app, special_waves_nonempty in Hqs by done.
      rewrite special_waves_app, special_waves_nonempty; [lia|].
      intros ->. destruct w; [done|simpl in Hw'; lia].
    + destruct (negb _); [discriminate|]. case_bool_decide; [discriminate|].
      destruct (target_qubits (st !!! gid) !! 0) as [q0|]; [|discriminate].
      intros Hc. apply bind_Ok in Hc as (lq & _ & [= <- <-]). simpl.
      split; [done|].
      rewrite special_waves_app, special_waves_empty, length_app. simpl. lia.
Qed.

Lemma create_waves dq st queue dq' st' :
  0 < ndevices dq →
  create dq st queue = Ok (dq', st') →
  special_waves (queues dq') + length (special_queue dq)
  = special_waves (queues dq) + length (special_queue dq').
Proof.
  unfold create. revert dq st.
  induction queue as [|gid queue IH]; intros dq st HD; simpl.
  - by intros [= <- <-].
  - intros Hc. apply bind_Ok in Hc as ([dq1 st1] & Hg & Hc).
    apply create_gate_waves in Hg as [HD1 Hg]; [|done].
    apply IH in Hc; [lia|]. by rewrite HD1.
Qed.

End waves.

Section execution.
Variable piece : Type.
Variable swap_pieces : piece → piece → nat → Z → piece * piece.
Variable _joblib_execute : list piece → wave → result (list piece).
Variable full_state_call : store → nat → list piece → result (list piece).

(** The loop over the waves takes one special entry per empty wave. *)
Lemma execute_waves_consumes c st waves special_gates pieces c' pieces' rest :
  TDC._execute_waves piece swap_pieces _joblib_execute full_state_call
                     c st waves special_gates pieces = Ok (c', pieces', rest) →
  length special_gates = special_waves waves + length rest.
Proof.
  revert c special_gates pieces.
  induction waves as [|w waves IH]; intros c special_gates pieces; simpl.
  - by intros [= <- <- <-].
  - case_bool_decide as Hw.
    + intros He. apply bind_Ok in He as (pieces1 & _ & He).
      apply IH in He. unfold special_waves in *.
      by rewrite filter_cons_False.
    + destruct special_gates as [|e special_gates]; [discriminate|].
      intros He. apply bind_Ok in He as ([c1 pieces1] & _ & He).
      apply IH in He. unfold special_waves in *.
      subst w.
      rewrite filter_cons_True by done. simpl. lia.
Qed.

End execution.

(** ** The steps of a plan *)

Lemma plan_steps_counted (ws : list wave) (sq : list special_entry) :
  special_waves ws = length sq →
  ∃ steps, ws = step_wave <$> steps ∧ sq = omap step_entry steps
           ∧ Forall (λ s, match s with
                          | StandardStep w => w ≠ []
                          | SpecialStep _ => True
                          end) steps.
Proof.
  revert sq. induction ws as [|w ws IH]; intros sq Hc.
  - destruct sq; [|done]. by exists [].
  - destruct (decide (w = [])) as [->|Hw].
    + unfold special_waves in Hc. rewrite filter_cons_True in Hc by done.
      destruct sq as [|e sq]; [done|]. simpl in Hc.
      destruct (IH sq) as (steps & -> & -> & Hok); [unfold special_waves; lia|].
      exists (SpecialStep e :: steps). repeat split; by constructor.
    + unfold special_waves in Hc. rewrite filter_cons_False in Hc by done.
      destruct (IH sq Hc) as (steps & -> & -> & Hok).
      exists (StandardStep w :: steps). repeat split; by constructor.
Qed.

Lemma plan_steps_count steps dq :
  plan_steps steps dq → special_waves (queues dq) = length (special_queue dq).
Proof.
  intros (-> & -> & Hok). unfold special_waves.
  induction Hok as [|[w|e] steps Hs _ IH]; [done| |].
  - rewrite fmap_cons. cbn [step_wave omap step_entry].
    by rewrite filter_cons_False.
  - rewrite fmap_cons. cbn [step_wave].
    change (omap step_entry (SpecialStep e :: steps)) with (e :: omap step_entry steps).
    rewrite filter_cons_True by done. simpl. by rewrite IH.
Qed.

Lemma opens_special_ext dq dq' g g' :
  global_qubits_set dq' = global_qubits_set dq →
  target_qubits g' = target_qubits g →
  opens_special dq' g' = opens_special dq g.
Proof. intros HG Ht. unfold opens_special, global_targets. by rewrite HG, Ht. Qed.

Lemma entry_of_ext dq dq' st st' gid e :
  global_qubits_set dq' = global_qubits_set dq →
  same_qubits (st' !!! gid) (st !!! gid) →
  entry_of dq st gid e → entry_of dq' st' gid e.
Proof.
  intros HG (Hc & Ht & _). destruct e as [gid'|g l]; simpl; rewrite ?HG, ?Hc, ?Ht; done.
Qed.

Section steps.
Context {order : SetOrder}.

(** One gate of the queue: [create] opens a special step and appends its
    entry, both or none. *)
Lemma create_gate_steps steps dq st gid dq' st' :
  0 < ndevices dq →
  plan_steps steps dq →
  _create_gate dq st gid = Ok (dq', st') →
  ∃ steps',
    plan_steps steps' dq'
    ∧ if opens_special dq (st !!! gid)
      then ∃ e, special_queue dq' = special_queue dq ++ [e] ∧ entry_of dq st gid e
      else special_queue dq' = special_queue dq.
Proof.
  intros HD (Hq & Hs & Hok). unfold _create_gate, opens_special.
  set (g := st !!! gid). case_bool_decide as Ht.
  - intros [= <- <-]. exists (steps ++ [SpecialStep (SpecialGate gid)]). split.
    + split; [|split]; simpl.
      * by rewrite fmap_app, Hq.
      * by rewrite omap_app, Hs.
      * apply Forall_app. split; [done|]. by repeat constructor.
    + simpl. by exists (SpecialGate gid).
  - destruct (set_iter (global_targets dq g)) as [|gq others] eqn:Eg.
    + apply set_iter_nil_inv in Eg. rewrite Eg.
      rewrite (bool_decide_eq_true_2 (@nil nat = [])) by done. simpl.
      set (qs := if bool_decide _ then _ else _).
      destruct (last qs) as [w|] eqn:Hlast; [|discriminate]. intros Hc.
      apply bind_Ok in Hc as (w' & Hw' & [= <- <-]). simpl.
      apply create_standard_length in Hw'.
      assert (∃ steps0, take (length qs - 1) qs = step_wave <$> steps0
                        ∧ omap step_entry steps0 = omap step_entry steps
                        ∧ Forall (λ s, match s with
                                       | StandardStep w => w ≠ []
                                       | SpecialStep _ => True
                                       end) steps0
                        ∧ w ≠ []) as (steps0 & Htake & Hent & Hok0 & Hw).
      { unfold qs in *. case_bool_decide as Hl.
        - rewrite last_snoc in Hlast. injection Hlast as <-.
          exists steps. rewrite length_app. simpl.
          replace (length (queues dq) + 1 - 1) with (length (queues dq)) by lia.
          rewrite take_app_length. repeat split; [done|done|].
          destruct (ndevices dq); [lia|done].
        - assert (w ≠ []) as Hw by (intros ->; apply Hl; by right).
          pose proof (last_split _ _ Hlast) as Hsplit.
          destruct steps as [|s steps _] using rev_ind.
          { rewrite Hq in Hlast. done. }
          rewrite Hq, fmap_app in Hlast. cbn [fmap list_fmap] in Hlast.
          rewrite last_snoc in Hlast. injection Hlast as Hsw.
          destruct s as [w0|e]; [|by simpl in Hsw]. simpl in Hsw. subst w0.
          exists steps. rewrite Hq, fmap_app, length_app. simpl.
          replace (length (step_wave <$> steps) + 1 - 1)
            with (length (step_wave <$> steps)) by lia.
          rewrite take_app_length. rewrite omap_app. simpl. rewrite app_nil_r.
          apply Forall_app in Hok as [Hok _]. by repeat split. }
      exists (steps0 ++ [StandardStep w']). split; [|done].
      split; [|split]; simpl.
      * unfold set_last. by rewrite fmap_app, Htake.
      * rewrite omap_app. simpl. by rewrite app_nil_r, Hent.
      * apply Forall_app. split; [done|]. constructor; [|constructor].
        intros ->. destruct w; [done|simpl in Hw'; lia].
    + assert (global_targets dq g ≠ []) as Hne.
      { intros Hn. rewrite Hn in Eg. pose proof (set_iter_perm []) as Hp.
        rewrite Eg in Hp. by apply Permutation_nil_r in Hp. }
      rewrite (bool_decide_eq_false_2 (global_targets dq g = [])) by done. simpl.
      destruct (is_SWAP g) eqn:Hsw; [|discriminate]. simpl.
      case_bool_decide; [discriminate|].
      destruct (target_qubits g !! 0) as [q0|] eqn:E0; [|discriminate].
      intros Hc. apply bind_Ok in Hc as (lq & Hlq & [= <- <-]).
      exists (steps ++ [SpecialStep (GlobalSwap gq lq)]). split.
      * split; [|split]; simpl.
        -- by rewrite fmap_app, Hq.
        -- by rewrite omap_app, Hs.
        -- apply Forall_app. split; [done|]. by repeat constructor.
      * simpl. exists (GlobalSwap gq lq). split; [done|]. simpl.
        assert (gq ∈ set_iter (global_targets dq g)) as Hgq by (rewrite Eg; by left).
        rewrite set_iter_elem_of, global_targets_elem_of in Hgq.
        destruct Hgq as [Hgt HgG].
        split; [by apply bool_decide_eq_true in Hsw|]. split; [done|]. split; [done|].
        case_bool_decide.
        -- destruct (target_qubits g !! 1) as [q1|] eqn:E1; [|discriminate].
           injection Hlq as <-. by eapply list_elem_of_lookup_2.
        -- injection Hlq as <-. by eapply list_elem_of_lookup_2.
Qed.

Lemma create_steps dq0 st0 queue dq st steps dq' st' :
  global_qubits_set dq = global_qubits_set dq0 →
  (∀ gid, same_qubits (st !!! gid) (st0 !!! gid)) →
  0 < ndevices dq →
  plan_steps steps dq →
  create dq st queue = Ok (dq', st') →
  ∃ steps' news,
    plan_steps steps' dq'
    ∧ special_queue dq' = special_queue dq ++ news
    ∧ Forall2 (entry_of dq0 st0)
              (filter (λ gid, opens_special dq0 (st0 !!! gid)) queue) news.
Proof.
  unfold create. revert dq st steps.
  induction queue as [|gid queue IH]; intros dq st steps HG Hst HD Hplan.
  - intros [= <- <-]. exists steps, []. rewrite app_nil_r. split; [done|].
    split; [done|constructor].
  - cbn [foldM]. intros Hc. apply bind_Ok in Hc as ([dq1 st1] & Hg & Hc).
    pose proof (create_gate_spec _ _ _ _ _ Hg) as [(qs & sq & Hdq1) [_ Hst1]].
    destruct (create_gate_steps _ _ _ _ _ _ HD Hplan Hg) as (steps1 & Hplan1 & Hent).
    destruct (IH dq1 st1 steps1) as (steps' & news & Hplan' & Hsq & Hall); try done.
    { by rewrite Hdq1. }
    { intros j. eapply same_qubits_trans; [apply Hst1|apply Hst]. }
    { by rewrite Hdq1. }
    rewrite (opens_special_ext dq0 dq (st0 !!! gid) (st !!! gid)) in Hent;
      [|done|by destruct (Hst gid) as (_ & ? & _)].
    rewrite filter_cons. destruct (opens_special dq0 (st0 !!! gid)) eqn:Hop.
    + destruct Hent as (e & Hsq1 & He).
      rewrite decide_True by done.
      exists steps', (e :: news). split; [done|].
      split; [by rewrite Hsq, Hsq1, <- app_assoc|].
      constructor; [|done].
      apply (entry_of_ext dq dq0 st st0); [done| |done].
      destruct (Hst gid) as (H1 & H2 & H3). by repeat split.
    + rewrite decide_False by (by intros []).
      exists steps', news. split; [done|]. split; [by rewrite Hsq, Hent|done].
Qed.

End steps.

Section run_steps.
Variable piece : Type.
Variable swap_pieces : piece → piece → nat → Z → piece * piece.
Variable _joblib_execute : list piece → wave → result (list piece).
Variable full_state_call : store → nat → list piece → result (list piece).

(** The loop over the waves runs the steps one by one: a wave is
    dispatched, an empty wave takes the entry of its own step. *)
Lemma execute_waves_steps st steps c pieces :
  Forall (λ s, match s with
               | StandardStep w => w ≠ []
               | SpecialStep _ => True
               end) steps →
  TDC._execute_waves piece swap_pieces _joblib_execute full_state_call c st
                     (step_wave <$> steps) (omap step_entry steps) pieces
  = cp ← foldM (run_step swap_pieces _joblib_execute full_state_call st) steps
               (c, pieces);
    Ok (cp, []).
Proof.
  intros Hok. revert c pieces.
  induction Hok as [|[w|e] steps Hs _ IH]; intros c pieces; [done| |].
  - rewrite fmap_cons. cbn [step_wave omap step_entry TDC._execute_waves foldM run_step].
    change (omap step_entry (StandardStep w :: steps)) with (omap step_entry steps).
    rewrite bool_decide_eq_true_2 by done. simpl.
    destruct (_joblib_execute pieces w) as [p1|err]; [|done]. simpl. apply IH.
  - rewrite fmap_cons. cbn [step_wave TDC._execute_waves foldM run_step].
    change (omap step_entry (SpecialStep e :: steps)) with (e :: omap step_entry steps).
    rewrite bool_decide_eq_false_2 by (intros Hn; by apply Hn). simpl.
    destruct (TDC._special_gate_execute piece swap_pieces full_state_call c st pieces e)
      as [[c1 p1]|err]; [|done]. simpl. apply IH.
Qed.

(** C8. [create] opens an empty wave exactly when it appends an entry to
    [special_queue]: the plan it leaves reads as one list of steps, each
    empty wave being the wave of a special step and [special_queue] holding
    the entries of these steps in their order; the entries it has added are,
    one for one and in the order of the queue, those of the gates without
    targets and of the global swaps. The loop of [_execute] over the waves
    runs these steps one after the other, every empty wave taking the entry
    of its own step, and so leaves the iterator of special gates exhausted;
    the loop after it executes no gate. (Before [create], the empty waves and
    the special entries are to be equally many, as on a new [DeviceQueues],
    where both lists are empty.) *)
Theorem plan_special_correspondence {order : SetOrder} dq st queue dq' st' :
  0 < ndevices dq →
  special_waves (queues dq) = length (special_queue dq) →
  create dq st queue = Ok (dq', st') →
  ∃ steps news,
    plan_steps steps dq'
    ∧ special_queue dq' = special_queue dq ++ news
    ∧ Forall2 (entry_of dq st) (filter (λ gid, opens_special dq (st !!! gid)) queue) news
    ∧ special_waves (queues dq') = length (special_queue dq')
    ∧ (∀ c st0 pieces,
         TDC._execute_waves piece swap_pieces _joblib_execute full_state_call
           c st0 (queues dq') (special_queue dq') pieces
         = cp ← foldM (run_step swap_pieces _joblib_execute full_state_call st0)
                      steps (c, pieces);
           Ok (cp, []))
    ∧ ∀ c st0 pieces c' pieces' rest,
        TDC._execute_waves piece swap_pieces _joblib_execute full_state_call
          c st0 (queues dq') (special_queue dq') pieces = Ok (c', pieces', rest) →
        rest = []
        ∧ TDC._drain piece swap_pieces full_state_call c' st0 rest pieces'
          = Ok (0, (c', pieces')).
Proof.
  intros HD Hinv Hc.
  destruct (plan_steps_counted _ _ Hinv) as (steps0 & Hq0 & Hs0 & Hok0).
  destruct (create_steps dq st queue dq st steps0 dq' st' eq_refl
              (λ gid, same_qubits_refl _) HD (conj Hq0 (conj Hs0 Hok0)) Hc)
    as (steps & news & Hplan & Hsq & Hall).
  exists steps, news. split; [done|]. split; [done|]. split; [done|].
  split; [by apply plan_steps_count in Hplan|].
  destruct Hplan as (Hq & Hs & Hok).
  assert (∀ c st0 pieces,
            TDC._execute_waves piece swap_pieces _joblib_execute full_state_call
              c st0 (queues dq') (special_queue dq') pieces
            = cp ← foldM (run_step swap_pieces _joblib_execute full_state_call st0)
                         steps (c, pieces);
              Ok (cp, [])) as Hrun.
  { intros c st0 pieces. rewrite Hq, Hs. by apply execute_waves_steps. }
  split; [exact Hrun|].
  intros c st0 pieces c' pieces' rest He. rewrite Hrun in He.
  apply bind_Ok in He as (cp & _ & [= _ <-]). done.
Qed.

End run_steps.

(** The plan of H(0); H(1) with the global qubit 0: a wave, a global swap,
    a wave and a global swap. The pieces 10 and 20 are increased by each wave
    and exchanged by each swap, and nothing is left for the loop after the
    waves. *)
Lemma plan_special_correspondence_witness :
  ∃ dq' st',
    create (order := cpython_small) (with_swaps_list partition_2_0 [(0, 1)])
           [H 1; H 1; new_SWAP 0 1; new_SWAP 0 1] [1; 2; 0; 3] = Ok (dq', st')
    ∧ length (queues dq') = 4
    ∧ special_queue dq' = [GlobalSwap 0 1; GlobalSwap 0 1]
    ∧ TDC._execute_waves nat exchange count_dispatch no_call planned_circuit_2 st'
        (queues dq') (special_queue dq') [10; 20]
      = Ok (planned_circuit_2, [12; 22], [])
    ∧ TDC._drain nat exchange no_call planned_circuit_2 st' [] [12; 22]
      = Ok (0, (planned_circuit_2, [12; 22])).
Proof.
  destruct (create (order := cpython_small) (with_swaps_list partition_2_0 [(0, 1)])
              [H 1; H 1; new_SWAP 0 1; new_SWAP 0 1] [1; 2; 0; 3])
    as [[dq' st']|e] eqn:Hc; [|vm_compute in Hc; discriminate].
  exists dq', st'. split; [reflexivity|].
  destruct (plan_special_correspondence nat exchange count_dispatch no_call
              (order := cpython_small) (with_swaps_list partition_2_0 [(0, 1)])
              _ _ _ _ ltac:(simpl; lia) eq_refl Hc)
    as (steps & news & _ & _ & _ & _ & _ & Hexec).
  assert (TDC._execute_waves nat exchange count_dispatch no_call planned_circuit_2 st'
            (queues dq') (special_queue dq') [10; 20]
          = Ok (planned_circuit_2, [12; 22], [])) as He.
  { vm_compute in Hc. injection Hc as <- <-. vm_compute. reflexivity. }
  destruct (Hexec _ _ _ _ _ _ He) as [_ Hdrain].
  split; [|split; [|split; [exact He|exact Hdrain]]].
  - vm_compute in Hc. injection Hc as <- <-. reflexivity.
  - vm_compute in Hc. injection Hc as <- <-. reflexivity.
Defined.

(** ** The global-swap engine *)

Lemma planned_circuit_2_set :
  TDC.__init__ 2 (one_gpu 2) "/CPU:0" ≫= (λ c, TDC.set_global_qubits c [0])
  = Ok planned_circuit_2.
Proof. vm_compute. reflexivity. Qed.

(** The two indices [i] and [i + t] of the pairing loop stay below the
    number of pieces. *)
Lemma swap_pair_index k m g :
  m < k → g < 2 ^ k `div` 2 →
  Nat.shiftl (Nat.shiftr g m) (m + 1) + Nat.land g (Nat.shiftl 1 m - 1)
  + Nat.shiftl 1 m < 2 ^ k.
Proof.
  intros Hm Hg.
  rewrite Nat.shiftl_1_l, Nat.shiftr_div_pow2, Nat.shiftl_mul_pow2.
  replace (2 ^ m - 1) with (Nat.ones m) by (rewrite Nat.ones_equiv; lia).
  rewrite Nat.land_ones.
  assert (0 < 2 ^ m) as Hpos by (apply Nat.neq_0_lt_0, Nat.pow_nonzero; lia).
  pose proof (Nat.mod_upper_bound g (2 ^ m) ltac:(lia)) as Hb.
  replace k with (m + 1 + (k - m - 1)) in Hg |- * by lia.
  rewrite !Nat.pow_add_r in *. simpl (2 ^ 1) in *.
  set (p := 2 ^ m) in *. set (r := 2 ^ (k - m - 1)) in *.
  assert (g `div` p < r) as Ha.
  { apply Nat.Div0.div_lt_upper_bound.
    replace ((p * 2 * r) `div` 2) with (p * r) in Hg; [lia|].
    replace (p * 2 * r) with (p * r * 2) by lia. by rewrite Nat.div_mul. }
  nia.
Qed.

Section engine.
Variable piece : Type.
Variable swap_pieces : piece → piece → nat → Z → piece * piece.
Variable _joblib_execute : list piece → wave → result (list piece).
Variable full_state_call : store → nat → list piece → result (list piece).

Lemma swap_pair_length c dq m l pieces g pieces' :
  TDC._swap_pair piece swap_pieces c dq m l pieces g = Ok pieces' →
  length pieces' = length pieces.
Proof.
  unfold TDC._swap_pair.
  destruct (local_qubits_reduced dq !! l); [|discriminate].
  destruct (pieces !! _) as [a|]; [|discriminate].
  destruct (pieces !! _) as [b|]; [|discriminate].
  destruct (swap_pieces a b n (TDC.nlocal c)) as [a' b'].
  intros [= <-]. by rewrite !length_insert.
Qed.

Lemma swap_frame c pieces g l c' pieces' :
  TDC._swap piece swap_pieces c pieces g l = Ok (c', pieces') →
  c' = c ∧ length pieces' = length pieces.
Proof.
  unfold TDC._swap. destruct (TDC.queues c) as [dq|]; [|discriminate].
  destruct (global_qubits_reduced dq !! g) as [m|]; [|discriminate].
  intros Hs. apply bind_Ok in Hs as (pieces1 & Hf & [= <- <-]). split; [done|].
  revert Hf. apply (foldM_invariant (λ p : list piece, length p = length pieces));
    [|done].
  intros p i p' Hp Hpair. apply swap_pair_length in Hpair. congruence.
Qed.

Lemma swap_pair_total c dq m l pieces g le :
  local_qubits_reduced dq !! l = Some le →
  m < TDC.nglobal c → length pieces = 2 ^ TDC.nglobal c →
  g < 2 ^ TDC.nglobal c `div` 2 →
  ∃ pieces', TDC._swap_pair piece swap_pieces c dq m l pieces g = Ok pieces'
             ∧ length pieces' = length pieces.
Proof.
  intros Hl Hm Hlen Hg. unfold TDC._swap_pair. rewrite Hl.
  pose proof (swap_pair_index _ _ _ Hm Hg) as Hi. rewrite <-Hlen in Hi.
  destruct (lookup_lt_is_Some_2 pieces _ Hi) as [b ->].
  destruct (lookup_lt_is_Some_2 pieces
              (Nat.shiftl (Nat.shiftr g m) (m + 1) + Nat.land g (Nat.shiftl 1 m - 1))
              ltac:(lia)) as [a ->].
  destruct (swap_pieces a b le (TDC.nlocal c)) as [a' b'].
  eexists. split; [done|]. by rewrite !length_insert.
Qed.

Lemma swap_total c dq pieces g l mr le :
  TDC.queues c = Some dq →
  global_qubits_reduced dq !! g = Some mr →
  local_qubits_reduced dq !! l = Some le →
  mr < TDC.nglobal c →
  TDC.ndevices c = 2 ^ TDC.nglobal c →
  length pieces = TDC.ndevices c →
  ∃ pieces', TDC._swap piece swap_pieces c pieces g l = Ok (c, pieces').
Proof.
  intros Hq Hg Hl Hm Hnd Hlen. unfold TDC._swap. rewrite Hq, Hg.
  assert (∀ js p, Forall (λ j, j < 2 ^ TDC.nglobal c `div` 2) js →
            length p = 2 ^ TDC.nglobal c →
            ∃ p', foldM (TDC._swap_pair piece swap_pieces c dq
                           (TDC.nglobal c - mr - 1) l) js p = Ok p') as Hloop.
  { induction js as [|j js IH]; intros p Hjs Hp; [by eexists|].
    apply Forall_cons in Hjs as [Hj Hjs].
    destruct (swap_pair_total c dq (TDC.nglobal c - mr - 1) l p j le)
      as (p1 & Hp1 & Hl1); [done|lia|done|done|].
    destruct (IH p1) as [p' Hp']; [done|congruence|].
    exists p'. cbn [foldM]. rewrite Hp1. exact Hp'. }
  destruct (Hloop (seq 0 (TDC.ndevices c `div` 2)) pieces) as [p' Hp'].
  - apply Forall_forall. intros j Hj%elem_of_seq. rewrite <-Hnd. lia.
  - congruence.
  - exists p'. by rewrite Hp'.
Qed.

Lemma revert_swaps_frame c pieces pairs c' pieces' :
  TDC._revert_swaps piece swap_pieces c pieces pairs = Ok (c', pieces') →
  c' = c ∧ length pieces' = length pieces.
Proof.
  unfold TDC._revert_swaps.
  apply (foldM_invariant
           (λ r : TDC.t * list piece, r.1 = c ∧ length r.2 = length pieces)
           _ pairs (c, pieces) (c', pieces')); [|done].
  intros [c1 p1] [q1 q2] [c2 p2] [Hc1 Hp1]. simpl in *. subst c1.
  destruct (TDC.queues c) as [dq|]; [|discriminate].
  case_bool_decide; intros [-> Hl]%swap_frame; split; congruence.
Qed.

Lemma special_gate_execute_frame c st pieces e c' pieces' :
  TDC._special_gate_execute piece swap_pieces full_state_call c st pieces e
  = Ok (c', pieces') →
  c' = c.
Proof.
  destruct e as [gid|g l]; simpl.
  - destruct (swap_reset (st !!! gid)) as [sr|]; [|discriminate]. intros Hs.
    apply bind_Ok in Hs as ([c1 p1] & [-> _]%revert_swaps_frame & Hs).
    apply bind_Ok in Hs as (p2 & _ & Hs).
    by apply revert_swaps_frame in Hs as [-> _].
  - by intros [-> _]%swap_frame.
Qed.

(** C4 (amended). [_swap] returns the circuit, and with it the partition
    ([global_qubits_list], [local_qubits] and the two reduced maps), exactly
    as it received it, and keeps the number of pieces; the loop of
    [_execute] over the waves, with all its swaps, ends on the partition it
    started with; and on a planned circuit with one piece per device, a
    power of two of them, [_swap] of a global qubit with a local one does
    return, raising nothing. The exchange of roles is carried by the
    rewritten gates of the transformed queue, not by the partition. *)
Theorem swap_keeps_partition c st pieces c' pieces' :
  (∀ g l, TDC._swap piece swap_pieces c pieces g l = Ok (c', pieces') →
          TDC.queues c' = TDC.queues c ∧ c' = c ∧ length pieces' = length pieces)
  ∧ (∀ waves special_gates rest,
       TDC._execute_waves piece swap_pieces _joblib_execute full_state_call
                          c st waves special_gates pieces = Ok (c', pieces', rest) →
       TDC.queues c' = TDC.queues c ∧ c' = c)
  ∧ (∀ dq g l mr le,
       TDC.queues c = Some dq →
       global_qubits_reduced dq !! g = Some mr →
       local_qubits_reduced dq !! l = Some le →
       mr < TDC.nglobal c →
       TDC.ndevices c = 2 ^ TDC.nglobal c →
       length pieces = TDC.ndevices c →
       ∃ pieces1, TDC._swap piece swap_pieces c pieces g l = Ok (c, pieces1)).
Proof.
  split; [|split].
  - intros g l [-> Hl]%swap_frame. done.
  - intros waves. revert c pieces.
    induction waves as [|w waves IH]; intros c pieces special_gates rest; simpl.
    + by intros [= <- <- <-].
    + case_bool_decide as Hw.
      * intros He. apply bind_Ok in He as (pieces1 & _ & He). by eapply IH.
      * destruct special_gates as [|e special_gates]; [discriminate|].
        intros He. apply bind_Ok in He as ([c1 pieces1] & Hs & He).
        apply special_gate_execute_frame in Hs as ->. by eapply IH.
  - intros dq g l mr le. apply swap_total.
Qed.

End engine.

(** Swapping the global qubit 0 with the local qubit 1 on two pieces. *)
Lemma swap_keeps_partition_witness :
  TDC._swap nat exchange planned_circuit_2 [10; 20] 0 1
  = Ok (planned_circuit_2, [20; 10])
  ∧ TDC.queues planned_circuit_2 = TDC.queues planned_circuit_2
  ∧ length [20; 10] = length [10; 20].
Proof.
  assert (TDC._swap nat exchange planned_circuit_2 [10; 20] 0 1
          = Ok (planned_circuit_2, [20; 10])) as Hs by (vm_compute; reflexivity).
  destruct (proj1 (swap_keeps_partition nat exchange no_dispatch no_call
                     planned_circuit_2 [] [10; 20] planned_circuit_2 [20; 10])
              0 1 Hs) as (Hq & _ & Hl).
  split; [exact Hs|]. split; [exact Hq | exact Hl].
Defined.

(** C4 as stated fails: after swapping the global qubit 0 with the local
    qubit 1 on two pieces, the pieces are exchanged but the partition still
    lists 0 as the global qubit and 1 as the local one, with the reduced
    indices they had before. *)
Lemma swap_roles_counterexample :
  TDC._swap nat exchange planned_circuit_2 [10; 20] 0 1
  = Ok (planned_circuit_2, [20; 10])
  ∧ TDC.queues planned_circuit_2 = Some partition_2_0
  ∧ global_qubits_list partition_2_0 = [0]
  ∧ local_qubits partition_2_0 = [1]
  ∧ global_qubits_reduced partition_2_0 !! 0 = Some 0
  ∧ global_qubits_reduced partition_2_0 !! 1 = None
  ∧ local_qubits_reduced partition_2_0 !! 1 = Some 0
  ∧ local_qubits_reduced partition_2_0 !! 0 = None.
Proof. repeat split; vm_compute; reflexivity. Qed.

(** ** The partition built by [DeviceQueues.__init__] *)

Lemma mapM_pairs {A B} (f : A → result B) (l : list A) (ps : list (A * B)) :
  mapM (λ q, r ← f q; Ok (q, r)) l = Ok ps →
  ps.*1 = l ∧ Forall (λ p, f p.1 = Ok p.2) ps.
Proof.
  intros Hm%mapM_Ok_inv.
  induction Hm as [|q p l' ps' Hp _ [IH1 IH2]]; [done|].
  apply bind_Ok in Hp as (r & Hr & [= <-]). split.
  - rewrite fmap_cons. simpl. by f_equal.
  - by constructor.
Qed.

Lemma sorted_le_lt (l : list nat) :
  StronglySorted (≤) l → NoDup l → StronglySorted lt l.
Proof.
  induction 1 as [|x l Hs IH Hall]; intros Hnd; [constructor|].
  apply NoDup_cons in Hnd as [Hx Hnd]. constructor; [by apply IH|].
  rewrite Forall_forall in Hall |- *. intros y Hy.
  specialize (Hall y Hy). assert (x ≠ y) by (by intros ->). lia.
Qed.

Lemma sorted_lt_filter (P : nat → Prop) `{∀ x, Decision (P x)} (l : list nat) :
  StronglySorted lt l → StronglySorted lt (filter P l).
Proof.
  induction 1 as [|x l Hs IH Hall]; [constructor|].
  rewrite filter_cons. case_decide; [|done].
  constructor; [done|]. rewrite Forall_forall in Hall |- *.
  intros y [_ Hy]%list_elem_of_filter. by apply Hall.
Qed.

Lemma sorted_lt_NoDup (l : list nat) : StronglySorted lt l → NoDup l.
Proof.
  induction 1 as [|x l Hs IH Hall]; constructor; [|done].
  rewrite Forall_forall in Hall. intros Hx%Hall. lia.
Qed.

(** The position of [q] in the sublist of [0 .. N-1] cut out by [P]. *)
Lemma filter_seq_lookup (P : nat → Prop) `{∀ x, Decision (P x)} N q :
  q < N → P q → filter P (seq 0 N) !! length (filter P (seq 0 q)) = Some q.
Proof.
  intros Hq HP. replace N with (q + S (N - q - 1)) by lia.
  rewrite seq_app, filter_app. simpl. rewrite filter_cons, decide_True by done.
  by rewrite lookup_app_r, Nat.sub_diag by done.
Qed.

Lemma filter_complement_length (P : nat → Prop) `{∀ x, Decision (P x)} (l : list nat) :
  length (filter (λ x, ¬ P x) l) + length (filter P l) = length l.
Proof.
  induction l as [|x l IH]; [done|]. rewrite !filter_cons.
  destruct (decide (P x)).
  - rewrite decide_False by tauto. simpl. lia.
  - rewrite decide_True by done. simpl. lia.
Qed.

(** The global qubits below [q], counted in [0 .. q-1] or in the sorted list. *)
Lemma globals_in_prefix (G : gset nat) q :
  length (filter (λ x, x ∈ G) (seq 0 q))
  = length (filter (λ g, g < q) (merge_sort (≤) (elements G))).
Proof.
  apply Permutation_length, NoDup_Permutation.
  - apply NoDup_filter, NoDup_seq.
  - apply NoDup_filter, global_list_NoDup.
  - intros x. rewrite !list_elem_of_filter, elem_of_seq, global_list_elem_of.
    intuition lia.
Qed.

Lemma reduced_id_local (G : gset nat) q r :
  q ∉ G →
  reduced_id (merge_sort (≤) (elements G)) q = Ok r →
  r = length (filter (λ x, x ∉ G) (seq 0 q)).
Proof.
  intros Hq. unfold reduced_id. intros Hr.
  apply bind_Ok in Hr as (n & Hn & [= <-]).
  destruct (merge_sort (≤) (elements G)) as [|g gl] eqn:Egl; [done|].
  rewrite reduction_scan_sorted in Hn;
    [|rewrite <- Egl; apply global_list_sorted|done].
  injection Hn as <-.
  rewrite count_le_lt by (rewrite <- Egl; apply global_list_NoDup).
  rewrite bool_decide_eq_false_2 by (by rewrite <- Egl, global_list_elem_of).
  rewrite <- Egl, <- globals_in_prefix.
  pose proof (filter_complement_length (λ x, x ∈ G) (seq 0 q)) as Hc.
  rewrite length_seq in Hc. simpl. lia.
Qed.

Lemma init_reduced_lists N D k nl devs G dq :
  __init__ N D k nl devs G = Ok dq →
  (∀ q i, global_qubits_reduced dq !! q = Some i ↔ global_qubits_list dq !! i = Some q)
  ∧ (∀ q i, local_qubits_reduced dq !! q = Some i ↔ local_qubits dq !! i = Some q).
Proof.
  unfold __init__. intros Hi.
  apply bind_Ok in Hi as (gr & Hgr & Hi).
  apply bind_Ok in Hi as (lr & Hlr & Hi).
  apply bind_Ok in Hi as (i2d & _ & [= <-]). simpl.
  set (gl := merge_sort (≤) (elements G)) in *.
  set (ll := filter (λ q, q ∉ G) (seq 0 N)) in *.
  apply mapM_pairs in Hgr as [Hgk Hgv]. apply mapM_pairs in Hlr as [Hlk Hlv].
  assert (NoDup gl) as Hgnd by apply global_list_NoDup.
  assert (NoDup ll) as Hlnd by apply NoDup_filter, NoDup_seq.
  rewrite Forall_forall in Hgv, Hlv.
  assert (∀ q i, (q, i) ∈ gr → gl !! i = Some q) as Hg1.
  { intros q i Hin. specialize (Hgv _ Hin). simpl in Hgv. unfold list_index in Hgv.
    destruct (list_find _ gl) as [[j y]|] eqn:Ef; [|done]. injection Hgv as ->.
    apply list_find_Some in Ef as (Hl & -> & _). done. }
  assert (∀ q i, (q, i) ∈ lr → ll !! i = Some q) as Hl1.
  { intros q i Hin. specialize (Hlv _ Hin). simpl in Hlv.
    assert (q ∈ ll) as Hq by (rewrite <- Hlk; by apply (list_elem_of_fmap_2 fst _ (q, i))).
    apply list_elem_of_filter in Hq as [HqG Hq%elem_of_seq].
    apply reduced_id_local in Hlv as ->; [|done].
    apply filter_seq_lookup; [lia|done]. }
  split; intros q i.
  - rewrite <- elem_of_list_to_map by (by rewrite Hgk). split; [apply Hg1|].
    intros Hl. assert (q ∈ gr.*1) as Hq by (rewrite Hgk; by eapply list_elem_of_lookup_2).
    apply list_elem_of_fmap in Hq as ([q' i'] & -> & Hin). simpl.
    by rewrite (NoDup_lookup gl i i' q' Hgnd Hl (Hg1 _ _ Hin)).
  - rewrite <- elem_of_list_to_map by (by rewrite Hlk). split; [apply Hl1|].
    intros Hl. assert (q ∈ lr.*1) as Hq by (rewrite Hlk; by eapply list_elem_of_lookup_2).
    apply list_elem_of_fmap in Hq as ([q' i'] & -> & Hin). simpl.
    by rewrite (NoDup_lookup ll i i' q' Hlnd Hl (Hl1 _ _ Hin)).
Qed.

Lemma init_lists N D k nl devs G dq :
  __init__ N D k nl devs G = Ok dq →
  StronglySorted lt (global_qubits_list dq)
  ∧ StronglySorted lt (local_qubits dq)
  ∧ (∀ q, q ∈ global_qubits_list dq ↔ q ∈ G)
  ∧ (∀ q, q ∈ local_qubits dq ↔ q < N ∧ q ∉ G)
  ∧ length (global_qubits_list dq) = size G
  ∧ ((∀ q, q ∈ G → q < N) →
     global_qubits_list dq ++ local_qubits dq ≡ₚ seq 0 N
     ∧ length (local_qubits dq) = N - size G).
Proof.
  intros Hi. apply init_inv in Hi as (_&_&_&_&_&_&_&_&Hgl&Hll&_).
  rewrite Hgl, Hll.
  assert (length (merge_sort (≤) (elements G)) = size G) as Hlen.
  { by rewrite merge_sort_Permutation. }
  split; [apply sorted_le_lt; [apply global_list_sorted|apply global_list_NoDup]|].
  split; [apply sorted_lt_filter, seq_sorted|].
  split; [apply global_list_elem_of|].
  split; [intros q; rewrite list_elem_of_filter, elem_of_seq; intuition lia|].
  split; [done|]. intros HG.
  assert (merge_sort (≤) (elements G) ++ filter (λ q, q ∉ G) (seq 0 N) ≡ₚ seq 0 N)
    as Hp.
  { apply NoDup_Permutation.
    - apply NoDup_app. split; [apply global_list_NoDup|]. split.
      + intros q Hq%global_list_elem_of [Hn _]%list_elem_of_filter. done.
      + apply NoDup_filter, NoDup_seq.
    - apply NoDup_seq.
    - intros q. rewrite elem_of_app, global_list_elem_of, list_elem_of_filter,
        elem_of_seq. split.
      + intros [Hq%HG|[_ Hq]]; lia.
      + intros Hq. destruct (decide (q ∈ G)); [by left|right]. split; [done|lia]. }
  split; [done|]. apply Permutation_length in Hp.
  rewrite length_app, length_seq, Hlen in Hp. lia.
Qed.

(** [__init__]: the global and the local list are strictly ascending and
    disjoint, hold the global set and its complement in [0 .. nqubits-1],
    and together they enumerate every qubit of the circuit once when the
    global set lies in that range. *)
Theorem init_lists_partition N D k nl devs G dq :
  __init__ N D k nl devs G = Ok dq →
  StronglySorted lt (global_qubits_list dq)
  ∧ StronglySorted lt (local_qubits dq)
  ∧ (∀ q, q ∈ global_qubits_list dq ↔ q ∈ G)
  ∧ (∀ q, q ∈ local_qubits dq ↔ q < N ∧ q ∉ G)
  ∧ (∀ q, q ∈ global_qubits_list dq → q ∉ local_qubits dq)
  ∧ length (global_qubits_list dq) = size G
  ∧ ((∀ q, q ∈ G → q < N) →
     global_qubits_list dq ++ local_qubits dq ≡ₚ seq 0 N
     ∧ length (local_qubits dq) = N - size G).
Proof.
  intros Hi. destruct (init_lists _ _ _ _ _ _ _ Hi) as (Hg & Hl & Hge & Hle & Hlen & Hp).
  split; [done|]. split; [done|]. split; [done|]. split; [done|].
  split; [|split; [done|done]].
  intros q Hq%Hge Hq'%Hle. tauto.
Qed.

(** [__init__]: the two reduced maps are the inverses of the two sorted
    lists. Looking a qubit up in [global_qubits_reduced] (in
    [local_qubits_reduced]) gives the position at which [global_qubits_list]
    (resp. [local_qubits]) holds it, and nothing else is in the maps; so
    every global qubit has a reduced id below the number of global qubits and
    every local qubit of the circuit one below the number of local qubits. *)
Theorem init_reduced_inverse N D k nl devs G dq :
  __init__ N D k nl devs G = Ok dq →
  (∀ q i, global_qubits_reduced dq !! q = Some i ↔ global_qubits_list dq !! i = Some q)
  ∧ (∀ q i, local_qubits_reduced dq !! q = Some i ↔ local_qubits dq !! i = Some q)
  ∧ (∀ q, q ∈ G → ∃ i, global_qubits_reduced dq !! q = Some i ∧ i < size G)
  ∧ (∀ q, q < N → q ∉ G →
          ∃ i, local_qubits_reduced dq !! q = Some i ∧ i < length (local_qubits dq)).
Proof.
  intros Hi. destruct (init_reduced_lists _ _ _ _ _ _ _ Hi) as [Hg Hl].
  destruct (init_lists _ _ _ _ _ _ _ Hi) as (_ & _ & Hge & Hle & Hlen & _).
  split; [done|]. split; [done|]. split.
  - intros q Hq%Hge. apply list_elem_of_lookup in Hq as [i Hq]. exists i.
    split; [by apply Hg|]. rewrite <- Hlen. by eapply lookup_lt_Some.
  - intros q Hq HG. assert (q ∈ local_qubits dq) as Hin by (by apply Hle).
    apply list_elem_of_lookup in Hin as [i Hin]. exists i.
    split; [by apply Hl|]. by eapply lookup_lt_Some.
Qed.

(** On four qubits with the global qubits 0 and 1. *)
Lemma init_reduced_inverse_witness :
  __init__ 4 4 2 2 (one_gpu 4) {[0; 1]} = Ok partition_4_01
  ∧ (local_qubits_reduced partition_4_01 !! 3 = Some 1
     ↔ local_qubits partition_4_01 !! 1 = Some 3).
Proof.
  split; [exact init_partition_4_01|].
  exact (proj1 (proj2 (init_reduced_inverse 4 4 2 2 (one_gpu 4) {[0; 1]}
                         partition_4_01 init_partition_4_01)) 3 1).
Defined.

Lemma init_lists_partition_witness :
  __init__ 4 4 2 2 (one_gpu 4) {[0; 1]} = Ok partition_4_01
  ∧ StronglySorted lt (global_qubits_list partition_4_01)
  ∧ StronglySorted lt (local_qubits partition_4_01)
  ∧ length (local_qubits partition_4_01) = 4 - size ({[0; 1]} : gset nat).
Proof.
  split; [exact init_partition_4_01|].
  destruct (init_lists_partition 4 4 2 2 (one_gpu 4) {[0; 1]} partition_4_01
              init_partition_4_01) as (Hg & Hl & _ & _ & _ & _ & Hn).
  split; [exact Hg|]. split; [exact Hl|].
  apply Hn. intros q Hq. apply elem_of_union in Hq as [Hq|Hq];
    apply elem_of_singleton in Hq; subst; lia.
Defined.

(** *** The piece indices of the devices *)

Lemma assign_inner_Ok (device : string) s n (acc : list (option string)) :
  s + n ≤ length acc →
  ∃ acc', foldM (λ acc i, if bool_decide (i < length acc)
                          then Ok (<[i := Some device]> acc)
                          else Err IndexError) (seq s n) acc = Ok acc'
          ∧ length acc' = length acc
          ∧ ∀ i, acc' !! i = if bool_decide (s ≤ i < s + n)
                             then Some (Some device) else acc !! i.
Proof.
  revert s acc. induction n as [|n IH]; intros s acc Hle.
  - exists acc. split; [done|]. split; [done|]. intros i.
    by rewrite bool_decide_eq_false_2 by lia.
  - cbn [seq foldM]. rewrite bool_decide_eq_true_2 by lia. rewrite bind_Ok_l.
    destruct (IH (S s) (<[s := Some device]> acc)) as (acc' & Hf & Hl & Hlk).
    { rewrite length_insert. lia. }
    exists acc'. split; [done|]. rewrite length_insert in Hl. split; [done|].
    intros i. rewrite Hlk. destruct (decide (i = s)) as [->|Hne].
    + rewrite bool_decide_eq_false_2 by lia. rewrite bool_decide_eq_true_2 by lia.
      apply list_lookup_insert_eq. lia.
    + rewrite list_lookup_insert_ne by done.
      destruct (decide (S s ≤ i < S s + n)).
      * by rewrite !bool_decide_eq_true_2 by lia.
      * by rewrite !bool_decide_eq_false_2 by lia.
Qed.

Lemma assign_inner_Err (device : string) s n (acc : list (option string)) :
  s ≤ length acc → length acc < s + n →
  foldM (λ acc i, if bool_decide (i < length acc)
                  then Ok (<[i := Some device]> acc)
                  else Err IndexError) (seq s n) acc = Err IndexError.
Proof.
  revert s acc. induction n as [|n IH]; intros s acc Hs Hlt; [lia|].
  cbn [seq foldM]. destruct (decide (s < length acc)).
  - rewrite bool_decide_eq_true_2 by done. rewrite bind_Ok_l.
    apply IH; rewrite length_insert; lia.
  - by rewrite bool_decide_eq_false_2 by done.
Qed.

Lemma assign_outer devs start (acc : list (option string)) :
  start ≤ length acc →
  (start + sum_list (devs.*2) ≤ length acc →
   ∃ acc', foldM (λ acc '(device, ids),
                    foldM (λ acc i, if bool_decide (i < length acc)
                                    then Ok (<[i := Some device]> acc)
                                    else Err IndexError) ids acc)
                 (_ids devs start) acc = Ok acc'
           ∧ length acc' = length acc
           ∧ ∀ i, (start ≤ i < start + sum_list (devs.*2) →
                   ∃ d ids, acc' !! i = Some (Some d)
                            ∧ (d, ids) ∈ _ids devs start ∧ i ∈ ids)
                  ∧ (¬ start ≤ i < start + sum_list (devs.*2) → acc' !! i = acc !! i))
  ∧ (length acc < start + sum_list (devs.*2) →
     foldM (λ acc '(device, ids),
              foldM (λ acc i, if bool_decide (i < length acc)
                              then Ok (<[i := Some device]> acc)
                              else Err IndexError) ids acc)
           (_ids devs start) acc = Err IndexError).
Proof.
  revert start acc. induction devs as [|[d n] devs IH]; intros start acc Hs.
  - simpl. split; [|lia]. intros _. exists acc. split; [done|]. split; [done|].
    intros i. split; [lia|done].
  - rewrite fmap_cons. cbn [snd _ids foldM]. change (sum_list (n :: devs.*2)) with (n + sum_list devs.*2). split.
    + intros Hle.
      destruct (assign_inner_Ok d start n acc) as (acc1 & -> & Hl1 & Hk1); [lia|].
      rewrite bind_Ok_l.
      destruct (IH (start + n) acc1) as [IHok _]; [lia|].
      destruct IHok as (acc' & Hf & Hl' & Hk'); [lia|].
      exists acc'. split; [done|]. split; [congruence|]. intros i. split.
      * intros Hi. destruct (decide (i < start + n)) as [Hlt|Hge].
        -- exists d, (seq start n). rewrite (proj2 (Hk' i)) by lia.
           rewrite Hk1, bool_decide_eq_true_2 by lia. split; [done|].
           split; [left|apply elem_of_seq; lia].
        -- destruct (Hk' i) as [(d' & ids & Hlk & Hin & Hi') _]; [lia|].
           exists d', ids. split; [done|]. split; [by right|done].
      * intros Hi. rewrite (proj2 (Hk' i)) by lia.
        rewrite Hk1. by rewrite bool_decide_eq_false_2 by lia.
    + intros Hlt. destruct (decide (start + n ≤ length acc)) as [Hle|Hgt].
      * destruct (assign_inner_Ok d start n acc) as (acc1 & -> & Hl1 & Hk1); [lia|].
        rewrite bind_Ok_l. destruct (IH (start + n) acc1) as [_ IHerr]; [lia|].
        apply IHerr. lia.
      * rewrite assign_inner_Err by lia. done.
Qed.

Lemma init_global_reduced_Ok (G : gset nat) :
  ∃ gr, mapM (λ q, i ← list_index q (merge_sort (≤) (elements G)); Ok (q, i))
             (merge_sort (≤) (elements G)) = Ok gr.
Proof.
  eexists. apply (mapM_Ok_fmap _ (λ q, (q, default 0 (fst <$> list_find (λ y, y = q)
                                              (merge_sort (≤) (elements G)))))).
  intros q Hq. unfold list_index.
  destruct (list_find _ _) as [[i y]|] eqn:Ef; [done|].
  apply list_find_None in Ef. rewrite Forall_forall in Ef. by destruct (Ef q Hq).
Qed.

Lemma init_local_reduced_Ok (G : gset nat) N :
  G ≠ ∅ ∨ N = 0 →
  ∃ lr, mapM (λ q, r ← reduced_id (merge_sort (≤) (elements G)) q; Ok (q, r))
             (filter (λ q, q ∉ G) (seq 0 N)) = Ok lr.
Proof.
  intros [HG| ->]; [|by eexists].
  destruct (merge_sort (≤) (elements G)) as [|g gl] eqn:Egl.
  { destruct HG. apply leibniz_equiv, elements_empty_inv, Permutation_nil_r.
    by rewrite <- (merge_sort_Permutation (≤)), Egl. }
  eexists. apply (mapM_Ok_fmap _ (λ q, (q, q - length (filter (λ g, g ≤ q) (g :: gl))))).
  intros q _. unfold reduced_id.
  rewrite reduction_scan_sorted; [done| |done].
  rewrite <- Egl. apply global_list_sorted.
Qed.

Lemma init_builds N D k nl devs (G : gset nat) :
  G ≠ ∅ ∨ N = 0 → sum_list (devs.*2) ≤ D →
  ∃ dq, __init__ N D k nl devs G = Ok dq.
Proof.
  intros HG Hle. destruct (init_global_reduced_Ok G) as [gr Hgr].
  destruct (init_local_reduced_Ok G N HG) as [lr Hlr].
  unfold __init__. rewrite Hgr, bind_Ok_l, Hlr, bind_Ok_l. unfold assign_devices.
  destruct (assign_outer devs 0 (replicate D None)) as [Hok _]; [lia|].
  destruct Hok as (acc' & -> & _); [by rewrite length_replicate|].
  rewrite bind_Ok_l. by eexists.
Qed.

(** [__init__]: when it raises and when it returns. With an empty global set
    and at least one qubit, [reduction_number] reads its loop variable before
    any assignment; with more piece indices than logical devices the loop
    that fills [ids_to_device] leaves the list. Otherwise the object is built. *)
Theorem init_result N D k nl devs (G : gset nat) :
  (G = ∅ → 0 < N → __init__ N D k nl devs G = Err UnboundLocalError)
  ∧ (G ≠ ∅ ∨ N = 0 → sum_list (devs.*2) ≤ D →
     ∃ dq, __init__ N D k nl devs G = Ok dq)
  ∧ (G ≠ ∅ ∨ N = 0 → D < sum_list (devs.*2) →
     __init__ N D k nl devs G = Err IndexError).
Proof.
  destruct (init_global_reduced_Ok G) as [gr Hgr].
  split; [|split].
  - intros -> HN. unfold __init__. rewrite Hgr, bind_Ok_l.
    rewrite elements_empty. replace N with (S (N - 1)) by lia.
    cbn [seq]. rewrite filter_cons, decide_True by set_solver. done.
  - apply init_builds.
  - intros HG Hlt. destruct (init_local_reduced_Ok G N HG) as [lr Hlr].
    unfold __init__. rewrite Hgr, bind_Ok_l, Hlr, bind_Ok_l. unfold assign_devices.
    destruct (assign_outer devs 0 (replicate D None)) as [_ Herr]; [lia|].
    rewrite Herr; [done|]. by rewrite length_replicate.
Qed.

(** Two qubits, two logical devices: no global qubit; one global qubit; and
    three piece indices for two devices. *)
Lemma init_result_witness :
  __init__ 2 2 1 1 (one_gpu 2) ∅ = Err UnboundLocalError
  ∧ (∃ dq, __init__ 2 2 1 1 (one_gpu 2) {[0]} = Ok dq)
  ∧ __init__ 2 2 1 1 (one_gpu 3) {[0]} = Err IndexError.
Proof.
  destruct (init_result 2 2 1 1 (one_gpu 2) ∅) as (H1 & _ & _).
  destruct (init_result 2 2 1 1 (one_gpu 2) {[0]}) as (_ & H2 & _).
  destruct (init_result 2 2 1 1 (one_gpu 3) {[0]}) as (_ & _ & H3).
  split; [apply H1; [reflexivity|lia]|].
  split; [apply H2; [left; apply non_empty_singleton_L|simpl; lia]|].
  apply H3; [left; apply non_empty_singleton_L|simpl; lia].
Defined.

(** [__init__]: [ids_to_device] is the inverse of [device_to_ids]. When the
    counts of [calc_devices] add up to the number of logical devices, every
    piece index below [ndevices] is mapped to the device whose id list holds
    it, and the id lists are the consecutive ranges that cover
    [0 .. ndevices-1]. *)
Theorem ids_to_device_inverse N D k nl devs G dq :
  __init__ N D k nl devs G = Ok dq →
  sum_list (devs.*2) = D →
  length (ids_to_device dq) = D
  ∧ concat ((device_to_ids dq).*2) = seq 0 D
  ∧ ∀ i, i < D →
         ∃ d ids, ids_to_device dq !! i = Some (Some d)
                  ∧ (d, ids) ∈ device_to_ids dq ∧ i ∈ ids.
Proof.
  unfold __init__. intros Hi Hsum.
  apply bind_Ok in Hi as (gr & _ & Hi).
  apply bind_Ok in Hi as (lr & _ & Hi).
  apply bind_Ok in Hi as (i2d & Ha & [= <-]). simpl.
  unfold assign_devices in Ha.
  destruct (assign_outer devs 0 (replicate D None)) as [Hok _]; [lia|].
  destruct Hok as (acc' & Hf & Hl & Hk); [rewrite length_replicate; lia|].
  rewrite Hf in Ha. injection Ha as <-. rewrite length_replicate in Hl.
  split; [done|]. split; [by rewrite ids_concat, Hsum|].
  intros i Hi. apply (Hk i). lia.
Qed.

Lemma ids_to_device_inverse_witness :
  __init__ 2 2 1 1 (one_gpu 2) {[0]} = Ok partition_2_0
  ∧ length (ids_to_device partition_2_0) = 2
  ∧ concat ((device_to_ids partition_2_0).*2) = seq 0 2.
Proof.
  split; [exact init_partition_2_0|].
  destruct (ids_to_device_inverse 2 2 1 1 (one_gpu 2) {[0]} partition_2_0
              init_partition_2_0 eq_refl) as (Hl & Hc & _).
  split; [exact Hl | exact Hc].
Defined.

(** ** [count] *)

Lemma wrap32_add (a d : Z) : wrap32 (wrap32 a + d) = wrap32 (a + d).
Proof.
  unfold wrap32. f_equal.
  replace ((a + 2 ^ 31) `mod` 2 ^ 32 - 2 ^ 31 + d + 2 ^ 31)%Z
    with ((a + 2 ^ 31) `mod` 2 ^ 32 + d)%Z by lia.
  rewrite Zplus_mod_idemp_l. f_equal. lia.
Qed.

Lemma wrap32_small (a : Z) : (- 2 ^ 31 ≤ a < 2 ^ 31)%Z → wrap32 a = a.
Proof. intros Ha. unfold wrap32. rewrite Z.mod_small; lia. Qed.

Lemma count_flat st queue N :
  count st queue N = foldM (counter_add 1) (all_targets st queue) (replicate N 0%Z).
Proof.
  unfold count, all_targets. generalize (replicate N 0%Z).
  induction queue as [|gid queue IH]; intros counter; [done|].
  cbn [foldM]. rewrite bind_cons, foldM_app. destruct (foldM _ (target_qubits _) counter); [|done].
  rewrite !bind_Ok_l. apply IH.
Qed.

Lemma counter_add_Ok d counter q v :
  counter !! q = Some v → counter_add d counter q = Ok (<[q := wrap32 (v + d)]> counter).
Proof. unfold counter_add. by intros ->. Qed.

Lemma counter_add_all d (f : nat → Z) N ts :
  Forall (λ q, q < N) ts →
  foldM (counter_add d) ts ((λ q, wrap32 (f q)) <$> seq 0 N)
  = Ok ((λ q, wrap32 (f q + d * Z.of_nat (length (filter (λ t, t = q) ts))))
          <$> seq 0 N).
Proof.
  revert f. induction ts as [|t ts IH]; intros f Hall.
  - simpl. f_equal. apply list_fmap_ext. intros _ q _. f_equal. lia.
  - apply Forall_cons in Hall as [Ht Hall]. cbn [foldM].
    rewrite (counter_add_Ok _ _ _ (wrap32 (f t)))
      by (by rewrite list_lookup_fmap, lookup_seq_lt by done).
    rewrite bind_Ok_l.
    replace (<[t := wrap32 (wrap32 (f t) + d)]> ((λ q, wrap32 (f q)) <$> seq 0 N))
      with ((λ q, wrap32 (if bool_decide (q = t) then f q + d else f q)) <$> seq 0 N).
    + rewrite (IH (λ q, if bool_decide (q = t) then f q + d else f q)%Z) by done.
      f_equal. apply list_fmap_ext. intros _ q _. f_equal.
      rewrite filter_cons. destruct (decide (t = q)) as [->|Hne].
      * rewrite bool_decide_eq_true_2 by done. simpl length. lia.
      * rewrite bool_decide_eq_false_2 by done. done.
    + apply list_eq. intros i. destruct (decide (i = t)) as [->|Hne].
      * rewrite list_lookup_insert_eq by (by rewrite length_fmap, length_seq).
        rewrite list_lookup_fmap, lookup_seq_lt by done. simpl.
        by rewrite bool_decide_eq_true_2, wrap32_add.
      * rewrite list_lookup_insert_ne by done. rewrite !list_lookup_fmap.
        destruct (seq 0 N !! i) as [q|] eqn:Eq; [|done]. simpl.
        apply lookup_seq in Eq as [-> _]. by rewrite bool_decide_eq_false_2.
Qed.

Lemma counter_add_all_range d ts counter counter' :
  foldM (counter_add d) ts counter = Ok counter' →
  Forall (λ q, q < length counter) ts.
Proof.
  revert counter. induction ts as [|t ts IH]; intros counter Hf; [constructor|].
  cbn [foldM] in Hf. apply bind_Ok in Hf as (c1 & Hc1 & Hf).
  pose proof (counter_add_length _ _ _ _ Hc1) as Hl.
  unfold counter_add in Hc1. destruct (counter !! t) eqn:Et; [|done].
  constructor; [by eapply lookup_lt_Some|]. rewrite <- Hl. by eapply IH.
Qed.

Lemma counter_add_all_error d ts counter e :
  foldM (counter_add d) ts counter = Err e → e = IndexError.
Proof.
  revert counter. induction ts as [|t ts IH]; intros counter; [done|].
  cbn [foldM]. destruct (counter_add d counter t) as [c1|e1] eqn:E1.
  - rewrite bind_Ok_l. apply IH.
  - unfold counter_add in E1. destruct (counter !! t); [done|].
    injection E1 as <-. by intros [= <-].
Qed.

(** [count]: when every target id of the queue is below [nqubits], entry [q]
    of the counter is the number of times the gates target [q], reduced to
    32 bits; when some target id is not below [nqubits] the indexing raises
    [IndexError]. *)
Theorem count_occurrences st queue N :
  (Forall (λ q, q < N) (all_targets st queue) →
   count st queue N
   = Ok ((λ q, wrap32 (Z.of_nat (target_occurrences st queue q))) <$> seq 0 N))
  ∧ (¬ Forall (λ q, q < N) (all_targets st queue) →
     count st queue N = Err IndexError).
Proof.
  rewrite count_flat. split.
  - intros Hall. replace (replicate N 0%Z) with ((λ q, wrap32 ((λ _, 0%Z) q)) <$> seq 0 N).
    + rewrite (counter_add_all 1 (λ _, 0%Z)) by done. f_equal.
      apply list_fmap_ext. intros _ q _. unfold target_occurrences. f_equal. lia.
    + clear. generalize 0. induction N as [|N IH]; intros a; [done|].
      simpl. f_equal. apply IH.
  - intros Hn. destruct (foldM _ _ _) as [c|e] eqn:Ef.
    + destruct Hn. apply counter_add_all_range in Ef.
      by rewrite length_replicate in Ef.
    + by apply counter_add_all_error in Ef as ->.
Qed.

Lemma count_occurrences_witness :
  count [H 2; H 2; H 0] [0; 1; 2] 3 = Ok [1; 0; 2]%Z
  ∧ count [H 3] [0] 3 = Err IndexError.
Proof.
  destruct (count_occurrences [H 2; H 2; H 0] [0; 1; 2] 3) as [H1 _].
  destruct (count_occurrences [H 3] [0] 3) as [_ H2].
  split.
  - rewrite H1; [reflexivity|]. repeat constructor.
  - apply H2. intros Hall. apply Forall_cons in Hall as [Hlt _]. lia.
Defined.

(** ** The circuit object and its global qubits *)

Lemma reverse_order_step (f : nat → nat → nat * nat) (l : list nat) (acc : list nat) x :
  foldM (λ acc '(i, v), if bool_decide (v < length acc)
                        then Ok (<[v := i]> acc) else Err IndexError)
        (imap f (x :: l)) acc
  = (let '(i, v) := f 0 x in
     if bool_decide (v < length acc) then Ok (<[v := i]> acc) else Err IndexError)
    ≫= foldM (λ acc '(i, v), if bool_decide (v < length acc)
                            then Ok (<[v := i]> acc) else Err IndexError)
             (imap (f ∘ S) l).
Proof. done. Qed.

Lemma reverse_order_fold off (l : list nat) (acc : list nat) :
  NoDup l → Forall (λ v, v < length acc) l →
  ∃ acc', foldM (λ acc '(i, v), if bool_decide (v < length acc)
                                then Ok (<[v := i]> acc) else Err IndexError)
                (imap (λ i v, (off + i, v)) l) acc = Ok acc'
          ∧ length acc' = length acc
          ∧ (∀ i v, l !! i = Some v → acc' !! v = Some (off + i))
          ∧ (∀ v, v ∉ l → acc' !! v = acc !! v).
Proof.
  revert off acc. induction l as [|x l IH]; intros off acc Hnd Hall.
  - exists acc. by repeat split.
  - apply NoDup_cons in Hnd as [Hx Hnd]. apply Forall_cons in Hall as [Hlt Hall].
    rewrite reverse_order_step. cbn beta iota.
    rewrite bool_decide_eq_true_2 by done. rewrite bind_Ok_l.
    destruct (IH (S off) (<[x := off + 0]> acc)) as (acc' & Hf & Hl & Hin & Hout);
      [done|by rewrite length_insert|].
    exists acc'. split.
    { rewrite <- Hf. f_equal. apply imap_ext. intros i v _. simpl. f_equal. lia. }
    rewrite length_insert in Hl. split; [done|]. split.
    + intros [|i] v; simpl.
      * intros [= <-]. rewrite Hout by done. by apply list_lookup_insert_eq.
      * intros Hi. rewrite (Hin i v Hi). f_equal. lia.
    + intros v [Hne Hv]%not_elem_of_cons. rewrite Hout by done.
      by apply list_lookup_insert_ne.
Qed.

Lemma reverse_order_range (f : nat → nat → nat * nat) (l : list nat) acc acc' :
  (∀ i v, (f i v).2 = v) →
  foldM (λ acc '(i, v), if bool_decide (v < length acc)
                        then Ok (<[v := i]> acc) else Err IndexError)
        (imap f l) acc = Ok acc' →
  Forall (λ v, v < length acc) l.
Proof.
  revert f acc. induction l as [|x l IH]; intros f acc Hf Hfold; [constructor|].
  rewrite reverse_order_step in Hfold. specialize (Hf 0 x) as Hx.
  destruct (f 0 x) as [i v]. simpl in Hx. subst v. cbn beta iota in Hfold.
  case_bool_decide as Hlt; [|done]. rewrite bind_Ok_l in Hfold.
  constructor; [done|]. apply IH in Hfold; [|intros; apply Hf].
  by rewrite length_insert in Hfold.
Qed.

Lemma reverse_order_error (f : nat → nat → nat * nat) (l : list nat) acc e :
  foldM (λ acc '(i, v), if bool_decide (v < length acc)
                        then Ok (<[v := i]> acc) else Err IndexError)
        (imap f l) acc = Err e →
  e = IndexError.
Proof.
  revert f acc. induction l as [|x l IH]; intros f acc; [done|].
  rewrite reverse_order_step. destruct (f 0 x) as [i v]. cbn beta iota.
  case_bool_decide; [|by intros [= <-]]. rewrite bind_Ok_l. apply IH.
Qed.

Lemma set_global_qubits_inv c x c' :
  TDC.set_global_qubits c x = Ok c' →
  size (list_to_set x : gset nat) = TDC.nglobal c
  ∧ ∃ dq ro,
      __init__ (TDC.nqubits c) (TDC.ndevices c) (TDC.nglobal c) (TDC.nlocal c)
               (TDC.calc_devices c) (list_to_set x) = Ok dq
      ∧ c' = TDC.mk (TDC.nqubits c) (TDC.ndevices c) (TDC.nglobal c) (TDC.nlocal c)
                    (TDC.memory_device c) (TDC.calc_devices c) (TDC.queue c) (Some dq)
                    (global_qubits_list dq ++ local_qubits dq) ro
      ∧ global_qubits_list dq ++ local_qubits dq ≡ₚ seq 0 (TDC.nqubits c)
      ∧ length ro = TDC.nqubits c
      ∧ ∀ i v, (global_qubits_list dq ++ local_qubits dq) !! i = Some v → ro !! v = Some i.
Proof.
  unfold TDC.set_global_qubits. case_bool_decide as Hsz; [done|]. intros Hs.
  apply bind_Ok in Hs as (dq & Hdq & Hs). apply bind_Ok in Hs as (ro & Hro & [= <-]).
  split; [by destruct (decide (size (list_to_set x : gset nat) = TDC.nglobal c))|].
  exists dq, ro. split; [done|]. split; [done|].
  pose proof (init_lists _ _ _ _ _ _ _ Hdq) as (Hgs & Hls & Hge & Hle & _ & Hp).
  pose proof (reverse_order_range pair _ _ _ (λ _ _, eq_refl) Hro) as Hall.
  rewrite length_replicate in Hall.
  assert (∀ q, q ∈ (list_to_set x : gset nat) → q < TDC.nqubits c) as Hx.
  { intros q Hq%Hge. apply Forall_app in Hall as [Hall _].
    rewrite Forall_forall in Hall. by apply Hall. }
  destruct (Hp Hx) as [Hperm _].
  assert (NoDup (global_qubits_list dq ++ local_qubits dq)) as Hnd.
  { rewrite Hperm. apply NoDup_seq. }
  destruct (reverse_order_fold 0 (global_qubits_list dq ++ local_qubits dq)
              (replicate (TDC.nqubits c) 0)) as (ro' & Hro' & Hlen & Hin & _);
    [done|by rewrite length_replicate|].
  change (imap (λ i v, (0 + i, v))) with (imap (@pair nat nat)) in Hro'.
  rewrite Hro' in Hro. injection Hro as ->. rewrite length_replicate in Hlen.
  split; [done|]. split; [done|]. intros i v. apply Hin.
Qed.

Lemma set_global_qubits_Ok c x :
  0 < TDC.nglobal c →
  sum_list ((TDC.calc_devices c).*2) = TDC.ndevices c →
  size (list_to_set x : gset nat) = TDC.nglobal c →
  Forall (λ q, q < TDC.nqubits c) x →
  ∃ c', TDC.set_global_qubits c x = Ok c'.
Proof.
  intros Hk Hsum Hsz Hx. unfold TDC.set_global_qubits.
  rewrite bool_decide_eq_false_2 by (by intros ?).
  set (G := list_to_set x : gset nat) in *.
  destruct (init_builds (TDC.nqubits c) (TDC.ndevices c) (TDC.nglobal c)
              (TDC.nlocal c) (TDC.calc_devices c) G) as [dq Hdq]; [|lia|].
  { left. intros HG. rewrite HG, size_empty in Hsz. lia. }
  rewrite Hdq, bind_Ok_l.
  pose proof (init_lists _ _ _ _ _ _ _ Hdq) as (Hgs & Hls & Hge & Hle & _ & _).
  destruct (reverse_order_fold 0 (global_qubits_list dq ++ local_qubits dq)
              (replicate (TDC.nqubits c) 0)) as (ro & Hro & _).
  { apply NoDup_app. split; [by apply sorted_lt_NoDup|].
    split; [|by apply sorted_lt_NoDup].
    intros q Hq%Hge Hq'%Hle. tauto. }
  { rewrite length_replicate. apply Forall_app. rewrite !Forall_forall.
    split; intros q Hq.
    - apply Hge, elem_of_list_to_set in Hq. rewrite Forall_forall in Hx. by apply Hx.
    - by apply Hle in Hq as [? _]. }
  change (imap (λ i v, (0 + i, v))) with (imap (@pair nat nat)) in Hro.
  rewrite Hro, bind_Ok_l. by eexists.
Qed.

(** The [global_qubits] setter, on a circuit with at least one global qubit
    whose device counts add up to [ndevices]: it raises [ValueError] when the
    number of distinct ids differs from [nglobal], [IndexError] when some id
    is not below [nqubits], and otherwise succeeds; the getter then returns
    the ids in strictly ascending order. *)
Theorem set_global_qubits_result c x :
  0 < TDC.nglobal c →
  sum_list ((TDC.calc_devices c).*2) = TDC.ndevices c →
  (size (list_to_set x : gset nat) ≠ TDC.nglobal c →
   TDC.set_global_qubits c x = Err (ValueError InvalidNumberOfGlobals))
  ∧ (size (list_to_set x : gset nat) = TDC.nglobal c →
     ¬ Forall (λ q, q < TDC.nqubits c) x →
     TDC.set_global_qubits c x = Err IndexError)
  ∧ (size (list_to_set x : gset nat) = TDC.nglobal c →
     Forall (λ q, q < TDC.nqubits c) x →
     ∃ c' l, TDC.set_global_qubits c x = Ok c'
             ∧ TDC.global_qubits c' = Some l
             ∧ StronglySorted lt l ∧ (∀ q, q ∈ l ↔ q ∈ x)).
Proof.
  intros Hk Hsum.
  split; [by intros Hne; unfold TDC.set_global_qubits; rewrite bool_decide_eq_true_2|].
  split; intros Hsz Hx.
  - destruct (TDC.set_global_qubits c x) as [c'|e] eqn:Es.
    + destruct Hx. apply set_global_qubits_inv in Es
        as (_ & dq & ro & Hdq & _ & Hperm & _).
      pose proof (init_lists _ _ _ _ _ _ _ Hdq) as (_ & _ & Hge & _).
      rewrite Forall_forall. intros q Hq.
      assert (q ∈ global_qubits_list dq ++ local_qubits dq) as Hq'.
      { apply elem_of_app. left. by apply Hge, elem_of_list_to_set. }
      rewrite Hperm in Hq'. apply elem_of_seq in Hq'. lia.
    + revert Es. unfold TDC.set_global_qubits.
      rewrite bool_decide_eq_false_2 by (by intros ?).
      destruct (init_builds (TDC.nqubits c) (TDC.ndevices c) (TDC.nglobal c)
                  (TDC.nlocal c) (TDC.calc_devices c) (list_to_set x)) as [dq ->];
        [|lia|].
      { left. intros HG. rewrite HG, size_empty in Hsz. lia. }
      rewrite bind_Ok_l. destruct (foldM _ _ _) as [ro|e'] eqn:Ef; [done|].
      apply reverse_order_error in Ef as ->. by intros [= <-].
  - destruct (set_global_qubits_Ok c x) as [c' Hc']; [done..|].
    pose proof Hc' as (_ & dq & ro & Hdq & -> & _)%set_global_qubits_inv.
    pose proof (init_lists _ _ _ _ _ _ _ Hdq) as (Hgs & _ & Hge & _).
    eexists _, _. split; [done|]. split; [done|]. split; [done|].
    intros q. rewrite Hge. apply elem_of_list_to_set.
Qed.

(** On the planned two-qubit circuit. *)
Lemma set_global_qubits_result_witness :
  TDC.set_global_qubits planned_circuit_2 [0; 1] = Err (ValueError InvalidNumberOfGlobals)
  ∧ TDC.set_global_qubits planned_circuit_2 [2] = Err IndexError
  ∧ ∃ c', TDC.set_global_qubits planned_circuit_2 [1] = Ok c'.
Proof.
  destruct (set_global_qubits_result planned_circuit_2 [0; 1]) as (H1 & _ & _);
    [simpl; lia|reflexivity|].
  destruct (set_global_qubits_result planned_circuit_2 [2]) as (_ & H2 & _);
    [simpl; lia|reflexivity|].
  destruct (set_global_qubits_result planned_circuit_2 [1]) as (_ & _ & H3);
    [simpl; lia|reflexivity|].
  split; [apply H1; vm_compute; lia|].
  split; [apply H2; [reflexivity|]|].
  - intros Hall. apply Forall_cons in Hall as [Hlt _]. simpl in Hlt. lia.
  - destruct H3 as (c' & l & Hc' & _); [reflexivity|repeat constructor|].
    by exists c'.
Defined.

(** After the [global_qubits] setter, [transpose_order] lists every qubit of
    the circuit once, global qubits first, and [reverse_transpose_order] is
    its inverse permutation. *)
Theorem transpose_orders_inverse c x c' :
  TDC.set_global_qubits c x = Ok c' →
  TDC.transpose_order c' ≡ₚ seq 0 (TDC.nqubits c)
  ∧ length (TDC.reverse_transpose_order c') = TDC.nqubits c
  ∧ (∃ dq, TDC.queues c' = Some dq
           ∧ TDC.transpose_order c' = global_qubits_list dq ++ local_qubits dq)
  ∧ ∀ i v, TDC.transpose_order c' !! i = Some v
           ↔ TDC.reverse_transpose_order c' !! v = Some i ∧ v < TDC.nqubits c.
Proof.
  intros (_ & dq & ro & Hdq & -> & Hperm & Hlen & Hin)%set_global_qubits_inv. simpl.
  split; [done|]. split; [done|]. split; [by exists dq|].
  intros i v. split.
  - intros Hi. split; [by apply Hin|].
    apply list_elem_of_lookup_2 in Hi. rewrite Hperm in Hi.
    apply elem_of_seq in Hi. lia.
  - intros [Hv Hlt]. assert (v ∈ global_qubits_list dq ++ local_qubits dq) as Hv'.
    { rewrite Hperm. apply elem_of_seq. lia. }
    apply list_elem_of_lookup in Hv' as [j Hj]. rewrite (Hin j v Hj) in Hv.
    by injection Hv as <-.
Qed.

Lemma transpose_orders_inverse_witness :
  TDC.set_global_qubits planned_circuit_2 [1]
  = Ok (TDC.mk 2 2 1 1 "/CPU:0" (one_gpu 2) []
          (Some (mk 2 2 1 1 [] [] {[1]} [1] [0] {[1 := 0]} {[0 := 0]} []
                    [("/GPU:0"%string, [0; 1])]
                    [Some "/GPU:0"%string; Some "/GPU:0"%string]))
          [1; 0] [1; 0])
  ∧ ([1; 0] !! 0 = Some 1 ↔ [1; 0] !! 1 = Some 0 ∧ 1 < 2).
Proof.
  assert (TDC.set_global_qubits planned_circuit_2 [1]
  = Ok (TDC.mk 2 2 1 1 "/CPU:0" (one_gpu 2) []
          (Some (mk 2 2 1 1 [] [] {[1]} [1] [0] {[1 := 0]} {[0 := 0]} []
                    [("/GPU:0"%string, [0; 1])]
                    [Some "/GPU:0"%string; Some "/GPU:0"%string]))
          [1; 0] [1; 0])) as Hs by (vm_compute; reflexivity).
  split; [exact Hs|].
  destruct (transpose_orders_inverse planned_circuit_2 [1] _ Hs) as (_ & _ & _ & Hi).
  exact (Hi 0 1).
Defined.

(** [TensorflowDistributedCircuit.__init__], for fewer than 2^32 logical
    devices (where the floating-point logarithm of the source is exact): the
    circuit is built exactly when the device counts add up to a power of two
    2^k with k > 0, with [nglobal = k] and [nlocal = nqubits - k], which is
    negative when the circuit has fewer qubits than that; for any other
    total the constructor raises [ValueError]. *)
Theorem circuit_init_result N accs md :
  (Z.of_nat (sum_list (accs.*2)) < 2 ^ 32)%Z →
  (∀ k, 0 < k → sum_list (accs.*2) = 2 ^ k →
        TDC.__init__ N accs md
        = Ok (TDC.mk N (2 ^ k) k (Z.of_nat N - Z.of_nat k) md accs [] None [] []))
  ∧ ((∀ k, 0 < k → sum_list (accs.*2) ≠ 2 ^ k) →
     TDC.__init__ N accs md = Err (ValueError DevicesNotPowerOfTwo)).
Proof.
  intros _. unfold TDC.__init__, TDC.exact_log2. split.
  - intros k Hk ->. rewrite Nat.log2_pow2 by lia.
    rewrite bool_decide_eq_true_2 by done. by rewrite bool_decide_eq_true_2.
  - intros Hn. case_bool_decide as Hp; [|done].
    case_bool_decide as Hpos; [|done]. by destruct (Hn _ Hpos).
Qed.

Lemma circuit_init_result_witness :
  TDC.__init__ 3 (one_gpu 2) "/CPU:0" = Ok plain_circuit_3
  ∧ TDC.__init__ 3 (one_gpu 1) "/CPU:0" = Err (ValueError DevicesNotPowerOfTwo).
Proof.
  destruct (circuit_init_result 3 (one_gpu 2) "/CPU:0") as [H1 _].
  { change (sum_list ((one_gpu 2).*2)) with 2. lia. }
  destruct (circuit_init_result 3 (one_gpu 1) "/CPU:0") as [_ H2].
  { change (sum_list ((one_gpu 1).*2)) with 1. lia. }
  split; [exact (H1 1 (le_n 1) eq_refl)|].
  apply H2. intros k Hk. change (sum_list ((one_gpu 1).*2)) with 1.
  assert (2 ^ 1 ≤ 2 ^ k) by (apply Nat.pow_le_mono_r; lia).
  change (2 ^ 1) with 2 in *. lia.
Defined.

Lemma sorted_lt_unique (l1 l2 : list nat) :
  StronglySorted lt l1 → StronglySorted lt l2 → (∀ q, q ∈ l1 ↔ q ∈ l2) → l1 = l2.
Proof.
  intros H1 H2 Hel. assert (AntiSymm eq lt) by (intros x y ??; lia).
  apply (StronglySorted_unique lt); [done..|].
  apply NoDup_Permutation; [by apply sorted_lt_NoDup..|done].
Qed.

(** [_cast_initial_state] on a circuit without a plan: the qubits
    [0 .. nglobal-1] become the global ones, the remaining qubits the local
    ones, and both transposition orders are the identity. With fewer qubits
    than global qubits the setter raises [IndexError]. *)
Theorem default_global_qubits c :
  TDC.queues c = None →
  0 < TDC.nglobal c →
  sum_list ((TDC.calc_devices c).*2) = TDC.ndevices c →
  (TDC.nglobal c ≤ TDC.nqubits c →
   ∃ c' dq, TDC._cast_initial_state_globals c = Ok c'
            ∧ TDC.queues c' = Some dq
            ∧ global_qubits_list dq = seq 0 (TDC.nglobal c)
            ∧ local_qubits dq = seq (TDC.nglobal c) (TDC.nqubits c - TDC.nglobal c)
            ∧ TDC.transpose_order c' = seq 0 (TDC.nqubits c)
            ∧ TDC.reverse_transpose_order c' = seq 0 (TDC.nqubits c))
  ∧ (TDC.nqubits c < TDC.nglobal c →
     TDC._cast_initial_state_globals c = Err IndexError).
Proof.
  intros Hq Hk Hsum. unfold TDC._cast_initial_state_globals, TDC._default_global_qubits.
  rewrite Hq.
  assert (size (list_to_set (seq 0 (TDC.nglobal c)) : gset nat) = TDC.nglobal c) as Hsz.
  { rewrite size_list_to_set by apply NoDup_seq. apply length_seq. }
  split.
  - intros Hle.
    destruct (set_global_qubits_Ok c (seq 0 (TDC.nglobal c))) as [c' Hc']; [done..| |].
    { apply Forall_forall. intros q Hq'%elem_of_seq. lia. }
    pose proof Hc' as (_ & dq & ro & Hdq & -> & Hperm & Hlen & Hin)%set_global_qubits_inv.
    pose proof (init_lists _ _ _ _ _ _ _ Hdq) as (Hgs & Hls & Hge & Hll & _ & _).
    assert (global_qubits_list dq = seq 0 (TDC.nglobal c)) as Hg.
    { apply sorted_lt_unique; [done|apply seq_sorted|].
      intros q. rewrite Hge. apply elem_of_list_to_set. }
    assert (local_qubits dq = seq (TDC.nglobal c) (TDC.nqubits c - TDC.nglobal c)) as Hl.
    { apply sorted_lt_unique; [done|apply seq_sorted|].
      intros q. rewrite Hll, elem_of_list_to_set, !elem_of_seq. lia. }
    assert (global_qubits_list dq ++ local_qubits dq = seq 0 (TDC.nqubits c)) as Ht.
    { rewrite Hg, Hl, <- seq_app. f_equal. lia. }
    eexists _, dq. split; [exact Hc'|]. simpl. repeat split; [done..|].
    apply list_eq. intros v. destruct (decide (v < TDC.nqubits c)) as [Hv|Hv].
    + rewrite lookup_seq_lt by done. apply Hin. rewrite Ht. by apply lookup_seq_lt.
    + rewrite lookup_seq_ge by lia. apply lookup_ge_None. lia.
  - intros Hlt. destruct (TDC.set_global_qubits c _) as [c'|e] eqn:Es.
    + apply set_global_qubits_inv in Es as (_ & dq & ro & Hdq & _ & Hperm & _).
      pose proof (init_lists _ _ _ _ _ _ _ Hdq) as (_ & _ & Hge & _).
      assert (0 ∈ global_qubits_list dq ++ local_qubits dq ∧
              TDC.nqubits c ∈ global_qubits_list dq ++ local_qubits dq) as [_ Hin].
      { split; apply elem_of_app; left; apply Hge, elem_of_list_to_set, elem_of_seq; lia. }
      rewrite Hperm in Hin. apply elem_of_seq in Hin. lia.
    + revert Es. unfold TDC.set_global_qubits.
      rewrite bool_decide_eq_false_2 by (by intros ?).
      destruct (init_builds (TDC.nqubits c) (TDC.ndevices c) (TDC.nglobal c)
                  (TDC.nlocal c) (TDC.calc_devices c)
                  (list_to_set (seq 0 (TDC.nglobal c)))) as [dq ->]; [|lia|].
      { left. intros HG. rewrite HG, size_empty in Hsz. lia. }
      rewrite bind_Ok_l. destruct (foldM _ _ _) as [ro|e'] eqn:Ef; [done|].
      apply reverse_order_error in Ef as ->. by intros [= <-].
Qed.

Lemma default_global_qubits_witness :
  ∃ c' dq, TDC._cast_initial_state_globals plain_circuit_3 = Ok c'
           ∧ TDC.queues c' = Some dq
           ∧ global_qubits_list dq = [0]
           ∧ local_qubits dq = [1; 2]
           ∧ TDC.transpose_order c' = [0; 1; 2]
           ∧ TDC.reverse_transpose_order c' = [0; 1; 2].
Proof.
  destruct (default_global_qubits plain_circuit_3) as [H1 _];
    [reflexivity|simpl; lia|reflexivity|].
  apply H1. simpl. lia.
Defined.

(** ** The relabelling made by the transformer *)

Lemma transpose_involutive a b x : transpose a b (transpose a b x) = x.
Proof. unfold transpose. repeat case_decide; congruence. Qed.

Lemma transpose_sym a b x : transpose a b x = transpose b a x.
Proof. unfold transpose. repeat case_decide; congruence. Qed.

Lemma transpose_ordered p x :
  transpose (ordered_pair p).1 (ordered_pair p).2 x = transpose p.1 p.2 x.
Proof.
  destruct p as [a b]. unfold ordered_pair. simpl.
  destruct (Nat.le_gt_cases a b).
  - by rewrite Nat.min_l, Nat.max_r by lia.
  - rewrite Nat.min_r, Nat.max_l by lia. apply transpose_sym.
Qed.

Lemma relabel_cons p sw x : relabel (p :: sw) x = relabel sw (transpose p.1 p.2 x).
Proof. done. Qed.

Lemma relabel_app sw1 sw2 x : relabel (sw1 ++ sw2) x = relabel sw2 (relabel sw1 x).
Proof. unfold relabel. apply foldl_app. Qed.

Lemma relabel_ordered sw x : relabel (ordered_pair <$> sw) x = relabel sw x.
Proof.
  revert x. induction sw as [|p sw IH]; intros x; [done|].
  rewrite fmap_cons, !relabel_cons, transpose_ordered. apply IH.
Qed.

(** Undoing the swaps in the reverse order restores every label. *)
Lemma relabel_reverse sw x : relabel (sw ++ reverse sw) x = x.
Proof.
  revert x. induction sw as [|p sw IH]; intros x; [done|].
  rewrite reverse_cons, app_assoc, relabel_app.
  change ((p :: sw) ++ reverse sw) with ([p] ++ (sw ++ reverse sw)).
  rewrite relabel_app, IH. apply transpose_involutive.
Qed.

Lemma relabel_fresh sw x : x ∉ sw.*1 → x ∉ sw.*2 → relabel sw x = x.
Proof.
  revert x. induction sw as [|[a b] sw IH]; intros x; [done|].
  rewrite !fmap_cons, !not_elem_of_cons. cbn [fst snd]. intros [Ha H1] [Hb H2].
  rewrite relabel_cons. simpl. unfold transpose.
  rewrite !decide_False by done. by apply IH.
Qed.

Lemma relabel_range sw x :
  relabel sw x = x ∨ relabel sw x ∈ sw.*1 ∨ relabel sw x ∈ sw.*2.
Proof.
  induction sw as [|[a b] sw IH] using rev_ind; [by left|].
  rewrite relabel_app, !fmap_app, relabel_cons. cbn [fmap list_fmap fst snd].
  change (relabel [] ?y) with y. unfold transpose. rewrite !elem_of_app, !list_elem_of_singleton.
  repeat case_decide; subst; tauto.
Qed.

(** The dictionary [qubit_map] filled by the loop of lines 185-195 acts as
    the composition of the swaps. *)
Lemma remap_swaps (sw : list (nat * nat)) x :
  NoDup (sw.*1 ++ sw.*2) →
  remap (foldl (λ m p, <[p.2 := p.1]> (<[p.1 := p.2]> m)) ∅ sw) x = relabel sw x.
Proof.
  revert x. induction sw as [|[a b] sw IH] using rev_ind; intros x Hnd; [done|].
  rewrite foldl_app, relabel_app, relabel_cons. cbn [foldl fst snd].
  change (relabel [] ?y) with y. rewrite !fmap_app in Hnd. simpl in Hnd.
  assert (NoDup (sw.*1 ++ sw.*2) ∧ (a ∉ sw.*1) ∧ (a ∉ sw.*2) ∧ (b ∉ sw.*1)
          ∧ (b ∉ sw.*2) ∧ a ≠ b) as (Hnd' & Ha1 & Ha2 & Hb1 & Hb2 & Hab).
  { rewrite <- app_assoc in Hnd. simpl in Hnd.
    apply NoDup_app in Hnd as (H1 & Hd1 & Hnd).
    apply NoDup_cons in Hnd as [Ha Hnd].
    rewrite elem_of_app, list_elem_of_singleton in Ha.
    apply NoDup_app in Hnd as (H2 & Hd2 & _).
    split.
    { apply NoDup_app. split; [done|]. split; [|done].
      intros y Hy1 Hy2. apply (Hd1 y Hy1). right. apply elem_of_app. by left. }
    split; [intros Hin; apply (Hd1 a Hin); by left|].
    split; [tauto|].
    split; [intros Hin; apply (Hd1 b Hin); right; apply elem_of_app; right; by left|].
    split; [intros Hin; apply (Hd2 b Hin); by left|]. intros ->. tauto. }
  specialize (IH x Hnd'). unfold remap in *.
  destruct (decide (x = b)) as [->|Hxb].
  - rewrite lookup_insert_eq. simpl. rewrite relabel_fresh by done.
    unfold transpose. rewrite decide_False by done. by rewrite decide_True.
  - rewrite lookup_insert_ne by done. destruct (decide (x = a)) as [->|Hxa].
    + rewrite lookup_insert_eq. simpl. rewrite relabel_fresh by done.
      unfold transpose. by rewrite decide_True.
    + rewrite lookup_insert_ne by done. rewrite IH.
      unfold transpose. destruct (relabel_range sw x) as [->|[Hin|Hin]].
      * by rewrite !decide_False.
      * rewrite !decide_False; [done|intros E; by rewrite E in Hin..].
      * rewrite !decide_False; [done|intros E; by rewrite E in Hin..].
Qed.

Lemma relabel_bound sw N x :
  x < N → Forall (λ p, p.1 < N ∧ p.2 < N) sw → relabel sw x < N.
Proof.
  revert x. induction sw as [|[a b] sw IH]; intros x Hx Hall; [done|].
  apply Forall_cons in Hall as [[Ha Hb] Hall]. cbn [fst snd] in *.
  rewrite relabel_cons. cbn [fst snd]. apply IH; [|done].
  unfold transpose. repeat case_decide; done.
Qed.

Lemma relabelled_nil g : relabelled [] g g.
Proof.
  unfold relabelled. split; [done|].
  split; (rewrite <- (list_fmap_id (_ g)) at 1; by apply list_fmap_ext).
Qed.

(** *** Tagging the special gates *)

Lemma tag_length dq st gid : length (tag dq st gid) = length st.
Proof. unfold tag. destruct (is_special_gate _); [apply length_insert|done]. Qed.

Lemma tag_other dq st gid j : j ≠ gid → tag dq st gid !!! j = st !!! j.
Proof.
  intros Hne. unfold tag. destruct (is_special_gate _); [|done].
  rewrite store_insert_total. rewrite bool_decide_eq_false_2; [done|].
  intros [-> _]. done.
Qed.

Lemma tag_same dq st gid :
  gid < length st →
  tag dq st gid !!! gid
  = if is_special_gate (st !!! gid)
    then set_swap_reset (st !!! gid) (swaps_list dq) else st !!! gid.
Proof.
  intros Hlt. unfold tag. destruct (is_special_gate _); [|done].
  rewrite store_insert_total. by rewrite bool_decide_eq_true_2.
Qed.

Lemma is_special_set_swap_reset g sw :
  is_special_gate (set_swap_reset g sw) = is_special_gate g.
Proof. done. Qed.

Lemma set_swap_reset_twice g sw :
  set_swap_reset (set_swap_reset g sw) sw = set_swap_reset g sw.
Proof. done. Qed.

Lemma tag_all_length dq st rem : length (foldl (tag dq) st rem) = length st.
Proof.
  revert st. induction rem as [|a rem IH]; intros st; [done|].
  simpl. by rewrite IH, tag_length.
Qed.

Lemma tag_all_other dq st rem j : j ∉ rem → foldl (tag dq) st rem !!! j = st !!! j.
Proof.
  revert st. induction rem as [|a rem IH]; intros st; [done|].
  intros [Hne Hj]%not_elem_of_cons. simpl. rewrite IH by done. by apply tag_other.
Qed.

Lemma tag_all_member dq st rem j :
  j ∈ rem → j < length st →
  foldl (tag dq) st rem !!! j
  = if is_special_gate (st !!! j)
    then set_swap_reset (st !!! j) (swaps_list dq) else st !!! j.
Proof.
  revert st. induction rem as [|a rem IH]; intros st; [by intros ?%elem_of_nil|].
  intros Hin Hlt. simpl. destruct (decide (j ∈ rem)) as [Hj|Hj].
  - rewrite IH by (by rewrite ?tag_length). destruct (decide (j = a)) as [->|Hne].
    + rewrite tag_same by done. destruct (is_special_gate (st !!! a)) eqn:E.
      * by rewrite is_special_set_swap_reset, E, set_swap_reset_twice.
      * by rewrite E.
    + by rewrite tag_other.
  - apply elem_of_cons in Hin as [->|?]; [|done].
    rewrite tag_all_other by done. by apply tag_same.
Qed.

Section relabelling.
Context {order : SetOrder} {sorter : ArgSort}.
Variable commutes : gate → gate → bool.

Lemma transform_pass_store dq rem st queue counter nr st' queue' counter' nr' :
  _transform_pass commutes dq rem st queue counter nr
  = Ok (st', queue', counter', nr') →
  st' = foldl (tag dq) st rem.
Proof.
  revert st queue counter nr.
  induction rem as [|gid rest IH]; intros st queue counter nr; simpl.
  - by intros [= <- _ _ _].
  - fold (tag dq st gid). destruct (accepts _ _ _ _ _).
    + intros Hp. apply bind_Ok in Hp as (c1 & _ & Hp). by apply IH in Hp.
    + apply IH.
Qed.

Lemma transform_pass_rejected dq rem st queue counter st' queue' counter' hid def :
  _transform_pass commutes dq rem st queue counter []
  = Ok (st', queue', counter', hid :: def) →
  accept_alone dq (st' !!! hid) = false.
Proof.
  revert st queue counter.
  induction rem as [|gid rest IH]; intros st queue counter; simpl; [done|].
  fold (tag dq st gid). set (st1 := tag dq st gid).
  destruct (accepts commutes dq st1 [] (st1 !!! gid)) eqn:Hacc.
  - intros Hp. apply bind_Ok in Hp as (c1 & _ & Hp). by apply IH in Hp.
  - intros Hp. rewrite accepts_alone in Hacc.
    apply transform_pass_spec in Hp as ([_ Hst'] & _ & acc & def' & _ & Hnr & _).
    simpl in Hnr. injection Hnr as -> _. rewrite <- Hacc.
    apply same_qubits_accept_alone, Hst'.
Qed.

End relabelling.
(** *** The swaps of one reconfiguration, exactly *)

Section exact.
Context {order : SetOrder} {sorter : ArgSort}.

Lemma insert_swaps_exact gts avail dq st queue counter qm r :
  _insert_swaps gts avail dq st queue counter qm = Ok r →
  length gts ≤ length avail
  ∧ Forall (λ p, p.1 < length counter ∧ p.2 < length counter) (zip gts avail)
  ∧ ∃ counter',
      length counter' = length counter
      ∧ r = (with_swaps_list dq (swaps_list dq ++ (ordered_pair <$> zip gts avail)),
             st ++ ((λ p, new_SWAP p.1 p.2) <$> zip gts avail),
             queue ++ seq (length st) (length gts),
             counter',
             foldl (λ m p, <[p.2 := p.1]> (<[p.1 := p.2]> m)) qm (zip gts avail)).
Proof.
  revert avail dq st queue counter qm.
  induction gts as [|q gts IH]; intros avail dq st queue counter qm; simpl.
  - intros [= <-]. split; [lia|]. split; [constructor|]. exists counter.
    split; [done|]. rewrite !app_nil_r. by destruct dq.
  - destruct avail as [|qs avail]; [discriminate|].
    intros Hr. apply bind_Ok in Hr as (counter1 & Hc1 & Hr).
    pose proof (counter_swap_length _ _ _ _ Hc1) as Hl1.
    assert (q < length counter ∧ qs < length counter) as Hlt.
    { unfold counter_swap in Hc1.
      destruct (counter !! qs) eqn:E1; [|done]. destruct (counter !! q) eqn:E2; [|done].
      split; by eapply lookup_lt_Some. }
    apply IH in Hr as (Hlen & Hall & counter' & Hl' & ->).
    split; [simpl; lia|]. split.
    { constructor; [done|]. by rewrite <- Hl1. }
    exists counter'. split; [congruence|]. simpl.
    rewrite <- !app_assoc, length_app. simpl.
    replace (length st + 1) with (S (length st)) by lia. done.
Qed.

Lemma reconfigure_exact dq st queue counter nr hid dq' st' queue' counter' :
  _reconfigure dq st queue counter nr hid = Ok (dq', st', queue', counter') →
  ∃ gts ts sw,
    _swap_targets dq (st !!! hid) = Ok (gts, ts)
    ∧ sw = zip gts (available_swaps dq ts counter)
    ∧ sw.*1 = gts
    ∧ Forall (λ p, p.1 ∈ global_qubits_set dq ∧ (p.2 ∉ global_qubits_set dq)
                   ∧ p.1 < length counter ∧ p.2 < length counter) sw
    ∧ NoDup (sw.*1 ++ sw.*2)
    ∧ dq' = with_swaps_list dq (swaps_list dq ++ (ordered_pair <$> sw))
    ∧ st' = _remap_queue (foldl (λ m p, <[p.2 := p.1]> (<[p.1 := p.2]> m)) ∅ sw) nr
                         (st ++ ((λ p, new_SWAP p.1 p.2) <$> sw))
    ∧ queue' = queue ++ seq (length st) (length sw)
    ∧ length counter' = length counter.
Proof.
  unfold _reconfigure. intros Hr.
  apply bind_Ok in Hr as ([gts ts] & Hst & Hr).
  apply bind_Ok in Hr as (r & Hi & Hr).
  apply insert_swaps_exact in Hi as (Hlen & Hall & c1 & Hl1 & ->).
  injection Hr as <- <- <- <-.
  pose proof (swap_targets_spec _ _ _ _ Hst) as (Hnd & HG & _).
  set (avail := available_swaps dq ts counter) in *.
  set (sw := zip gts avail) in *.
  assert (sw.*1 = gts) as H1 by (by apply fst_zip).
  assert (∀ p, p ∈ sw → p.1 ∈ gts ∧ p.2 ∈ avail) as Hin.
  { intros [a b] [i Hi]%list_elem_of_lookup. apply lookup_zip_Some in Hi as [Ha Hb].
    split; by eapply list_elem_of_lookup_2. }
  exists gts, ts, sw. split; [done|]. split; [done|]. split; [done|]. split.
  { rewrite Forall_forall in Hall |- *. intros p Hp.
    destruct (Hin p Hp) as [Hg Ha]. apply available_swaps_spec in Ha as (_ & Hng & _).
    destruct (Hall p Hp). split; [by apply HG|]. done. }
  split.
  { apply NoDup_app. split; [by rewrite H1|]. split.
    - intros x Hx1 Hx2. rewrite H1 in Hx1.
      apply list_elem_of_fmap in Hx2 as (p & -> & Hp).
      destruct (Hin p Hp) as [_ Ha]. apply available_swaps_spec in Ha as (_ & Hng & _).
      by apply Hng, HG.
    - assert (∀ (l k : list nat), (zip l k).*2 = take (length l) k) as Hsnd.
      { clear. induction l as [|g l IH]; intros [|a k]; simpl; try done.
        by rewrite IH. }
      unfold sw. rewrite Hsnd.
      eapply sublist_NoDup; [apply available_swaps_NoDup|apply sublist_take]. }
  assert (length sw = length gts) as Hls.
  { unfold sw. rewrite length_zip. lia. }
  rewrite Hls. done.
Qed.

End exact.

(** *** The swap objects of a queue *)

Lemma elem_of_take_in {A} (x : A) n (l : list A) : x ∈ take n l → x ∈ l.
Proof. intros Hx. eapply elem_of_sublist; [exact Hx|apply sublist_take]. Qed.

Lemma inserted_swaps_app n0 st l1 l2 :
  inserted_swaps n0 st (l1 ++ l2) = inserted_swaps n0 st l1 ++ inserted_swaps n0 st l2.
Proof. apply omap_app. Qed.

Lemma inserted_swaps_cons n0 st gid l :
  inserted_swaps n0 st (gid :: l)
  = match (if decide (n0 ≤ gid) then swap_pair (st !!! gid) else None) with
    | Some p => p :: inserted_swaps n0 st l
    | None => inserted_swaps n0 st l
    end.
Proof. done. Qed.

Lemma inserted_swaps_old n0 st l :
  Forall (λ gid, gid < n0) l → inserted_swaps n0 st l = [].
Proof.
  induction 1 as [|gid l Hlt _ IH]; [done|].
  rewrite inserted_swaps_cons, decide_False by lia. done.
Qed.

Lemma inserted_swaps_ext n0 st st' l :
  (∀ gid, gid ∈ l → n0 ≤ gid → st' !!! gid = st !!! gid) →
  inserted_swaps n0 st' l = inserted_swaps n0 st l.
Proof.
  induction l as [|gid l IH]; intros Hext; [done|].
  rewrite !inserted_swaps_cons, IH.
  - destruct (decide (n0 ≤ gid)); [|done]. rewrite Hext; [done|by left|done].
  - intros g Hg. apply Hext. by right.
Qed.

Lemma inserted_swaps_new n0 (st : store) sw a :
  n0 ≤ a →
  (∀ i p, sw !! i = Some p → st !!! (a + i) = new_SWAP p.1 p.2) →
  inserted_swaps n0 st (seq a (length sw)) = sw.
Proof.
  revert a. induction sw as [|[x y] sw IH]; intros a Ha Hst; [done|].
  cbn [length seq]. rewrite inserted_swaps_cons, decide_True by done.
  replace (st !!! a) with (new_SWAP x y)
    by (symmetry; rewrite <- (Nat.add_0_r a) at 1; by apply (Hst 0 (x, y))).
  unfold swap_pair. simpl. f_equal. apply IH; [lia|].
  intros i p Hi. replace (S a + i) with (a + S i) by lia. by apply (Hst (S i) p).
Qed.

(** *** The invariant *)

Section invariant.
Context {order : SetOrder} {sorter : ArgSort}.
Variable commutes : gate → gate → bool.

Lemma relabelled_same_qubits sw g0 g g' :
  relabelled sw g0 g → same_qubits g' g → relabelled sw g0 g'.
Proof. intros (H1 & H2 & H3) (H4 & H5 & H6). repeat split; congruence. Qed.

Lemma is_special_same_qubits g g' :
  same_qubits g g' → is_special_gate g = is_special_gate g'.
Proof.
  intros (H1 & H2 & H3). unfold is_special_gate, is_SWAP. by rewrite H1, H2.
Qed.

Lemma placed_ext dq0 st0 N st st' before gid :
  st' !!! gid = st !!! gid →
  inserted_swaps (length st0) st' before = inserted_swaps (length st0) st before →
  placed dq0 st0 N st before gid → placed dq0 st0 N st' before gid.
Proof. unfold placed. intros -> ->. done. Qed.

Lemma transform_pass_keeps dq0 st0 dq st queue rem counter st1 queue1 counter1 nr :
  transform_inv dq0 st0 dq st queue rem counter →
  _transform_pass commutes dq rem st queue counter [] = Ok (st1, queue1, counter1, nr) →
  transform_inv dq0 st0 dq st1 queue1 nr counter1.
Proof.
  intros [Hdq Hlen Hnd Hold Hq Hrem Hpl] Hp.
  pose proof (transform_pass_store _ _ _ _ _ _ _ _ _ _ _ Hp) as Hst1.
  pose proof (transform_pass_spec _ _ _ _ _ _ _ _ _ _ _ Hp)
    as ([Hl1 Hsame] & Hc1 & acc & def & -> & Hnr & Hsub & Hperm & Hacc).
  simpl in Hnr. subst nr.
  rewrite Forall_forall in Hold, Hq, Hrem, Hacc.
  assert (∀ gid, gid ∈ acc → gid ∈ rem) as Hacc_rem.
  { intros gid Hg. rewrite <- Hperm. apply elem_of_app. by left. }
  assert (∀ gid, gid ∈ def → gid ∈ rem) as Hdef_rem.
  { intros gid Hg. rewrite <- Hperm. apply elem_of_app. by right. }
  assert (NoDup (acc ++ def)) as Hnd' by (by rewrite Hperm).
  apply NoDup_app in Hnd' as (_ & Hdisj & Hnd_def).
  assert (∀ gid, gid ∉ rem → st1 !!! gid = st !!! gid) as Hsame_out.
  { intros gid Hg. subst st1. by apply tag_all_other. }
  assert (∀ l, (∀ gid, gid ∈ l → gid ∈ queue) →
               inserted_swaps (length st0) st1 l = inserted_swaps (length st0) st l) as HF.
  { intros l Hl. apply inserted_swaps_ext. intros gid Hg _.
    apply Hsame_out. by apply Hq, Hl. }
  assert (inserted_swaps (length st0) st1 acc = []) as Hacc_sw.
  { apply inserted_swaps_old, Forall_forall. intros gid Hg. by apply Hold, Hacc_rem. }
  assert (inserted_swaps (length st0) st1 (queue ++ acc)
          = inserted_swaps (length st0) st queue) as HS.
  { rewrite inserted_swaps_app, Hacc_sw, app_nil_r. by apply HF. }
  split.
  - by rewrite HS.
  - lia.
  - done.
  - apply Forall_forall. intros gid Hg. by apply Hold, Hdef_rem.
  - apply Forall_forall. intros gid [Hg|Hg]%elem_of_app.
    + destruct (Hq gid Hg) as [Hlt Hn]. split; [lia|]. intros Hd. by apply Hn, Hdef_rem.
    + split; [|by apply Hdisj]. specialize (Hold gid (Hacc_rem gid Hg)). lia.
  - apply Forall_forall. intros gid Hg. rewrite HS.
    eapply relabelled_same_qubits; [by apply Hrem, Hdef_rem|apply Hsame].
  - intros p gid Hp'. rewrite Hc1. destruct (decide (p < length queue)) as [Hlt|Hge].
    + rewrite lookup_app_l in Hp' by done. rewrite take_app_le by lia.
      eapply placed_ext; [| |by apply Hpl].
      * apply Hsame_out, (Hq gid). by eapply list_elem_of_lookup_2.
      * apply HF. intros g Hg. by eapply elem_of_take_in.
    + rewrite lookup_app_r in Hp' by lia. rewrite take_app_ge by lia.
      assert (gid ∈ acc) as Hg by (by eapply list_elem_of_lookup_2).
      pose proof (Hold gid (Hacc_rem gid Hg)) as Hlt.
      unfold placed. rewrite decide_False by lia.
      assert (inserted_swaps (length st0) st1 (queue ++ take (p - length queue) acc)
              = inserted_swaps (length st0) st queue) as ->.
      { rewrite inserted_swaps_app, HF by done.
        rewrite (inserted_swaps_old _ _ (take _ acc)); [by rewrite app_nil_r|].
        apply Forall_forall. intros g Hg'%elem_of_take_in. by apply Hold, Hacc_rem. }
      split; [|split].
      * eapply relabelled_same_qubits; [by apply Hrem, Hacc_rem|apply Hsame].
      * rewrite Hdq in Hacc. by apply Hacc.
      * intros Hsp. rewrite (is_special_same_qubits _ _ (Hsame gid)) in Hsp.
        rewrite Hst1, tag_all_member, Hsp by (by apply Hacc_rem || lia).
        simpl. rewrite Hdq at 1. done.
Qed.

Lemma reconfigure_keeps dq0 st0 dq st queue nr counter hid dq' st' queue' counter' :
  transform_inv dq0 st0 dq st queue nr counter →
  _reconfigure dq st queue counter nr hid = Ok (dq', st', queue', counter') →
  transform_inv dq0 st0 dq' st' queue' nr counter'.
Proof.
  intros [Hdq Hlen Hnd Hold Hq Hrem Hpl] Hr.
  apply reconfigure_exact in Hr
    as (gts & ts & sw & Hst & _ & Hfst & Hall & Hndsw & -> & -> & -> & Hc).
  set (qm := foldl (λ m p, <[p.2 := p.1]> (<[p.1 := p.2]> m)) ∅ sw) in *.
  set (news := (λ p, new_SWAP p.1 p.2) <$> sw) in *.
  set (st' := _remap_queue qm nr (st ++ news)).
  rewrite Forall_forall in Hold, Hq, Hrem. rewrite Forall_forall in Hall.
  assert (length st' = length st + length sw) as Hl'.
  { unfold st', news. by rewrite remap_queue_length, length_app, length_fmap. }
  assert (∀ gid, gid ∈ nr → st' !!! gid = remap_gate qm (st !!! gid)) as Hin.
  { intros gid Hg. specialize (Hold gid Hg). unfold st'.
    rewrite remap_queue_lookup_once; [|done|done|rewrite length_app; lia].
    by rewrite lookup_total_app_l by lia. }
  assert (∀ gid, gid ∉ nr → gid < length st → st' !!! gid = st !!! gid) as Hout.
  { intros gid Hg Hlt. unfold st'. rewrite remap_queue_lookup_other by done.
    by rewrite lookup_total_app_l. }
  assert (∀ i p, sw !! i = Some p → st' !!! (length st + i) = new_SWAP p.1 p.2) as Hnew.
  { intros i p Hi. unfold st'. rewrite remap_queue_lookup_other.
    - rewrite lookup_total_app_r by lia. replace (length st + i - length st) with i by lia.
      apply list_lookup_total_correct. unfold news. by rewrite list_lookup_fmap, Hi.
    - intros Hg%Hold. lia. }
  assert (∀ l, (∀ gid, gid ∈ l → gid ∈ queue) →
               inserted_swaps (length st0) st' l = inserted_swaps (length st0) st l) as HF.
  { intros l Hl. apply inserted_swaps_ext. intros gid Hg _.
    destruct (Hq gid (Hl gid Hg)). by apply Hout. }
  assert (inserted_swaps (length st0) st' (queue ++ seq (length st) (length sw))
          = inserted_swaps (length st0) st queue ++ sw) as HS.
  { rewrite inserted_swaps_app, HF by done. f_equal.
    by apply inserted_swaps_new. }
  split.
  - rewrite HS, Hdq. simpl. by rewrite fmap_app, app_assoc.
  - lia.
  - done.
  - by apply Forall_forall.
  - apply Forall_forall. intros gid [Hg|Hg]%elem_of_app.
    + destruct (Hq gid Hg). split; [lia|done].
    + apply elem_of_seq in Hg. split; [lia|]. intros Hg'%Hold. lia.
  - apply Forall_forall. intros gid Hg. rewrite HS, (Hin gid Hg).
    destruct (Hrem gid Hg) as (H1 & H2 & H3). split; [done|].
    unfold remap_gate. simpl. rewrite H2, H3, <- !list_fmap_compose.
    split; apply list_fmap_ext; intros _ x _; simpl;
      by rewrite relabel_app, (remap_swaps sw).
  - intros p gid Hp'. rewrite Hc. destruct (decide (p < length queue)) as [Hlt|Hge].
    + rewrite lookup_app_l in Hp' by done. rewrite take_app_le by lia.
      eapply placed_ext; [| |by apply Hpl].
      * assert (gid ∈ queue) as Hg by (by eapply list_elem_of_lookup_2).
        destruct (Hq gid Hg). by apply Hout.
      * apply HF. intros g Hg. by eapply elem_of_take_in.
    + rewrite lookup_app_r in Hp' by lia.
      apply lookup_seq in Hp' as [-> Hi].
      destruct (lookup_lt_is_Some_2 sw (p - length queue) Hi) as [[a b] Hab].
      unfold placed. rewrite decide_True by lia.
      exists a, b. split; [by apply (Hnew _ (a, b))|].
      destruct (Hall (a, b)) as (Ha & Hb & Hla & Hlb); [by eapply list_elem_of_lookup_2|].
      rewrite Hdq in Ha, Hb. done.
Qed.

Lemma transform_rec_inv fuel dq0 st0 dq st queue rem counter dq' st' queue' counter' :
  transform_inv dq0 st0 dq st queue rem counter →
  _transform commutes fuel dq st queue rem counter
  = Some (Ok (dq', st', queue', counter')) →
  transform_inv dq0 st0 dq' st' queue' [] counter'.
Proof.
  revert dq st queue rem counter.
  induction fuel as [|fuel IH]; intros dq st queue rem counter Hinv; [done|].
  rewrite transform_rec_unfold.
  destruct (_transform_pass commutes dq rem st queue counter [])
    as [[[[st1 queue1] counter1] nr]|e] eqn:Hp; [|done].
  pose proof (transform_pass_keeps _ _ _ _ _ _ _ _ _ _ _ Hinv Hp) as Hinv1.
  destruct nr as [|hid def]; [by intros [= <- <- <- <-]|].
  destruct (_reconfigure dq st1 queue1 counter1 (hid :: def) hid)
    as [[[[dq2 st2] queue2] counter2]|e] eqn:Hr; [|done].
  apply IH. by eapply reconfigure_keeps.
Qed.

Lemma transform_inv_start dq st queue counter :
  NoDup queue → live st queue → transform_inv dq st dq st [] queue counter.
Proof.
  intros Hnd Hlive. split; try done.
  - simpl. rewrite app_nil_r. by destruct dq.
  - apply Forall_forall. intros gid _. apply relabelled_nil.
Qed.

End invariant.
(** *** The new queue *)

Lemma inserted_swaps_elem n0 st l p :
  p ∈ inserted_swaps n0 st l →
  ∃ gid, gid ∈ l ∧ n0 ≤ gid ∧ swap_pair (st !!! gid) = Some p.
Proof.
  induction l as [|gid l IH]; [by intros ?%elem_of_nil|].
  rewrite inserted_swaps_cons. destruct (decide (n0 ≤ gid)) as [Hle|Hlt].
  - destruct (swap_pair (st !!! gid)) as [p'|] eqn:Ep.
    + intros [->|Hin]%elem_of_cons.
      * exists gid. split; [by left|done].
      * destruct (IH Hin) as (g & Hg & Hle' & Hp). exists g. split; [by right|done].
    + intros Hin. destruct (IH Hin) as (g & Hg & Hle' & Hp).
      exists g. split; [by right|done].
  - intros Hin. destruct (IH Hin) as (g & Hg & Hle' & Hp).
    exists g. split; [by right|done].
Qed.

Lemma accept_alone_new_SWAP dq a b :
  (a ∈ global_qubits_set dq ↔ b ∉ global_qubits_set dq) →
  accept_alone dq (new_SWAP a b) = true.
Proof.
  intros Hab. unfold accept_alone. apply orb_true_iff. left.
  apply andb_true_iff. split; [done|]. apply bool_decide_eq_true.
  assert (∃ p, ∀ x, x ∈ global_targets dq (new_SWAP a b) ↔ x = p) as [p Hp].
  { destruct (decide (a ∈ global_qubits_set dq)) as [Ha|Ha].
    - exists a. intros x. rewrite global_targets_elem_of. simpl.
      rewrite !elem_of_cons, elem_of_nil. split; [|intros ->; tauto].
      intros [[->|[->|[]]] Hx]; [done|]. tauto.
    - exists b. intros x. rewrite global_targets_elem_of. simpl.
      rewrite !elem_of_cons, elem_of_nil. split.
      + intros [[->|[->|[]]] Hx]; [done|done].
      + intros ->. split; [tauto|]. destruct (decide (b ∈ global_qubits_set dq)); tauto. }
  by rewrite (NoDup_singleton_eq _ p (global_targets_NoDup _ _) Hp).
Qed.

Section new_queue.
Context {order : SetOrder} {sorter : ArgSort}.
Variable commutes : gate → gate → bool.

Lemma transform_rec_counter fuel dq st queue rem counter dq' st' queue' counter' :
  _transform commutes fuel dq st queue rem counter
  = Some (Ok (dq', st', queue', counter')) →
  length counter' = length counter.
Proof.
  revert dq st queue rem counter.
  induction fuel as [|fuel IH]; intros dq st queue rem counter; [done|].
  rewrite transform_rec_unfold.
  destruct (_transform_pass commutes dq rem st queue counter [])
    as [[[[st1 queue1] counter1] nr]|e] eqn:Hp; [|done].
  apply transform_pass_spec in Hp as (_ & Hc1 & _).
  destruct nr as [|hid def]; [intros [= <- <- <- <-]; done|].
  destruct (_reconfigure dq st1 queue1 counter1 (hid :: def) hid)
    as [[[[dq2 st2] queue2] counter2]|e] eqn:Hr; [|done].
  apply reconfigure_exact in Hr as (_ & _ & _ & _ & _ & _ & _ & _ & _ & _ & _ & Hc2).
  intros Ht%IH. congruence.
Qed.

(** The length of the counter that [transform] works with. *)
Lemma transform_final fuel dq st queue counter dq' st' queue' :
  NoDup queue → live st queue →
  transform commutes fuel dq st queue counter = Some (Ok (dq', st', queue')) →
  ∃ st1 queue1 counter1,
    length counter1 = match counter with
                      | Some c => length c
                      | None => nqubits dq
                      end
    ∧ transform_inv dq st dq' st1 queue1 [] counter1
    ∧ st' = st1 ++ ((λ p, new_SWAP p.1 p.2) <$> reverse (swaps_list dq'))
    ∧ queue' = queue1 ++ seq (length st1) (length (swaps_list dq'))
    ∧ queue1 ≡ₚ queue ++ seq (length st) (length st1 - length st).
Proof.
  intros Hnd Hlive. unfold transform.
  destruct (match counter with
            | Some c => Ok c
            | None => count st queue (nqubits dq)
            end) as [counter0|e] eqn:Ec; [|done].
  assert (length counter0 = match counter with
                            | Some c => length c
                            | None => nqubits dq
                            end) as Hl0.
  { destruct counter; [by injection Ec as ->|by eapply count_length]. }
  destruct (_transform commutes fuel dq st [] queue counter0)
    as [[[[[dq1 st1] queue1] counter1]|e]|] eqn:Ht; [|done..].
  intros [= <- <- <-].
  exists st1, queue1, counter1.
  split; [by rewrite (transform_rec_counter _ _ _ _ _ _ _ _ _ _ Ht)|].
  split; [eapply transform_rec_inv; [|exact Ht]; by apply transform_inv_start|].
  split; [done|]. split; [by rewrite length_fmap, length_reverse|].
  by apply transform_rec_objects in Ht as [_ Hperm].
Qed.

(** What the finished queue holds, the closing swaps included. *)
Lemma transform_final_swaps dq st dq' st1 queue1 counter1 :
  transform_inv dq st dq' st1 queue1 [] counter1 →
  let st' := st1 ++ ((λ p, new_SWAP p.1 p.2) <$> reverse (swaps_list dq')) in
  let S := inserted_swaps (length st) st1 queue1 in
  swaps_list dq' = swaps_list dq ++ (ordered_pair <$> S)
  ∧ (∀ l, (∀ gid, gid ∈ l → gid ∈ queue1) →
          inserted_swaps (length st) st' l = inserted_swaps (length st) st1 l)
  ∧ inserted_swaps (length st) st' (queue1 ++ seq (length st1) (length (swaps_list dq')))
    = S ++ reverse (swaps_list dq')
  ∧ Forall (λ p, p.1 ∈ global_qubits_set dq ∧ (p.2 ∉ global_qubits_set dq)
                 ∧ p.1 < length counter1 ∧ p.2 < length counter1) S.
Proof.
  intros [Hdq Hlen _ _ Hq _ Hpl] st' S. rewrite Forall_forall in Hq.
  assert (swaps_list dq' = swaps_list dq ++ (ordered_pair <$> S)) as Hsw
    by (by rewrite Hdq at 1).
  assert (∀ l, (∀ gid, gid ∈ l → gid ∈ queue1) →
               inserted_swaps (length st) st' l = inserted_swaps (length st) st1 l) as HF.
  { intros l Hl. apply inserted_swaps_ext. intros gid Hg _.
    destruct (Hq gid (Hl gid Hg)). by apply lookup_total_app_l. }
  split; [done|]. split; [done|]. split.
  - rewrite inserted_swaps_app, HF by done. f_equal.
    rewrite <- (length_reverse (swaps_list dq')). apply inserted_swaps_new; [done|].
    intros i p Hi. unfold st'. rewrite lookup_total_app_r by lia.
    replace (length st1 + i - length st1) with i by lia.
    apply list_lookup_total_correct. by rewrite list_lookup_fmap, Hi.
  - apply Forall_forall. intros [a b] Hp.
    apply inserted_swaps_elem in Hp as (gid & Hg & Hle & Hsp).
    apply list_elem_of_lookup in Hg as [p Hp]. specialize (Hpl p gid Hp).
    unfold placed in Hpl. rewrite decide_True in Hpl by done.
    destruct Hpl as (q & qs & Hst & Hqg & Hqs & Hq1 & Hq2).
    rewrite Hst in Hsp. injection Hsp as <- <-. done.
Qed.

(** [transform]: every gate of the circuit is found in the new queue with
    its target and control ids relabelled by exactly the SWAPs that the
    transformer put in front of it, in their order; its class is unchanged. *)
Theorem transform_relabels fuel dq st queue counter dq' st' queue' :
  NoDup queue → live st queue →
  transform commutes fuel dq st queue counter = Some (Ok (dq', st', queue')) →
  ∀ p gid, queue' !! p = Some gid → gid < length st →
           relabelled (inserted_swaps (length st) st' (take p queue'))
                      (st !!! gid) (st' !!! gid).
Proof.
  intros Hnd Hlive Ht.
  destruct (transform_final _ _ _ _ _ _ _ _ Hnd Hlive Ht)
    as (st1 & queue1 & counter1 & _ & Hinv & -> & -> & _).
  destruct (transform_final_swaps _ _ _ _ _ _ Hinv) as (_ & HF & _).
  destruct Hinv as [_ Hlen _ _ Hq _ Hpl]. rewrite Forall_forall in Hq.
  intros p gid Hp Hgid. destruct (decide (p < length queue1)) as [Hlt|Hge].
  - rewrite lookup_app_l in Hp by done. rewrite take_app_le by lia.
    specialize (Hpl p gid Hp). unfold placed in Hpl.
    rewrite decide_False in Hpl by lia. destruct Hpl as [Hrel _].
    rewrite HF by (intros g Hg; by eapply elem_of_take_in).
    destruct (Hq gid) as [Hlt' _]; [by eapply list_elem_of_lookup_2|].
    by rewrite lookup_total_app_l.
  - rewrite lookup_app_r in Hp by lia. apply lookup_seq in Hp as [-> _]. lia.
Qed.

(** [transform] on a partition without recorded swaps: the SWAPs of the new
    queue, those inserted between the gates followed by the closing ones,
    compose to the identity, so every qubit ends where it started. *)
Theorem transform_restores_labels fuel dq st queue counter dq' st' queue' :
  NoDup queue → live st queue → swaps_list dq = [] →
  transform commutes fuel dq st queue counter = Some (Ok (dq', st', queue')) →
  ∀ x, relabel (inserted_swaps (length st) st' queue') x = x.
Proof.
  intros Hnd Hlive Hsw0 Ht.
  destruct (transform_final _ _ _ _ _ _ _ _ Hnd Hlive Ht)
    as (st1 & queue1 & counter1 & _ & Hinv & -> & -> & _).
  destruct (transform_final_swaps _ _ _ _ _ _ Hinv) as (Hsw & _ & -> & _).
  rewrite Hsw, Hsw0. simpl. intros x.
  rewrite relabel_app, <- fmap_reverse, relabel_ordered, <- relabel_app.
  apply relabel_reverse.
Qed.

(** [transform]: every pair that it adds to [swaps_list] joins one global
    qubit with one local qubit of the circuit, smaller id first. *)
Theorem transform_swap_pairs fuel dq st queue counter dq' st' queue' :
  NoDup queue → live st queue →
  transform commutes fuel dq st queue counter = Some (Ok (dq', st', queue')) →
  ∃ pairs,
    swaps_list dq' = swaps_list dq ++ pairs
    ∧ Forall (λ p, p.1 < p.2
                   ∧ p.2 < match counter with
                           | Some c => length c
                           | None => nqubits dq
                           end
                   ∧ (p.1 ∈ global_qubits_set dq ↔ p.2 ∉ global_qubits_set dq)) pairs.
Proof.
  intros Hnd Hlive Ht.
  destruct (transform_final _ _ _ _ _ _ _ _ Hnd Hlive Ht)
    as (st1 & queue1 & counter1 & <- & Hinv & -> & -> & _).
  destruct (transform_final_swaps _ _ _ _ _ _ Hinv) as (Hsw & _ & _ & Hall).
  eexists. split; [exact Hsw|]. apply Forall_fmap.
  eapply Forall_impl; [exact Hall|]. intros [a b]. simpl.
  intros (Ha & Hb & Hla & Hlb). assert (a ≠ b) by (by intros ->).
  destruct (Nat.le_gt_cases a b).
  - rewrite Nat.min_l, Nat.max_r by lia. split; [lia|]. split; [done|tauto].
  - rewrite Nat.min_r, Nat.max_l by lia. split; [lia|]. split; [done|tauto].
Qed.

(** [transform]: a special gate of the circuit ends with [swap_reset] equal
    to the swaps recorded when it was accepted: the ones the partition held
    before, then one pair for every SWAP that the transformer itself has
    inserted in front of it in the new queue (the objects with an id from
    [length st] on). A SWAP gate of the circuit adds no pair: only line 191
    extends [swaps_list]. *)
Theorem special_gate_records_swaps fuel dq st queue counter dq' st' queue' :
  NoDup queue → live st queue →
  transform commutes fuel dq st queue counter = Some (Ok (dq', st', queue')) →
  ∀ p gid, queue' !! p = Some gid → gid < length st →
           is_special_gate (st !!! gid) = true →
           swap_reset (st' !!! gid)
           = Some (swaps_list dq
                   ++ (ordered_pair
                         <$> inserted_swaps (length st) st' (take p queue'))).
Proof.
  intros Hnd Hlive Ht.
  destruct (transform_final _ _ _ _ _ _ _ _ Hnd Hlive Ht)
    as (st1 & queue1 & counter1 & _ & Hinv & -> & -> & _).
  destruct (transform_final_swaps _ _ _ _ _ _ Hinv) as (_ & HF & _).
  destruct Hinv as [_ Hlen _ _ Hq _ Hpl]. rewrite Forall_forall in Hq.
  intros p gid Hp Hgid Hsp. destruct (decide (p < length queue1)) as [Hlt|Hge].
  - rewrite lookup_app_l in Hp by done. rewrite take_app_le by lia.
    specialize (Hpl p gid Hp). unfold placed in Hpl.
    rewrite decide_False in Hpl by lia. destruct Hpl as ((Hc & Htq & _) & _ & Htag).
    rewrite HF by (intros g Hg; by eapply elem_of_take_in).
    destruct (Hq gid) as [Hlt' _]; [by eapply list_elem_of_lookup_2|].
    rewrite lookup_total_app_l by done. apply Htag.
    unfold is_special_gate, is_SWAP in *. rewrite Hc, Htq.
    apply andb_true_iff in Hsp as [Ht0%bool_decide_eq_true Hs].
    rewrite Ht0. done.
  - rewrite lookup_app_r in Hp by lia. apply lookup_seq in Hp as [-> _]. lia.
Qed.

End new_queue.

(** The circuit [H 0; H 1] on qubit 0 global: [H 1] is accepted, a SWAP of 0
    and 1 is inserted, [H 0] becomes [H 1], and a closing SWAP follows. *)
Lemma transform_example :
  transform (order := cpython_small) (sorter := ties_ascending) (λ _ _, true) 3 partition_2_0 [H 0; H 1] [0; 1] None
  = Some (Ok (with_swaps_list partition_2_0 [(0, 1)],
              [H 1; H 1; new_SWAP 0 1; new_SWAP 0 1], [1; 2; 0; 3])).
Proof. vm_compute. reflexivity. Qed.

Lemma live_example : live [H 0; H 1] [0; 1].
Proof. repeat constructor. Qed.

Lemma NoDup_example : NoDup [0; 1].
Proof. apply NoDup_cons. split; [by intros ?%list_elem_of_singleton|]. apply NoDup_singleton. Qed.

Lemma transform_relabels_witness :
  relabelled (inserted_swaps 2 [H 1; H 1; new_SWAP 0 1; new_SWAP 0 1] [1; 2])
             (H 0) (H 1).
Proof.
  exact (transform_relabels (order := cpython_small) (sorter := ties_ascending) (λ _ _, true) 3 partition_2_0
           [H 0; H 1] [0; 1] None _ _ _ NoDup_example live_example
           transform_example 2 0 eq_refl (Nat.lt_0_succ 1)).
Defined.

Lemma transform_restores_labels_witness :
  relabel (inserted_swaps 2 [H 1; H 1; new_SWAP 0 1; new_SWAP 0 1] [1; 2; 0; 3]) 0 = 0.
Proof.
  exact (transform_restores_labels (order := cpython_small) (sorter := ties_ascending) (λ _ _, true) 3
           partition_2_0 [H 0; H 1] [0; 1] None _ _ _ NoDup_example live_example
           eq_refl transform_example 0).
Defined.

Lemma transform_swap_pairs_witness :
  ∃ pairs,
    swaps_list (with_swaps_list partition_2_0 [(0, 1)]) = swaps_list partition_2_0 ++ pairs
    ∧ Forall (λ p, p.1 < p.2 ∧ p.2 < 2
                   ∧ (p.1 ∈ global_qubits_set partition_2_0
                      ↔ p.2 ∉ global_qubits_set partition_2_0)) pairs.
Proof.
  exact (transform_swap_pairs (order := cpython_small) (sorter := ties_ascending) (λ _ _, true) 3
           partition_2_0 [H 0; H 1] [0; 1] None _ _ _ NoDup_example live_example
           transform_example).
Defined.

(** The circuit [H 0; callback] with gates that do not commute: the callback
    waits for [H 0] and records the swap inserted in front of both. *)
Lemma transform_callback_example :
  transform (order := cpython_small) (sorter := ties_ascending) (λ _ _, false) 3 partition_2_0
            [H 0; callback] [0; 1] None
  = Some (Ok (with_swaps_list partition_2_0 [(0, 1)],
              [H 1; set_swap_reset callback [(0, 1)]; new_SWAP 0 1; new_SWAP 0 1],
              [2; 0; 1; 3])).
Proof. vm_compute. reflexivity. Qed.

Lemma special_gate_records_swaps_witness :
  swap_reset (set_swap_reset callback [(0, 1)])
  = Some (swaps_list partition_2_0
          ++ (ordered_pair
                <$> inserted_swaps 2
                      [H 1; set_swap_reset callback [(0, 1)]; new_SWAP 0 1; new_SWAP 0 1]
                      [2; 0])).
Proof.
  exact (special_gate_records_swaps (order := cpython_small) (sorter := ties_ascending) (λ _ _, false) 3
           partition_2_0 [H 0; callback] [0; 1] None _ _ _ NoDup_example
           ltac:(repeat constructor) transform_callback_example 2 1 eq_refl
           (le_n 2) eq_refl).
Defined.

(** ** Planning never fails on the gates that [_add] lets through *)

Lemma counter_add_all_Ok d ts counter :
  Forall (λ q, q < length counter) ts →
  ∃ counter', foldM (counter_add d) ts counter = Ok counter'.
Proof.
  revert counter. induction ts as [|t ts IH]; intros counter Hall; [by eexists|].
  apply Forall_cons in Hall as [Ht Hall]. cbn [foldM].
  destruct (lookup_lt_is_Some_2 counter t Ht) as [v Hv].
  rewrite (counter_add_Ok _ _ _ _ Hv), bind_Ok_l. apply IH.
  by rewrite length_insert.
Qed.

Lemma plannable_same_qubits N k g g' :
  same_qubits g' g → plannable N k g → plannable N k g'.
Proof. intros (H1 & H2 & _). unfold plannable. by rewrite H1, H2. Qed.

Lemma remove_dups_length_le (l : list nat) : length (remove_dups l) ≤ length l.
Proof.
  induction l as [|x l IH]; [done|]. simpl. case_decide; simpl; lia.
Qed.

Lemma remove_dups_same (b : nat) : remove_dups [b; b] = [b].
Proof.
  simpl. destruct (decide_rel elem_of b [b]) as [|Hn]; [done|]. destruct Hn. by left.
Qed.

Lemma filter_all_of_length (P : nat → Prop) `{∀ x, Decision (P x)} (l : list nat) :
  length (filter P l) = length l → Forall P l.
Proof.
  induction l as [|x l IH]; [constructor|]. rewrite filter_cons.
  destruct (decide (P x)); simpl; intros Hl.
  - constructor; [done|]. apply IH. lia.
  - pose proof (length_filter P l). lia.
Qed.

Section success.
Context {order : SetOrder} {sorter : ArgSort}.
Variable commutes : gate → gate → bool.

Lemma transform_pass_Ok dq N k rem st queue counter nr :
  live st rem →
  Forall (λ gid, plannable N k (st !!! gid)) rem →
  length counter = N →
  ∃ r, _transform_pass commutes dq rem st queue counter nr = Ok r.
Proof.
  revert st queue counter nr.
  induction rem as [|gid rest IH]; intros st queue counter nr Hlive Hall Hc;
    [by eexists|].
  cbn [_transform_pass]. fold (tag dq st gid). set (st1 := tag dq st gid).
  assert (retagged st st1) as [Hl1 Hs1] by apply retagged_tag.
  apply Forall_cons in Hall as [Hg Hall]. apply Forall_cons in Hlive as [_ Hlive].
  assert (Forall (λ g, plannable N k (st1 !!! g)) rest) as Hall1.
  { eapply Forall_impl; [exact Hall|]. intros g. apply plannable_same_qubits, Hs1. }
  assert (live st1 rest) as Hlive1 by (unfold live; by rewrite Hl1).
  destruct (accepts commutes dq st1 nr (st1 !!! gid)).
  - destruct (counter_add_all_Ok (-1) (target_qubits (st1 !!! gid)) counter)
      as [c1 Hc1].
    { rewrite Hc. apply (plannable_same_qubits N k _ _ (Hs1 gid)) in Hg. apply Hg. }
    rewrite Hc1, bind_Ok_l. apply IH; [done..|].
    apply counter_add_all_length in Hc1. congruence.
  - by apply IH.
Qed.

(** The qubits that may be swapped in are at least as many as the free
    qubits. *)
Lemma available_count dq ts counter :
  NoDup ts →
  length counter
  ≤ length (available_swaps dq ts counter) + size (global_qubits_set dq)
    + length (filter (λ q, q ∉ global_qubits_set dq) ts).
Proof.
  intros Hnd. unfold available_swaps.
  pose proof (filter_complement_length
                (λ q, q ∈ global_qubits_set dq ∨ q ∈ ts) (argsort counter)) as Hc.
  rewrite argsort_length in Hc.
  assert (length (filter (λ q, q ∈ global_qubits_set dq ∨ q ∈ ts) (argsort counter))
          ≤ length (elements (global_qubits_set dq)
                    ++ filter (λ q, q ∉ global_qubits_set dq) ts)) as Hle.
  { apply submseteq_length, NoDup_submseteq; [apply NoDup_filter, argsort_NoDup|].
    intros x [Hx _]%list_elem_of_filter. apply elem_of_app.
    destruct (decide (x ∈ global_qubits_set dq)) as [Hg|Hg].
    - left. by apply elem_of_elements.
    - right. apply list_elem_of_filter. split; [done|]. tauto. }
  rewrite length_app in Hle. change (length (elements ?X)) with (size X) in Hle.
  lia.
Qed.

Lemma swap_targets_are_targets dq g gts ts :
  _swap_targets dq g = Ok (gts, ts) →
  NoDup ts ∧ ∀ q, q ∈ gts → q ∈ target_qubits g.
Proof.
  unfold _swap_targets.
  assert (NoDup (set_iter (remove_dups (target_qubits g)))) as Hnd.
  { apply set_iter_NoDup, NoDup_remove_dups. }
  assert (∀ q, q ∈ set_iter (global_targets dq g) → q ∈ target_qubits g) as Hin.
  { intros q Hq. apply (proj1 (set_iter_elem_of _ _)) in Hq.
    by apply global_targets_elem_of in Hq as [? _]. }
  destruct (is_SWAP g).
  - case_bool_decide; [|done].
    destruct (set_iter (remove_dups (target_qubits g))) as [|p ts']; [done|].
    case_bool_decide; [|done]. intros [= <- <-].
    apply NoDup_cons in Hnd as [_ Hnd]. split; [done|].
    intros q [_ Hq]%list_elem_of_filter. by apply Hin.
  - intros [= <- <-]. done.
Qed.

Lemma reconfigure_Ok dq N st queue counter nr hid :
  plannable N (size (global_qubits_set dq)) (st !!! hid) →
  accept_alone dq (st !!! hid) = false →
  length counter = N →
  ∃ r, _reconfigure dq st queue counter nr hid = Ok r.
Proof.
  intros (Hlt & Hfree & Hswap) Hacc Hc. set (g := st !!! hid) in *.
  assert (∃ gts ts, _swap_targets dq g = Ok (gts, ts)
                    ∧ length gts ≤ length (available_swaps dq ts counter))
    as (gts & ts & Hst & Hlen).
  { unfold accept_alone in Hacc. apply orb_false_iff in Hacc as [Hacc1 Hacc2].
    apply bool_decide_eq_false in Hacc2.
    pose proof (length_filter (λ q, q ∈ global_qubits_set dq)
                  (remove_dups (target_qubits g))) as Hf.
    fold (global_targets dq g) in Hf.
    pose proof (remove_dups_length_le (target_qubits g)) as Hd.
    destruct (is_SWAP g) eqn:Hs.
    - simpl in Hacc1. apply bool_decide_eq_false in Hacc1.
      specialize (Hswap ltac:(by apply bool_decide_eq_true in Hs)).
      assert (length (global_targets dq g) = 2) as Hl2.
      { destruct (global_targets dq g) as [|? [|? ?]]; simpl in *; try done; lia. }
      assert (Forall (λ q, q ∈ global_qubits_set dq) (remove_dups (target_qubits g)))
        as Hall.
      { apply (filter_all_of_length (λ q, q ∈ global_qubits_set dq)).
        fold (global_targets dq g). lia. }
      destruct (target_qubits g) as [|a [|b [|]]] eqn:Et; simpl in Hswap; try done.
      destruct (decide (a = b)) as [->|Hab].
      { exfalso. revert Hl2. unfold global_targets. rewrite Et, remove_dups_same.
        intros Hl2.
        pose proof (length_filter (λ q, q ∈ global_qubits_set dq) [b]). simpl in *. lia. }
      rewrite Forall_forall in Hall.
      destruct (swap_targets_global_swap dq g a b) as (gts & ts & Hst);
        [by apply bool_decide_eq_true in Hs|done|done| | |].
      { apply Hall, elem_of_remove_dups. try rewrite Et. by left. }
      { apply Hall, elem_of_remove_dups. try rewrite Et. right. by left. }
      exists gts, ts. split; [done|].
      pose proof (swap_targets_spec _ _ _ _ Hst) as (_ & _ & Hts & Hsp).
      pose proof (swap_targets_are_targets _ _ _ _ Hst) as [Hndts _].
      rewrite Hs in Hsp. destruct Hsp as (p & q & -> & _).
      pose proof (available_count dq ts counter Hndts) as Hav.
      rewrite (filter_none (λ q, q ∉ global_qubits_set dq) ts) in Hav.
      + simpl in *. lia.
      + apply Forall_forall. intros x Hx%Hts Hn. apply Hn, Hall, elem_of_remove_dups.
        by rewrite <- ?Et.
    - exists (set_iter (global_targets dq g)), (set_iter (remove_dups (target_qubits g))).
      split; [unfold _swap_targets; by rewrite Hs|].
      pose proof (available_count dq (set_iter (remove_dups (target_qubits g))) counter
                    (set_iter_NoDup _ (NoDup_remove_dups _))) as Hav.
      rewrite set_iter_length.
      assert (length (filter (λ q, q ∉ global_qubits_set dq)
                        (set_iter (remove_dups (target_qubits g))))
              = length (filter (λ q, q ∉ global_qubits_set dq)
                          (remove_dups (target_qubits g)))) as Heq.
      { apply Permutation_length. by rewrite set_iter_perm. }
      pose proof (filter_complement_length (λ q, q ∈ global_qubits_set dq)
                    (remove_dups (target_qubits g))) as Hcl.
      fold (global_targets dq g) in Hcl. lia. }
  pose proof (swap_targets_are_targets _ _ _ _ Hst) as [_ Hgts].
  destruct (insert_swaps_Ok gts (available_swaps dq ts counter) dq st queue counter ∅)
    as [[[[[dq1 st1] queue1] counter1] qm] Hi]; [done| | |].
  - apply Forall_forall. intros q Hq%Hgts. rewrite Forall_forall in Hlt.
    rewrite Hc. by apply Hlt.
  - apply Forall_forall. intros q Hq%available_swaps_spec. tauto.
  - unfold _reconfigure. fold g. rewrite Hst, bind_Ok_l, Hi, bind_Ok_l. by eexists.
Qed.

Lemma reconfigure_plannable dq N k st queue counter nr hid dq' st' queue' counter' :
  _reconfigure dq st queue counter nr hid = Ok (dq', st', queue', counter') →
  NoDup nr → live st nr →
  Forall (λ gid, plannable N k (st !!! gid)) nr →
  length counter = N →
  live st' nr ∧ Forall (λ gid, plannable N k (st' !!! gid)) nr
  ∧ length counter' = N
  ∧ global_qubits_set dq' = global_qubits_set dq.
Proof.
  intros Hr Hnd Hlive Hall Hc.
  apply reconfigure_exact in Hr
    as (gts & ts & sw & Hst & _ & Hfst & Hsw & Hndsw & -> & -> & -> & Hc').
  split; [|split; [|split; [congruence|done]]].
  - eapply live_mono; [|exact Hlive]. rewrite remap_queue_length, length_app. lia.
  - unfold live in Hlive. rewrite Forall_forall in Hall, Hlive |- *. intros gid Hg.
    rewrite remap_queue_lookup_once; [|done|done|rewrite length_app; specialize (Hlive _ Hg); lia].
    rewrite lookup_total_app_l by by apply Hlive.
    destruct (Hall gid Hg) as (Hlt & Hfree & Hswap). unfold plannable, remap_gate. simpl.
    rewrite length_fmap. split; [|done]. apply Forall_fmap.
    eapply Forall_impl; [exact Hlt|]. intros x Hx. simpl.
    rewrite (remap_swaps sw) by done. apply relabel_bound; [done|].
    eapply Forall_impl; [exact Hsw|]. intros p (_ & _ & H1 & H2). lia.
Qed.

Lemma transform_rec_no_error fuel dq N st queue rem counter r :
  NoDup rem → live st rem →
  Forall (λ gid, plannable N (size (global_qubits_set dq)) (st !!! gid)) rem →
  length counter = N →
  _transform commutes fuel dq st queue rem counter = Some r →
  ∃ x, r = Ok x.
Proof.
  revert dq st queue rem counter.
  induction fuel as [|fuel IH]; intros dq st queue rem counter Hnd Hlive Hall Hc; [done|].
  rewrite transform_rec_unfold.
  destruct (transform_pass_Ok dq N _ rem st queue counter [] Hlive Hall Hc)
    as [[[[st1 queue1] counter1] nr] Hp].
  rewrite Hp.
  pose proof (transform_pass_spec _ _ _ _ _ _ _ _ _ _ _ Hp)
    as ([Hl1 Hsame] & Hc1 & acc & def & -> & Hnr & Hsub & Hperm & _).
  simpl in Hnr. subst nr.
  destruct def as [|hid def]; [intros [= <-]; by eexists|].
  assert (NoDup (hid :: def)) as Hnd1 by (by eapply sublist_NoDup).
  assert (live st1 (hid :: def)) as Hlive1.
  { unfold live. rewrite Hl1. by eapply live_sublist. }
  assert (Forall (λ gid, plannable N (size (global_qubits_set dq)) (st1 !!! gid))
                 (hid :: def)) as Hall1.
  { rewrite Forall_forall in Hall |- *. intros gid Hg.
    eapply plannable_same_qubits; [apply Hsame|]. apply Hall.
    by eapply elem_of_sublist. }
  destruct (reconfigure_Ok dq N st1 (queue ++ acc) counter1 (hid :: def) hid)
    as [[[[dq2 st2] queue2] counter2] Hr].
  { by apply Forall_cons in Hall1 as [? _]. }
  { by eapply transform_pass_rejected. }
  { congruence. }
  rewrite Hr.
  destruct (reconfigure_plannable _ N _ _ _ _ _ _ _ _ _ _ Hr Hnd1 Hlive1 Hall1)
    as (Hlive2 & Hall2 & Hc2 & HG); [congruence|].
  apply IH; [done..| |done]. by rewrite HG.
Qed.

Lemma transform_Ok dq st queue counter :
  NoDup queue → live st queue →
  Forall (λ gid, plannable (match counter with
                            | Some c => length c
                            | None => nqubits dq
                            end) (size (global_qubits_set dq)) (st !!! gid)) queue →
  ∃ dq' st' queue',
    transform commutes (S (length queue)) dq st queue counter
    = Some (Ok (dq', st', queue')).
Proof.
  intros Hnd Hlive Hall. unfold transform.
  assert (∃ counter0,
            match counter with
            | Some c => Ok c
            | None => count st queue (nqubits dq)
            end = Ok counter0
            ∧ length counter0 = match counter with
                                | Some c => length c
                                | None => nqubits dq
                                end) as (counter0 & -> & Hl0).
  { destruct counter as [c|]; [by exists c|].
    destruct (count st queue (nqubits dq)) as [c|e] eqn:Ec.
    - exists c. split; [done|]. by eapply count_length.
    - exfalso. rewrite count_flat in Ec.
      destruct (counter_add_all_Ok 1 (all_targets st queue) (replicate (nqubits dq) 0%Z))
        as [c Hc]; [|congruence].
      rewrite length_replicate. unfold all_targets. apply Forall_forall.
      intros q (gid & Hq & Hg)%list_elem_of_bind. rewrite Forall_forall in Hall.
      destruct (Hall gid Hg) as [Hlt _]. rewrite Forall_forall in Hlt. by apply Hlt. }
  destruct (transform_rec_terminates commutes dq st [] queue counter0 Hnd Hlive)
    as [r Hr].
  destruct (transform_rec_no_error _ _ _ _ _ _ _ _ Hnd Hlive Hall Hl0 Hr)
    as [[[[dq' st'] queue'] counter'] ->].
  rewrite Hr. by eexists _, _, _.
Qed.

(** [transform] on distinct gate objects that [_add] would let through
    (targets inside the circuit and leaving as many qubits free as there
    are global qubits, SWAPs on two qubits): it returns a new queue; neither
    the search for a swap partner nor any indexing fails, and one more
    invocation of [_transform] than the queue has gates is enough. *)
Theorem transform_succeeds dq st queue counter :
  NoDup queue → live st queue →
  Forall (λ gid, plannable (match counter with
                            | Some c => length c
                            | None => nqubits dq
                            end) (size (global_qubits_set dq)) (st !!! gid)) queue →
  ∃ dq' st' queue',
    ∀ fuel, S (length queue) ≤ fuel →
            transform commutes fuel dq st queue counter
            = Some (Ok (dq', st', queue')).
Proof.
  intros Hnd Hlive Hall.
  destruct (transform_Ok dq st queue counter Hnd Hlive Hall) as (dq' & st' & queue' & Ht).
  exists dq', st', queue'. intros fuel Hfuel. revert Ht. unfold transform.
  destruct (match counter with
            | Some c => Ok c
            | None => count st queue (nqubits dq)
            end) as [counter0|e]; [|done].
  destruct (_transform commutes (S (length queue)) dq st [] queue counter0)
    as [r|] eqn:Hr; [|done].
  by rewrite (transform_rec_fuel_mono _ _ _ _ _ _ _ _ _ Hr Hfuel).
Qed.

End success.

Lemma transform_succeeds_witness :
  ∃ dq' st' queue',
    transform (order := cpython_small) (sorter := ties_ascending) (λ _ _, true) 3 partition_2_0
              [H 0; H 1] [0; 1] None
    = Some (Ok (dq', st', queue')).
Proof.
  destruct (transform_succeeds (order := cpython_small) (sorter := ties_ascending) (λ _ _, true) partition_2_0
              [H 0; H 1] [0; 1] None NoDup_example live_example)
    as (dq' & st' & queue' & Ht).
  - repeat constructor; simpl; try lia; discriminate.
  - exists dq', st', queue'. apply Ht. simpl. lia.
Defined.

(** ** [create] on the queue of the transformer *)

Lemma consistent_init N D k nl devs G dq :
  __init__ N D k nl devs G = Ok dq → G ≠ ∅ → sum_list (devs.*2) = D →
  consistent_partition dq.
Proof.
  intros Hi HG Hsum. apply init_inv in Hi as (_&HD&_&_&_&_&_&HGs&Hgl&_&Hd).
  unfold consistent_partition. rewrite HGs, Hgl, Hd, HD, ids_concat, Hsum. done.
Qed.

Lemma reduced_id_Ok dq q :
  consistent_partition dq → ∃ r, reduced_id (global_qubits_list dq) q = Ok r.
Proof.
  intros (HG & Hgl & _). rewrite Hgl. unfold reduced_id.
  destruct (merge_sort (≤) (elements (global_qubits_set dq))) as [|g gl] eqn:Egl.
  { destruct HG. apply leibniz_equiv, elements_empty_inv, Permutation_nil_r.
    by rewrite <- (merge_sort_Permutation (≤)), Egl. }
  rewrite reduction_scan_sorted; [by eexists| |done].
  rewrite <- Egl. apply global_list_sorted.
Qed.

Lemma mapM_Ok_all {A B} (f : A → result B) (l : list A) :
  (∀ a, a ∈ l → ∃ b, f a = Ok b) → ∃ bs, mapM f l = Ok bs.
Proof.
  induction l as [|a l IH]; intros Hall; [by eexists|].
  destruct (Hall a) as [b Hb]; [by left|].
  destruct IH as [bs Hbs]; [intros a' Ha'; apply Hall; by right|].
  exists (b :: bs). simpl. by rewrite Hb, bind_Ok_l, Hbs.
Qed.

Lemma create_reduced_gate_Ok dq gid g :
  consistent_partition dq → ∃ calc, _create_reduced_gate dq gid g = Ok calc.
Proof.
  intros Hc. unfold _create_reduced_gate.
  destruct (mapM_Ok_all (reduced_id (global_qubits_list dq)) (target_qubits g))
    as [ts ->]; [intros; by apply reduced_id_Ok|].
  destruct (mapM_Ok_all (reduced_id (global_qubits_list dq))
              (filter (λ q, q ∉ global_qubits_set dq) (control_qubits g)))
    as [cs ->]; [intros; by apply reduced_id_Ok|].
  by eexists.
Qed.

Section create_ok.
Context {order : SetOrder} {sorter : ArgSort}.

Lemma piece_flag_Ok dq controls i :
  (∀ c, c ∈ controls → c ∈ global_qubits_list dq) →
  ∃ b, _piece_flag dq controls i = Ok b.
Proof.
  induction controls as [|c controls IH]; intros Hall; [by eexists|].
  rewrite piece_flag_cons. unfold list_index.
  destruct (list_find (λ y, y = c) (global_qubits_list dq)) as [[ic y]|] eqn:Ef.
  - rewrite bind_Ok_l. case_bool_decide; [|by eexists].
    apply IH. intros c' Hc'. apply Hall. by right.
  - apply list_find_None in Ef. rewrite Forall_forall in Ef.
    destruct (Ef c); [apply Hall; by left|done].
Qed.

Lemma global_controls_in_list dq g c :
  consistent_partition dq → c ∈ global_controls dq g → c ∈ global_qubits_list dq.
Proof.
  intros (_ & Hgl & _) Hc. unfold global_controls in Hc.
  apply (proj1 (set_iter_elem_of _ _)) in Hc.
  apply list_elem_of_filter in Hc as [Hc _].
  rewrite Hgl. by apply global_list_elem_of.
Qed.

Lemma append_calc_gates_Ok dq g calc ids (w : wave) :
  consistent_partition dq →
  Forall (λ i, i < length w) ids →
  ∃ w', foldM (_append_calc_gate dq g calc) ids w = Ok w'.
Proof.
  intros Hc. revert w. induction ids as [|i ids IH]; intros w Hall; [by eexists|].
  apply Forall_cons in Hall as [Hi Hall]. cbn [foldM].
  assert (∃ w1, _append_calc_gate dq g calc w i = Ok w1 ∧ length w1 = length w)
    as (w1 & Hw1 & Hl1).
  { unfold _append_calc_gate.
    destruct (piece_flag_Ok dq (global_controls dq g) i) as [b ->].
    { intros c. by apply global_controls_in_list. }
    rewrite bind_Ok_l. destruct b; [|by eexists].
    destruct (lookup_lt_is_Some_2 w i Hi) as [l ->].
    eexists. split; [done|]. by rewrite length_insert. }
  rewrite Hw1, bind_Ok_l. apply IH. by rewrite Hl1.
Qed.

Lemma create_standard_Ok dq gid g (w : wave) :
  consistent_partition dq → length w = ndevices dq →
  ∃ w', _create_standard dq gid g w = Ok w'.
Proof.
  intros Hc Hw. destruct (create_reduced_gate_Ok dq gid g Hc) as [calc Hcalc].
  rewrite (create_standard_flat _ _ _ _ _ Hcalc).
  apply append_calc_gates_Ok; [done|].
  destruct Hc as (_ & _ & ->). apply Forall_forall. intros i Hi%elem_of_seq. lia.
Qed.

Lemma creatable_with_queues dq qs sq g :
  creatable (with_queues dq qs sq) g ↔ creatable dq g.
Proof. done. Qed.

Lemma creatable_same_qubits dq g g' :
  same_qubits g' g → creatable dq g → creatable dq g'.
Proof.
  intros Hs [Ha Hl]. pose proof Hs as (H1 & H2 & _). split.
  - by rewrite (same_qubits_accept_alone dq g' g Hs).
  - rewrite H1, H2. done.
Qed.

Lemma create_gate_Ok dq st gid :
  consistent_partition dq → well_shaped dq →
  creatable dq (st !!! gid) →
  ∃ dq' st', _create_gate dq st gid = Ok (dq', st') ∧ well_shaped dq'.
Proof.
  intros Hc Hsh [Hacc Hsw]. unfold _create_gate. set (g := st !!! gid) in *.
  case_bool_decide as Ht.
  { eexists _, _. split; [done|]. unfold well_shaped in *. simpl.
    apply Forall_app. split; [done|]. constructor; [by left|constructor]. }
  destruct (set_iter (global_targets dq g)) as [|gq others] eqn:Eg.
  - set (qs := if bool_decide _ then _ else _).
    assert (Forall (λ w : wave, w = [] ∨ length w = ndevices dq) qs ∧
            ∃ w, last qs = Some w ∧ length w = ndevices dq) as (Hqs & w & Hlast & Hw).
    { unfold qs. case_bool_decide as Hl.
      - split.
        + apply Forall_app. split; [done|]. constructor; [|constructor].
          right. apply length_replicate.
        + eexists. split; [apply last_snoc|apply length_replicate].
      - split; [done|]. destruct (last (queues dq)) as [w|] eqn:El; [|tauto].
        exists w. split; [done|]. unfold well_shaped in Hsh.
        rewrite Forall_forall in Hsh. destruct (Hsh w) as [->|?]; [|tauto|done].
        apply last_Some_elem_of in El. done. }
    rewrite Hlast. destruct (create_standard_Ok dq gid g w Hc Hw) as [w' Hw'].
    rewrite Hw', bind_Ok_l. eexists _, _. split; [done|].
    unfold well_shaped. simpl. unfold set_last. apply Forall_app. split.
    + eapply Forall_impl; [|by intros ? H'; exact H'].
      rewrite Forall_forall in Hqs |- *. intros x Hx%elem_of_take_in. by apply Hqs.
    + constructor; [|constructor]. right.
      apply create_standard_length in Hw'. congruence.
  - assert (length (global_targets dq g) = S (length others)) as Hlen.
    { by rewrite <- set_iter_length, Eg. }
    unfold accept_alone in Hacc. apply orb_true_iff in Hacc as [Hacc|Hacc].
    + apply andb_true_iff in Hacc as [Hs Hl1%bool_decide_eq_true].
      rewrite Hs. simpl. rewrite bool_decide_eq_false_2 by lia.
      specialize (Hsw ltac:(by apply bool_decide_eq_true in Hs)).
      destruct (target_qubits g) as [|a [|b [|]]] eqn:Et; simpl in Hsw; try done.
      simpl. case_bool_decide; rewrite bind_Ok_l; eexists _, _;
        (split; [done|]); unfold well_shaped in *; simpl;
        (apply Forall_app; split; [done|]; constructor; [by left|constructor]).
    + apply bool_decide_eq_true in Hacc. rewrite Hacc in Hlen. done.
Qed.

Lemma create_Ok dq st queue :
  consistent_partition dq → well_shaped dq →
  Forall (λ gid, creatable dq (st !!! gid)) queue →
  ∃ dq' st', create dq st queue = Ok (dq', st') ∧ well_shaped dq'.
Proof.
  unfold create. revert dq st.
  induction queue as [|gid queue IH]; intros dq st Hc Hsh Hall; [by eexists _, _|].
  apply Forall_cons in Hall as [Hg Hall]. cbn [foldM].
  destruct (create_gate_Ok dq st gid Hc Hsh Hg) as (dq1 & st1 & Hg1 & Hsh1).
  rewrite Hg1, bind_Ok_l.
  apply create_gate_spec in Hg1 as ((qs & sq & ->) & [_ Hst]).
  apply IH; [done|done|].
  eapply Forall_impl; [exact Hall|]. intros gid' Hcr.
  apply creatable_with_queues. eapply creatable_same_qubits; [apply Hst|done].
Qed.

End create_ok.

Section plan.
Context {order : SetOrder} {sorter : ArgSort}.
Variable commutes : gate → gate → bool.

(** Every gate of the queue returned by [transform] can be placed. *)
Lemma transform_creatable fuel dq st queue counter dq' st' queue' :
  NoDup queue → live st queue → swaps_list dq = [] →
  Forall (λ gid, gclass (st !!! gid) = SWAP → length (target_qubits (st !!! gid)) = 2)
         queue →
  transform commutes fuel dq st queue counter = Some (Ok (dq', st', queue')) →
  Forall (λ gid, creatable dq (st' !!! gid)) queue'.
Proof.
  intros Hnd Hlive Hsw0 Hswap Ht.
  destruct (transform_final commutes _ _ _ _ _ _ _ _ Hnd Hlive Ht)
    as (st1 & queue1 & counter1 & _ & Hinv & -> & -> & Hperm).
  destruct (transform_final_swaps _ _ _ _ _ _ Hinv) as (Hsw & _ & _ & Hall).
  destruct Hinv as [_ Hlen _ _ Hq _ Hpl]. rewrite Forall_forall in Hq, Hswap.
  rewrite Forall_forall in Hall. apply Forall_app. split.
  - apply Forall_forall. intros gid Hg. destruct (Hq gid Hg) as [Hlt _].
    rewrite lookup_total_app_l by done.
    apply list_elem_of_lookup in Hg as [p Hp]. specialize (Hpl p gid Hp).
    unfold placed in Hpl. destruct (decide (length st ≤ gid)) as [Hnew|Hold].
    + destruct Hpl as (q & qs & -> & Hqg & Hqs & _). split; [|done].
      apply accept_alone_new_SWAP. tauto.
    + destruct Hpl as ((Hc & Htq & _) & Hacc & _). split; [done|].
      rewrite Hc, Htq, length_fmap. apply Hswap.
      assert (gid ∈ queue ++ seq (length st) (length st1 - length st)) as Hin.
      { rewrite <- Hperm. by eapply list_elem_of_lookup_2. }
      apply elem_of_app in Hin as [?|Hin%elem_of_seq]; [done|lia].
  - apply Forall_forall. intros gid Hg%elem_of_seq.
    rewrite lookup_total_app_r by lia.
    rewrite Hsw, Hsw0 in Hg |- *. simpl in Hg |- *. rewrite length_fmap in Hg.
    destruct (lookup_lt_is_Some_2
                (reverse (ordered_pair <$> inserted_swaps (length st) st1 queue1))
                (gid - length st1)) as [[a b] Hab].
    { rewrite length_reverse, length_fmap. lia. }
    rewrite (list_lookup_total_correct _ _ (new_SWAP a b))
      by (by rewrite list_lookup_fmap, Hab).
    apply list_elem_of_lookup_2, elem_of_reverse, list_elem_of_fmap in Hab
      as ([q qs] & Heq & Hin).
    destruct (Hall _ Hin) as (Hqg & Hqs & _). simpl in *.
    split; [|done]. apply accept_alone_new_SWAP.
    unfold ordered_pair in Heq. simpl in Heq. injection Heq as -> ->.
    assert (q ≠ qs) by (by intros ->).
    destruct (Nat.le_gt_cases q qs).
    + rewrite Nat.min_l, Nat.max_r by lia. tauto.
    + rewrite Nat.min_r, Nat.max_l by lia. tauto.
Qed.

Lemma set_gates_Ok c st :
  0 < TDC.nglobal c →
  sum_list ((TDC.calc_devices c).*2) = TDC.ndevices c →
  TDC.queues c = None →
  TDC.queue c ≠ [] → NoDup (TDC.queue c) → live st (TDC.queue c) →
  Forall (λ gid, plannable (TDC.nqubits c) (TDC.nglobal c) (st !!! gid)) (TDC.queue c) →
  ∃ counter c1 dq0 dq1 st1 tq dq2 st2,
    DeviceQueues.count st (TDC.queue c) (TDC.nqubits c) = Ok counter
    ∧ TDC.set_global_qubits c (take (TDC.nglobal c) (argsort counter)) = Ok c1
    ∧ TDC.queues c1 = Some dq0
    ∧ transform commutes (S (length (TDC.queue c))) dq0 st (TDC.queue c) (Some counter)
      = Some (Ok (dq1, st1, tq))
    ∧ create dq1 st1 tq = Ok (dq2, st2)
    ∧ well_shaped dq2
    ∧ TDC.set_gates commutes (S (length (TDC.queue c))) c st
      = Some (Ok (TDC.with_queues c1 dq2, st2)).
Proof.
  intros Hk Hsum Hq Hne Hnd Hlive Hall. unfold TDC.set_gates.
  rewrite bool_decide_eq_false_2 by done.
  destruct (count st (TDC.queue c) (TDC.nqubits c)) as [counter|e] eqn:Ec.
  2:{ exfalso. rewrite count_flat in Ec.
      destruct (counter_add_all_Ok 1 (all_targets st (TDC.queue c))
                  (replicate (TDC.nqubits c) 0%Z)) as [c0 Hc0]; [|congruence].
      rewrite length_replicate. unfold all_targets. apply Forall_forall.
      intros q (gid & Hq' & Hg)%list_elem_of_bind. rewrite Forall_forall in Hall.
      destruct (Hall gid Hg) as [Hlt _]. rewrite Forall_forall in Hlt. by apply Hlt. }
  pose proof (count_length _ _ _ _ Ec) as Hlc. rewrite Hq.
  assert (TDC.nglobal c ≤ TDC.nqubits c) as Hkn.
  { destruct (TDC.queue c) as [|gid rest]; [done|].
    apply Forall_cons in Hall as [(_ & Hfree & _) _]. lia. }
  set (x := take (TDC.nglobal c) (argsort counter)).
  assert (NoDup x) as Hndx.
  { eapply sublist_NoDup; [apply argsort_NoDup|apply sublist_take]. }
  assert (length x = TDC.nglobal c) as Hlx.
  { unfold x. rewrite length_take, argsort_length. lia. }
  destruct (set_global_qubits_Ok c x) as [c1 Hc1]; [done|done| | |].
  { by rewrite size_list_to_set. }
  { apply Forall_forall. intros q Hq'%elem_of_take_in.
    apply argsort_elem_of in Hq'. lia. }
  rewrite Hc1.
  pose proof Hc1 as (Hsz & dq0 & ro & Hdq0 & -> & _)%set_global_qubits_inv.
  simpl.
  pose proof (init_inv _ _ _ _ _ _ _ Hdq0) as (_&HD&_&_&Hqs0&Hsq0&Hsw0&HG0&_).
  assert (consistent_partition dq0) as Hcons.
  { eapply consistent_init; [exact Hdq0| |done].
    intros HG. rewrite HG, size_empty in Hsz. lia. }
  destruct (transform_Ok commutes dq0 st (TDC.queue c) (Some counter) Hnd Hlive)
    as (dq1 & st1 & tq & Ht).
  { rewrite Hlc, HG0, Hsz. done. }
  rewrite Ht.
  assert (Forall (λ gid, creatable dq0 (st1 !!! gid)) tq) as Hcr0.
  { eapply (transform_creatable _ dq0 st (TDC.queue c));
      [exact Hnd|exact Hlive|exact Hsw0| |exact Ht].
    eapply Forall_impl; [exact Hall|]. by intros gid (_ & _ & ?). }
  pose proof (transform_frame _ _ _ _ _ _ _ _ _ Ht) as [pairs ->].
  destruct (create_Ok (with_swaps_list dq0 (swaps_list dq0 ++ pairs)) st1 tq)
    as (dq2 & st2 & Hcr & Hsh).
  { done. }
  { unfold well_shaped. simpl. rewrite Hqs0. constructor. }
  { exact Hcr0. }
  rewrite Hcr. by eexists counter, _, dq0, _, _, _, _, _.
Qed.

(** [set_gates] on a circuit without a plan whose queue holds distinct gate
    objects that [_add] would let through (targets inside the circuit and
    leaving [nglobal] qubits free, SWAPs on two qubits): the plan is built;
    neither the choice of the global qubits, nor the transformer, nor
    [create] raises. *)
Theorem set_gates_succeeds c st :
  0 < TDC.nglobal c →
  sum_list ((TDC.calc_devices c).*2) = TDC.ndevices c →
  TDC.queues c = None →
  TDC.queue c ≠ [] → NoDup (TDC.queue c) → live st (TDC.queue c) →
  Forall (λ gid, plannable (TDC.nqubits c) (TDC.nglobal c) (st !!! gid)) (TDC.queue c) →
  ∃ c' st', TDC.set_gates commutes (S (length (TDC.queue c))) c st
            = Some (Ok (c', st')).
Proof.
  intros Hk Hsum Hq Hne Hnd Hlive Hall.
  destruct (set_gates_Ok c st Hk Hsum Hq Hne Hnd Hlive Hall)
    as (counter & c1 & dq0 & dq1 & st1 & tq & dq2 & st2 & _ & _ & _ & _ & _ & _ & Hs).
  by eexists _, _.
Qed.

End plan.

(** Three qubits on two devices, with one gate on qubit 2. *)
Lemma set_gates_succeeds_witness :
  ∃ c' st', TDC.set_gates (order := cpython_small) (sorter := ties_ascending) (λ _ _, true) 2
                          (circuit_with_queue plain_circuit_3 [0]) [H 2]
            = Some (Ok (c', st')).
Proof.
  apply (set_gates_succeeds (order := cpython_small) (sorter := ties_ascending) (λ _ _, true)
           (circuit_with_queue plain_circuit_3 [0]) [H 2]).
  - simpl. lia.
  - reflexivity.
  - reflexivity.
  - discriminate.
  - apply NoDup_singleton.
  - repeat constructor.
  - repeat constructor; simpl; try lia; discriminate.
Defined.

(** ** Executing the plan *)

Lemma transpose_inj a b x y : transpose a b x = transpose a b y → x = y.
Proof.
  intros Heq. rewrite <- (transpose_involutive a b x), Heq.
  apply transpose_involutive.
Qed.

Lemma relabel_inj sw x y : relabel sw x = relabel sw y → x = y.
Proof.
  revert x y. induction sw as [|p sw IH]; intros x y; [done|].
  rewrite !relabel_cons. intros Heq%IH. by eapply transpose_inj.
Qed.

Lemma inserted_swaps_take n0 st l p x :
  x ∈ inserted_swaps n0 st (take p l) → x ∈ inserted_swaps n0 st l.
Proof.
  intros Hx. rewrite <- (take_drop p l) at 1. rewrite inserted_swaps_app.
  apply elem_of_app. by left.
Qed.

Lemma pair_ok_ordered dq N p : pair_ok dq N p → pair_ok dq N (ordered_pair p).
Proof.
  destruct p as [a b]. unfold pair_ok, ordered_pair. simpl. intros (Ha & Hb & Hg).
  destruct (Nat.le_gt_cases a b).
  - by rewrite Nat.min_l, Nat.max_r by lia.
  - rewrite Nat.min_r, Nat.max_l by lia. split; [done|]. split; [done|].
    destruct (decide (a ∈ global_qubits_set dq));
      destruct (decide (b ∈ global_qubits_set dq)); tauto.
Qed.

Lemma ready_new_SWAP dq N a b :
  pair_ok dq N (a, b) → ready dq N (new_SWAP a b).
Proof.
  intros (Ha & Hb & Hg). simpl in *. split; [split|].
  - by apply accept_alone_new_SWAP.
  - done.
  - split; [by repeat constructor|]. split; [|done]. intros _.
    apply NoDup_cons. split; [|apply NoDup_singleton].
    intros ->%list_elem_of_singleton. tauto.
Qed.

Section ready.
Context {order : SetOrder} {sorter : ArgSort}.
Variable commutes : gate → gate → bool.

(** The queue returned by [transform] holds gates that [create] can place
    and the executor can run. *)
Lemma transform_ready fuel dq st queue counter dq' st' queue' :
  NoDup queue → live st queue → swaps_list dq = [] →
  Forall (λ gid, plannable (match counter with
                            | Some c => length c
                            | None => nqubits dq
                            end) (size (global_qubits_set dq)) (st !!! gid)
                 ∧ (gclass (st !!! gid) = SWAP → NoDup (target_qubits (st !!! gid))))
         queue →
  transform commutes fuel dq st queue counter = Some (Ok (dq', st', queue')) →
  Forall (λ gid, ready dq (match counter with
                           | Some c => length c
                           | None => nqubits dq
                           end) (st' !!! gid)) queue'.
Proof.
  intros Hnd Hlive Hsw0 Hplan Ht.
  destruct (transform_final commutes _ _ _ _ _ _ _ _ Hnd Hlive Ht)
    as (st1 & queue1 & counter1 & Hl1 & Hinv & -> & -> & Hperm).
  rewrite <- Hl1 in Hplan |- *. clear Hl1.
  destruct (transform_final_swaps _ _ _ _ _ _ Hinv) as (Hsw & _ & _ & Hall).
  destruct Hinv as [_ Hlen _ _ Hq _ Hpl]. rewrite Forall_forall in Hq, Hplan.
  assert (Forall (pair_ok dq (length counter1))
                 (inserted_swaps (length st) st1 queue1)) as Hok.
  { eapply Forall_impl; [exact Hall|]. intros [a b]. simpl.
    intros (Ha & Hb & Hla & Hlb). unfold pair_ok. simpl. tauto. }
  rewrite Forall_forall in Hok.
  apply Forall_app. split.
  - apply Forall_forall. intros gid Hg. destruct (Hq gid Hg) as [Hlt _].
    rewrite lookup_total_app_l by done.
    pose proof Hg as [p Hp]%list_elem_of_lookup. specialize (Hpl p gid Hp).
    unfold placed in Hpl. destruct (decide (length st ≤ gid)) as [Hnew|Hold].
    + destruct Hpl as (q & qs & -> & Hqg & Hqs & Hq1 & Hq2).
      apply ready_new_SWAP. unfold pair_ok. simpl. tauto.
    + destruct Hpl as ((Hc & Htq & _) & Hacc & Htag).
      assert (gid ∈ queue) as Hin.
      { assert (gid ∈ queue ++ seq (length st) (length st1 - length st)) as Hin
          by (by rewrite <- Hperm).
        apply elem_of_app in Hin as [?|Hin%elem_of_seq]; [done|lia]. }
      destruct (Hplan gid Hin) as ((Hlt0 & _ & Hsw2) & Hndt).
      set (Sp := inserted_swaps (length st) st1 (take p queue1)) in *.
      assert (Forall (pair_ok dq (length counter1)) Sp) as Hsp.
      { apply Forall_forall. intros x Hx%inserted_swaps_take. by apply Hok. }
      split; [split|split; [|split]].
      * done.
      * rewrite Hc, Htq, length_fmap. done.
      * rewrite Htq. apply Forall_fmap. eapply Forall_impl; [exact Hlt0|].
        intros x Hx. simpl. apply relabel_bound; [done|].
        eapply Forall_impl; [exact Hsp|]. by intros [a b] (? & ? & _).
      * rewrite Hc, Htq. intros Hs. apply NoDup_fmap_2; [|by apply Hndt].
        intros x y. apply relabel_inj.
      * intros Ht0. rewrite Htag.
        -- eexists. split; [done|]. rewrite Hsw0. simpl. apply Forall_fmap.
           eapply Forall_impl; [exact Hsp|]. intros x. apply pair_ok_ordered.
        -- unfold is_special_gate, is_SWAP. rewrite Ht0.
           apply andb_true_iff. split; [by apply bool_decide_eq_true|].
           apply negb_true_iff, bool_decide_eq_false. rewrite Hc. intros Hs.
           specialize (Hsw2 Hs). rewrite Htq in Ht0.
           apply fmap_nil_inv in Ht0. rewrite Ht0 in Hsw2. done.
  - apply Forall_forall. intros gid Hg%elem_of_seq.
    rewrite lookup_total_app_r by lia.
    rewrite Hsw, Hsw0 in Hg |- *. simpl in Hg |- *. rewrite length_fmap in Hg.
    destruct (lookup_lt_is_Some_2
                (reverse (ordered_pair <$> inserted_swaps (length st) st1 queue1))
                (gid - length st1)) as [[a b] Hab].
    { rewrite length_reverse, length_fmap. lia. }
    rewrite (list_lookup_total_correct _ _ (new_SWAP a b))
      by (by rewrite list_lookup_fmap, Hab).
    apply list_elem_of_lookup_2, elem_of_reverse, list_elem_of_fmap in Hab
      as (x & Heq & Hin).
    apply ready_new_SWAP. rewrite Heq. by apply pair_ok_ordered, Hok.
Qed.

Lemma ready_ext dq N g g' :
  gclass g' = gclass g → target_qubits g' = target_qubits g →
  swap_reset g' = swap_reset g → ready dq N g → ready dq N g'.
Proof.
  intros Hc Ht Hs ((Hacc & Hl) & Hlt & Hnd & Hsr). unfold ready, creatable.
  rewrite Hc, Ht, Hs. split; [split; [|done]|done].
  by rewrite (accept_alone_ext dq g' g).
Qed.

Lemma entry_ok_ext dq N st st' e :
  (∀ j, swap_reset (st' !!! j) = swap_reset (st !!! j)) →
  entry_ok dq N st e → entry_ok dq N st' e.
Proof. intros Hs. destruct e as [gid|g l]; simpl; [by rewrite Hs|done]. Qed.

(** One step of [create]: the new special entry can be run, and the store
    changes in the [nqubits] attribute only. *)
Lemma create_gate_entries dq N st gid dq' st' :
  _create_gate dq st gid = Ok (dq', st') →
  ready dq N (st !!! gid) →
  Forall (entry_ok dq N st) (special_queue dq) →
  Forall (entry_ok dq N st') (special_queue dq')
  ∧ (∀ j, gclass (st' !!! j) = gclass (st !!! j)
          ∧ target_qubits (st' !!! j) = target_qubits (st !!! j)
          ∧ swap_reset (st' !!! j) = swap_reset (st !!! j)).
Proof.
  intros Hcr ((Hacc & Hlen) & Hlt & Hnd & Hsr) Hall. revert Hcr.
  unfold _create_gate. set (g := st !!! gid) in *. case_bool_decide as Ht.
  - intros [= <- <-]. simpl.
    assert (∀ j, gclass (<[gid := set_nqubits g (Z.of_nat (nqubits dq))]> st !!! j)
                 = gclass (st !!! j)
                 ∧ target_qubits (<[gid := set_nqubits g (Z.of_nat (nqubits dq))]> st !!! j)
                   = target_qubits (st !!! j)
                 ∧ swap_reset (<[gid := set_nqubits g (Z.of_nat (nqubits dq))]> st !!! j)
                   = swap_reset (st !!! j)) as Hst.
    { intros j. rewrite store_insert_total. case_bool_decide as Hj; [|done].
      destruct Hj as [-> _]. done. }
    split; [|done]. apply Forall_app. split.
    + eapply Forall_impl; [exact Hall|]. intros e. apply entry_ok_ext.
      intros j. apply Hst.
    + constructor; [|constructor]. simpl.
      destruct (Hsr Ht) as (sr & Hsr1 & Hsr2). exists sr. split; [|done].
      destruct (Hst gid) as (_ & _ & ->). done.
  - destruct (set_iter (global_targets dq g)) as [|gq others] eqn:Eg.
    + destruct (last _) as [w|]; [|done]. intros Hc.
      apply bind_Ok in Hc as (w' & _ & [= <- <-]). done.
    + destruct (negb (is_SWAP g)) eqn:Hs; [done|]. case_bool_decide as Hlo; [done|].
      apply negb_false_iff, bool_decide_eq_true in Hs.
      specialize (Hlen Hs). specialize (Hnd Hs).
      destruct (target_qubits g) as [|a [|b [|]]] eqn:Et; simpl in Hlen; try done.
      simpl. intros Hc. apply bind_Ok in Hc as (lq & Hlq & [= <- <-]). simpl.
      split; [|done]. apply Forall_app. split; [done|].
      constructor; [|constructor]. simpl.
      assert (others = []) as -> by (destruct others; [done|simpl in Hlo; lia]).
      assert (∀ x, x ∈ global_targets dq g ↔ x = gq) as Hgq.
      { intros x. rewrite <- (set_iter_elem_of (global_targets dq g)), Eg.
        apply list_elem_of_singleton. }
      assert (∀ x, x ∈ [a; b] → x ∈ global_qubits_set dq → x = gq) as Huniq.
      { intros x Hx HG. apply Hgq, global_targets_elem_of. by rewrite Et. }
      assert (gq ∈ [a; b] ∧ gq ∈ global_qubits_set dq) as [Hin HG].
      { rewrite <- Et. apply global_targets_elem_of, Hgq. done. }
      apply NoDup_cons in Hnd as [Hab _]. rewrite list_elem_of_singleton in Hab.
      apply Forall_cons in Hlt as [Ha Hlt]. apply Forall_cons in Hlt as [Hb _].
      split; [done|]. case_bool_decide as Hq0.
      * injection Hlq as <-. split; [|done]. intros Hbg. apply Hab.
        rewrite Hq0. symmetry. apply Huniq; [|done]. right. by left.
      * injection Hlq as <-. split; [|done]. intros Hag. apply Hq0.
        apply Huniq; [by left|done].
Qed.

Lemma create_entries dq N st queue dq' st' :
  create dq st queue = Ok (dq', st') →
  Forall (λ gid, ready dq N (st !!! gid)) queue →
  Forall (entry_ok dq N st) (special_queue dq) →
  Forall (entry_ok dq N st') (special_queue dq').
Proof.
  unfold create. revert dq st.
  induction queue as [|gid queue IH]; intros dq st; [by intros [= <- <-]|].
  cbn [foldM]. intros Hc Hall Hen. apply bind_Ok in Hc as ([dq1 st1] & Hg & Hc).
  apply Forall_cons in Hall as [Hgid Hall].
  pose proof (create_gate_entries _ _ _ _ _ _ Hg Hgid Hen) as [Hen1 Hst1].
  apply create_gate_spec in Hg as [(qs & sq & ->) _].
  apply (IH _ _ Hc).
  - eapply Forall_impl; [exact Hall|]. intros j Hj.
    destruct (Hst1 j) as (H1 & H2 & H3). by eapply (ready_ext dq N (st !!! j)).
  - exact Hen1.
Qed.

End ready.

(** *** The executor *)

Section run.
Variable piece : Type.
Variable swap_pieces : piece → piece → nat → Z → piece * piece.
Variable _joblib_execute : list piece → wave → result (list piece).
Variable full_state_call : store → nat → list piece → result (list piece).
(** The kernels return and keep the number of pieces. *)
Hypothesis joblib_total : ∀ pieces w,
  ∃ pieces', _joblib_execute pieces w = Ok pieces' ∧ length pieces' = length pieces.
Hypothesis full_state_total : ∀ st gid pieces,
  ∃ pieces', full_state_call st gid pieces = Ok pieces' ∧ length pieces' = length pieces.

Lemma swap_Ok c dq pieces g l :
  runnable c dq → g ∈ global_qubits_set dq → l ∉ global_qubits_set dq →
  l < TDC.nqubits c → length pieces = TDC.ndevices c →
  ∃ pieces', TDC._swap piece swap_pieces c pieces g l = Ok (c, pieces')
             ∧ length pieces' = length pieces.
Proof.
  intros (Hq & Hnd & Hg & Hl) Hgin Hlout Hlt Hlen.
  destruct (Hg g Hgin) as (mr & Hmr & Hlt'). destruct (Hl l Hlt Hlout) as [le Hle].
  destruct (swap_total piece swap_pieces c dq pieces g l mr le) as [p' Hp']; [done..|].
  exists p'. split; [done|]. by apply swap_frame in Hp' as [_ ?].
Qed.

Lemma revert_swaps_Ok c dq pieces sr :
  runnable c dq → Forall (pair_ok dq (TDC.nqubits c)) sr →
  length pieces = TDC.ndevices c →
  ∃ pieces', TDC._revert_swaps piece swap_pieces c pieces sr = Ok (c, pieces')
             ∧ length pieces' = length pieces.
Proof.
  intros Hrun Hall. revert pieces. unfold TDC._revert_swaps.
  induction Hall as [|[q1 q2] sr (H1 & H2 & Hg) _ IH]; intros pieces Hlen.
  - by exists pieces.
  - cbn [foldM]. pose proof Hrun as (-> & _). simpl in *.
    assert (∃ p1, (if bool_decide (q1 ∉ global_qubits_set dq)
                   then TDC._swap piece swap_pieces c pieces q2 q1
                   else TDC._swap piece swap_pieces c pieces q1 q2) = Ok (c, p1)
                  ∧ length p1 = length pieces) as (p1 & -> & Hl1).
    { case_bool_decide as Hq1.
      - apply (swap_Ok c dq); [done| |done|done|done].
        destruct (decide (q2 ∈ global_qubits_set dq)); tauto.
      - apply (swap_Ok c dq); [done| | |done|done].
        + destruct (decide (q1 ∈ global_qubits_set dq)); tauto.
        + destruct (decide (q1 ∈ global_qubits_set dq)); tauto. }
    rewrite bind_Ok_l. destruct (IH p1) as (p' & Hp' & Hl'); [congruence|].
    exists p'. split; [done|congruence].
Qed.

Lemma special_gate_execute_Ok c dq st pieces e :
  runnable c dq → entry_ok dq (TDC.nqubits c) st e →
  length pieces = TDC.ndevices c →
  ∃ pieces', TDC._special_gate_execute piece swap_pieces full_state_call c st pieces e
             = Ok (c, pieces')
             ∧ length pieces' = length pieces.
Proof.
  intros Hrun He Hlen. destruct e as [gid|g l]; simpl in *.
  - destruct He as (sr & -> & Hsr).
    destruct (revert_swaps_Ok c dq pieces (reverse sr)) as (p1 & -> & Hl1);
      [done|by apply Forall_reverse|done|].
    rewrite bind_Ok_l. destruct (full_state_total st gid p1) as (p2 & -> & Hl2).
    rewrite bind_Ok_l.
    destruct (revert_swaps_Ok c dq p2 sr) as (p3 & -> & Hl3); [done|done|congruence|].
    exists p3. split; [done|congruence].
  - destruct He as (Hg & Hl & Hlt). by apply (swap_Ok c dq).
Qed.

Lemma execute_waves_Ok c dq st waves special_gates pieces :
  runnable c dq →
  Forall (entry_ok dq (TDC.nqubits c) st) special_gates →
  special_waves waves ≤ length special_gates →
  length pieces = TDC.ndevices c →
  ∃ pieces' rest,
    TDC._execute_waves piece swap_pieces _joblib_execute full_state_call
                       c st waves special_gates pieces = Ok (c, pieces', rest)
    ∧ length pieces' = length pieces.
Proof.
  intros Hrun. revert special_gates pieces.
  induction waves as [|w waves IH]; intros special_gates pieces Hall Hle Hlen; simpl.
  - by eexists _, _.
  - case_bool_decide as Hw.
    + destruct (joblib_total pieces w) as (p1 & -> & Hl1). rewrite bind_Ok_l.
      destruct (IH special_gates p1) as (p' & rest & Hp' & Hl'); [done| |congruence|].
      { unfold special_waves in *. by rewrite filter_cons_False in Hle. }
      exists p', rest. split; [done|congruence].
    + assert (w = []) as -> by (by destruct (decide (w = []))).
      unfold special_waves in Hle. rewrite filter_cons_True in Hle by done.
      destruct special_gates as [|e special_gates]; [simpl in Hle; lia|].
      apply Forall_cons in Hall as [He Hall].
      destruct (special_gate_execute_Ok c dq st pieces e) as (p1 & -> & Hl1); [done..|].
      rewrite bind_Ok_l.
      destruct (IH special_gates p1) as (p' & rest & Hp' & Hl'); [done| |congruence|].
      { unfold special_waves. simpl in Hle. lia. }
      exists p', rest. split; [done|congruence].
Qed.

End run.

Section execute.
Context {order : SetOrder} {sorter : ArgSort}.
Variable commutes : gate → gate → bool.
Variable piece : Type.
Variable swap_pieces : piece → piece → nat → Z → piece * piece.
Variable _joblib_execute : list piece → wave → result (list piece).
Variable full_state_call : store → nat → list piece → result (list piece).
(** The kernels return and keep the number of pieces. *)
Hypothesis joblib_total : ∀ pieces w,
  ∃ pieces', _joblib_execute pieces w = Ok pieces' ∧ length pieces' = length pieces.
Hypothesis full_state_total : ∀ st gid pieces,
  ∃ pieces', full_state_call st gid pieces = Ok pieces' ∧ length pieces' = length pieces.

Lemma create_frame dq st queue dq' st' :
  create dq st queue = Ok (dq', st') → ∃ qs sq, dq' = with_queues dq qs sq.
Proof.
  unfold create. revert dq st.
  induction queue as [|gid queue IH]; intros dq st.
  - intros [= <- <-]. exists (queues dq), (special_queue dq). by destruct dq.
  - cbn [foldM]. intros Hc. apply bind_Ok in Hc as ([dq1 st1] & Hg & Hc).
    apply create_gate_spec in Hg as [(qs & sq & ->) _].
    apply IH in Hc as (qs' & sq' & ->). by exists qs', sq'.
Qed.

(** [_execute] on a circuit without a plan whose non-empty queue holds
    distinct gate objects that pass the test of [_add], SWAPs being on two
    different qubits, with one state piece per logical device: if the
    amplitude kernels return, the method plans the circuit and runs every
    wave and every special step without raising, the iterator of special
    gates ends exactly with the waves, and the loop after them runs nothing. *)
Theorem execute_succeeds c st pieces :
  0 < TDC.nglobal c →
  sum_list ((TDC.calc_devices c).*2) = TDC.ndevices c →
  TDC.ndevices c = 2 ^ TDC.nglobal c →
  TDC.queues c = None →
  TDC.queue c ≠ [] → NoDup (TDC.queue c) → live st (TDC.queue c) →
  Forall (λ gid, plannable (TDC.nqubits c) (TDC.nglobal c) (st !!! gid)
                 ∧ (gclass (st !!! gid) = SWAP → NoDup (target_qubits (st !!! gid))))
         (TDC.queue c) →
  length pieces = TDC.ndevices c →
  ∃ c' pieces',
    TDC._execute commutes piece swap_pieces _joblib_execute full_state_call
                 (S (length (TDC.queue c))) c st pieces
    = Some (Ok (0, (c', pieces')))
    ∧ length pieces' = length pieces.
Proof.
  intros Hk Hsum Hpow Hq Hne Hnd Hlive Hall Hlen.
  assert (Forall (λ gid, plannable (TDC.nqubits c) (TDC.nglobal c) (st !!! gid))
                 (TDC.queue c)) as Hplan.
  { eapply Forall_impl; [exact Hall|]. by intros gid [? _]. }
  destruct (set_gates_Ok commutes c st Hk Hsum Hq Hne Hnd Hlive Hplan)
    as (counter & c1 & dq0 & dq1 & st1 & tq & dq2 & st2
        & Hcount & Hset & Hq1 & Ht & Hcr & Hsh & Hsg).
  pose proof (count_length _ _ _ _ Hcount) as Hlc.
  pose proof Hset as (Hsz & dq0' & ro & Hdq0 & -> & _)%set_global_qubits_inv.
  simpl in Hq1. injection Hq1 as ->.
  pose proof (init_inv _ _ _ _ _ _ _ Hdq0) as (HN&HD&_&_&Hqs0&Hsq0&Hsw0&HG0&_).
  pose proof (transform_frame _ _ _ _ _ _ _ _ _ Ht) as [pairs ->].
  pose proof (create_frame _ _ _ _ _ Hcr) as (qs & sq & ->).
  set (dq1 := with_swaps_list dq0 (swaps_list dq0 ++ pairs)) in *.
  set (c2 := TDC.with_queues _ (with_queues dq1 qs sq)) in *.
  assert (runnable c2 (with_queues dq1 qs sq)) as Hrun.
  { split; [done|]. split; [done|]. simpl.
    destruct (init_reduced_lists _ _ _ _ _ _ _ Hdq0) as [Hgr Hlr].
    destruct (init_lists _ _ _ _ _ _ _ Hdq0) as (_ & _ & Hge & Hle & Hgl & _).
    split.
    - intros g Hg. rewrite HG0 in Hg. apply Hge in Hg.
      apply list_elem_of_lookup in Hg as [i Hg]. exists i.
      split; [by apply Hgr|]. rewrite <- Hsz, <- Hgl. by eapply lookup_lt_Some.
    - intros l Hl Hng. rewrite HG0 in Hng.
      assert (l ∈ local_qubits dq0) as Hin by (by apply Hle).
      apply list_elem_of_lookup in Hin as [i Hin]. exists i. by apply Hlr. }
  assert (Forall (entry_ok (with_queues dq1 qs sq) (TDC.nqubits c2) st2) sq) as Hen.
  { apply (create_entries dq1 (TDC.nqubits c) st1 tq (with_queues dq1 qs sq) st2 Hcr).
    - rewrite <- Hlc.
      eapply (transform_ready commutes _ dq0 st (TDC.queue c) (Some counter));
        [exact Hnd|exact Hlive|exact Hsw0| |exact Ht].
      simpl. rewrite Hlc, HG0, Hsz. exact Hall.
    - unfold dq1. simpl. rewrite Hsq0. constructor. }
  assert (special_waves qs = length sq) as Hsp.
  { pose proof (create_waves dq1 st1 tq (with_queues dq1 qs sq) st2) as Hw. unfold dq1 in Hw at 1 2 3.
    simpl in Hw. rewrite Hqs0, Hsq0, HD, Hpow in Hw. simpl in Hw.
    assert (0 < 2 ^ TDC.nglobal c) by (apply Nat.neq_0_lt_0, Nat.pow_nonzero; lia).
    specialize (Hw ltac:(done) Hcr). unfold special_waves in *. simpl in *. lia. }
  destruct (execute_waves_Ok piece swap_pieces _joblib_execute full_state_call
              joblib_total full_state_total c2 (with_queues dq1 qs sq) st2 qs sq pieces)
    as (p' & rest & Hp' & Hl'); [done|done|lia|done|].
  pose proof (execute_waves_consumes _ _ _ _ _ _ _ _ _ _ _ _ Hp') as Hrest.
  assert (rest = []) as -> by (destruct rest; [done|simpl in Hrest; lia]).
  exists c2, p'. split; [|done].
  unfold TDC._execute. rewrite Hq, Hsg. simpl. by rewrite Hp'.
Qed.

End execute.

(** One gate on qubit 2 of three, two devices, two pieces; the kernels
    leave the pieces alone. *)
Lemma execute_succeeds_witness :
  ∃ c' pieces',
    TDC._execute (order := cpython_small) (sorter := ties_ascending) (λ _ _, true) nat exchange no_dispatch
                 no_call 2 (circuit_with_queue plain_circuit_3 [0]) [H 2] [10; 20]
    = Some (Ok (0, (c', pieces')))
    ∧ length pieces' = 2.
Proof.
  apply (execute_succeeds (order := cpython_small) (sorter := ties_ascending) (λ _ _, true) nat exchange
           no_dispatch no_call
           (λ pieces w, ex_intro _ pieces (conj eq_refl eq_refl))
           (λ st gid pieces, ex_intro _ pieces (conj eq_refl eq_refl))
           (circuit_with_queue plain_circuit_3 [0]) [H 2] [10; 20]).
  - simpl. lia.
  - reflexivity.
  - reflexivity.
  - reflexivity.
  - discriminate.
  - apply NoDup_singleton.
  - repeat constructor.
  - repeat constructor; simpl; try lia; discriminate.
  - reflexivity.
Defined.

(** ** The waves built by [create] *)

Lemma grouped_snoc (qs : list wave) (w : wave) :
  grouped (qs ++ [w])
  ↔ grouped qs ∧ match last qs with
                 | Some w0 => w0 = [] ∨ w = []
                 | None => True
                 end.
Proof.
  induction qs as [|w1 qs IH]; [simpl; tauto|].
  destruct qs as [|w2 qs]; [simpl; tauto|].
  change (grouped ((w1 :: w2 :: qs) ++ [w]))
    with ((w1 = [] ∨ w2 = []) ∧ grouped ((w2 :: qs) ++ [w])).
  change (grouped (w1 :: w2 :: qs)) with ((w1 = [] ∨ w2 = []) ∧ grouped (w2 :: qs)).
  change (last (w1 :: w2 :: qs)) with (last (w2 :: qs)).
  rewrite IH. tauto.
Qed.

Section shape.
Context {order : SetOrder} {sorter : ArgSort}.

Lemma create_gate_shape dq st gid dq' st' :
  0 < ndevices dq →
  _create_gate dq st gid = Ok (dq', st') →
  well_shaped dq → grouped (queues dq) →
  well_shaped dq' ∧ grouped (queues dq').
Proof.
  intros HD Hc Hsh Hgr. revert Hc. unfold _create_gate, well_shaped in *.
  case_bool_decide as Ht.
  { intros [= <- <-]. simpl. split.
    - apply Forall_app. split; [done|]. constructor; [by left|constructor].
    - apply grouped_snoc. split; [done|]. destruct (last _); tauto. }
  destruct (set_iter (global_targets dq (st !!! gid))) as [|gq others].
  - set (qs := if bool_decide _ then _ else _).
    assert (Forall (λ w : wave, w = [] ∨ length w = ndevices dq) qs ∧ grouped qs
            ∧ ∃ w, last qs = Some w ∧ length w = ndevices dq)
      as (Hqs & Hgqs & w & Hlast & Hw).
    { unfold qs. case_bool_decide as Hl.
      - split; [|split].
        + apply Forall_app. split; [done|]. constructor; [|constructor].
          right. apply length_replicate.
        + apply grouped_snoc. split; [done|].
          destruct (last (queues dq)) as [w0|]; [|done]. left.
          destruct Hl as [? | Hl]; [done|]. by injection Hl.
        + eexists. split; [apply last_snoc|apply length_replicate].
      - split; [done|]. split; [done|].
        destruct (last (queues dq)) as [w|] eqn:El; [|tauto].
        exists w. split; [done|]. rewrite Forall_forall in Hsh.
        destruct (Hsh w) as [->|?]; [|tauto|done].
        by apply last_Some_elem_of in El. }
    rewrite Hlast. intros Hc. apply bind_Ok in Hc as (w' & Hw' & [= <- <-]).
    apply create_standard_length in Hw'. simpl. unfold set_last.
    rewrite (last_split qs w Hlast) in Hqs, Hgqs.
    apply Forall_app in Hqs as [Hfront _]. apply grouped_snoc in Hgqs as [Hgf Hcond].
    split.
    + apply Forall_app. split; [done|]. constructor; [|constructor]. right. congruence.
    + apply grouped_snoc. split; [done|].
      destruct (last (take (length qs - 1) qs)) as [w0|]; [|done].
      destruct Hcond as [? | ->]; [by left|]. simpl in Hw. lia.
  - destruct (negb _); [done|]. case_bool_decide; [done|].
    destruct (target_qubits (st !!! gid) !! 0) as [q0|]; [|done].
    intros Hc. apply bind_Ok in Hc as (lq & _ & [= <- <-]). simpl. split.
    + apply Forall_app. split; [done|]. constructor; [by left|constructor].
    + apply grouped_snoc. split; [done|]. destruct (last _); tauto.
Qed.

(** [create], for at least one logical device: every wave it builds is a
    special step (the empty list) or holds exactly [ndevices] gate lists,
    and no two consecutive waves are both standard, so successive standard
    gates share one wave and a new wave starts only after a special step. *)
Theorem create_waves_grouped dq st queue dq' st' :
  0 < ndevices dq →
  well_shaped dq → grouped (queues dq) →
  create dq st queue = Ok (dq', st') →
  well_shaped dq' ∧ grouped (queues dq') ∧ ndevices dq' = ndevices dq.
Proof.
  unfold create. revert dq st.
  induction queue as [|gid queue IH]; intros dq st HD Hsh Hgr.
  - by intros [= <- <-].
  - cbn [foldM]. intros Hc. apply bind_Ok in Hc as ([dq1 st1] & Hg & Hc).
    destruct (create_gate_shape _ _ _ _ _ HD Hg Hsh Hgr) as [Hsh1 Hgr1].
    apply create_gate_spec in Hg as [(qs & sq & ->) _].
    by apply IH in Hc.
Qed.

End shape.

Lemma create_waves_grouped_witness :
  ∃ dq' st',
    create (order := cpython_small) (with_swaps_list partition_2_0 [(0, 1)])
           [H 1; H 1; new_SWAP 0 1; new_SWAP 0 1] [1; 2; 0; 3] = Ok (dq', st')
    ∧ well_shaped dq' ∧ grouped (queues dq').
Proof.
  assert (∃ r, create (order := cpython_small) (with_swaps_list partition_2_0 [(0, 1)])
                 [H 1; H 1; new_SWAP 0 1; new_SWAP 0 1] [1; 2; 0; 3] = Ok r)
    as [[dq' st'] Hc] by (vm_compute; eauto).
  exists dq', st'. split; [exact Hc|].
  destruct (create_waves_grouped (order := cpython_small)
              (with_swaps_list partition_2_0 [(0, 1)])
              [H 1; H 1; new_SWAP 0 1; new_SWAP 0 1] [1; 2; 0; 3] dq' st')
    as (Hs & Hg & _); [simpl; lia|constructor|exact I|exact Hc|].
  split; [exact Hs|exact Hg].
Defined.

(** *** The reduced copies *)

Lemma Forall2_impl_elem {A B} (P Q : A → B → Prop) (l : list A) (k : list B) :
  Forall2 P l k → (∀ x y, x ∈ l → P x y → Q x y) → Forall2 Q l k.
Proof.
  induction 1 as [|x y l k Hxy _ IH]; intros Himpl; constructor.
  - apply Himpl; [by left|done].
  - apply IH. intros x' y' Hx'. apply Himpl. by right.
Qed.

(** [_create_reduced_gate] on a partition built by [__init__] whose global
    qubits are qubits of the circuit, for a gate with local targets: the
    copy keeps the class and points back to the gate; every target and every
    local control [q] is replaced by the position of [q] in [local_qubits],
    global controls are dropped; so all ids of the copy are below
    [nqubits - |G|] and distinct ids stay distinct. *)
Theorem reduced_gate_local N D k nl devs G dq gid g calc :
  __init__ N D k nl devs G = Ok dq →
  (∀ q, q ∈ G → q < N) →
  Forall (λ q, q < N ∧ q ∉ G) (target_qubits g) →
  Forall (λ q, q < N) (control_qubits g) →
  _create_reduced_gate dq gid g = Ok calc →
  gclass calc = gclass g ∧ original_gate calc = Some gid
  ∧ Forall2 (λ q r, local_qubits dq !! r = Some q)
            (target_qubits g) (target_qubits calc)
  ∧ Forall2 (λ q r, local_qubits dq !! r = Some q)
            (filter (λ q, q ∉ G) (control_qubits g)) (control_qubits calc)
  ∧ Forall (λ r, r < N - size G) (target_qubits calc ++ control_qubits calc)
  ∧ (NoDup (target_qubits g) → NoDup (target_qubits calc)).
Proof.
  intros Hi HG Ht Hc Hr.
  pose proof (init_inv _ _ _ _ _ _ _ Hi) as (_&_&_&_&_&_&_&HGs&Hgl&Hll&_).
  destruct (init_lists _ _ _ _ _ _ _ Hi) as (_ & Hls & _ & _ & _ & Hp).
  destruct (Hp HG) as [_ Hlen].
  unfold _create_reduced_gate in Hr. rewrite HGs, Hgl in Hr.
  apply bind_Ok in Hr as (ts & Hts & Hr). apply bind_Ok in Hr as (cs & Hcs & [= <-]).
  simpl. apply mapM_Ok_inv in Hts, Hcs.
  assert (∀ q r, q < N → q ∉ G →
                 reduced_id (merge_sort (≤) (elements G)) q = Ok r →
                 local_qubits dq !! r = Some q) as Hpos.
  { intros q r Hq Hn Hrq. apply reduced_id_local in Hrq as ->; [|done].
    rewrite Hll. by apply filter_seq_lookup. }
  assert (Forall2 (λ q r, local_qubits dq !! r = Some q) (target_qubits g) ts) as H1.
  { eapply Forall2_impl_elem; [exact Hts|]. simpl.
    intros q r Hq Hqr. rewrite Forall_forall in Ht. destruct (Ht q Hq). by apply Hpos. }
  assert (Forall2 (λ q r, local_qubits dq !! r = Some q)
                  (filter (λ q, q ∉ G) (control_qubits g)) cs) as H2.
  { eapply Forall2_impl_elem; [exact Hcs|]. simpl.
    intros q r [Hn Hq]%list_elem_of_filter Hqr.
    rewrite Forall_forall in Hc. apply Hpos; [by apply Hc|done|done]. }
  split; [done|]. split; [done|]. split; [done|]. split; [done|]. split.
  - rewrite <- Hlen. apply Forall_app. split.
    + apply Forall_forall. intros r Hr.
      apply list_elem_of_lookup in Hr as [i Hi'].
      destruct (Forall2_lookup_r _ _ _ _ _ H1 Hi') as (q & _ & Hq).
      by eapply lookup_lt_Some.
    + apply Forall_forall. intros r Hr.
      apply list_elem_of_lookup in Hr as [i Hi'].
      destruct (Forall2_lookup_r _ _ _ _ _ H2 Hi') as (q & _ & Hq).
      by eapply lookup_lt_Some.
  - intros Hnd. apply NoDup_alt. intros i j r Hi' Hj'.
    destruct (Forall2_lookup_r _ _ _ _ _ H1 Hi') as (q & Hq & Hqr).
    destruct (Forall2_lookup_r _ _ _ _ _ H1 Hj') as (q' & Hq' & Hqr').
    rewrite Hqr in Hqr'. injection Hqr' as <-.
    by eapply NoDup_lookup.
Qed.

(** The gate [CNOT 0 2] on four qubits with the global qubits 0 and 1: the
    target 2 becomes local qubit 0 and the global control is dropped. *)
Lemma reduced_gate_local_witness :
  __init__ 4 4 2 2 (one_gpu 4) {[0; 1]} = Ok partition_4_01
  ∧ _create_reduced_gate partition_4_01 7 (CNOT 0 2)
    = Ok (Gate (Unitary "CNOT") [0] [] None None (Some 7))
  ∧ Forall (λ r, r < 4 - size ({[0; 1]} : gset nat)) ([0] ++ []).
Proof.
  split; [exact init_partition_4_01|].
  assert (_create_reduced_gate partition_4_01 7 (CNOT 0 2)
          = Ok (Gate (Unitary "CNOT") [0] [] None None (Some 7))) as Hc
    by (vm_compute; reflexivity).
  split; [exact Hc|].
  refine (proj1 (proj2 (proj2 (proj2 (proj2
            (reduced_gate_local 4 4 2 2 (one_gpu 4) {[0; 1]} partition_4_01 7
               (CNOT 0 2) _ init_partition_4_01 _ _ _ Hc)))))).
  - intros q Hq. apply elem_of_union in Hq as [Hq|Hq];
      apply elem_of_singleton in Hq; subst; lia.
  - repeat constructor. intros Hq. apply elem_of_union in Hq as [Hq|Hq];
      apply elem_of_singleton in Hq; discriminate.
  - repeat constructor.
Defined.

Lemma elem_of_insert_inv {A} (l : list A) i (x y : A) :
  x ∈ <[i := y]> l → x = y ∨ x ∈ l.
Proof.
  intros [j Hj]%list_elem_of_lookup. destruct (decide (i = j)) as [->|Hne].
  - assert (j < length l) as Hlt.
    { apply lookup_lt_Some in Hj. by rewrite length_insert in Hj. }
    rewrite list_lookup_insert_eq in Hj by done. left. by injection Hj.
  - rewrite list_lookup_insert_ne in Hj by done. right.
    by eapply list_elem_of_lookup_2.
Qed.

Section copies.
Context {order : SetOrder} {sorter : ArgSort}.

Lemma append_calc_gate_elem dq g calc (w : wave) i w' (P : gate → Prop) :
  _append_calc_gate dq g calc w i = Ok w' →
  P calc → Forall (Forall P) w → Forall (Forall P) w'.
Proof.
  unfold _append_calc_gate. intros Ha Hcalc Hw.
  apply bind_Ok in Ha as (flag & _ & Ha). destruct flag; [|by injection Ha as <-].
  destruct (w !! i) as [l|] eqn:El; [|done]. injection Ha as <-.
  rewrite Forall_forall in Hw. apply Forall_forall. intros l' Hl'.
  apply elem_of_insert_inv in Hl' as [-> | Hl']; [|by apply Hw].
  apply Forall_app. split; [|by constructor].
  apply Hw. by eapply list_elem_of_lookup_2.
Qed.

Lemma create_standard_elem dq gid g (w w' : wave) (P : gate → Prop) :
  _create_standard dq gid g w = Ok w' →
  (∀ calc0, _create_reduced_gate dq gid g = Ok calc0 →
            P (set_nqubits calc0 (nlocal dq))) →
  Forall (Forall P) w → Forall (Forall P) w'.
Proof.
  unfold _create_standard. intros Hc HP Hw. revert Hc.
  apply (foldM_invariant (λ w0 : wave, Forall (Forall P) w0)); [|done].
  intros w0 [device ids] w1 Hw0 Hb.
  apply bind_Ok in Hb as (calc & Hcalc & Hb). revert Hb.
  apply (foldM_invariant (λ w2 : wave, Forall (Forall P) w2)); [|done].
  intros w2 i w3 Hw2 Ha. eapply append_calc_gate_elem; [exact Ha|by apply HP|done].
Qed.

Lemma create_gate_elem dq st gid dq' st' (P : gate → Prop) :
  _create_gate dq st gid = Ok (dq', st') →
  (target_qubits (st !!! gid) ≠ [] →
   ∀ calc0, _create_reduced_gate dq gid (st !!! gid) = Ok calc0 →
            P (set_nqubits calc0 (nlocal dq))) →
  Forall (Forall (Forall P)) (queues dq) →
  Forall (Forall (Forall P)) (queues dq')
  ∧ ∀ j, target_qubits (st !!! j) ≠ [] → st' !!! j = st !!! j.
Proof.
  unfold _create_gate. intros Hc HP Hall. revert Hc. case_bool_decide as Ht.
  { intros [= <- <-]. simpl. split.
    - apply Forall_app. split; [done|]. by repeat constructor.
    - intros j Hj. rewrite store_insert_total. case_bool_decide as Hjg; [|done].
      destruct Hjg as [-> _]. done. }
  destruct (set_iter (global_targets dq (st !!! gid))) as [|gq others].
  - set (qs := if bool_decide _ then _ else _).
    assert (Forall (Forall (Forall P)) qs) as Hqs.
    { unfold qs. case_bool_decide; [|done]. apply Forall_app. split; [done|].
      constructor; [|constructor]. apply Forall_forall.
      intros l [-> _]%elem_of_replicate. constructor. }
    destruct (last qs) as [w|] eqn:Hlast; [|done]. intros Hc.
    apply bind_Ok in Hc as (w' & Hw' & [= <- <-]). simpl. split; [|done].
    unfold set_last. rewrite Forall_forall in Hqs. apply Forall_app. split.
    + apply Forall_forall. intros x Hx%elem_of_take_in. by apply Hqs.
    + constructor; [|constructor].
      eapply create_standard_elem; [exact Hw'|by apply HP|].
      apply Hqs. by apply last_Some_elem_of.
  - destruct (negb _); [done|]. case_bool_decide; [done|].
    destruct (target_qubits (st !!! gid) !! 0) as [q0|]; [|done].
    intros Hc. apply bind_Ok in Hc as (lq & _ & [= <- <-]). simpl. split; [|done].
    apply Forall_app. split; [done|]. by repeat constructor.
Qed.

(** [create] on a partition without waves: every gate that ends in the list
    of some piece is the reduced copy, made by [_create_reduced_gate], of a
    gate of the queue that has targets, with its [nqubits] set to [nlocal]. *)
Theorem create_places_reduced_copies dq st queue dq' st' :
  queues dq = [] →
  create dq st queue = Ok (dq', st') →
  ∀ w l calc, w ∈ queues dq' → l ∈ w → calc ∈ l →
    ∃ gid calc0,
      gid ∈ queue ∧ target_qubits (st !!! gid) ≠ []
      ∧ _create_reduced_gate dq gid (st !!! gid) = Ok calc0
      ∧ calc = set_nqubits calc0 (nlocal dq).
Proof.
  intros Hq0 Hc.
  set (P := λ calc, ∃ gid calc0,
                gid ∈ queue ∧ target_qubits (st !!! gid) ≠ []
                ∧ _create_reduced_gate dq gid (st !!! gid) = Ok calc0
                ∧ calc = set_nqubits calc0 (nlocal dq)).
  assert (Forall (Forall (Forall P)) (queues dq')) as Hall.
  { assert (∀ rest dq1 st1,
              (∀ gid, gid ∈ rest → gid ∈ queue) →
              (∃ qs sq, dq1 = with_queues dq qs sq) →
              (∀ j, target_qubits (st !!! j) ≠ [] → st1 !!! j = st !!! j) →
              (∀ j, target_qubits (st1 !!! j) = target_qubits (st !!! j)) →
              Forall (Forall (Forall P)) (queues dq1) →
              foldM (λ '(dq, st) gid, _create_gate dq st gid) rest (dq1, st1)
              = Ok (dq', st') →
              Forall (Forall (Forall P)) (queues dq')) as Hloop.
    { induction rest as [|gid rest IH]; intros dq1 st1 Hin Hdq1 Hst1 Ht1 Hall1.
      - by intros [= <- <-].
      - cbn [foldM]. intros Hf. apply bind_Ok in Hf as ([dq2 st2] & Hg & Hf).
        destruct Hdq1 as (qs & sq & ->).
        pose proof (create_gate_spec _ _ _ _ _ Hg) as [(qs2 & sq2 & ->) [_ Hsame]].
        destruct (create_gate_elem _ _ _ _ _ P Hg) as [Hall2 Hst2]; [|done|].
        { intros Hne calc0 Hcalc. rewrite Ht1 in Hne. rewrite Hst1 in Hcalc by done.
          exists gid, calc0. split; [apply Hin; by left|]. done. }
        apply (IH (with_queues (with_queues dq qs sq) qs2 sq2) st2);
          [intros g Hg'; apply Hin; by right|by exists qs2, sq2| | |done|done].
        + intros j Hj. rewrite Hst2; [by apply Hst1|]. by rewrite Ht1.
        + intros j. destruct (Hsame j) as (_ & -> & _). apply Ht1. }
    apply (Hloop queue dq st); [done| |done|done| |exact Hc].
    - exists (queues dq), (special_queue dq). by destruct dq.
    - rewrite Hq0. constructor. }
  intros w l calc Hw Hl Hcalc. rewrite !Forall_forall in Hall.
  specialize (Hall w Hw). rewrite Forall_forall in Hall. specialize (Hall l Hl).
  rewrite Forall_forall in Hall. by apply Hall.
Qed.

End copies.

Lemma create_places_reduced_copies_witness :
  ∃ gid calc0,
    gid ∈ [0] ∧ target_qubits ([CNOT 0 1] !!! gid) ≠ []
    ∧ _create_reduced_gate partition_2_0 gid ([CNOT 0 1] !!! gid) = Ok calc0
    ∧ reduced_CNOT = set_nqubits calc0 (nlocal partition_2_0).
Proof.
  assert (create (order := cpython_small) partition_2_0 [CNOT 0 1] [0]
          = Ok (with_queues partition_2_0 [[[]; [reduced_CNOT]]] [], [CNOT 0 1]))
    as Hc by (vm_compute; reflexivity).
  apply (create_places_reduced_copies (order := cpython_small) partition_2_0
           [CNOT 0 1] [0] _ _ eq_refl Hc [[]; [reduced_CNOT]] [reduced_CNOT]).
  - by left.
  - right. by left.
  - by left.
Defined.

(** ** The pairing of the pieces in [_swap] *)

Lemma lower_index_eq m j :
  lower_index m j = 2 * 2 ^ m * (j `div` 2 ^ m) + j `mod` 2 ^ m.
Proof.
  unfold lower_index.
  rewrite Nat.shiftl_1_l, Nat.shiftr_div_pow2, Nat.shiftl_mul_pow2.
  replace (2 ^ m - 1) with (Nat.ones m) by (rewrite Nat.ones_equiv; lia).
  rewrite Nat.land_ones, Nat.pow_add_r. simpl (2 ^ 1). lia.
Qed.

Lemma pow2_pos m : 0 < 2 ^ m.
Proof. apply Nat.neq_0_lt_0, Nat.pow_nonzero. lia. Qed.

Lemma lower_index_div_mod m j :
  lower_index m j `div` (2 * 2 ^ m) = j `div` 2 ^ m
  ∧ lower_index m j `mod` (2 * 2 ^ m) = j `mod` 2 ^ m.
Proof.
  pose proof (pow2_pos m) as Hp.
  pose proof (Nat.mod_upper_bound j (2 ^ m) ltac:(lia)) as Hr.
  rewrite lower_index_eq. split.
  - symmetry. apply (Nat.div_unique _ _ _ (j `mod` 2 ^ m)); lia.
  - symmetry. apply (Nat.mod_unique _ _ (j `div` 2 ^ m)); lia.
Qed.

Lemma upper_index_div_mod m j :
  (lower_index m j + 2 ^ m) `div` (2 * 2 ^ m) = j `div` 2 ^ m
  ∧ (lower_index m j + 2 ^ m) `mod` (2 * 2 ^ m) = j `mod` 2 ^ m + 2 ^ m.
Proof.
  pose proof (pow2_pos m) as Hp.
  pose proof (Nat.mod_upper_bound j (2 ^ m) ltac:(lia)) as Hr.
  rewrite lower_index_eq. split.
  - symmetry. apply (Nat.div_unique _ _ _ (j `mod` 2 ^ m + 2 ^ m)); lia.
  - symmetry. apply (Nat.mod_unique _ _ (j `div` 2 ^ m)); lia.
Qed.

Lemma lower_index_inj m j j' : lower_index m j = lower_index m j' → j = j'.
Proof.
  intros Heq. destruct (lower_index_div_mod m j) as [Hd Hm].
  destruct (lower_index_div_mod m j') as [Hd' Hm'].
  rewrite Heq in Hd, Hm. pose proof (pow2_pos m).
  rewrite (Nat.div_mod_eq j (2 ^ m)), (Nat.div_mod_eq j' (2 ^ m)). congruence.
Qed.

Lemma lower_upper_ne m j j' : lower_index m j ≠ lower_index m j' + 2 ^ m.
Proof.
  intros Heq. destruct (lower_index_div_mod m j) as [_ Hm].
  destruct (upper_index_div_mod m j') as [_ Hm'].
  rewrite Heq in Hm. pose proof (pow2_pos m).
  pose proof (Nat.mod_upper_bound j (2 ^ m) ltac:(lia)). lia.
Qed.

(** Every piece index below [2 ^ k] is the first or the second index of one
    pair. *)
Lemma index_covered k m i :
  m < k → i < 2 ^ k →
  ∃ j, j < 2 ^ k `div` 2 ∧ (i = lower_index m j ∨ i = lower_index m j + 2 ^ m).
Proof.
  intros Hm Hi. pose proof (pow2_pos m) as Hp.
  set (t := 2 ^ m) in *.
  assert (2 ^ k = 2 * t * 2 ^ (k - m - 1)) as Hk.
  { unfold t. replace k with (m + 1 + (k - m - 1)) at 1 by lia.
    rewrite !Nat.pow_add_r. simpl (2 ^ 1). lia. }
  assert (2 ^ k `div` 2 = t * 2 ^ (k - m - 1)) as Hh.
  { rewrite Hk. replace (2 * t * 2 ^ (k - m - 1)) with (t * 2 ^ (k - m - 1) * 2) by lia.
    apply Nat.div_mul. lia. }
  pose proof (Nat.div_mod_eq i (2 * t)) as Hdm.
  pose proof (Nat.mod_upper_bound i (2 * t) ltac:(lia)) as Hr.
  assert (i `div` (2 * t) < 2 ^ (k - m - 1)) as Hq.
  { apply Nat.Div0.div_lt_upper_bound. lia. }
  destruct (decide (i `mod` (2 * t) < t)) as [Hlo|Hhi].
  - exists (t * (i `div` (2 * t)) + i `mod` (2 * t)). split; [rewrite Hh; nia|].
    left. rewrite lower_index_eq. fold t.
    replace ((t * (i `div` (2 * t)) + i `mod` (2 * t)) `div` t) with (i `div` (2 * t))
      by (apply (Nat.div_unique _ _ _ (i `mod` (2 * t))); lia).
    replace ((t * (i `div` (2 * t)) + i `mod` (2 * t)) `mod` t) with (i `mod` (2 * t))
      by (apply (Nat.mod_unique _ _ (i `div` (2 * t))); lia).
    lia.
  - exists (t * (i `div` (2 * t)) + (i `mod` (2 * t) - t)). split; [rewrite Hh; nia|].
    right. rewrite lower_index_eq. fold t.
    replace ((t * (i `div` (2 * t)) + (i `mod` (2 * t) - t)) `div` t)
      with (i `div` (2 * t))
      by (apply (Nat.div_unique _ _ _ (i `mod` (2 * t) - t)); lia).
    replace ((t * (i `div` (2 * t)) + (i `mod` (2 * t) - t)) `mod` t)
      with (i `mod` (2 * t) - t)
      by (apply (Nat.mod_unique _ _ (i `div` (2 * t))); lia).
    lia.
Qed.

Section pairing.
Variable piece : Type.
Variable swap_pieces : piece → piece → nat → Z → piece * piece.

Lemma swap_pair_step c dq m l pieces j pieces1 :
  TDC._swap_pair piece swap_pieces c dq m l pieces j = Ok pieces1 →
  ∃ le a b,
    local_qubits_reduced dq !! l = Some le
    ∧ pieces !! lower_index m j = Some a
    ∧ pieces !! (lower_index m j + 2 ^ m) = Some b
    ∧ pieces1 = <[lower_index m j + 2 ^ m := (swap_pieces a b le (TDC.nlocal c)).2]>
                  (<[lower_index m j := (swap_pieces a b le (TDC.nlocal c)).1]> pieces).
Proof.
  unfold TDC._swap_pair. fold (lower_index m j). rewrite Nat.shiftl_1_l.
  destruct (local_qubits_reduced dq !! l) as [le|]; [|done].
  destruct (pieces !! lower_index m j) as [a|]; [|done].
  destruct (pieces !! (lower_index m j + 2 ^ m)) as [b|]; [|done].
  destruct (swap_pieces a b le (TDC.nlocal c)) as [a' b'] eqn:Es.
  intros [= <-]. exists le, a, b. by rewrite Es.
Qed.

(** The loop of [_swap] over pair numbers whose indices are distinct. *)
Lemma swap_fold c dq m l js pieces pieces' le :
  local_qubits_reduced dq !! l = Some le →
  NoDup js →
  foldM (TDC._swap_pair piece swap_pieces c dq m l) js pieces = Ok pieces' →
  length pieces' = length pieces
  ∧ (∀ j a b, j ∈ js →
              pieces !! lower_index m j = Some a →
              pieces !! (lower_index m j + 2 ^ m) = Some b →
              pieces' !! lower_index m j = Some (swap_pieces a b le (TDC.nlocal c)).1
              ∧ pieces' !! (lower_index m j + 2 ^ m)
                = Some (swap_pieces a b le (TDC.nlocal c)).2)
  ∧ (∀ i, (∀ j, j ∈ js → i ≠ lower_index m j ∧ i ≠ lower_index m j + 2 ^ m) →
          pieces' !! i = pieces !! i).
Proof.
  intros Hle. revert pieces. induction js as [|j0 js IH]; intros pieces Hnd Hf.
  - injection Hf as <-. split; [done|]. split; [by intros j a b ?%elem_of_nil|done].
  - apply NoDup_cons in Hnd as [Hj0 Hnd]. cbn [foldM] in Hf.
    apply bind_Ok in Hf as (p1 & Hp1 & Hf).
    apply swap_pair_step in Hp1 as (le' & a0 & b0 & Hle' & Ha0 & Hb0 & ->).
    rewrite Hle in Hle'. injection Hle' as <-.
    set (lo := lower_index m j0) in *. set (t := 2 ^ m) in *.
    pose proof (pow2_pos m) as Hp. fold t in Hp.
    apply IH in Hf as (Hlen & Hin & Hout); [|done].
    rewrite !length_insert in Hlen. split; [done|].
    assert (lo < length pieces ∧ lo + t < length pieces) as [Hlo Hhi].
    { split; by eapply lookup_lt_Some. }
    split.
    + intros j a b [->|Hj]%elem_of_cons Ha Hb.
      * fold lo in Ha, Hb |- *. rewrite Ha0 in Ha. rewrite Hb0 in Hb.
        injection Ha as <-. injection Hb as <-.
        assert (∀ j, j ∈ js → lower_index m j ≠ lo) as N1.
        { intros j Hj Heq%lower_index_inj. congruence. }
        assert (∀ j, j ∈ js → lower_index m j + t ≠ lo + t) as N2.
        { intros j Hj Heq. apply (N1 j Hj). lia. }
        assert (∀ j, lower_index m j + t ≠ lo) as N3.
        { intros j Heq. symmetry in Heq. by apply lower_upper_ne in Heq. }
        assert (∀ j, lower_index m j ≠ lo + t) as N4.
        { intros j. apply lower_upper_ne. }
        rewrite (Hout lo), (Hout (lo + t)).
        -- rewrite list_lookup_insert_ne by lia.
           rewrite list_lookup_insert_eq by done.
           rewrite list_lookup_insert_eq by (by rewrite length_insert). done.
        -- intros j Hj. split; intros Heq; symmetry in Heq;
             [by apply N4 in Heq|by apply N2 in Heq].
        -- intros j Hj. split; intros Heq; symmetry in Heq;
             [by apply N1 in Heq|by apply N3 in Heq].
      * assert (j ≠ j0) as Hne by congruence.
        assert (lower_index m j ≠ lo) as H1 by (intros ?%lower_index_inj; done).
        assert (lower_index m j + t ≠ lo + t) as H2.
        { intros Heq. apply H1. lia. }
        assert (lower_index m j ≠ lo + t) as H3 by apply lower_upper_ne.
        assert (lower_index m j + t ≠ lo) as H4.
        { intros Heq. symmetry in Heq. by apply lower_upper_ne in Heq. }
        apply Hin; [done| |].
        -- by rewrite !list_lookup_insert_ne by done.
        -- by rewrite !list_lookup_insert_ne by done.
    + intros i Hi. rewrite Hout.
      * destruct (Hi j0) as [H1 H2]; [by left|].
        by rewrite !list_lookup_insert_ne by done.
      * intros j Hj. apply Hi. by right.
Qed.

Lemma lower_index_bound k m j :
  m < k → j < 2 ^ k `div` 2 → lower_index m j + 2 ^ m < 2 ^ k.
Proof.
  intros Hm Hj. pose proof (swap_pair_index k m j Hm Hj) as Hb.
  unfold lower_index. rewrite Nat.shiftl_1_l in Hb. by rewrite Nat.shiftl_1_l.
Qed.

(** What [_swap] leaves in the pieces of each pair, and outside the pairs. *)
Lemma swap_spec c dq pieces g l mr le c' pieces' :
  TDC.queues c = Some dq →
  global_qubits_reduced dq !! g = Some mr →
  local_qubits_reduced dq !! l = Some le →
  TDC._swap piece swap_pieces c pieces g l = Ok (c', pieces') →
  ∀ j a b, j < TDC.ndevices c `div` 2 →
    pieces !! lower_index (TDC.nglobal c - mr - 1) j = Some a →
    pieces !! (lower_index (TDC.nglobal c - mr - 1) j + 2 ^ (TDC.nglobal c - mr - 1))
    = Some b →
    pieces' !! lower_index (TDC.nglobal c - mr - 1) j
    = Some (swap_pieces a b le (TDC.nlocal c)).1
    ∧ pieces' !! (lower_index (TDC.nglobal c - mr - 1) j
                  + 2 ^ (TDC.nglobal c - mr - 1))
      = Some (swap_pieces a b le (TDC.nlocal c)).2.
Proof.
  intros Hq Hg Hl. unfold TDC._swap. rewrite Hq, Hg.
  intros Hs. apply bind_Ok in Hs as (p1 & Hf & [= <- <-]).
  apply (swap_fold _ _ _ _ _ _ _ le) in Hf as (_ & Hin & _); [|done|apply NoDup_seq].
  intros j a b Hj. apply Hin. apply elem_of_seq. lia.
Qed.

(** With a kernel that undoes itself, so does [_swap]. *)
Lemma swap_twice c dq pieces g l p1 :
  (∀ a b le nl,
     swap_pieces (swap_pieces a b le nl).1 (swap_pieces a b le nl).2 le nl = (a, b)) →
  runnable c dq → g ∈ global_qubits_set dq → l ∉ global_qubits_set dq →
  l < TDC.nqubits c → length pieces = TDC.ndevices c →
  TDC._swap piece swap_pieces c pieces g l = Ok (c, p1) →
  TDC._swap piece swap_pieces c p1 g l = Ok (c, pieces).
Proof.
  intros Hinv (Hq & Hnd & Hg & Hl) Hgin Hlout Hlt Hlen Hs1.
  destruct (Hg g Hgin) as (mr & Hmr & Hlt'). destruct (Hl l Hlt Hlout) as [le Hle].
  pose proof (swap_frame _ _ _ _ _ _ _ _ Hs1) as [_ Hl1].
  destruct (swap_total piece swap_pieces c dq p1 g l mr le) as [p2 Hs2];
    [done|done|done|done|done|congruence|].
  pose proof (swap_frame _ _ _ _ _ _ _ _ Hs2) as [_ Hl2].
  rewrite Hs2. do 2 f_equal. apply list_eq. intros i.
  destruct (decide (i < TDC.ndevices c)) as [Hi|Hi].
  - set (m := TDC.nglobal c - mr - 1).
    destruct (index_covered (TDC.nglobal c) m i) as (j & Hj & Hor);
      [unfold m; lia|by rewrite <-Hnd|].
    rewrite <-Hnd in Hj.
    pose proof (lower_index_bound (TDC.nglobal c) m j ltac:(unfold m; lia)
                  ltac:(by rewrite <-Hnd)) as Hb.
    rewrite <-Hnd, <-Hlen in Hb.
    destruct (lookup_lt_is_Some_2 pieces (lower_index m j) ltac:(lia)) as [a Ha].
    destruct (lookup_lt_is_Some_2 pieces (lower_index m j + 2 ^ m) Hb) as [b Hb'].
    destruct (swap_spec _ _ _ _ _ _ _ _ _ Hq Hmr Hle Hs1 j a b Hj Ha Hb') as [H1 H2].
    destruct (swap_spec _ _ _ _ _ _ _ _ _ Hq Hmr Hle Hs2 j _ _ Hj H1 H2) as [H3 H4].
    fold m in H3, H4. rewrite Hinv in H3, H4. simpl in H3, H4.
    destruct Hor as [-> | ->]; congruence.
  - rewrite !lookup_ge_None_2; [done|lia..].
Qed.

(** X20. [_swap] pairs every piece with the piece whose index differs from
    its own in bit [m] only, [m] being counted from the reduced index of the
    global qubit: each index below [ndevices] is the first or the second
    index of one pair, and the piece it holds afterwards is the matching
    output of [swap_pieces] on the two pieces the pair held before the call. *)
Theorem swap_updates_each_pair_once c dq pieces g l mr le pieces' :
  TDC.queues c = Some dq →
  global_qubits_reduced dq !! g = Some mr →
  local_qubits_reduced dq !! l = Some le →
  mr < TDC.nglobal c →
  TDC.ndevices c = 2 ^ TDC.nglobal c →
  length pieces = TDC.ndevices c →
  TDC._swap piece swap_pieces c pieces g l = Ok (c, pieces') →
  ∀ i, i < TDC.ndevices c →
    ∃ j a b,
      j < TDC.ndevices c `div` 2
      ∧ lower_index (TDC.nglobal c - mr - 1) j `mod` (2 * 2 ^ (TDC.nglobal c - mr - 1))
        < 2 ^ (TDC.nglobal c - mr - 1)
      ∧ pieces !! lower_index (TDC.nglobal c - mr - 1) j = Some a
      ∧ pieces !! (lower_index (TDC.nglobal c - mr - 1) j
                   + 2 ^ (TDC.nglobal c - mr - 1)) = Some b
      ∧ ((i = lower_index (TDC.nglobal c - mr - 1) j
          ∧ pieces' !! i = Some (swap_pieces a b le (TDC.nlocal c)).1)
         ∨ (i = lower_index (TDC.nglobal c - mr - 1) j + 2 ^ (TDC.nglobal c - mr - 1)
            ∧ pieces' !! i = Some (swap_pieces a b le (TDC.nlocal c)).2)).
Proof.
  intros Hq Hmr Hle Hlt Hnd Hlen Hs i Hi.
  set (m := TDC.nglobal c - mr - 1).
  destruct (index_covered (TDC.nglobal c) m i) as (j & Hj & Hor);
    [unfold m; lia|by rewrite <-Hnd|].
  pose proof (lower_index_bound (TDC.nglobal c) m j ltac:(unfold m; lia) Hj) as Hb.
  rewrite <-Hnd in Hj, Hb. rewrite <-Hlen in Hb.
  destruct (lookup_lt_is_Some_2 pieces (lower_index m j) ltac:(lia)) as [a Ha].
  destruct (lookup_lt_is_Some_2 pieces (lower_index m j + 2 ^ m) Hb) as [b Hb'].
  destruct (swap_spec _ _ _ _ _ _ _ _ _ Hq Hmr Hle Hs j a b Hj Ha Hb') as [H1 H2].
  fold m in H1, H2. exists j, a, b. split; [done|]. split.
  { destruct (lower_index_div_mod m j) as [_ ->]. apply Nat.mod_upper_bound.
    pose proof (pow2_pos m). lia. }
  split; [done|]. split; [done|].
  destruct Hor as [-> | ->]; [by left|by right].
Qed.

Section round_trip.
Variable full_state_call : store → nat → list piece → result (list piece).
Hypothesis swap_pieces_involutive : ∀ a b le nl,
  swap_pieces (swap_pieces a b le nl).1 (swap_pieces a b le nl).2 le nl = (a, b).

(** Undoing the recorded swaps from the last to the first and redoing them
    from the first to the last gives back the pieces. *)
Lemma revert_swaps_round_trip c dq sr pieces :
  runnable c dq → Forall (pair_ok dq (TDC.nqubits c)) sr →
  length pieces = TDC.ndevices c →
  ∃ p1, TDC._revert_swaps piece swap_pieces c pieces (reverse sr) = Ok (c, p1)
        ∧ length p1 = length pieces
        ∧ TDC._revert_swaps piece swap_pieces c p1 sr = Ok (c, pieces).
Proof.
  intros Hrun Hall Hlen. induction Hall as [|[q1 q2] sr Hp Hall IH].
  - by exists pieces.
  - destruct IH as (p0 & Hr0 & Hl0 & Hback).
    rewrite reverse_cons. unfold TDC._revert_swaps in *. rewrite foldM_app, Hr0.
    rewrite bind_Ok_l. cbn [foldM]. pose proof Hrun as (Hq & _). rewrite Hq.
    destruct Hp as (H1 & H2 & Hg). simpl in H1, H2, Hg.
    assert (∃ g l, (if bool_decide (q1 ∉ global_qubits_set dq)
                    then TDC._swap piece swap_pieces c p0 q2 q1
                    else TDC._swap piece swap_pieces c p0 q1 q2)
                   = TDC._swap piece swap_pieces c p0 g l
                   ∧ (∀ p, (if bool_decide (q1 ∉ global_qubits_set dq)
                            then TDC._swap piece swap_pieces c p q2 q1
                            else TDC._swap piece swap_pieces c p q1 q2)
                           = TDC._swap piece swap_pieces c p g l)
                   ∧ g ∈ global_qubits_set dq ∧ (l ∉ global_qubits_set dq)
                   ∧ l < TDC.nqubits c) as (g & l & -> & Hsame & Hgin & Hlout & Hlt).
    { case_bool_decide as Hq1.
      - exists q2, q1. repeat split; [|done..].
        destruct (decide (q2 ∈ global_qubits_set dq)); tauto.
      - exists q1, q2. repeat split; [| |done].
        + destruct (decide (q1 ∈ global_qubits_set dq)); tauto.
        + destruct (decide (q1 ∈ global_qubits_set dq)); tauto. }
    destruct (swap_Ok piece swap_pieces c dq p0 g l) as (p1 & Hs & Hl1);
      [done|done|done|done|congruence|].
    exists p1. rewrite Hs. split; [done|]. split; [congruence|].
    rewrite Hsame.
    rewrite (swap_twice c dq p0 g l p1 swap_pieces_involutive Hrun Hgin Hlout Hlt
               ltac:(congruence) Hs).
    rewrite bind_Ok_l. exact Hback.
Qed.

(** X21. A special gate that only reads the state (a callback) leaves the
    pieces as they were: the recorded swaps are undone in reverse order
    before it and redone in order after it, and with a kernel that undoes
    itself the two passes cancel. *)
Theorem callback_restores_pieces c dq st pieces gid sr :
  runnable c dq →
  swap_reset (st !!! gid) = Some sr →
  Forall (pair_ok dq (TDC.nqubits c)) sr →
  length pieces = TDC.ndevices c →
  (∀ p, full_state_call st gid p = Ok p) →
  TDC._special_gate_execute piece swap_pieces full_state_call c st pieces
                            (SpecialGate gid)
  = Ok (c, pieces).
Proof.
  intros Hrun Hsr Hall Hlen Hcall. simpl. rewrite Hsr.
  destruct (revert_swaps_round_trip c dq sr pieces Hrun Hall Hlen)
    as (p1 & -> & _ & Hback).
  rewrite bind_Ok_l, Hcall, bind_Ok_l. exact Hback.
Qed.

End round_trip.
End pairing.

(** Two pieces paired along bit 0: piece 1 is the second of the pair 0 and
    receives what the kernel returns second, here the former piece 0. *)
Lemma swap_updates_each_pair_once_witness :
  ∃ j a b,
    j < TDC.ndevices planned_circuit_2 `div` 2
    ∧ lower_index 0 j `mod` 2 < 1
    ∧ [10; 20] !! lower_index 0 j = Some a
    ∧ [10; 20] !! (lower_index 0 j + 1) = Some b
    ∧ ((1 = lower_index 0 j ∧ [20; 10] !! 1 = Some (exchange a b 0 1).1)
       ∨ (1 = lower_index 0 j + 1 ∧ [20; 10] !! 1 = Some (exchange a b 0 1).2)).
Proof.
  apply (swap_updates_each_pair_once nat exchange planned_circuit_2 partition_2_0
           [10; 20] 0 1 0 0 [20; 10]); try reflexivity; simpl; lia.
Defined.

(** A callback that has recorded the swap of the qubits 0 and 1. *)
Lemma callback_restores_pieces_witness :
  TDC._special_gate_execute nat exchange no_call planned_circuit_2
    [Gate CallbackGate [] [] (Some [(0, 1)]) None None] [10; 20] (SpecialGate 0)
  = Ok (planned_circuit_2, [10; 20]).
Proof.
  apply (callback_restores_pieces nat exchange no_call (λ a b le nl, eq_refl)
           planned_circuit_2 partition_2_0 _ [10; 20] 0 [(0, 1)]).
  - split; [reflexivity|]. split; [reflexivity|]. split.
    + intros g Hg. simpl in Hg. apply elem_of_singleton in Hg as ->. exists 0. split; [reflexivity|simpl; lia].
    + intros l Hl Hn. simpl in Hl. assert (l = 1) as ->.
      { destruct l as [|[|l]]; [|done|lia]. exfalso. apply Hn. simpl.
        by apply elem_of_singleton. }
      by exists 0.
  - reflexivity.
  - constructor; [|constructor]. split; [simpl; lia|]. split; [simpl; lia|].
    simpl. split.
    + intros _ ?%elem_of_singleton. lia.
    + intros _. by apply elem_of_singleton.
  - reflexivity.
  - reflexivity.
Defined.

(** ** The loop after the waves *)

Section drain.
Variable piece : Type.
Variable swap_pieces : piece → piece → nat → Z → piece * piece.
Variable full_state_call : store → nat → list piece → result (list piece).

(** X22. The loop that follows the waves in [_execute] runs only every second
    entry that the iterator has left: the [for] consumes one entry and the
    body runs the next one. With an odd number of entries left the last
    [next] raises [StopIteration], after the entries before it were run. *)
Theorem drain_runs_every_second c st special_gates pieces :
  TDC._drain piece swap_pieces full_state_call c st special_gates pieces
  = r ← foldM (λ '(c, pieces) e,
                 TDC._special_gate_execute piece swap_pieces full_state_call
                                           c st pieces e)
              (every_second special_gates) (c, pieces);
    if Nat.even (length special_gates)
    then Ok (length special_gates `div` 2, r)
    else Err StopIteration.
Proof.
  cut (∀ es,
         (∀ c pieces,
            TDC._drain piece swap_pieces full_state_call c st es pieces
            = r ← foldM (λ '(c, pieces) e,
                           TDC._special_gate_execute piece swap_pieces full_state_call
                                                     c st pieces e)
                        (every_second es) (c, pieces);
              if Nat.even (length es) then Ok (length es `div` 2, r)
              else Err StopIteration)
         ∧ (∀ x c pieces,
              TDC._drain piece swap_pieces full_state_call c st (x :: es) pieces
              = r ← foldM (λ '(c, pieces) e,
                             TDC._special_gate_execute piece swap_pieces
                                                       full_state_call c st pieces e)
                          (every_second (x :: es)) (c, pieces);
                if Nat.even (length (x :: es)) then Ok (length (x :: es) `div` 2, r)
                else Err StopIteration)).
  { intros Hc. apply Hc. }
  clear. induction es as [|e es [IH1 IH2]].
  - by split.
  - split; [apply IH2|]. intros x c pieces.
    cbn [TDC._drain every_second foldM].
    destruct (TDC._special_gate_execute piece swap_pieces full_state_call c st pieces e)
      as [[c1 p1]|err]; [|done].
    rewrite !bind_Ok_l, IH1.
    destruct (foldM _ (every_second es) (c1, p1)) as [r|err]; [|done].
    rewrite !bind_Ok_l. change (length (x :: e :: es)) with (2 + length es).
    change (Nat.even (2 + length es)) with (Nat.even (length es)).
    destruct (Nat.even (length es)); [|done].
    rewrite bind_Ok_l. do 2 f_equal.
    replace (2 + length es) with (1 * 2 + length es) by lia.
    rewrite Nat.div_add_l by lia. lia.
Qed.

End drain.

(** ** The accelerator jobs *)

Lemma init_partition_two_gpus : __init__ 2 2 1 1 two_gpus {[0]} = Ok partition_two_gpus.
Proof. vm_compute. reflexivity. Qed.

Lemma init_device_to_ids N D k nl devs G dq :
  __init__ N D k nl devs G = Ok dq → device_to_ids dq = _ids devs 0.
Proof.
  unfold __init__. intros Hi.
  apply bind_Ok in Hi as (gr & _ & Hi).
  apply bind_Ok in Hi as (lr & _ & Hi).
  by apply bind_Ok in Hi as (i2d & _ & [= <-]).
Qed.

Section jobs.
Variable piece : Type.
Variable call_gate : gate → piece → result piece.

(** The jobs one after the other are one loop over all their piece ids. *)
Lemma joblib_jobs_flat jobs queues pieces :
  TDC._joblib_jobs piece call_gate jobs queues pieces
  = foldM (TDC._device_step piece call_gate queues) (concat (jobs.*2)) pieces.
Proof.
  revert pieces. induction jobs as [|[d ids] jobs IH]; intros pieces; [done|].
  rewrite fmap_cons. cbn [concat snd TDC._joblib_jobs foldM].
  rewrite foldM_app. unfold TDC._device_job.
  destruct (foldM _ ids pieces) as [p1|e]; [|done]. rewrite !bind_Ok_l. apply IH.
Qed.

Lemma device_step_Ok queues pieces i p1 :
  TDC._device_step piece call_gate queues pieces i = Ok p1 →
  ∃ p gs p', pieces !! i = Some p ∧ queues !! i = Some gs
             ∧ TDC._device_execute piece call_gate p gs = Ok p'
             ∧ p1 = <[i := p']> pieces.
Proof.
  unfold TDC._device_step. destruct (pieces !! i) as [p|]; [|done].
  destruct (queues !! i) as [gs|]; [|done].
  intros (p' & Hp' & [= <-])%bind_Ok. by exists p, gs, p'.
Qed.

Lemma device_steps_spec queues ids pieces pieces' :
  NoDup ids →
  foldM (TDC._device_step piece call_gate queues) ids pieces = Ok pieces' →
  length pieces' = length pieces
  ∧ (∀ i, i ∈ ids →
          ∃ p gs p', pieces !! i = Some p ∧ queues !! i = Some gs
                     ∧ TDC._device_execute piece call_gate p gs = Ok p'
                     ∧ pieces' !! i = Some p')
  ∧ (∀ i, i ∉ ids → pieces' !! i = pieces !! i).
Proof.
  revert pieces. induction ids as [|i ids IH]; intros pieces Hnd Hf.
  - injection Hf as <-. split; [done|]. split; [by intros i ?%elem_of_nil|done].
  - apply NoDup_cons in Hnd as [Hi Hnd]. cbn [foldM] in Hf.
    apply bind_Ok in Hf as (p1 & Hs & Hf).
    apply device_step_Ok in Hs as (p & gs & p' & Hp & Hgs & He & ->).
    apply IH in Hf as (Hlen & Hin & Hout); [|done].
    rewrite length_insert in Hlen. split; [done|]. split.
    + intros j [-> | Hj]%elem_of_cons.
      * exists p, gs, p'. repeat split; [done..|].
        rewrite Hout by done. apply list_lookup_insert_eq. by eapply lookup_lt_Some.
      * destruct (Hin j Hj) as (q & gs' & q' & Hq & Hgs' & He' & Hq').
        assert (i ≠ j) by congruence.
        rewrite list_lookup_insert_ne in Hq by done. by exists q, gs', q'.
    + intros j Hj. apply not_elem_of_cons in Hj as [Hne Hj].
      rewrite Hout by done. by rewrite list_lookup_insert_ne.
Qed.

Lemma device_steps_total queues ids pieces :
  NoDup ids →
  (∀ i, i ∈ ids →
        ∃ p gs p', pieces !! i = Some p ∧ queues !! i = Some gs
                   ∧ TDC._device_execute piece call_gate p gs = Ok p') →
  ∃ pieces', foldM (TDC._device_step piece call_gate queues) ids pieces = Ok pieces'.
Proof.
  revert pieces. induction ids as [|i ids IH]; intros pieces Hnd Hall; [by eexists|].
  apply NoDup_cons in Hnd as [Hi Hnd]. cbn [foldM].
  destruct (Hall i) as (p & gs & p' & Hp & Hgs & He); [by left|].
  unfold TDC._device_step at 2. rewrite Hp, Hgs, He. rewrite !bind_Ok_l.
  apply IH; [done|]. intros j Hj.
  destruct (Hall j) as (q & gs' & q' & Hq & Hgs' & He'); [by right|].
  exists q, gs', q'. rewrite list_lookup_insert_ne by congruence. done.
Qed.

(** X23. [_joblib_execute]: in whatever order the pool runs the jobs of
    [device_to_ids], when it returns every piece has been replaced by what
    [_device_execute] makes of that piece with the gates of its own entry of
    the wave: each piece is updated once, from its value before the call. *)
Theorem joblib_runs_own_queue N D k nl devs G dq jobs queues pieces pieces' :
  __init__ N D k nl devs G = Ok dq →
  sum_list (devs.*2) = D →
  jobs ≡ₚ device_to_ids dq →
  length pieces = D →
  TDC._joblib_jobs piece call_gate jobs queues pieces = Ok pieces' →
  length pieces' = D
  ∧ ∀ i, i < D →
         ∃ p gs p', pieces !! i = Some p ∧ queues !! i = Some gs
                    ∧ TDC._device_execute piece call_gate p gs = Ok p'
                    ∧ pieces' !! i = Some p'.
Proof.
  intros Hi Hsum Hperm Hlen Hj. rewrite joblib_jobs_flat in Hj.
  assert (concat (jobs.*2) ≡ₚ seq 0 D) as Hids.
  { rewrite Hperm, (init_device_to_ids _ _ _ _ _ _ _ Hi), ids_concat. by rewrite Hsum. }
  apply device_steps_spec in Hj as (Hl & Hin & _).
  - split; [congruence|]. intros i Hlt. apply Hin. rewrite Hids. apply elem_of_seq. lia.
  - rewrite Hids. apply NoDup_seq.
Qed.

(** X24. The order in which the pool runs the jobs does not matter: two
    orders of the jobs of [device_to_ids] return the same pieces. *)
Theorem joblib_order_independent N D k nl devs G dq jobs jobs' queues pieces pieces' :
  __init__ N D k nl devs G = Ok dq →
  jobs ≡ₚ device_to_ids dq →
  jobs' ≡ₚ device_to_ids dq →
  TDC._joblib_jobs piece call_gate jobs queues pieces = Ok pieces' →
  TDC._joblib_jobs piece call_gate jobs' queues pieces = Ok pieces'.
Proof.
  intros Hi Hperm Hperm' Hj. rewrite joblib_jobs_flat in Hj |- *.
  assert (∀ js, js ≡ₚ device_to_ids dq → NoDup (concat (js.*2))) as Hnd.
  { intros js ->. rewrite (init_device_to_ids _ _ _ _ _ _ _ Hi), ids_concat.
    apply NoDup_seq. }
  assert (concat (jobs'.*2) ≡ₚ concat (jobs.*2)) as Hsame by (by rewrite Hperm, Hperm').
  apply device_steps_spec in Hj as (Hl & Hin & Hout); [|by apply Hnd].
  destruct (device_steps_total queues (concat (jobs'.*2)) pieces) as [p2 Hp2];
    [by apply Hnd| |].
  { intros i Hi'. rewrite Hsame in Hi'. destruct (Hin i Hi') as (p & gs & p' & ?).
    exists p, gs, p'. tauto. }
  rewrite Hp2. f_equal.
  apply device_steps_spec in Hp2 as (Hl2 & Hin2 & Hout2); [|by apply Hnd].
  apply list_eq. intros i. destruct (decide (i ∈ concat (jobs.*2))) as [Hi'|Hi'].
  - destruct (Hin i Hi') as (p & gs & p' & Hp & Hgs & He & ->).
    rewrite <-Hsame in Hi'.
    destruct (Hin2 i Hi') as (q & gs' & q' & Hq & Hgs' & He' & ->). congruence.
  - rewrite Hout by done. rewrite Hout2; [done|]. by rewrite Hsame.
Qed.

End jobs.

(** Two accelerators with one piece each: the job of the second one first. *)
Lemma joblib_runs_own_queue_witness :
  length [11; 20] = 2
  ∧ ∀ i, i < 2 →
         ∃ p gs p', [10; 20] !! i = Some p ∧ [[H 1]; []] !! i = Some gs
                    ∧ TDC._device_execute nat count_call p gs = Ok p'
                    ∧ [11; 20] !! i = Some p'.
Proof.
  apply (joblib_runs_own_queue nat count_call 2 2 1 1 two_gpus {[0]} partition_two_gpus
           [("/GPU:1"%string, [1]); ("/GPU:0"%string, [0])] [[H 1]; []] [10; 20]
           [11; 20] init_partition_two_gpus eq_refl).
  - apply perm_swap.
  - reflexivity.
  - reflexivity.
Defined.

Lemma joblib_order_independent_witness :
  TDC._joblib_jobs nat count_call [("/GPU:0"%string, [0]); ("/GPU:1"%string, [1])]
                   [[H 1]; []] [10; 20]
  = Ok [11; 20].
Proof.
  apply (joblib_order_independent nat count_call 2 2 1 1 two_gpus {[0]}
           partition_two_gpus
           [("/GPU:1"%string, [1]); ("/GPU:0"%string, [0])]
           [("/GPU:0"%string, [0]); ("/GPU:1"%string, [1])] [[H 1]; []] [10; 20]
           [11; 20] init_partition_two_gpus).
  - apply perm_swap.
  - reflexivity.
  - reflexivity.
Defined.

(** ** What a pass may reorder *)

Section reorder.
Context {order : SetOrder} {sorter : ArgSort}.
Variable commutes : gate → gate → bool.

Lemma transform_pass_commutes dq rem st queue counter nr st' queue' counter' nr' :
  NoDup (nr ++ rem) →
  _transform_pass commutes dq rem st queue counter nr = Ok (st', queue', counter', nr') →
  ∃ def, nr' = nr ++ def
         ∧ (∀ x, x ∈ def → x ∈ rem)
         ∧ ∀ b, b ∈ rem → b ∉ def →
                (∀ a, a ∈ nr → commutes (st' !!! a) (st' !!! b) = true)
                ∧ (∀ i j a, i < j → rem !! i = Some a → rem !! j = Some b → a ∈ def →
                            commutes (st' !!! a) (st' !!! b) = true).
Proof.
  revert st queue counter nr.
  induction rem as [|gid rest IH]; intros st queue counter nr Hnd.
  - intros [= <- <- <- <-]. exists []. rewrite app_nil_r.
    split; [done|]. split; [done|]. by intros b ?%elem_of_nil.
  - cbn [_transform_pass]. fold (tag dq st gid). set (st1 := tag dq st gid).
    assert (NoDup (nr ++ rest) ∧ (gid ∉ nr) ∧ (gid ∉ rest)) as (Hnd' & Hgn & Hgr).
    { apply NoDup_app in Hnd as (Hn & Hd & Hr). apply NoDup_cons in Hr as [Hg Hr].
      split; [|split; [|done]].
      - apply NoDup_app. split; [done|]. split; [|done].
        intros x Hx Hx'. apply (Hd x Hx). by right.
      - intros Hg'. apply (Hd gid Hg'). by left. }
    destruct (accepts commutes dq st1 nr (st1 !!! gid)) eqn:Hacc.
    + intros Hp. apply bind_Ok in Hp as (c1 & _ & Hp).
      pose proof (transform_pass_store _ _ _ _ _ _ _ _ _ _ _ Hp) as Hst'.
      apply IH in Hp as (def & -> & Hsub & Hcom); [|done].
      exists def. split; [done|]. split; [intros x Hx; right; by apply Hsub|].
      intros b [-> | Hb]%elem_of_cons Hbd.
      * split.
        -- intros a Ha. unfold accepts in Hacc.
           apply andb_true_iff in Hacc as [_ Hall].
           rewrite forallb_forall in Hall.
           apply list_elem_of_In in Ha as Ha'. specialize (Hall a Ha').
           assert (a ∉ rest) as Har.
           { intros Har. apply NoDup_app in Hnd' as (_ & Hd & _). by apply (Hd a). }
           rewrite Hst', (tag_all_other _ _ _ a Har), (tag_all_other _ _ _ gid Hgr).
           done.
        -- intros i j a Hij _ Hj. destruct j; [lia|]. simpl in Hj.
           apply list_elem_of_lookup_2 in Hj. done.
      * destruct (Hcom b Hb Hbd) as [H1 H2]. split; [done|].
        intros i j a Hij Hi Hj Ha. destruct j as [|j]; [lia|]. simpl in Hj.
        destruct i as [|i].
        -- injection Hi as <-. by apply Hsub in Ha.
        -- simpl in Hi. apply (H2 i j a); [lia|done..].
    + intros Hp. apply IH in Hp as (def & -> & Hsub & Hcom).
      2:{ rewrite <-app_assoc. exact Hnd. }
      exists (gid :: def). split; [by rewrite <-app_assoc|].
      split.
      { intros x [-> | Hx]%elem_of_cons; [by left|right; by apply Hsub]. }
      intros b Hb Hbd. apply not_elem_of_cons in Hbd as [Hne Hbd].
      apply elem_of_cons in Hb as [-> | Hb]; [done|].
      destruct (Hcom b Hb Hbd) as [H1 H2]. split.
      * intros a Ha. apply H1. apply elem_of_app. by left.
      * intros i j a Hij Hi Hj [-> | Ha]%elem_of_cons.
        -- apply H1. apply elem_of_app. right. by left.
        -- destruct j as [|j]; [lia|]. simpl in Hj. destruct i as [|i].
           ++ injection Hi as <-. by apply Hsub in Ha.
           ++ simpl in Hi. apply (H2 i j a); [lia|done..].
Qed.

(** X25. One pass of [_transform] over distinct gate objects moves a gate in
    front of an earlier gate only when the two commute: if [a] stands before
    [b] in the remaining queue, [a] is deferred and [b] is not, then
    [a.commutes(b)] holds. *)
Theorem pass_reorders_commuting_only dq rem st queue counter st' queue' counter' nr' :
  NoDup rem →
  _transform_pass commutes dq rem st queue counter [] = Ok (st', queue', counter', nr') →
  ∀ i j a b, i < j → rem !! i = Some a → rem !! j = Some b →
             a ∈ nr' → b ∉ nr' →
             commutes (st' !!! a) (st' !!! b) = true.
Proof.
  intros Hnd Hp i j a b Hij Hi Hj Ha Hb.
  apply transform_pass_commutes in Hp as (def & -> & _ & Hcom); [|done].
  simpl in Ha, Hb. apply list_elem_of_lookup_2 in Hj as Hbr.
  destruct (Hcom b Hbr Hb) as [_ H2]. by apply (H2 i j a).
Qed.

End reorder.

(** Global qubit 0: the gate on qubit 0 is deferred and the gate on qubit 1
    behind it is accepted, as gates on different targets commute here. *)
Lemma pass_reorders_commuting_only_witness :
  bool_decide (target_qubits ([H 0; H 1] !!! 0) ≠ target_qubits ([H 0; H 1] !!! 1)) = true.
Proof.
  apply (pass_reorders_commuting_only
           (λ g1 g2, bool_decide (target_qubits g1 ≠ target_qubits g2))
           partition_2_0 [0; 1] [H 0; H 1] [] [1; 1]%Z [H 0; H 1] [1] [1; 0]%Z [0]
           ltac:(compute_done) eq_refl 0 1 0 1);
    [lia|reflexivity|reflexivity|by left|].
  intros [?|?%elem_of_nil]%elem_of_cons; done.
Defined.

(** ** A SWAP on two global qubits: the reconfiguration *)



Section global_swap_step.
Context {order : SetOrder} {sorter : ArgSort}.
Variable commutes : gate → gate → bool.


End global_swap_step.



(** ** The gate objects are rewritten in place *)

Lemma remap_gate_relabel (sw : list (nat * nat)) g :
  NoDup (sw.*1 ++ sw.*2) →
  remap_gate (foldl (λ m p, <[p.2 := p.1]> (<[p.1 := p.2]> m)) ∅ sw) g
  = relabel_gate sw g.
Proof.
  intros Hnd. unfold remap_gate, relabel_gate. f_equal.
  - apply list_fmap_ext. intros i x _. by apply remap_swaps.
  - apply list_fmap_ext. intros i x _. by apply remap_swaps.
Qed.

Section in_place.
Context {order : SetOrder} {sorter : ArgSort}.
Variable commutes : gate → gate → bool.

(** C10. A reconfiguration inserts the swaps [sw], each of a global with a
    non-global qubit: their SWAP objects are appended to the store and to the
    new queue and their pairs to [swaps_list]. Every deferred gate object is
    then rewritten in the store under its own id by
    [set_targets_and_controls], its target and its control ids relabelled by
    exactly these swaps, once per occurrence of the object in the deferred
    queue (so exactly once when the objects are distinct); the other objects
    are left alone, and the head of the deferred queue really changes its
    targets. [transform] returns the objects it was given (and the SWAP
    objects it created); on distinct objects each of them carries, in its
    targets and controls, the ids relabelled by the swaps inserted in front
    of it; and the [DeviceQueues] is left as it was except for the pairs
    appended to [swaps_list]. *)
Theorem transform_mutates_in_place :
  (∀ dq st queue counter nr hid dq' st' queue' counter',
     _reconfigure dq st queue counter nr hid = Ok (dq', st', queue', counter') →
     live st nr →
     ∃ sw : list (nat * nat),
       Forall (λ p, p.1 ∈ global_qubits_set dq ∧ (p.2 ∉ global_qubits_set dq)) sw
       ∧ dq' = with_swaps_list dq (swaps_list dq ++ (ordered_pair <$> sw))
       ∧ queue' = queue ++ seq (length st) (length sw)
       ∧ length st' = length st + length sw
       ∧ (∀ i p, sw !! i = Some p → st' !!! (length st + i) = new_SWAP p.1 p.2)
       ∧ Forall (λ gid, st' !!! gid
                        = Nat.iter (length (filter (λ x, x = gid) nr))
                                   (relabel_gate sw) (st !!! gid)) nr
       ∧ (NoDup nr →
          Forall (λ gid, st' !!! gid = relabel_gate sw (st !!! gid)) nr)
       ∧ (∀ gid, gid ∉ nr → gid < length st → st' !!! gid = st !!! gid)
       ∧ (NoDup nr → hid ∈ nr → accept_alone dq (st !!! hid) = false →
          target_qubits (st' !!! hid) ≠ target_qubits (st !!! hid)))
  ∧ (∀ fuel dq st queue counter dq' st' queue',
       live st queue →
       transform commutes fuel dq st queue counter = Some (Ok (dq', st', queue')) →
       partition dq' = partition dq
       ∧ (∃ pairs, dq' = with_swaps_list dq (swaps_list dq ++ pairs))
       ∧ length st ≤ length st'
       ∧ queue' ≡ₚ queue ++ seq (length st) (length st' - length st)
       ∧ (NoDup queue →
          ∀ p gid, queue' !! p = Some gid → gid < length st →
                   relabelled (inserted_swaps (length st) st' (take p queue'))
                              (st !!! gid) (st' !!! gid))).
Proof.
  split.
  - intros dq st queue counter nr hid dq' st' queue' counter' Hr Hlive.
    pose proof Hr as Hr'. apply reconfigure_exact in Hr'
      as (gts & ts & sw & _ & _ & _ & Hsw & Hnd & -> & -> & -> & _).
    set (qm := foldl (λ m p, <[p.2 := p.1]> (<[p.1 := p.2]> m)) ∅ sw) in *.
    unfold live in Hlive. rewrite Forall_forall in Hlive.
    exists sw. split.
    { eapply Forall_impl; [exact Hsw|]. simpl. intros p (H1 & H2 & _). by split. }
    split; [done|]. split; [done|].
    split; [by rewrite remap_queue_length, length_app, length_fmap|].
    split.
    { intros i p Hi. rewrite remap_queue_lookup_other.
      - rewrite lookup_total_app_r by lia.
        replace (length st + i - length st) with i by lia.
        apply list_lookup_total_correct. by rewrite list_lookup_fmap, Hi.
      - intros Hn. apply Hlive in Hn. lia. }
    split.
    { apply Forall_forall. intros gid Hgid.
      rewrite remap_queue_lookup
        by (rewrite length_app; specialize (Hlive gid Hgid); lia).
      rewrite lookup_total_app_l by by apply Hlive.
      generalize (length (filter (λ x, x = gid) nr)). intros n.
      induction n as [|n IH]; [done|]. simpl. rewrite IH.
      by apply remap_gate_relabel. }
    split.
    { intros Hnd'. apply Forall_forall. intros gid Hgid.
      rewrite remap_queue_lookup_once;
        [|done|done|rewrite length_app; specialize (Hlive gid Hgid); lia].
      rewrite lookup_total_app_l by by apply Hlive.
      by apply remap_gate_relabel. }
    split.
    { intros gid Hgid Hlt. rewrite remap_queue_lookup_other by done.
      by apply lookup_total_app_l. }
    intros Hnd' Hin Hacc Heq.
    assert (hid < length st) as Hhid by (by apply Hlive).
    apply reconfigure_head_ready in Hr; [|done|by apply filter_eq_NoDup].
    rewrite (accept_alone_ext dq _ (st !!! hid)) in Hr; [congruence| |done].
    rewrite remap_queue_lookup_class. by rewrite lookup_total_app_l.
  - intros fuel dq st queue counter dq' st' queue' Hlive Ht.
    assert (partition dq' = partition dq
            ∧ (∃ pairs, dq' = with_swaps_list dq (swaps_list dq ++ pairs))
            ∧ length st ≤ length st'
            ∧ queue' ≡ₚ queue ++ seq (length st) (length st' - length st))
      as (Hpart & Hpairs & Hlen & Hperm).
    { revert Ht. unfold transform.
      destruct (match counter with None => _ | Some c => _ end) as [counter0|e];
        [|discriminate].
      destruct (_transform commutes fuel dq st [] queue counter0)
        as [[[[[dq1 st1] queue1] counter1]|e]|] eqn:Ht; [|discriminate..].
      intros [= <- <- <-].
      pose proof (transform_rec_objects _ _ _ _ _ _ _ _ _ _ _ Ht) as [Hlen Hperm].
      apply transform_rec_spec in Ht as (_ & _ & _ & _ & pairs & ->);
        [|constructor|done|constructor].
      split; [done|]. split; [by exists pairs|].
      rewrite length_app. split; [lia|].
      rewrite Hperm. simpl.
      replace (length st1 + length ((λ p, new_SWAP p.1 p.2) <$>
                 reverse (swaps_list (with_swaps_list dq (swaps_list dq ++ pairs))))
               - length st)
        with ((length st1 - length st)
              + length ((λ p, new_SWAP p.1 p.2) <$>
                  reverse (swaps_list (with_swaps_list dq (swaps_list dq ++ pairs)))))
        by lia.
      rewrite seq_app, <- app_assoc.
      replace (length st + (length st1 - length st)) with (length st1) by lia. done. }
    split; [done|]. split; [done|]. split; [done|]. split; [done|].
    intros Hnd.
    destruct (transform_final commutes _ _ _ _ _ _ _ _ Hnd Hlive Ht)
      as (st1 & queue1 & counter1 & _ & Hinv & -> & -> & _).
    destruct (transform_final_swaps _ _ _ _ _ _ Hinv) as (_ & HF & _).
    destruct Hinv as [_ Hlen1 _ _ Hq _ Hpl]. rewrite Forall_forall in Hq.
    intros p gid Hp Hgid. destruct (decide (p < length queue1)) as [Hlt|Hge].
    + rewrite lookup_app_l in Hp by done. rewrite take_app_le by lia.
      specialize (Hpl p gid Hp). unfold placed in Hpl.
      rewrite decide_False in Hpl by lia. destruct Hpl as [Hrel _].
      rewrite HF by (intros g Hg; by eapply elem_of_take_in).
      destruct (Hq gid) as [Hlt' _]; [by eapply list_elem_of_lookup_2|].
      by rewrite lookup_total_app_l.
    + rewrite lookup_app_r in Hp by lia. apply lookup_seq in Hp as [-> _]. lia.
Qed.

End in_place.

(** One reconfiguration with the global qubit 0 and the deferred gates H(0)
    and CNOT(control 0, target 1): the swap (0, 1) is inserted, H(0) becomes
    H(1), and the controlled gate, under its id 1, has control 1 and
    target 0. After planning H(0); H(1), the object that was H(0) targets
    qubit 1 and the partition is the one before planning. *)
Lemma transform_mutates_in_place_witness :
  _reconfigure (order := cpython_small) (sorter := ties_ascending) partition_2_0
               [H 0; CNOT 0 1] [] [1; 1]%Z [0; 1] 0
  = Ok (with_swaps_list partition_2_0 [(0, 1)], [H 1; CNOT 1 0; new_SWAP 0 1], [2],
        [1; 1]%Z)
  ∧ (∃ sw, Forall (λ gid, [H 1; CNOT 1 0; new_SWAP 0 1] !!! gid
                          = relabel_gate sw ([H 0; CNOT 0 1] !!! gid)) [0; 1]
           ∧ with_swaps_list partition_2_0 [(0, 1)]
             = with_swaps_list partition_2_0
                 (swaps_list partition_2_0 ++ (ordered_pair <$> sw)))
  ∧ control_qubits (CNOT 0 1) = [0] ∧ control_qubits (CNOT 1 0) = [1]
  ∧ transform (order := cpython_small) (sorter := ties_ascending) (λ _ _, true) 3
              partition_2_0 [H 0; H 1] [0; 1] None
    = Some (Ok (with_swaps_list partition_2_0 [(0, 1)],
                [H 1; H 1; new_SWAP 0 1; new_SWAP 0 1], [1; 2; 0; 3]))
  ∧ partition (with_swaps_list partition_2_0 [(0, 1)]) = partition partition_2_0
  ∧ [1; 2; 0; 3] ≡ₚ [0; 1] ++ seq 2 2.
Proof.
  assert (live [H 0; CNOT 0 1] [0; 1]) as Hlive1 by (repeat constructor).
  assert (_reconfigure (order := cpython_small) (sorter := ties_ascending) partition_2_0
            [H 0; CNOT 0 1] [] [1; 1]%Z [0; 1] 0
          = Ok (with_swaps_list partition_2_0 [(0, 1)],
                [H 1; CNOT 1 0; new_SWAP 0 1], [2], [1; 1]%Z)) as Hr
    by (vm_compute; reflexivity).
  assert (live [H 0; H 1] [0; 1]) as Hlive by (repeat constructor).
  assert (transform (order := cpython_small) (sorter := ties_ascending) (λ _ _, true) 3
            partition_2_0 [H 0; H 1] [0; 1] None
          = Some (Ok (with_swaps_list partition_2_0 [(0, 1)],
                      [H 1; H 1; new_SWAP 0 1; new_SWAP 0 1], [1; 2; 0; 3]))) as Heq
    by (vm_compute; reflexivity).
  destruct (proj1 (transform_mutates_in_place (order := cpython_small)
                     (sorter := ties_ascending) (λ _ _, true))
              _ _ _ _ _ _ _ _ _ _ Hr Hlive1)
    as (sw & _ & Hdq & _ & _ & _ & _ & Hall & _).
  destruct (proj2 (transform_mutates_in_place (order := cpython_small)
                     (sorter := ties_ascending) (λ _ _, true))
              _ _ _ _ _ _ _ _ Hlive Heq) as (Hpart & _ & _ & Hperm & _).
  split; [exact Hr|]. split.
  { exists sw. split; [|exact Hdq]. apply Hall. apply (bool_decide_unpack _).
    vm_compute. exact I. }
  split; [reflexivity|]. split; [reflexivity|]. split; [exact Heq|].
  split; [exact Hpart | exact Hperm].
Defined.

